(** * iZ-library: a shallow embedding of the lane sieves and their helpers

    The development follows the C sources of the library:
      - [src/iZ.c]                      lane arithmetic, wheel construction,
                                        [solve_for_x], [solve_for_y];
      - [src/modules/bitmap.c]          the packed bit array;
      - [src/modules/primes_obj.c]      the prime list;
      - [src/sieve/sieve_iZ.c]          [sieve_iZ] and [sieve_iZm];
      - [src/sieve/vx6.c]               the vx6 block sieve and its gap walk;
      - [src/random_prime/random_iZprime.c]  the random prime search.

    Machine integers are integers of [Z] with the wrap-around written out:
    [size_t] and [uint64_t] are reduced modulo [2^64], [int] is the 32-bit
    two's complement range, [uint16_t] keeps the low 16 bits, a byte the low
    8 bits.  All definitions come first, the theorems follow. *)

From Stdlib Require Import ZArith List Lia Bool Znumtheory Sorted.
From stdpp Require Import base list.
Import ListNotations.

Local Open Scope Z_scope.

(* ===================================================================== *)
(** * Part I.  The model                                                  *)
(* ===================================================================== *)

(** ** Machine integers *)

Module MachineInt.

Definition two64 : Z := 2 ^ 64.

(** Value of an expression computed in [uint64_t] / [size_t]. *)
Definition u64 (z : Z) : Z := z mod two64.

(** Value stored in a [uint16_t]. *)
Definition u16 (z : Z) : Z := z mod 2 ^ 16.

(** Value stored in an [unsigned char]. *)
Definition u8 (z : Z) : Z := z mod 2 ^ 8.

(** Conversion to [int]: the low 32 bits read in two's complement. *)
Definition to_int (z : Z) : Z := (z + 2 ^ 31) mod 2 ^ 32 - 2 ^ 31.

End MachineInt.
Export MachineInt.

(** ** Lane arithmetic ([src/iZ.c]) *)

(** The macro [vx6] of [include/utils.h]. *)
Definition vx6 : Z := 5 * 7 * 11 * 13 * 17 * 19.

(** [s_primes] of [iZ.c]: the small primes below 100, from 5 on. *)
Definition s_primes : list Z :=
  [5; 7; 11; 13; 17; 19; 23; 29; 31; 37; 41; 43; 47; 53; 59; 61; 67; 71; 73;
   79; 83; 89; 97].

(** [iZ(x, i)] returns [6 * x + i] in 64-bit unsigned arithmetic.  The C
    function asserts [i = -1 \/ i = 1] and [x > 0]; every caller modelled
    below respects both. *)
Definition iZ (x i : Z) : Z := u64 (6 * x + i).

(** [iZ_gmp]: the same value on arbitrary-precision integers. *)
Definition iZ_gmp (x i : Z) : Z :=
  if 0 <? i then 6 * x + 1 else 6 * x - 1.

(** [normalized_xp(matrix_id, p)]. *)
Definition normalized_xp (matrix_id p : Z) : Z :=
  let x_p := u64 (p + 1) / 6 in
  let p_id := if p mod 6 =? 1 then 1 else -1 in
  if matrix_id <? 0
  then (if p_id <? 0 then x_p else u64 (p - x_p))
  else (if p_id <? 0 then u64 (p - x_p) else x_p).

(** [solve_for_x(matrix_id, p, vx, y)], the fixed-width variant: the product
    and the difference are taken in [uint64_t] before the remainder. *)
Definition solve_for_x (matrix_id p vx y : Z) : Z :=
  let x_p := normalized_xp matrix_id p in
  u64 (p - u64 (u64 (vx * y) - x_p) mod p).

(** [solve_for_x_gmp]: [y] is an [mpz_t]; [mpz_mod_ui] yields the
    non-negative remainder of the exact difference. *)
Definition solve_for_x_gmp (matrix_id p vx y : Z) : Z :=
  let x_p := normalized_xp matrix_id p in
  let tmp := (y * vx - x_p) mod p in
  u64 (p - tmp).

(** One round of the [while (a > 1)] loop of [modular_inverse], on [int]
    values; [a / m] and [a % m] are the truncating C operators. *)
Definition modular_inverse_step (s : Z * Z * Z * Z) : Z * Z * Z * Z :=
  let '(a, m, x0, x1) := s in
  let q := Z.quot a m in
  let t := m in
  let m' := Z.rem a m in
  let a' := t in
  let t' := x0 in
  let x0' := to_int (x1 - to_int (q * x0)) in
  (a', m', x0', t').

(** The loop itself.  [None] is returned when the divisor [m] has become 0
    while [a > 1] (a division by zero in C, reached exactly when
    [gcd(a, m) <> 1]) or when the fuel is spent. *)
Fixpoint modular_inverse_loop (fuel : nat) (s : Z * Z * Z * Z)
  : option (Z * Z * Z * Z) :=
  let '(a, m, x0, x1) := s in
  if a >? 1 then
    match fuel with
    | O => None
    | S fuel' =>
        if m =? 0 then None
        else modular_inverse_loop fuel' (modular_inverse_step s)
    end
  else Some s.

(** [modular_inverse(a, m)].  Euclid's algorithm on 32-bit operands needs
    fewer than 100 rounds. *)
Definition modular_inverse (a m : Z) : option Z :=
  let m0 := m in
  if m =? 1 then Some 0
  else
    match modular_inverse_loop 100 (a, m, 0, 1) with
    | Some (_, _, _, x1) => Some (if x1 <? 0 then to_int (x1 + m0) else x1)
    | None => None
    end.

(** [solve_for_y(matrix_id, p, vx, x)].  [delta] is an [int] initialised
    from a [uint64_t] expression; the product [delta * vx_inv] is an [int]
    converted to [uint64_t] for the final remainder.  [None] stands for the
    division by zero inside [modular_inverse]. *)
Definition solve_for_y (matrix_id p vx x : Z) : option Z :=
  if vx mod p =? 0 then Some (u64 (-1))
  else
    let x_p := normalized_xp matrix_id p in
    if x mod p =? x_p then Some 0
    else
      let delta := to_int (u64 (x_p - x) mod p) in
      let delta := to_int (u64 (u64 delta + (if delta <? 0 then p else 0))) in
      match modular_inverse (to_int vx) (to_int p) with
      | None => None
      | Some vx_inv => Some (u64 (to_int (delta * vx_inv)) mod p)
      end.

(** ** The bit array ([src/modules/bitmap.c]) *)

(** [BITMAP]: the number of bits, the packed bytes (bit [i] lives in byte
    [i / 8] at position [i mod 8]) and the digest, which [malloc] leaves
    indeterminate until [bitmap_compute_hash] runs ([None] here). *)
Record BITMAP : Type := mkBITMAP
  { size : Z;
    data : list Z;
    sha256 : option (list Z) }.

(** [(size + 7) / 8] on [size_t]. *)
Definition byte_size (sz : Z) : Z := u64 (sz + 7) / 8.

(** [bitmap_create]: [NULL] ([None]) for size 0, otherwise [calloc]'ed
    bytes.  Allocation failure is not modelled. *)
Definition bitmap_create (sz : Z) : option BITMAP :=
  if sz =? 0 then None
  else Some {| size := sz;
               data := replicate (Z.to_nat (byte_size sz)) 0;
               sha256 := None |}.

(** Reading and writing [data[k]].  An index past the allocation is
    undefined behaviour in C; the model reads 0 there and drops the write
    (stdpp's list insert does nothing out of range).  The theorems that
    follow state the size under which every index used is in range. *)
Definition get_byte (b : BITMAP) (k : Z) : Z :=
  default 0 (data b !! Z.to_nat k).

Definition set_byte (b : BITMAP) (k v : Z) : BITMAP :=
  {| size := size b;
     data := <[Z.to_nat k := u8 v]> (data b);
     sha256 := sha256 b |}.

(** [bitmap_set_all]: [memset(data, 0xFF, (size + 7) / 8)]. *)
Definition bitmap_set_all (b : BITMAP) : BITMAP :=
  let n := Z.to_nat (byte_size (size b)) in
  {| size := size b;
     data := replicate (min n (length (data b))) 255 ++ drop n (data b);
     sha256 := sha256 b |}.

(** [bitmap_set_bit]: [data[idx / 8] |= (1 << (idx % 8))]. *)
Definition bitmap_set_bit (b : BITMAP) (idx : Z) : BITMAP :=
  set_byte b (idx / 8)
           (Z.lor (get_byte b (idx / 8)) (Z.shiftl 1 (idx mod 8))).

(** [bitmap_get_bit]: [(data[idx / 8] & (1 << (idx % 8))) != 0]. *)
Definition bitmap_get_bit (b : BITMAP) (idx : Z) : bool :=
  negb (Z.land (get_byte b (idx / 8)) (Z.shiftl 1 (idx mod 8)) =? 0).

(** [bitmap_clear_bit]: [data[idx / 8] &= ~(1 << (idx % 8))]. *)
Definition bitmap_clear_bit (b : BITMAP) (idx : Z) : BITMAP :=
  set_byte b (idx / 8)
           (Z.land (get_byte b (idx / 8)) (Z.lnot (Z.shiftl 1 (idx mod 8)))).

(** The loop of [bitmap_clear_mod_p]:
    [for (idx = start_idx; idx <= limit; idx += p)]. *)
Fixpoint clear_mod_p_loop (fuel : nat) (b : BITMAP) (p idx limit : Z)
  : BITMAP :=
  match fuel with
  | O => b
  | S fuel' =>
      if idx <=? limit
      then clear_mod_p_loop fuel' (bitmap_clear_bit b idx) p (u64 (idx + p))
                            limit
      else b
  end.

(** [bitmap_clear_mod_p].  For [p > 0] the loop runs
    [(limit - start_idx) / p + 1] times when [start_idx <= limit] and not
    at all otherwise; that count is the fuel (lemma
    [clear_mod_p_loop_fuel] shows that more fuel changes nothing).  With
    [p = 0] the C loop does not terminate; no caller passes 0. *)
Definition bitmap_clear_mod_p (b : BITMAP) (p start_idx limit : Z) : BITMAP :=
  clear_mod_p_loop (Z.to_nat ((limit - start_idx) / p + 1)) b p start_idx
                   limit.

(** [bitmap_clone]: a fresh bitmap of the same size, then [memcpy] of
    [(size + 7) / 8] bytes. *)
Definition bitmap_clone (b : BITMAP) : option BITMAP :=
  match bitmap_create (size b) with
  | None => None
  | Some c =>
      let n := Z.to_nat (byte_size (size b)) in
      Some {| size := size c;
              data := take n (data b) ++ drop n (data c);
              sha256 := sha256 c |}
  end.

(** The source of [bitmap_copy] is a pointer that may be the destination
    itself ([bitmap_duplicate_segment] passes the same bitmap twice): each
    read then sees the bits written so far. *)
Inductive copy_source : Type :=
| SameBitmap
| OtherBitmap (src : BITMAP).

Definition source_view (dest : BITMAP) (s : copy_source) : BITMAP :=
  match s with
  | SameBitmap => dest
  | OtherBitmap src => src
  end.

(** The loop of [bitmap_copy], [i] running from its current value. *)
Fixpoint bitmap_copy_loop (n : nat) (i : Z) (dest : BITMAP) (dest_idx : Z)
         (s : copy_source) (src_idx : Z) : BITMAP :=
  match n with
  | O => dest
  | S n' =>
      let bit := bitmap_get_bit (source_view dest s) (u64 (src_idx + i)) in
      let dest' :=
        if bit then bitmap_set_bit dest (u64 (dest_idx + i))
        else bitmap_clear_bit dest (u64 (dest_idx + i)) in
      bitmap_copy_loop n' (i + 1) dest' dest_idx s src_idx
  end.

Definition bitmap_copy (dest : BITMAP) (dest_idx : Z) (s : copy_source)
           (src_idx len : Z) : BITMAP :=
  bitmap_copy_loop (Z.to_nat len) 0 dest dest_idx s src_idx.

(** The loop of [bitmap_duplicate_segment]: [y - 1] copies of the segment,
    one after the other. *)
Fixpoint duplicate_loop (n : nat) (b : BITMAP) (cursor start_idx vx_size : Z)
  : BITMAP :=
  match n with
  | O => b
  | S n' =>
      duplicate_loop n' (bitmap_copy b cursor SameBitmap start_idx vx_size)
                     (u64 (cursor + vx_size)) start_idx vx_size
  end.

(** [bitmap_duplicate_segment], with its bounds check. *)
Definition bitmap_duplicate_segment (b : BITMAP) (start_idx vx_size y : Z)
  : BITMAP :=
  let total_length := u64 (vx_size * y) in
  if u64 (start_idx + total_length) >? size b then b
  else duplicate_loop (Z.to_nat (y - 1)) b (u64 (start_idx + vx_size))
                      start_idx vx_size.

(** ** Wheel construction ([src/iZ.c]) *)

(** Body of the loop of [construct_vx2] at index [i]. *)
Definition construct_vx2_step (st : BITMAP * BITMAP) (i : Z)
  : BITMAP * BITMAP :=
  let '(x5, x7) := st in
  let x5 :=
    if negb (u64 (i - 1) mod 5 =? 0) && negb (u64 (i + 1) mod 7 =? 0)
    then bitmap_set_bit x5 i else x5 in
  let x7 :=
    if negb (u64 (i + 1) mod 5 =? 0) && negb (u64 (i - 1) mod 7 =? 0)
    then bitmap_set_bit x7 i else x7 in
  (x5, x7).

(** [construct_vx2]: [for (i = 1; i <= 35; i++)]. *)
Definition construct_vx2 (x5 x7 : BITMAP) : BITMAP * BITMAP :=
  fold_left construct_vx2_step (map Z.of_nat (seq 1 35)) (x5, x7).

(** Body of the [while] loop of [construct_iZm_segment] for the prime [p]:
    duplicate the current pattern [p] times, extend [current_size], clear
    the multiples of [p] on both lanes.  [x] is the [int] [(p + 1) / 6]. *)
Definition iZm_extend (p : Z) (st : Z * BITMAP * BITMAP)
  : Z * BITMAP * BITMAP :=
  let '(current_size, x5, x7) := st in
  let x := to_int (u64 (p + 1) / 6) in
  let x5 := bitmap_duplicate_segment x5 1 current_size p in
  let x7 := bitmap_duplicate_segment x7 1 current_size p in
  let current_size := u64 (current_size * p) in
  if p mod 6 >? 1 then
    (current_size,
     bitmap_clear_mod_p x5 p (u64 x) (u64 (current_size + 1)),
     bitmap_clear_mod_p x7 p (u64 (u64 (p * x) - x)) (u64 (current_size + 1)))
  else
    (current_size,
     bitmap_clear_mod_p x5 p (u64 (u64 (p * x) - x)) (u64 (current_size + 1)),
     bitmap_clear_mod_p x7 p (u64 x) (u64 (current_size + 1))).

(** [while (vx % s_primes[idx] == 0)], [ps] being the primes from [idx]
    on.  Running off the end of [s_primes] is an out-of-bounds read in C;
    the model stops there. *)
Fixpoint iZm_loop (vx : Z) (ps : list Z) (st : Z * BITMAP * BITMAP)
  : Z * BITMAP * BITMAP :=
  match ps with
  | [] => st
  | p :: ps' =>
      if vx mod p =? 0 then iZm_loop vx ps' (iZm_extend p st) else st
  end.

(** [construct_iZm_segment(vx, x5, x7)]. *)
Definition construct_iZm_segment (vx : Z) (x5 x7 : BITMAP)
  : BITMAP * BITMAP :=
  let '(x5, x7) := construct_vx2 x5 x7 in
  let '(_, x5, x7) := iZm_loop vx (drop 2 s_primes) (35, x5, x7) in
  (x5, x7).

(** The lane assignment as the specification words it, used only to compare
    with [iZm_extend]: for [p] in iZ+ ([p mod 6 = 1]) clear x5 from [x_p]
    and x7 from [p * x_p - x_p], for [p] in iZ- the reverse. *)
Definition iZm_extend_as_specified (p : Z) (st : Z * BITMAP * BITMAP)
  : Z * BITMAP * BITMAP :=
  let '(current_size, x5, x7) := st in
  let x_p := (p + 1) / 6 in
  let x5 := bitmap_duplicate_segment x5 1 current_size p in
  let x7 := bitmap_duplicate_segment x7 1 current_size p in
  let current_size := current_size * p in
  if p mod 6 =? 1 then
    (current_size,
     bitmap_clear_mod_p x5 p x_p (current_size + 1),
     bitmap_clear_mod_p x7 p (p * x_p - x_p) (current_size + 1))
  else
    (current_size,
     bitmap_clear_mod_p x5 p (p * x_p - x_p) (current_size + 1),
     bitmap_clear_mod_p x7 p x_p (current_size + 1)).

(** The primorial of the first [k] small primes, and what the wheel is
    meant to record: [6 * x - 1] (lane 5) or [6 * x + 1] (lane 7) has no
    divisor among the primes [ps]. *)
Definition primorial (k : nat) : Z := fold_right Z.mul 1 (take k s_primes).

Definition lane5_open (ps : list Z) (x : Z) : bool :=
  forallb (fun q => negb ((6 * x - 1) mod q =? 0)) ps.

Definition lane7_open (ps : list Z) (x : Z) : bool :=
  forallb (fun q => negb ((6 * x + 1) mod q =? 0)) ps.

(** ** Vocabulary of the statements about bitmaps and the wheel *)

(** The bit index [i] lies inside the allocated bytes of [b]. *)
Definition in_range (b : BITMAP) (i : Z) : Prop :=
  0 <= i < 8 * Z.of_nat (length (data b)).

(** The allocation covers [size] bits, and [size] is a [size_t]. *)
Definition well_sized (b : BITMAP) : Prop :=
  size b <= 8 * Z.of_nat (length (data b)) /\ size b < two64.

(** [j] is one of [start], [start + p], [start + 2p], ... up to [limit]. *)
Definition on_stride (p start limit j : Z) : bool :=
  (start <=? j) && (j <=? limit) && ((j - start) mod p =? 0).

(** The integers [lo], [lo + 1], ..., [lo + n - 1]. *)
Definition Zrange (lo : Z) (n : nat) : list Z :=
  map (fun k => lo + Z.of_nat k) (seq 0 n).

(** The two tests of [construct_vx2_step]. *)
Definition vx2_cond5 (i : Z) : bool :=
  negb (u64 (i - 1) mod 5 =? 0) && negb (u64 (i + 1) mod 7 =? 0).

Definition vx2_cond7 (i : Z) : bool :=
  negb (u64 (i + 1) mod 5 =? 0) && negb (u64 (i - 1) mod 7 =? 0).

(** First index cleared on each lane by [iZm_extend] for the prime [p]. *)
Definition lane5_start (p : Z) : Z :=
  let x := to_int (u64 (p + 1) / 6) in
  if p mod 6 >? 1 then u64 x else u64 (u64 (p * x) - x).

Definition lane7_start (p : Z) : Z :=
  let x := to_int (u64 (p + 1) / 6) in
  if p mod 6 >? 1 then u64 (u64 (p * x) - x) else u64 x.

(** What the wheel holds after the first [k] small primes: [current_size]
    is their product, and bit [j] of a lane is set exactly for
    [1 <= j <= current_size] with no divisor among those primes. *)
Definition wheel_state (k : nat) (st : Z * BITMAP * BITMAP) : Prop :=
  let '(cs, x5, x7) := st in
  cs = primorial k /\
  forall j, 0 <= j ->
    bitmap_get_bit x5 j
    = (1 <=? j) && (j <=? cs) && lane5_open (take k s_primes) j /\
    bitmap_get_bit x7 j
    = (1 <=? j) && (j <=? cs) && lane7_open (take k s_primes) j.

(** The arithmetic facts about the [k]-th small prime [p] that one round of
    the loop relies on: [p] is coprime to 6, the earlier primes divide
    [current_size], the two starting indices hit multiples of [p], and every
    multiple of [p] below a starting index already has an earlier prime
    factor.  They are decided by evaluation for each [k]. *)
Definition wheel_step_ok (k : nat) : bool :=
  match s_primes !! k with
  | None => false
  | Some p =>
      let ps := take k s_primes in
      let cs := primorial k in
      let s5 := lane5_start p in
      let s7 := lane7_start p in
      (5 <=? p) && (p <? 100) && (Z.gcd p 6 =? 1) && (0 <? cs) &&
      (cs * p <? 2 ^ 63) &&
      forallb (fun q => (0 <? q) && (cs mod q =? 0)) ps &&
      (0 <=? s5) && (0 <=? s7) &&
      ((6 * s5 - 1) mod p =? 0) && ((6 * s7 + 1) mod p =? 0) &&
      forallb (fun j => implb ((6 * j - 1) mod p =? 0)
                              (negb (lane5_open ps j)))
              (Zrange 1 (Z.to_nat (s5 - 1))) &&
      forallb (fun j => implb ((6 * j + 1) mod p =? 0)
                              (negb (lane7_open ps j)))
              (Zrange 1 (Z.to_nat (s7 - 1)))
  end.

(** The facts about a whole run for [vx = primorial K]: every round before
    [K] is entered and is fine, and the loop stops at the [K]-th prime. *)
Definition wheel_run_ok (K : nat) : bool :=
  forallb (fun k => wheel_step_ok k &&
                    (primorial K mod default 1 (s_primes !! k) =? 0) &&
                    (primorial (S k) <=? primorial K))
          (seq 2 (K - 2)) &&
  negb (primorial K mod default 0 (s_primes !! K) =? 0) &&
  (primorial K <? 2 ^ 63).

(** The wheel as its callers build it: two bitmaps of [vx + slack] bits from
    [bitmap_create], then [construct_iZm_segment] ([sieve_iZm] uses a slack
    of 10, the vx6 cache a slack of 100). *)
Definition fresh_wheel (vx slack : Z) : BITMAP * BITMAP :=
  match bitmap_create (vx + slack), bitmap_create (vx + slack) with
  | Some x5, Some x7 => construct_iZm_segment vx x5 x7
  | _, _ => (mkBITMAP 0 [] None, mkBITMAP 0 [] None)
  end.

(** ** Outcomes of the fallible routines *)

(** What stops a routine before it delivers its result: it returns [NULL]
    or the failure code 0, it dereferences a [NULL] it did not check, it
    reads or writes past the end of a heap block (undefined behaviour in
    C), or an [assert] fails.  [OutOfDraws] and [NotModelled] belong to the
    model: the list of random draws handed to a routine is used up, or the
    routine takes a path that the embedding leaves out (the [fork]/[pipe]
    path of [random_iZprime], a reader going on with a buffer that no
    [fread] filled). *)
Inductive fault : Type :=
| ReturnsNull
| ReturnsZero
| NullDereference
| OutOfBoundsWrite
| OutOfBoundsRead
| AssertionFails
| OutOfDraws
| NotModelled.

Inductive outcome (A : Type) : Type :=
| Done (a : A)
| Stop (f : fault).
Arguments Done {A} a.
Arguments Stop {A} f.

#[global] Instance outcome_ret : MRet outcome := fun A a => Done a.

#[global] Instance outcome_bind : MBind outcome :=
  fun A B f m => match m with Done a => f a | Stop e => Stop e end.

(** An unchecked pointer: [NULL] faults at its first use. *)
Definition deref {A : Type} (o : option A) : outcome A :=
  match o with
  | Some a => Done a
  | None => Stop NullDereference
  end.

(** ** The prime list ([src/modules/primes_obj.c]) *)

(** [PRIMES_OBJ].  [p_array] lists the cells written so far; the cells of
    the [malloc]'ed block beyond them are indeterminate. *)
Record PRIMES_OBJ : Type := mkPRIMES
  { capacity : Z;
    p_count : Z;
    p_array : list Z;
    p_sha256 : list Z }.

(** [primes_obj_init]: [NULL] unless the estimate is positive. *)
Definition primes_obj_init (initial_estimate : Z) : option PRIMES_OBJ :=
  if initial_estimate <=? 0 then None
  else Some {| capacity := initial_estimate;
               p_count := 0;
               p_array := [];
               p_sha256 := replicate 32 0 |}.

(** [primes_obj_append]: [p_array[p_count++] = p], with no bounds check.
    The block holds [capacity] cells, so a write at [p_count >= capacity]
    lands past its end. *)
Definition primes_obj_append (primes : PRIMES_OBJ) (p : Z)
  : outcome PRIMES_OBJ :=
  if p_count primes <? capacity primes then
    let i := Z.to_nat (p_count primes) in
    Done {| capacity := capacity primes;
            p_count := p_count primes + 1;
            p_array := if (i <? length (p_array primes))%nat
                       then <[i := p]> (p_array primes)
                       else p_array primes ++ [p];
            p_sha256 := p_sha256 primes |}
  else Stop OutOfBoundsWrite.

(** [primes_obj_resize_to_p_count]: [realloc] to [p_count] cells.  Failure
    of [realloc] is not modelled. *)
Definition primes_obj_resize_to_p_count (primes : PRIMES_OBJ) : PRIMES_OBJ :=
  {| capacity := p_count primes;
     p_count := p_count primes;
     p_array := take (Z.to_nat (p_count primes)) (p_array primes);
     p_sha256 := p_sha256 primes |}.

(** [p_array[i]], a read. *)
Definition primes_obj_get (primes : PRIMES_OBJ) (i : Z) : outcome Z :=
  if (0 <=? i) && (i <? capacity primes) then
    match p_array primes !! Z.to_nat i with
    | Some p => Done p
    | None => Stop OutOfBoundsRead
    end
  else Stop OutOfBoundsRead.

(** The primes a finished sieve hands back. *)
Definition primes_of (primes : PRIMES_OBJ) : list Z :=
  take (Z.to_nat (p_count primes)) (p_array primes).

(** ** [sieve_iZ] ([src/sieve/sieve_iZ.c]) *)

(** The state threaded through the sieving loops. *)
Definition sieve_state : Type := PRIMES_OBJ * BITMAP * BITMAP.

(** What the loop does for a set bit at [x]: append [z = iZ(x, i)] and, for
    a root prime, clear its multiples on both lanes up to [limit].  On lane
    [i = -1] the starts are [z*x + x] (x5) and [z*x - x] (x7); on lane
    [i = +1] they are swapped. *)
Definition sieve_mark (i : Z) (is_root : Z -> bool) (limit x : Z)
           (st : sieve_state) : outcome sieve_state :=
  let '(primes, x5, x7) := st in
  let z := iZ x i in
  primes ← primes_obj_append primes z;
  if is_root z then
    let up := u64 (u64 (z * x) + x) in
    let down := u64 (u64 (z * x) - x) in
    if i <? 0 then
      mret (primes, bitmap_clear_mod_p x5 z up limit,
                    bitmap_clear_mod_p x7 z down limit)
    else
      mret (primes, bitmap_clear_mod_p x5 z down limit,
                    bitmap_clear_mod_p x7 z up limit)
  else mret (primes, x5, x7).

(** Body of the main loop at [x]: the x5 test, then the x7 test. *)
Definition sieve_visit (is_root : Z -> bool) (limit : Z)
           (acc : outcome sieve_state) (x : Z) : outcome sieve_state :=
  st ← acc;
  st ← (if bitmap_get_bit (snd (fst st)) x
        then sieve_mark (-1) is_root limit x st else mret st);
  if bitmap_get_bit (snd st) x
  then sieve_mark 1 is_root limit x st else mret st.

(** [sieve_iZ(n)].  The capacity handed to [primes_obj_init] is
    [pi_n(n) * 1.5], computed in double precision from [n / log(n)]; the
    model takes it as the parameter [initial_estimate].  [n_sqrt] is
    [sqrt(n) + 1] truncated, which is [Z.sqrt n + 1] for [n < 2^52]. *)
Definition sieve_iZ (initial_estimate n : Z) : outcome PRIMES_OBJ :=
  match primes_obj_init initial_estimate with
  | None => Stop ReturnsNull
  | Some primes =>
      primes ← primes_obj_append primes 2;
      primes ← primes_obj_append primes 3;
      let x_n := u64 (u64 (n + 1) / 6 + 1) in
      x5 ← deref (bitmap_create (u64 (x_n + 1)));
      x7 ← deref (bitmap_create (u64 (x_n + 1)));
      let x5 := bitmap_set_all x5 in
      let x7 := bitmap_set_all x7 in
      let n_sqrt := u64 (Z.sqrt n + 1) in
      '(primes, _, _) ←
        fold_left (sieve_visit (fun z => z <? n_sqrt) x_n)
                  (Zrange 1 (Z.to_nat (x_n - 1)))
                  (mret (primes, x5, x7));
      last ← primes_obj_get primes (p_count primes - 1);
      let primes :=
        if last >? n
        then {| capacity := capacity primes; p_count := p_count primes - 1;
                p_array := p_array primes; p_sha256 := p_sha256 primes |}
        else primes in
      mret (primes_obj_resize_to_p_count primes)
  end.

(** ** [sieve_iZm] *)

(** [compute_limited_vx]: the loop
    [while (vx * s_primes[i] < x_n / 2 && i < vx_limit)], [ps] being
    [s_primes] from index [i] on. *)
Fixpoint compute_limited_vx_loop (ps : list Z) (x_n vx_limit vx i : Z) : Z :=
  match ps with
  | [] => vx
  | p :: ps' =>
      if (u64 (vx * p) <? x_n / 2) && (i <? vx_limit)
      then compute_limited_vx_loop ps' x_n vx_limit (u64 (vx * p)) (i + 1)
      else vx
  end.

Definition compute_limited_vx (x_n vx_limit : Z) : Z :=
  compute_limited_vx_loop (drop 2 s_primes) x_n vx_limit 35 2.

(** The local table [s_primes] of [sieve_iZm]. *)
Definition iZm_s_primes : list Z :=
  [5; 7; 11; 13; 17; 19; 23; 29; 31; 37; 41; 43; 47].

(** "Add pre-sieved primes to primes array": the first [vx_limit] entries
    of the table, up to the first that does not divide [vx]. *)
Fixpoint add_presieved (ps : list Z) (vx : Z) (primes : PRIMES_OBJ)
         (start_i : Z) : outcome (PRIMES_OBJ * Z) :=
  match ps with
  | [] => mret (primes, start_i)
  | p :: ps' =>
      if vx mod p =? 0 then
        primes ← primes_obj_append primes p;
        add_presieved ps' vx primes (start_i + 1)
      else mret (primes, start_i)
  end.

(** "Mark composites of the rest of root primes in current segment": the
    loop over [p_array[start_i ..]], [ps] being those entries. *)
Fixpoint mark_segment (ps : list Z) (vx y limit : Z) (tmp5 tmp7 : BITMAP)
  : BITMAP * BITMAP :=
  match ps with
  | [] => (tmp5, tmp7)
  | p :: ps' =>
      if u64 (p * p) / 6 >? u64 (u64 (y * vx) + limit) then (tmp5, tmp7)
      else
        let xp5 := solve_for_x (-1) p vx y in
        let xp7 := solve_for_x 1 p vx y in
        mark_segment ps' vx y limit
                     (bitmap_clear_mod_p tmp5 p xp5 limit)
                     (bitmap_clear_mod_p tmp7 p xp7 limit)
  end.

(** "Collect unmarked x values as primes" at [x] of segment [y]. *)
Definition collect_visit (tmp5 tmp7 : BITMAP) (yvx : Z)
           (acc : outcome PRIMES_OBJ) (x : Z) : outcome PRIMES_OBJ :=
  primes ← acc;
  primes ← (if bitmap_get_bit tmp5 x
            then primes_obj_append primes (iZ (u64 (x + yvx)) (-1))
            else mret primes);
  if bitmap_get_bit tmp7 x
  then primes_obj_append primes (iZ (u64 (x + yvx)) 1)
  else mret primes.

(** One segment [y >= 1]. *)
Definition sieve_segment (x5 x7 : BITMAP) (x_n vx max_y start_i : Z)
           (acc : outcome PRIMES_OBJ) (y : Z) : outcome PRIMES_OBJ :=
  primes ← acc;
  tmp5 ← deref (bitmap_clone x5);
  tmp7 ← deref (bitmap_clone x7);
  let limit := if y =? max_y then x_n mod vx else vx in
  let roots := drop (Z.to_nat start_i) (primes_of primes) in
  let '(tmp5, tmp7) := mark_segment roots vx y limit tmp5 tmp7 in
  let yvx := u64 (y * vx) in
  fold_left (collect_visit tmp5 tmp7 yvx) (Zrange 1 (Z.to_nat limit))
            (mret primes).

(** [while (primes->p_array[primes->p_count - 1] > n) primes->p_count--]. *)
Fixpoint drop_above (fuel : nat) (n : Z) (primes : PRIMES_OBJ)
  : outcome PRIMES_OBJ :=
  match fuel with
  | O => Stop OutOfBoundsRead
  | S fuel' =>
      last ← primes_obj_get primes (p_count primes - 1);
      if last >? n
      then drop_above fuel' n
             {| capacity := capacity primes; p_count := p_count primes - 1;
                p_array := p_array primes; p_sha256 := p_sha256 primes |}
      else mret primes
  end.

(** [sieve_iZm(n)], with the capacity as a parameter as for [sieve_iZ].  In
    segment 0 a prime [p] found at [x] clears up to [vx] when
    [(p * p) / 6 < vx]. *)
Definition sieve_iZm (initial_estimate n : Z) : outcome PRIMES_OBJ :=
  let x_n := u64 (u64 (n + 1) / 6 + 1) in
  match primes_obj_init initial_estimate with
  | None => Stop ReturnsNull
  | Some primes =>
      primes ← primes_obj_append primes 2;
      primes ← primes_obj_append primes 3;
      let vx_limit := 6 in
      let vx := compute_limited_vx x_n vx_limit in
      '(primes, start_i) ←
        add_presieved (take (Z.to_nat vx_limit) iZm_s_primes) vx primes 2;
      x5 ← deref (bitmap_create (u64 (vx + 10)));
      x7 ← deref (bitmap_create (u64 (vx + 10)));
      let '(x5, x7) := construct_iZm_segment vx x5 x7 in
      tmp5 ← deref (bitmap_clone x5);
      tmp7 ← deref (bitmap_clone x7);
      '(primes, _, _) ←
        fold_left (sieve_visit (fun p => u64 (p * p) / 6 <? vx) vx)
                  (Zrange 2 (Z.to_nat (vx - 1)))
                  (mret (primes, tmp5, tmp7));
      let max_y := to_int (x_n / vx) in
      primes ←
        fold_left (sieve_segment x5 x7 x_n vx max_y start_i)
                  (Zrange 1 (Z.to_nat max_y))
                  (mret primes);
      primes ← drop_above (S (Z.to_nat (p_count primes))) n primes;
      mret (primes_obj_resize_to_p_count primes)
  end.

(** The reference the repository's tests compare the sieves with: the
    numbers of [2 .. n] without a divisor [d] with [1 < d] and [d * d <= m], in
    ascending order. *)
Definition is_prime_trial (m : Z) : bool :=
  (1 <? m) &&
  forallb (fun d => negb (m mod d =? 0))
          (Zrange 2 (Z.to_nat (Z.sqrt m - 1))).

Definition primes_upto (n : Z) : list Z :=
  List.filter is_prime_trial (Zrange 2 (Z.to_nat (n - 1))).

(** ** [random_iZprime] ([src/random_prime/random_iZprime.c]) *)

(** [mpz_sizeinbase(z, 2)]: the number of binary digits, 1 for zero. *)
Definition bit_length (z : Z) : Z :=
  if z =? 0 then 1 else Z.log2 (Z.abs z) + 1.

(** The [while] loop of [gmp_compute_max_vx]: [ps] are the cached primes
    after index [i], [last] is [p_array[i]]. *)
Fixpoint max_vx_loop (ps : list Z) (bit_size vx last : Z) : outcome (Z * Z) :=
  if bit_length vx <? u64 bit_size then
    match ps with
    | [] => Stop OutOfBoundsRead
    | p :: ps' => max_vx_loop ps' bit_size (vx * p) p
    end
  else mret (vx, last).

(** [gmp_compute_max_vx(vx, bit_size)].  [cached] is the array of the
    process-wide [cached_p_obj], the primes [sieve_iZ(vx6)] returned. *)
Definition gmp_compute_max_vx (cached : list Z) (bit_size : Z) : outcome Z :=
  match drop 2 cached with
  | [] => Stop OutOfBoundsRead
  | p2 :: ps =>
      '(vx, last) ← max_vx_loop ps bit_size p2 p2;
      mret (vx / last)
  end.

(** "find next x co-prime with vx": at most 9999 steps of 6. *)
Fixpoint coprime_walk (n : nat) (vx p : Z) : Z :=
  match n with
  | O => p
  | S n' =>
      let p := p + 6 in
      if Z.gcd vx p =? 1 then p else coprime_walk n' vx p
  end.

(** [set_random_base(p, matrix_id, vx)]; [r] is the value drawn by
    [mpz_urandomm(tmp, state, vx)], a number of [0 .. vx - 1].  [iZ_gmp]
    asserts [r > 0]. *)
Definition set_random_base (r matrix_id vx : Z) : outcome Z :=
  if 0 <? r then
    let p := iZ_gmp r matrix_id in
    let p := coprime_walk (Z.to_nat 9999) vx p in
    mret (p + vx)
  else Stop AssertionFails.

(** The [for] loop of [search_p_in_iZm]: add [vx], test, at most
    [attempts_limit] times.  [None] when no candidate passed. *)
Fixpoint search_attempts (probab_prime : Z -> Z -> bool) (n : nat)
         (tmp vx rounds : Z) : option Z :=
  match n with
  | O => None
  | S n' =>
      let tmp := tmp + vx in
      if probab_prime tmp rounds then Some tmp
      else search_attempts probab_prime n' tmp vx rounds
  end.

(** [search_p_in_iZm].  [probab_prime] stands for [mpz_probab_prime_p] (a
    non-zero answer is [true]); [draws] are the successive random values,
    one for each call of [set_random_base] (a search that finds nothing
    calls itself and draws again). *)
Fixpoint search_p_in_iZm (probab_prime : Z -> Z -> bool) (draws : list Z)
         (matrix_id vx rounds : Z) : outcome Z :=
  match draws with
  | [] => Stop OutOfDraws
  | r :: draws' =>
      tmp ← set_random_base r matrix_id vx;
      match search_attempts probab_prime (Z.to_nat 1000000) tmp vx rounds with
      | Some p => mret p
      | None => search_p_in_iZm probab_prime draws' matrix_id vx rounds
      end
  end.

(** [random_iZprime], its single-worker path ([cores_num < 2]). *)
Definition random_iZprime (probab_prime : Z -> Z -> bool)
           (cached draws : list Z)
           (p_id bit_size primality_check_rounds cores_num : Z) : outcome Z :=
  vx ← gmp_compute_max_vx cached bit_size;
  if cores_num <? 2
  then search_p_in_iZm probab_prime draws p_id vx primality_check_rounds
  else Stop NotModelled.

(** A primality test that is exact, as [mpz_probab_prime_p] is on small
    operands, whatever the number of rounds. *)
Definition exact_prime_test (z rounds : Z) : bool := is_prime_trial z.

(** ** The vx6 block ([include/vx6.h], [src/sieve/vx6.c]) *)

(** [VX_OBJ].  [vx_y] holds the bytes of the C string [y] without its
    terminating NUL; [vx_p_gaps] lists the [uint16_t] cells written so far;
    [vx_pad] stands for the four bytes of padding that follow the [int]
    [p_count] in the struct ([vx6_write_file] writes [sizeof(size_t)] bytes
    from the address of [p_count]); [vx_sha256] holds the 32 bytes of the
    digest field, whatever they are before a hash is computed. *)
Record VX_OBJ : Type := mkVX
  { vx_vx : Z;
    vx_y : list Z;
    vx_p_count : Z;
    vx_pad : list Z;
    vx_x5 : option BITMAP;
    vx_x7 : option BITMAP;
    vx_p_gaps : list Z;
    vx_sha256 : list Z }.

(** Cells of the block [malloc(vx6 / 2 * P_GAPS_SIZE)]. *)
Definition p_gaps_capacity : Z := vx6 / 2.

(** [is_numeric_str]: a non-empty string of decimal digits. *)
Definition is_numeric_str (s : list Z) : bool :=
  negb (length s =? 0)%nat && forallb (fun c => (48 <=? c) && (c <=? 57)) s.

(** [mpz_set_str(y, s, 10)] on a numeric string. *)
Definition decimal_value (s : list Z) : Z :=
  fold_left (fun acc c => 10 * acc + (c - 48)) s 0.

(** [vx6_init(y)]; [pad] and [junk] are whatever the fresh struct holds
    in its padding and in its digest field.  The bitmap pointers are not
    initialised ([None]). *)
Definition vx6_init (pad junk y : list Z) : option VX_OBJ :=
  if is_numeric_str y then
    Some {| vx_vx := vx6; vx_y := y; vx_p_count := 0; vx_pad := pad;
            vx_x5 := None; vx_x7 := None; vx_p_gaps := [];
            vx_sha256 := junk |}
  else None.

(** The state of the gap walk: the two bitmaps, the gap cells and their
    count, and the running [int gap]. *)
Record walk_state : Type := mkWalk
  { w_x5 : BITMAP;
    w_x7 : BITMAP;
    w_p_gaps : list Z;
    w_p_count : Z;
    w_gap : Z }.

(** [vx_obj->p_gaps[vx_obj->p_count++] = gap; gap = 0]: the cell is a
    [uint16_t], the block has [p_gaps_capacity] cells. *)
Definition record_gap (st : walk_state) : outcome walk_state :=
  if (0 <=? w_p_count st) && (w_p_count st <? p_gaps_capacity) then
    let i := Z.to_nat (w_p_count st) in
    mret {| w_x5 := w_x5 st; w_x7 := w_x7 st;
            w_p_gaps := if (i <? length (w_p_gaps st))%nat
                        then <[i := u16 (w_gap st)]> (w_p_gaps st)
                        else w_p_gaps st ++ [u16 (w_gap st)];
            w_p_count := to_int (w_p_count st + 1);
            w_gap := 0 |}
  else Stop OutOfBoundsWrite.

(** One of the two tests at [x]: on a set bit, either the candidate
    [iZ(x + vx6 * y, lane)] counts as prime (always when the small primes
    reached the square root, otherwise when [mpz_probab_prime_p] says so)
    and the gap is recorded and reset, or the bit is cleared. *)
Definition walk_lane (probab_prime : Z -> Z -> bool) (is_large_limit : bool)
           (rounds yvx lane x : Z) (st : walk_state) : outcome walk_state :=
  let bm := if lane <? 0 then w_x5 st else w_x7 st in
  if bitmap_get_bit bm x then
    let is_prime :=
      if is_large_limit then probab_prime (iZ_gmp (yvx + x) lane) rounds
      else true in
    if is_prime then record_gap st
    else if lane <? 0 then
      mret {| w_x5 := bitmap_clear_bit (w_x5 st) x; w_x7 := w_x7 st;
              w_p_gaps := w_p_gaps st; w_p_count := w_p_count st;
              w_gap := w_gap st |}
    else
      mret {| w_x5 := w_x5 st; w_x7 := bitmap_clear_bit (w_x7 st) x;
              w_p_gaps := w_p_gaps st; w_p_count := w_p_count st;
              w_gap := w_gap st |}
  else mret st.

(** [gap += k] on the [int] counter. *)
Definition add_gap (k : Z) (st : walk_state) : walk_state :=
  {| w_x5 := w_x5 st; w_x7 := w_x7 st; w_p_gaps := w_p_gaps st;
     w_p_count := w_p_count st; w_gap := to_int (w_gap st + k) |}.

(** Body of [for (int x = 4; x <= vx6; x++)]. *)
Definition walk_visit (probab_prime : Z -> Z -> bool) (is_large_limit : bool)
           (rounds yvx : Z) (acc : outcome walk_state) (x : Z)
  : outcome walk_state :=
  st ← acc;
  st ← walk_lane probab_prime is_large_limit rounds yvx (-1) x (add_gap 4 st);
  walk_lane probab_prime is_large_limit rounds yvx 1 x (add_gap 2 st).

(** The gap walk of [vx6_sieve] (from [int gap = 18] to the end of the
    loop), on the bitmaps and cells of [v]. *)
Definition vx6_walk (probab_prime : Z -> Z -> bool) (is_large_limit : bool)
           (rounds yvx : Z) (v : VX_OBJ) : outcome VX_OBJ :=
  x5 ← deref (vx_x5 v);
  x7 ← deref (vx_x7 v);
  st ← fold_left (walk_visit probab_prime is_large_limit rounds yvx)
                 (Zrange 4 (Z.to_nat (vx6 - 3)))
                 (mret {| w_x5 := x5; w_x7 := x7;
                          w_p_gaps := vx_p_gaps v;
                          w_p_count := vx_p_count v;
                          w_gap := 18 |});
  mret {| vx_vx := vx_vx v; vx_y := vx_y v; vx_p_count := w_p_count st;
          vx_pad := vx_pad v; vx_x5 := Some (w_x5 st);
          vx_x7 := Some (w_x7 st); vx_p_gaps := w_p_gaps st;
          vx_sha256 := vx_sha256 v |}.

(** "mark composites of cached primes skipping start_i": [ps] are the
    cached primes from index 8 on.  The flag returned is [is_large_limit]:
    it stays set when no cached prime exceeds [upper_limit]. *)
Fixpoint vx6_mark (ps : list Z) (upper_limit y : Z) (x5 x7 : BITMAP)
  : BITMAP * BITMAP * bool :=
  match ps with
  | [] => (x5, x7, true)
  | p :: ps' =>
      if p >? upper_limit then (x5, x7, false)
      else
        let int_p := to_int p in
        let xp5 := to_int (solve_for_x_gmp (-1) (u64 int_p) vx6 y) in
        let x5 := bitmap_clear_mod_p x5 (u64 int_p) (u64 xp5) vx6 in
        let xp7 := to_int (solve_for_x_gmp 1 (u64 int_p) vx6 y) in
        let x7 := bitmap_clear_mod_p x7 (u64 int_p) (u64 xp7) vx6 in
        vx6_mark ps' upper_limit y x5 x7
  end.

(** [vx6_sieve(vx_obj, p_test_rounds, NULL)].  [cached_primes] and the pair
    [cached_x5], [cached_x7] are the process-wide caches ([sieve_iZ(vx6)]
    and [construct_iZm_segment(vx6, ...)] on bitmaps of [vx6 + 100] bits). *)
Definition vx6_sieve (probab_prime : Z -> Z -> bool) (cached_primes : list Z)
           (cached_x5 cached_x7 : BITMAP) (v : VX_OBJ) (p_test_rounds : Z)
  : outcome VX_OBJ :=
  x5 ← deref (bitmap_clone cached_x5);
  x7 ← deref (bitmap_clone cached_x7);
  let y := decimal_value (vx_y v) in
  let yvx := y * vx6 in
  let upper_limit := Z.sqrt (iZ_gmp (yvx + vx6) 1) in
  let '(x5, x7, is_large_limit) :=
    vx6_mark (drop 8 cached_primes) upper_limit y x5 x7 in
  let rounds := if p_test_rounds =? 0 then 25 else p_test_rounds in
  vx6_walk probab_prime is_large_limit rounds yvx
           {| vx_vx := vx_vx v; vx_y := vx_y v; vx_p_count := vx_p_count v;
              vx_pad := vx_pad v; vx_x5 := Some x5; vx_x7 := Some x7;
              vx_p_gaps := vx_p_gaps v; vx_sha256 := vx_sha256 v |}.

(** *** Vocabulary for the gap walk *)

(** Whether the candidate at [(x, lane)] counts as prime. *)
Definition accepted (probab_prime : Z -> Z -> bool) (is_large_limit : bool)
           (rounds yvx lane x : Z) : bool :=
  if is_large_limit then probab_prime (iZ_gmp (yvx + x) lane) rounds
  else true.

(** The surviving candidates at [x], iZ- before iZ+. *)
Definition survivors_at (probab_prime : Z -> Z -> bool)
           (is_large_limit : bool) (rounds yvx : Z) (x5 x7 : BITMAP) (x : Z)
  : list Z :=
  (if bitmap_get_bit x5 x &&
      accepted probab_prime is_large_limit rounds yvx (-1) x
   then [iZ_gmp (yvx + x) (-1)] else []) ++
  (if bitmap_get_bit x7 x &&
      accepted probab_prime is_large_limit rounds yvx 1 x
   then [iZ_gmp (yvx + x) 1] else []).

(** The surviving candidates of the block, in the order the walk meets
    them. *)
Definition survivors (probab_prime : Z -> Z -> bool) (is_large_limit : bool)
           (rounds yvx : Z) (x5 x7 : BITMAP) : list Z :=
  flat_map (survivors_at probab_prime is_large_limit rounds yvx x5 x7)
           (Zrange 4 (Z.to_nat (vx6 - 3))).

(** Differences of consecutive values, starting from [prev]. *)
Fixpoint gaps_from (prev : Z) (l : list Z) : list Z :=
  match l with
  | [] => []
  | c :: l' => (c - prev) :: gaps_from c l'
  end.

Definition Zsum (l : list Z) : Z := fold_right Z.add 0 l.

(** A block whose x5 bitmap has the single bit [a] set and whose x7 bitmap
    is empty, both of [vx6 + 100] bits as [vx6_sieve] clones them. *)
Definition block_with_x5_bit (a : Z) : option VX_OBJ :=
  match vx6_init [0; 0; 0; 0] (replicate 32 0) [48],
        bitmap_create (vx6 + 100), bitmap_create (vx6 + 100) with
  | Some v, Some b5, Some b7 =>
      Some {| vx_vx := vx_vx v; vx_y := vx_y v; vx_p_count := vx_p_count v;
              vx_pad := vx_pad v; vx_x5 := Some (bitmap_set_bit b5 a);
              vx_x7 := Some b7; vx_p_gaps := vx_p_gaps v;
              vx_sha256 := vx_sha256 v |}
  | _, _, _ => None
  end.

(** ** Files ([bitmap_write_file], [primes_obj_write_file],
       [vx6_write_file] and their readers) *)

(** A file is the list of its bytes.  Integers are written as they lie in
    memory, least significant byte first; [size_t] takes 8 bytes, [int] 4,
    [uint16_t] 2. *)
Fixpoint le_bytes (n : nat) (z : Z) : list Z :=
  match n with
  | O => []
  | S n' => z mod 256 :: le_bytes n' (z / 256)
  end.

Fixpoint le_value (bytes : list Z) : Z :=
  match bytes with
  | [] => 0
  | b :: bytes' => b + 256 * le_value bytes'
  end.

(** [count] integers of [width] bytes each. *)
Fixpoint le_words (width count : nat) (bytes : list Z) : list Z :=
  match count with
  | O => []
  | S count' =>
      le_value (take width bytes) :: le_words width count' (drop width bytes)
  end.

(** [fread] of [n] bytes: the bytes and the rest of the stream, or nothing
    when the stream is too short. *)
Definition fread (n : nat) (stream : list Z) : option (list Z * list Z) :=
  if (length stream <? n)%nat then None
  else Some (take n stream, drop n stream).

(** [fread] where the caller does not look at its result: the stream
    hands over the bytes it still holds, at most [n]. *)
Definition fread_unchecked (n : nat) (stream : list Z) : list Z * list Z :=
  (take n stream, drop n stream).

(** The bytes of a C string held in a buffer: up to the first NUL. *)
Fixpoint c_string (buffer : list Z) : list Z :=
  match buffer with
  | [] => []
  | c :: buffer' => if c =? 0 then [] else c :: c_string buffer'
  end.

Section Files.

(** [SHA256] of OpenSSL: from a byte string to the 32 bytes of its digest. *)
Variable SHA256 : list Z -> list Z.

(** [bitmap_compute_hash]. *)
Definition bitmap_compute_hash (b : BITMAP) : BITMAP :=
  let n := Z.to_nat (byte_size (size b)) in
  {| size := size b; data := data b;
     sha256 := Some (SHA256 (take n (data b))) |}.

(** [bitmap_write_file]: the bytes written, and the bitmap with its digest
    stored.  Failures of [fopen] and [fwrite] are not modelled. *)
Definition bitmap_write_file (b : BITMAP) : list Z * BITMAP :=
  let n := Z.to_nat (byte_size (size b)) in
  let b' := bitmap_compute_hash b in
  (le_bytes 8 (size b) ++ take n (data b) ++ default [] (sha256 b'), b').

(** [bitmap_read_file]. *)
Definition bitmap_read_file (file : list Z) : outcome BITMAP :=
  match fread 8 file with
  | None => Stop ReturnsNull
  | Some (hd, rest) =>
      let sz := le_value hd in
      match bitmap_create sz with
      | None => Stop ReturnsNull
      | Some b =>
          let n := Z.to_nat (byte_size sz) in
          match fread n rest with
          | None => Stop ReturnsNull
          | Some (bytes, rest) =>
              let b := {| size := size b;
                          data := bytes ++ drop n (data b);
                          sha256 := sha256 b |} in
              match fread 32 rest with
              | None => Stop ReturnsNull
              | Some (stored, _) =>
                  let b := bitmap_compute_hash b in
                  if bool_decide (Some stored = sha256 b) then Done b
                  else Stop ReturnsNull
              end
          end
      end
  end.

(** The bytes of the first [p_count] cells of a prime array. *)
Definition primes_bytes (primes : PRIMES_OBJ) : list Z :=
  flat_map (le_bytes 8) (take (Z.to_nat (p_count primes)) (p_array primes)).

(** [primes_obj_compute_hash]: refuses an empty list and leaves the digest
    as it is. *)
Definition primes_obj_compute_hash (primes : PRIMES_OBJ) : PRIMES_OBJ :=
  if p_count primes =? 0 then primes
  else {| capacity := capacity primes; p_count := p_count primes;
          p_array := p_array primes;
          p_sha256 := SHA256 (primes_bytes primes) |}.

(** [primes_obj_write_file]. *)
Definition primes_obj_write_file (primes : PRIMES_OBJ)
  : list Z * PRIMES_OBJ :=
  let primes := primes_obj_compute_hash primes in
  (le_bytes 4 (p_count primes) ++ primes_bytes primes ++ p_sha256 primes,
   primes).

(** [primes_obj_read_file].  The routine does not look at what its
    [fread]s return.  Where the file ends early, the count keeps what the
    local variable held ([stack_count]), the cells of the fresh array that
    no complete item reached keep what [malloc] handed out ([heap i] for
    cell [i]), and the digest bytes that were not delivered keep the zeros
    of [primes_obj_init]. *)
Definition primes_obj_read_file (stack_count : Z) (heap : nat -> Z)
           (file : list Z) : outcome PRIMES_OBJ :=
  let '(hd, rest) := fread_unchecked 4 file in
  let count := if (length hd =? 4)%nat then to_int (le_value hd)
               else to_int stack_count in
  match primes_obj_init count with
  | None => Stop ReturnsNull
  | Some primes =>
      let k := Z.to_nat count in
      let '(bytes, rest) := fread_unchecked (8 * k) rest in
      let m := (length bytes / 8)%nat in
      let cells := le_words 8 m bytes ++
                   map (fun i => u64 (heap i)) (seq m (k - m)) in
      let '(dg, _) := fread_unchecked 32 rest in
      let digest := dg ++ drop (length dg) (p_sha256 primes) in
      let primes :=
        {| capacity := capacity primes; p_count := count;
           p_array := cells; p_sha256 := digest |} in
      if bool_decide (SHA256 (primes_bytes primes) = digest)
      then Done primes else Stop ReturnsNull
  end.

(** The bytes of the first [p_count] gap cells. *)
Definition gaps_bytes (v : VX_OBJ) : list Z :=
  flat_map (le_bytes 2) (take (Z.to_nat (vx_p_count v)) (vx_p_gaps v)).

(** [vx6_write_file]: length of [y] with its NUL, [y], eight bytes from the
    address of [p_count] (the count and the padding after it), the gaps,
    and the digest of the gaps; [hash_int_array] leaves the digest field
    untouched when there is no gap. *)
Definition vx6_write_file (v : VX_OBJ) : list Z * VX_OBJ :=
  let y_len := u64 (Z.of_nat (length (c_string (vx_y v))) + 1) in
  let digest := if u64 (vx_p_count v * 2) =? 0 then vx_sha256 v
                else SHA256 (gaps_bytes v) in
  (le_bytes 8 y_len ++ (c_string (vx_y v) ++ [0]) ++
   (le_bytes 4 (vx_p_count v) ++ vx_pad v) ++
   gaps_bytes v ++ digest,
   {| vx_vx := vx_vx v; vx_y := vx_y v; vx_p_count := vx_p_count v;
      vx_pad := vx_pad v; vx_x5 := vx_x5 v; vx_x7 := vx_x7 v;
      vx_p_gaps := vx_p_gaps v; vx_sha256 := digest |}).

(** [vx6_read_file] into an object [v] made by [vx6_init], whose gap
    block has [p_gaps_capacity] cells.  The reads of the length and of
    [y] are not checked, but when either comes up short the stream is at
    its end, the checked read of the count fails and the routine returns
    0 all the same.  The count is an [int] compared
    with the [size_t] that [fread] returns; [fread] stores as many gaps
    as the file holds, up to that count.  With no gap [hash_int_array]
    refuses to hash and the stored digest is compared with the local
    buffer [computed_hash] as it stands: [stack] is the 32 bytes it
    holds. *)
Definition vx6_read_file (stack : list Z) (v : VX_OBJ) (file : list Z)
  : outcome VX_OBJ :=
  match fread 8 file with
  | None => Stop ReturnsZero
  | Some (hd, rest) =>
      match fread (Z.to_nat (le_value hd)) rest with
      | None => Stop ReturnsZero
      | Some (ybuf, rest) =>
          match fread 8 rest with
          | None => Stop ReturnsZero
          | Some (cnt, rest) =>
              let count := to_int (le_value (take 4 cnt)) in
              let wanted := u64 count in
              let stored_gaps := Z.min wanted (Z.of_nat (length rest) / 2) in
              if stored_gaps >? p_gaps_capacity then Stop OutOfBoundsWrite
              else
                match fread (2 * Z.to_nat wanted) rest with
                | None => Stop ReturnsZero
                | Some (bytes, rest) =>
                    match fread 32 rest with
                    | None => Stop ReturnsZero
                    | Some (stored, _) =>
                        let v' :=
                          {| vx_vx := vx_vx v; vx_y := c_string ybuf;
                             vx_p_count := count; vx_pad := drop 4 cnt;
                             vx_x5 := vx_x5 v; vx_x7 := vx_x7 v;
                             vx_p_gaps :=
                               le_words 2 (Z.to_nat count) bytes ++
                               drop (Z.to_nat count) (vx_p_gaps v);
                             vx_sha256 := stored |} in
                        let computed_hash :=
                          if u64 (count * 2) =? 0 then stack
                          else SHA256 (gaps_bytes v') in
                        if bool_decide (computed_hash = stored)
                        then Done v' else Stop ReturnsZero
                    end
                end
          end
      end
  end.

End Files.

(** A stand-in for the digest, to evaluate the file routines on examples:
    32 copies of the byte sum. *)
Definition byte_sum_digest (bytes : list Z) : list Z :=
  replicate 32 (fold_right Z.add 0 bytes mod 256).

(** *** Vocabulary of the round trips *)

(** A bitmap as [bitmap_create] lays it out. *)
Definition bitmap_laid_out (b : BITMAP) : Prop :=
  0 < size b < two64 - 7 /\
  length (data b) = Z.to_nat (byte_size (size b)).

(** A prime list with [p_count] cells written, each a [uint64_t]. *)
Definition primes_laid_out (primes : PRIMES_OBJ) : Prop :=
  0 <= p_count primes < 2 ^ 31 /\
  (Z.to_nat (p_count primes) <= length (p_array primes))%nat /\
  List.Forall (fun p => 0 <= p < two64) (p_array primes).

(** A block with [p_count] gap cells written, each a [uint16_t], a numeric
    [y], four bytes of padding and 32 bytes of digest. *)
Definition block_laid_out (v : VX_OBJ) : Prop :=
  0 <= vx_p_count v <= p_gaps_capacity /\
  (Z.to_nat (vx_p_count v) <= length (vx_p_gaps v))%nat /\
  List.Forall (fun g => 0 <= g < 2 ^ 16) (vx_p_gaps v) /\
  is_numeric_str (vx_y v) = true /\
  Z.of_nat (length (vx_y v)) < two64 - 1 /\
  length (vx_pad v) = 4%nat /\
  List.Forall (fun c => 0 <= c < 256) (vx_pad v).

(** The bytes that [vx6_write_file] puts before the digest, for a block
    whose [y] holds no NUL. *)
Definition block_file_body (v : VX_OBJ) : list Z :=
  le_bytes 8 (Z.of_nat (length (vx_y v)) + 1) ++ (vx_y v ++ [0]) ++
  (le_bytes 4 (vx_p_count v) ++ vx_pad v) ++ gaps_bytes v.

(** *** Examples to run the file routines on *)

(** Ten bits, bits 0, 2 and 9 set. *)
Definition example_bitmap : BITMAP :=
  {| size := 10; data := [5; 2]; sha256 := None |}.

(** The primes 5, 7, 11 in a block of four cells. *)
Definition example_primes : PRIMES_OBJ :=
  {| capacity := 4; p_count := 3; p_array := [5; 7; 11];
     p_sha256 := replicate 32 0 |}.

(** The block [y = "12"] with the two gaps 4 and 2, and a fresh block to
    read it into. *)
Definition example_block : VX_OBJ :=
  {| vx_vx := vx6; vx_y := [49; 50]; vx_p_count := 2;
     vx_pad := [0; 0; 0; 0]; vx_x5 := None; vx_x7 := None;
     vx_p_gaps := [4; 2]; vx_sha256 := replicate 32 0 |}.

Definition fresh_block : VX_OBJ :=
  {| vx_vx := vx6; vx_y := [48]; vx_p_count := 0;
     vx_pad := [0; 0; 0; 0]; vx_x5 := None; vx_x7 := None;
     vx_p_gaps := []; vx_sha256 := replicate 32 0 |}.

(** ** More of the bit array ([src/modules/bitmap.c]) *)

(** [bitmap_clear_all]: [memset(data, 0x00, (size + 7) / 8)]. *)
Definition bitmap_clear_all (b : BITMAP) : BITMAP :=
  let n := Z.to_nat (byte_size (size b)) in
  {| size := size b;
     data := replicate (min n (length (data b))) 0 ++ drop n (data b);
     sha256 := sha256 b |}.

(** The loop of [bitmap_from_string] over the characters from position
    [i] on: ['1'] sets bit [i], ['0'] clears it, anything else is logged
    and the bit is left alone. *)
Fixpoint from_string_loop (chars : list Z) (i : Z) (b : BITMAP) : BITMAP :=
  match chars with
  | [] => b
  | c :: chars' =>
      let b' :=
        if c =? 49 then bitmap_set_bit b i
        else if c =? 48 then bitmap_clear_bit b i
        else b in
      from_string_loop chars' (i + 1) b'
  end.

(** [bitmap_from_string(bitmap, str)]: the string is cut at [size]
    characters. *)
Definition bitmap_from_string (b : BITMAP) (str : list Z) : BITMAP :=
  let s := c_string str in
  let len := Z.of_nat (length s) in
  let len := if len >? size b then size b else len in
  from_string_loop (take (Z.to_nat len) s) 0 b.

(** [bitmap_to_string]: one character per bit, ['1'] or ['0']; the
    terminating NUL is left out of the list. *)
Definition bitmap_to_string (b : BITMAP) : list Z :=
  map (fun i => if bitmap_get_bit b i then 49 else 48)
      (Zrange 0 (Z.to_nat (size b))).

(** ** More of the lane arithmetic ([src/iZ.c], [src/utils.c]) *)

(** [normalized_xp_gmp]: the quotient and the difference are exact. *)
Definition normalized_xp_gmp (matrix_id p : Z) : Z :=
  let x_p := (p + 1) / 6 in
  let p_mod_6 := to_int (p mod 6) in
  let p_id := if p_mod_6 =? 1 then 1 else -1 in
  if matrix_id <? 0
  then (if p_id >=? 0 then p - x_p else x_p)
  else (if p_id <? 0 then p - x_p else x_p).

(** [int_pow(base, exp)]: [exp] multiplications in [uint64_t]. *)
Fixpoint int_pow_loop (n : nat) (base result : Z) : Z :=
  match n with
  | O => result
  | S n' => int_pow_loop n' base (u64 (result * base))
  end.

Definition int_pow (base exp : Z) : Z :=
  int_pow_loop (Z.to_nat exp) base 1.

(** ** Vocabulary of the statements about [modular_inverse] *)

(** What the loop of [modular_inverse(a0, m0)] keeps: the pair [(a, m)] stays
    coprime, [x1] and [x0] are the coefficients of [a0] for [a] and [m]
    modulo [m0], they have opposite signs and
    [|x1| * m + |x0| * a = m0]. *)
Definition euclid_inv (a0 m0 : Z) (s : Z * Z * Z * Z) : Prop :=
  let '(a, m, x0, x1) := s in
  1 <= a < 2 ^ 31 /\ 0 <= m < 2 ^ 31 /\ Z.gcd a m = 1 /\
  (m0 | x1 * a0 - a) /\ (m0 | x0 * a0 - m) /\
  - m0 <= x1 <= m0 /\
  ((x0 <= 0 <= x1 /\ x1 * m - x0 * a = m0) \/
   (x1 <= 0 <= x0 /\ x0 * a - x1 * m = m0)).


(** ** [modular_inverse] with the range of [int] watched *)

(** How a run on [int] values ends: with a value, at a division by zero,
    at an arithmetic result outside [[-2^31, 2^31)] (undefined in C), or
    with the fuel of the model spent. *)
Inductive checked (A : Type) : Type :=
| Value (a : A)
| DivisionByZero
| SignedOverflow
| OutOfFuel.

Arguments Value {A} a.
Arguments DivisionByZero {A}.
Arguments SignedOverflow {A}.
Arguments OutOfFuel {A}.

Definition in_int (z : Z) : bool := (- 2 ^ 31 <=? z) && (z <? 2 ^ 31).

(** One round of the loop of [modular_inverse]: [q = a / m], [q * x0] and
    [x1 - q * x0] are computed as [int]s. *)
Definition modular_inverse_step_checked (s : Z * Z * Z * Z)
  : checked (Z * Z * Z * Z) :=
  let '(a, m, x0, x1) := s in
  if m =? 0 then DivisionByZero
  else
    let q := Z.quot a m in
    if in_int q && in_int (q * x0) && in_int (x1 - q * x0)
    then Value (m, Z.rem a m, x1 - q * x0, x0)
    else SignedOverflow.

Fixpoint modular_inverse_loop_checked (fuel : nat) (s : Z * Z * Z * Z)
  : checked (Z * Z * Z * Z) :=
  let '(a, m, x0, x1) := s in
  if a >? 1 then
    match fuel with
    | O => OutOfFuel
    | S fuel' =>
        match modular_inverse_step_checked s with
        | Value s' => modular_inverse_loop_checked fuel' s'
        | DivisionByZero => DivisionByZero
        | SignedOverflow => SignedOverflow
        | OutOfFuel => OutOfFuel
        end
    end
  else Value s.

(** [modular_inverse(a, m)] where nothing wraps: a result that leaves the
    range of [int] ends the run.  The final [x1 += m0] is watched too. *)
Definition modular_inverse_checked (a m : Z) : checked Z :=
  let m0 := m in
  if m =? 1 then Value 0
  else
    match modular_inverse_loop_checked 100 (a, m, 0, 1) with
    | Value (_, _, _, x1) =>
        if x1 <? 0 then
          if in_int (x1 + m0) then Value (x1 + m0) else SignedOverflow
        else Value x1
    | DivisionByZero => DivisionByZero
    | SignedOverflow => SignedOverflow
    | OutOfFuel => OutOfFuel
    end.


(** ** Vocabulary of the statements about [sieve_iZ] *)

(** [c] is a product of two factors above 1. *)
Definition composite (c : Z) : Prop :=
  exists d e, 1 < d /\ 1 < e /\ c = d * e.

(** The largest value the loop of [sieve_iZ(n)] can append: the candidate
    [6x + 1] at the last index [x = (n + 1) / 6], or 3 when there is no
    index to visit. *)
Definition last_candidate (n : Z) : Z := Z.max 3 (6 * ((n + 1) / 6) + 1).

(** The list once every candidate below [F] has been visited: strictly
    ascending, made of numbers below [F] that are prime when they do not
    exceed [n] (only [last_candidate n] can exceed it), and holding every
    prime below [F] that does not exceed [n]. *)
Definition primes_so_far (n F : Z) (L : list Z) : Prop :=
  StronglySorted Z.lt L /\
  (forall p, In p L ->
     2 <= p < F /\ (p <= n -> Z.prime p) /\
     (p <= n \/ p = last_candidate n)) /\
  (forall p, Z.prime p -> p < F -> p <= n -> In p L).

(** The two bitmaps once every candidate below [F] has been visited: a
    cleared bit stands for a composite, and the multiples [q * m],
    [m >= q], of every prime [q] below [F] that is a root prime
    ([q <= sqrt n]) are cleared. *)
Definition lanes_so_far (n F : Z) (x5 x7 : BITMAP) : Prop :=
  let X := (n + 1) / 6 in
  X + 2 <= 8 * Z.of_nat (length (data x5)) /\
  X + 2 <= 8 * Z.of_nat (length (data x7)) /\
  (forall lane j, lane = -1 \/ lane = 1 -> 1 <= j <= X + 1 ->
     bitmap_get_bit (if lane <? 0 then x5 else x7) j = false ->
     composite (6 * j + lane)) /\
  (forall lane j q m, lane = -1 \/ lane = 1 -> 1 <= j <= X + 1 ->
     Z.prime q -> q < F -> q <= Z.sqrt n -> 6 * j + lane = q * m -> q <= m ->
     bitmap_get_bit (if lane <? 0 then x5 else x7) j = false).

(** The state of the main loop of [sieve_iZ(n)] before the candidate
    [F]. *)
Definition sieve_inv (cap n F : Z) (st : sieve_state) : Prop :=
  let '(primes, x5, x7) := st in
  capacity primes = cap /\
  p_count primes = Z.of_nat (length (p_array primes)) /\
  primes_so_far n F (p_array primes) /\
  lanes_so_far n F x5 x7.


(** ** The sieves of Eratosthenes ([src/sieve/sieve.c]) *)

(** The loop of [bitmap_clear_mod_p] with the end of the [calloc]'ed block
    watched: a write to a byte [data[idx / 8]] past the block stops the
    run.  Where every index is inside the block this is
    [clear_mod_p_loop]. *)
Fixpoint clear_mod_p_in_block (fuel : nat) (b : BITMAP) (p idx limit : Z)
  : outcome BITMAP :=
  match fuel with
  | O => Done b
  | S fuel' =>
      if idx <=? limit then
        if idx / 8 <? Z.of_nat (length (data b))
        then clear_mod_p_in_block fuel' (bitmap_clear_bit b idx) p
                                  (u64 (idx + p)) limit
        else Stop OutOfBoundsWrite
      else Done b
  end.

Definition bitmap_clear_mod_p_in_block (b : BITMAP) (p start_idx limit : Z)
  : outcome BITMAP :=
  clear_mod_p_in_block (Z.to_nat ((limit - start_idx) / p + 1)) b p start_idx
                       limit.

(** Body of the main loop of both sieves at [p].  [primes] is the pointer
    that [primes_obj_init] returned, which neither sieve checks.  The
    multiples are cleared from [p * p] to [limit] in steps of [step * p]:
    [step] is 1 in [classic_sieve_eratosthenes] and 2 in
    [sieve_eratosthenes]. *)
Definition eratosthenes_visit (step n_sqrt limit : Z)
           (acc : outcome (option PRIMES_OBJ * BITMAP)) (p : Z)
  : outcome (option PRIMES_OBJ * BITMAP) :=
  '(primes, n_bits) ← acc;
  if bitmap_get_bit n_bits p then
    obj ← deref primes;
    obj ← primes_obj_append obj p;
    if p <=? n_sqrt then
      n_bits ← bitmap_clear_mod_p_in_block n_bits (u64 (step * p))
                                           (u64 (p * p)) limit;
      mret (Some obj, n_bits)
    else mret (Some obj, n_bits)
  else mret (primes, n_bits).

(** "Resize primes array to fit the exact number of primes found":
    [primes_obj_resize_to_p_count] fails on [NULL], and the sieve then
    returns [NULL]. *)
Definition resize_or_null (primes : option PRIMES_OBJ) : outcome PRIMES_OBJ :=
  match primes with
  | None => Stop ReturnsNull
  | Some obj => mret (primes_obj_resize_to_p_count obj)
  end.

(** [classic_sieve_eratosthenes(n)], with the capacity as a parameter as
    for [sieve_iZ]; [n_sqrt] is [sqrt(n)] truncated, which is [Z.sqrt n]
    for [n < 2^52].  The bitmap has [n + 1] bits and the limit handed to
    [bitmap_clear_mod_p] is [n + 1]. *)
Definition classic_sieve_eratosthenes (initial_estimate n : Z)
  : outcome PRIMES_OBJ :=
  let primes := primes_obj_init initial_estimate in
  n_bits ← deref (bitmap_create (u64 (n + 1)));
  let n_bits := bitmap_set_all n_bits in
  let n_sqrt := Z.sqrt n in
  '(primes, _) ←
    fold_left (eratosthenes_visit 1 n_sqrt (u64 (n + 1)))
              (Zrange 2 (Z.to_nat (n - 1)))
              (mret (primes, n_bits));
  resize_or_null primes.

(** [sieve_eratosthenes(n)]: 2 is appended first, and the loop
    [for (p = 3; p <= n; p += 2)] visits the odd numbers. *)
Definition sieve_eratosthenes (initial_estimate n : Z) : outcome PRIMES_OBJ :=
  let primes := primes_obj_init initial_estimate in
  n_bits ← deref (bitmap_create (u64 (n + 1)));
  let n_bits := bitmap_set_all n_bits in
  let n_sqrt := Z.sqrt n in
  obj ← deref primes;
  obj ← primes_obj_append obj 2;
  '(primes, _) ←
    fold_left (eratosthenes_visit 2 n_sqrt (u64 (n + 1)))
              (map (fun k => 3 + 2 * k) (Zrange 0 (Z.to_nat ((n - 1) / 2))))
              (mret (Some obj, n_bits));
  resize_or_null primes.

(** The list once every number below [F] has been visited: the primes
    below [F], ascending. *)
Definition primes_below (F : Z) (L : list Z) : Prop :=
  StronglySorted Z.lt L /\ forall p, In p L <-> Z.prime p /\ p < F.

(** The bitmap of [n + 1] bits once every candidate below [F] has been
    visited: a cleared bit stands for a composite, and among the numbers
    the sieve looks at (all of them for [step = 1], the odd ones for
    [step = 2]) the multiples [q * m], [m >= q], of every prime [q] below
    [F] with [q <= sqrt n] are cleared. *)
Definition marks_so_far (step n F : Z) (b : BITMAP) : Prop :=
  Z.of_nat (length (data b)) = (n + 8) / 8 /\
  (forall j, 2 <= j <= n -> bitmap_get_bit b j = false -> composite j) /\
  (forall j q m, 2 <= j <= n -> (j - 1) mod step = 0 ->
     Z.prime q -> q < F -> q <= Z.sqrt n -> j = q * m -> q <= m ->
     bitmap_get_bit b j = false).

(** The state of the main loop before the candidate [F]. *)
Definition eratosthenes_inv (step cap n F : Z)
           (st : option PRIMES_OBJ * BITMAP) : Prop :=
  exists obj, fst st = Some obj /\
    capacity obj = cap /\
    p_count obj = Z.of_nat (length (p_array obj)) /\
    primes_below F (p_array obj) /\
    marks_so_far step n F (snd st).

(** ** Vocabulary of the statements about [sieve_iZm] *)

(** The largest of the first [K] small primes. *)
Definition wheel_top (K : nat) : Z := default 0 (s_primes !! (K - 1)%nat).

(** The largest candidate that [sieve_iZm(n)] visits: [6x + 1] at the last
    index, which is [x_n = (n + 1) / 6 + 1], or the end of segment 0 of the
    smallest wheel when [x_n] is smaller. *)
Definition iZm_reach (n : Z) : Z := 6 * Z.max ((n + 1) / 6 + 1) 35 + 1.

(** The prime list of [sieve_iZm] before the candidate [F], for the wheel
    of the first [K] small primes: 2, 3 and the wheel primes come first,
    the list is made of the primes below [F] (the wheel primes are there
    from the start), ascending, and it fits in the array. *)
Definition iZm_list_inv (K : nat) (cap F : Z) (primes : PRIMES_OBJ) : Prop :=
  capacity primes = cap /\
  p_count primes = Z.of_nat (length (p_array primes)) /\
  take (2 + K) (p_array primes) = [2; 3] ++ take K s_primes /\
  primes_below (Z.max F (wheel_top K + 1)) (p_array primes) /\
  Z.of_nat (length (p_array primes)) <= cap.

(** The two bitmaps of segment 0 before the candidate [F]: a cleared bit
    stands for a composite or a wheel prime, every multiple of a wheel
    prime is cleared, and so are the multiples [q * m], [m >= q], of every
    prime [q] below [F] with [q * q < 6 * vx]. *)
Definition wheel_lanes_so_far (K : nat) (F : Z) (x5 x7 : BITMAP) : Prop :=
  let vx := primorial K in
  vx + 1 <= 8 * Z.of_nat (length (data x5)) /\
  vx + 1 <= 8 * Z.of_nat (length (data x7)) /\
  (forall lane j, lane = -1 \/ lane = 1 -> 1 <= j <= vx ->
     bitmap_get_bit (if lane <? 0 then x5 else x7) j = false ->
     composite (6 * j + lane) \/ In (6 * j + lane) (take K s_primes)) /\
  (forall lane j q, lane = -1 \/ lane = 1 -> 1 <= j <= vx ->
     In q (take K s_primes) -> (q | 6 * j + lane) ->
     bitmap_get_bit (if lane <? 0 then x5 else x7) j = false) /\
  (forall lane j q m, lane = -1 \/ lane = 1 -> 1 <= j <= vx ->
     Z.prime q -> q < F -> q * q < 6 * vx -> 6 * j + lane = q * m -> q <= m ->
     bitmap_get_bit (if lane <? 0 then x5 else x7) j = false).

(** The state of the loop over segment 0 before the candidate [F]. *)
Definition segment0_inv (K : nat) (cap F : Z) (st : sieve_state) : Prop :=
  let '(primes, x5, x7) := st in
  iZm_list_inv K cap F primes /\ wheel_lanes_so_far K F x5 x7.

(** What the choice of the wheel of the first [K] small primes relies on,
    decided by evaluation for each [K]: the table of [sieve_iZm] starts
    with those primes and goes on with one that does not divide [vx]
    (or ends), with 2 and 3 they are the primes up to [wheel_top K], and
    no square lies at the end of segment 0. *)
Definition iZm_wheel_ok (K : nat) : bool :=
  let vx := primorial K in
  let W := take K s_primes in
  bool_decide (take K (take 6 iZm_s_primes) = W) &&
  forallb (fun p => vx mod p =? 0) W &&
  match drop K (take 6 iZm_s_primes) with
  | [] => true
  | p :: _ => negb (vx mod p =? 0)
  end &&
  bool_decide ([2; 3] ++ W = primes_upto (Z.max 10 (wheel_top K))) &&
  (Z.sqrt (6 * vx + 1) * Z.sqrt (6 * vx + 1) <? 6 * vx) &&
  (7 <=? wheel_top K) && (wheel_top K <? 20) &&
  existsb (fun p => p =? wheel_top K) W &&
  (vx <? 2 ^ 21).

(** A prime whose square still fits in 64 bits and, divided by 6, exceeds
    every index that a sieve for [n < 2^52] visits: the loop over the root
    primes of a segment stops at this prime at the latest. *)
Definition guard_prime : Z := 134217757.

(** Two bitmaps with blocks of the same length and the same [size]. *)
Definition same_shape (a b : BITMAP) : Prop :=
  length (data a) = length (data b) /\ size a = size b.

(** [p], a root prime of segment [y], does not end the loop of
    [mark_segment]. *)
Definition marks_in_segment (vx y limit p : Z) : Prop :=
  (u64 (p * p) / 6 >? u64 (u64 (y * vx) + limit)) = false.

(** How a run that appends to the prime list ends: with a result that
    satisfies [good], or at a write past the end of the prime array, which
    happens only when the capacity is below the number of primes up to
    [N]. *)
Definition done_or_full {A : Type} (cap N : Z) (run : outcome A)
           (good : A -> Prop) : Prop :=
  (exists a, run = Done a /\ good a) \/
  (run = Stop OutOfBoundsWrite /\ cap < Z.of_nat (length (primes_upto N))).

(** ** Vocabulary of the statements about [vx6_sieve] *)

(** The candidates of block [y] that the walk of [vx6_sieve] visits, in its
    order: [6 (y vx6 + x) - 1] and then [6 (y vx6 + x) + 1], for
    [x = 4 .. vx6]. *)
Definition block_candidates (y : Z) : list Z :=
  flat_map (fun x => [iZ_gmp (y * vx6 + x) (-1); iZ_gmp (y * vx6 + x) 1])
           (Zrange 4 (Z.to_nat (vx6 - 3))).

(** The primes among them, by trial division. *)
Definition block_primes (y : Z) : list Z :=
  List.filter is_prime_trial (block_candidates y).

(** ** The wheel sieve ([src/sieve/sieve.c]) *)

(** The odd numbers [7, 9, ...] up to [hi]: the values of [p] in
    [for (p = 7; p <= hi; p += 2)]. *)
Definition odd_from_7 (hi : Z) : list Z :=
  map (fun k => 7 + 2 * k) (Zrange 0 (Z.to_nat ((hi - 5) / 2))).

(** The first loop over the base primes, on the table [is_prime] of
    [wheel_size = 30] bits: the inner loop
    [for (j = prime * prime; j < wheel_size; j += 2 * prime)] clears the
    bits up to 29, then the bit of [prime] is set. *)
Definition wheel_table_visit (acc : outcome BITMAP) (prime : Z)
  : outcome BITMAP :=
  is_prime ← acc;
  is_prime ← bitmap_clear_mod_p_in_block is_prime (u64 (2 * prime))
                                         (u64 (prime * prime)) 29;
  mret (bitmap_set_bit is_prime prime).

(** The second loop over the base primes:
    [for (j = prime * prime; j <= n; j += prime) bitmap_clear_bit(sieve, j)]. *)
Definition wheel_base_visit (n : Z) (acc : outcome BITMAP) (prime : Z)
  : outcome BITMAP :=
  sieve ← acc;
  bitmap_clear_mod_p_in_block sieve prime (u64 (prime * prime)) n.

(** Body of [for (p = 7; p <= sqrt(n); p += 2)]. *)
Definition wheel_root_visit (n : Z) (acc : outcome BITMAP) (p : Z)
  : outcome BITMAP :=
  sieve ← acc;
  if bitmap_get_bit sieve p then
    bitmap_clear_mod_p_in_block sieve (u64 (2 * p)) (u64 (p * p)) n
  else mret sieve.

(** Body of [for (p = 7; p <= n; p += 2)]. *)
Definition wheel_collect_visit (sieve : BITMAP) (acc : outcome PRIMES_OBJ)
           (p : Z) : outcome PRIMES_OBJ :=
  primes ← acc;
  if bitmap_get_bit sieve p then primes_obj_append primes p else mret primes.

(** [sieve_wheel(n)], with the capacity as a parameter.  The pointer that
    [primes_obj_init] returned is not checked before 2, 3 and 5 are
    appended; the table [is_prime] is filled and never read; [p <= sqrt(n)]
    is [p <= Z.sqrt n] for [n < 2^52]. *)
Definition sieve_wheel (initial_estimate n : Z) : outcome PRIMES_OBJ :=
  primes ← deref (primes_obj_init initial_estimate);
  primes ← primes_obj_append primes 2;
  primes ← primes_obj_append primes 3;
  primes ← primes_obj_append primes 5;
  is_prime ← deref (bitmap_create 30);
  sieve ← deref (bitmap_create (u64 (n + 1)));
  let sieve := bitmap_set_all sieve in
  table ← fold_left wheel_table_visit [2; 3; 5] (Done is_prime);
  sieve ← fold_left (wheel_base_visit n) [2; 3; 5] (Done sieve);
  sieve ← fold_left (wheel_root_visit n) (odd_from_7 (Z.sqrt n)) (Done sieve);
  primes ← fold_left (wheel_collect_visit sieve) (odd_from_7 n) (Done primes);
  mret (primes_obj_resize_to_p_count primes).
(* ===================================================================== *)
(** * Part II.  Theorems                                                  *)
(* ===================================================================== *)

(** Case analysis on the integer comparisons of the goal, one kind at a
    time. *)
Ltac split_on_leb :=
  match goal with
  | |- context [?lo <=? ?hi] => destruct (Z.leb_spec lo hi)
  end.

Ltac split_on_ltb :=
  match goal with
  | |- context [?lo <? ?hi] => destruct (Z.ltb_spec lo hi)
  end.

Ltac split_on_eqb :=
  match goal with
  | |- context [?lhs =? ?rhs] => destruct (Z.eqb_spec lhs rhs)
  end.

Ltac case_cmp := repeat first [split_on_leb | split_on_ltb | split_on_eqb].

(** ** Machine integers *)

Lemma u64_small (z : Z) : 0 <= z < two64 -> u64 z = z.
Proof. intros H. unfold u64. now apply Z.mod_small. Qed.

Lemma u64_range (z : Z) : 0 <= u64 z < two64.
Proof. unfold u64, two64. apply Z.mod_pos_bound. lia. Qed.

(** ** [normalized_xp] and [solve_for_x] *)

Lemma normalized_xp_range (matrix_id p : Z) :
  5 <= p < two64 - 1 -> 0 < normalized_xp matrix_id p < p.
Proof.
  intros Hp. unfold normalized_xp.
  assert (Hx : u64 (p + 1) / 6 = (p + 1) / 6).
  { rewrite u64_small; [reflexivity | unfold two64 in *; lia]. }
  rewrite Hx.
  assert (H1 : 1 <= (p + 1) / 6) by (apply Z.div_le_lower_bound; lia).
  assert (H2 : (p + 1) / 6 < p) by (apply Z.div_lt_upper_bound; lia).
  assert (H3 : u64 (p - (p + 1) / 6) = p - (p + 1) / 6).
  { apply u64_small. unfold two64 in *. lia. }
  rewrite H3.
  destruct (matrix_id <? 0); destruct (p mod 6 =? 1); simpl; lia.
Qed.

(** Where neither the product nor the difference wraps, [solve_for_x]
    solves the congruence of its header comment. *)
Lemma solve_for_x_no_wrap (matrix_id p vx y : Z) :
  5 <= p < two64 - 1 ->
  normalized_xp matrix_id p <= vx * y < two64 ->
  let x := solve_for_x matrix_id p vx y in
  0 < x <= p /\ (x + vx * y) mod p = normalized_xp matrix_id p.
Proof.
  intros Hp Hvy. cbv zeta.
  pose proof (normalized_xp_range matrix_id p Hp) as Hxp.
  unfold solve_for_x.
  set (x_p := normalized_xp matrix_id p) in *.
  rewrite (u64_small (vx * y)) by lia.
  rewrite (u64_small (vx * y - x_p)) by lia.
  pose proof (Z.mod_pos_bound (vx * y - x_p) p ltac:(lia)) as Hr.
  rewrite u64_small by (unfold two64 in *; lia).
  split; [lia |].
  replace (p - (vx * y - x_p) mod p + vx * y)
    with (x_p + (vx * y - x_p - (vx * y - x_p) mod p) + 1 * p) by lia.
  rewrite Z.mod_add by lia.
  rewrite (Z.div_mod (vx * y - x_p) p) at 1 by lia.
  replace (x_p + (p * ((vx * y - x_p) / p) + (vx * y - x_p) mod p
                  - (vx * y - x_p) mod p))
    with (x_p + ((vx * y - x_p) / p) * p) by lia.
  rewrite Z.mod_add by lia.
  apply Z.mod_small. lia.
Qed.

(** The arbitrary-precision variant solves it for every [y >= 0]. *)
Lemma solve_for_x_gmp_correct (matrix_id p vx y : Z) :
  5 <= p < two64 - 1 ->
  let x := solve_for_x_gmp matrix_id p vx y in
  0 < x <= p /\ (x + vx * y) mod p = normalized_xp matrix_id p.
Proof.
  intros Hp. cbv zeta.
  pose proof (normalized_xp_range matrix_id p Hp) as Hxp.
  unfold solve_for_x_gmp.
  set (x_p := normalized_xp matrix_id p) in *.
  pose proof (Z.mod_pos_bound (y * vx - x_p) p ltac:(lia)) as Hr.
  rewrite u64_small by (unfold two64 in *; lia).
  split; [lia |].
  rewrite (Z.mul_comm vx y).
  replace (p - (y * vx - x_p) mod p + y * vx)
    with (x_p + (y * vx - x_p - (y * vx - x_p) mod p) + 1 * p) by lia.
  rewrite Z.mod_add by lia.
  rewrite (Z.div_mod (y * vx - x_p) p) at 1 by lia.
  replace (x_p + (p * ((y * vx - x_p) / p) + (y * vx - x_p) mod p
                  - (y * vx - x_p) mod p))
    with (x_p + ((y * vx - x_p) / p) * p) by lia.
  rewrite Z.mod_add by lia.
  apply Z.mod_small. lia.
Qed.

(** C2.  [solve_for_x] at [lane = +1], [p = 23], [vx = vx6], [y = 0]: the
    difference [vx * y - x_p] is taken in [uint64_t] and wraps to
    [2^64 - 19]; the result is 13, and [(13 + vx * 0) mod 23] is 13 where
    [normalized_xp(+1, 23)] is 19.  The arbitrary-precision variant returns
    19 on the same arguments. *)
Theorem solve_for_x_wraps_at_y0 :
  solve_for_x 1 23 1616615 0 = 13 /\
  (solve_for_x 1 23 1616615 0 + 1616615 * 0) mod 23 = 13 /\
  normalized_xp 1 23 = 19 /\
  Z.gcd 1616615 23 = 1 /\
  solve_for_x_gmp 1 23 1616615 0 = 19.
Proof. repeat split; vm_compute; reflexivity. Qed.

(** C3 as stated fails: neither value is 4. *)
Lemma normalized_xp_plus_23_not_4 :
  ~ (solve_for_x 1 23 1616615 0 = 4 /\ normalized_xp 1 23 = 4).
Proof. intros [_ H]. vm_compute in H. discriminate H. Qed.

(** C3, amended.  On lane +1 the prime 23 (which lies on lane -1, at index
    4) has the normalized index [23 - 4 = 19], the index of [5 * 23] on
    lane +1; the arbitrary-precision [solve_for_x_gmp] returns that index at
    [y = 0]. *)
Theorem normalized_xp_23 :
  normalized_xp 1 23 = 19 /\
  normalized_xp (-1) 23 = 4 /\
  solve_for_x_gmp 1 23 vx6 0 = normalized_xp 1 23 /\
  iZ 19 1 = 5 * 23 /\ iZ 4 (-1) = 23.
Proof. repeat split; vm_compute; reflexivity. Qed.

(** ** [modular_inverse] and [solve_for_y] *)

Example modular_inverse_5_23 : modular_inverse 5 23 = Some 14.
Proof. vm_compute. reflexivity. Qed.

(** C8.  [solve_for_y] at [lane = -1], [p = 23], [vx = 35], [x = 5]:
    [x_p = 4 < x], so [x_p - x] wraps in [uint64_t] and [delta] becomes
    [(2^64 - 1) mod 23 = 5] instead of 22.  The function returns 10, which
    does not solve the congruence; the least solution is 21. *)
Theorem solve_for_y_wraps :
  Z.gcd 35 23 = 1 /\
  solve_for_y (-1) 23 35 5 = Some 10 /\
  (5 + 35 * 10) mod 23 <> normalized_xp (-1) 23 /\
  (5 + 35 * 21) mod 23 = normalized_xp (-1) 23 /\
  Forall (fun y => (5 + 35 * y) mod 23 <> normalized_xp (-1) 23)
         (map Z.of_nat (seq 0 21)).
Proof.
  repeat split; try (vm_compute; reflexivity).
  - vm_compute. discriminate.
  - let l := eval vm_compute in (map Z.of_nat (seq 0 21)) in
    change (map Z.of_nat (seq 0 21)) with l.
    repeat (constructor; [vm_compute; discriminate |]).
    constructor.
Qed.


(** ** Bits of a byte *)

Lemma land_shiftl_1 (x k : Z) :
  0 <= k -> (Z.land x (Z.shiftl 1 k) =? 0) = negb (Z.testbit x k).
Proof.
  intros Hk. rewrite Z.shiftl_1_l.
  destruct (Z.testbit x k) eqn:Hb; simpl.
  - apply Z.eqb_neq. intros H0.
    assert (Ht : Z.testbit (Z.land x (2 ^ k)) k = true).
    { rewrite Z.land_spec, Hb, Z.pow2_bits_true; [reflexivity | lia]. }
    rewrite H0, Z.bits_0 in Ht. discriminate.
  - apply Z.eqb_eq. apply Z.bits_inj'. intros n Hn.
    rewrite Z.land_spec, Z.bits_0, (Z.pow2_bits_eqb k n Hk).
    destruct (Z.eqb_spec k n) as [->|]; [rewrite Hb |]; 
      now rewrite ?andb_false_r.
Qed.

Lemma testbit_u8 (x k : Z) : 0 <= k < 8 -> Z.testbit (u8 x) k = Z.testbit x k.
Proof. intros Hk. unfold u8. apply Z.mod_pow2_bits_low. lia. Qed.

Lemma split_index (i j : Z) :
  (i =? j) = (i / 8 =? j / 8) && (i mod 8 =? j mod 8).
Proof.
  pose proof (Z.div_mod i 8 ltac:(lia)). pose proof (Z.div_mod j 8 ltac:(lia)).
  destruct (Z.eqb_spec i j) as [->|Hne].
  - now rewrite !Z.eqb_refl.
  - destruct (Z.eqb_spec (i / 8) (j / 8)); destruct (Z.eqb_spec (i mod 8) (j mod 8));
      simpl; try reflexivity. lia.
Qed.

(** ** Single bits *)

Lemma bitmap_get_bit_testbit (b : BITMAP) (i : Z) :
  bitmap_get_bit b i = Z.testbit (get_byte b (i / 8)) (i mod 8).
Proof.
  unfold bitmap_get_bit. rewrite land_shiftl_1.
  - apply negb_involutive.
  - apply Z.mod_pos_bound. lia.
Qed.

Lemma get_byte_set_byte (b : BITMAP) (k v k' : Z) :
  0 <= k -> 0 <= k' -> (Z.to_nat k < length (data b))%nat ->
  get_byte (set_byte b k v) k' = if k =? k' then u8 v else get_byte b k'.
Proof.
  intros Hk Hk' Hlen. unfold get_byte, set_byte. simpl.
  destruct (Z.eqb_spec k k') as [->|Hne].
  - rewrite list_lookup_insert_eq by exact Hlen. reflexivity.
  - rewrite list_lookup_insert_ne by lia. reflexivity.
Qed.

Lemma in_range_byte (b : BITMAP) (i : Z) :
  in_range b i -> 0 <= i / 8 /\ (Z.to_nat (i / 8) < length (data b))%nat.
Proof.
  unfold in_range. intros [H0 H1].
  assert (0 <= i / 8) by (apply Z.div_pos; lia).
  assert (i / 8 < Z.of_nat (length (data b))) by (apply Z.div_lt_upper_bound; lia).
  lia.
Qed.

Lemma bitmap_get_set_bit (b : BITMAP) (i j : Z) :
  in_range b i -> 0 <= j ->
  bitmap_get_bit (bitmap_set_bit b i) j = (i =? j) || bitmap_get_bit b j.
Proof.
  intros Hi Hj. destruct (in_range_byte b i Hi) as [Hk Hlen].
  assert (Hj8 : 0 <= j / 8) by (apply Z.div_pos; lia).
  rewrite !bitmap_get_bit_testbit. unfold bitmap_set_bit.
  rewrite get_byte_set_byte by assumption.
  rewrite (split_index i j).
  pose proof (Z.mod_pos_bound j 8 ltac:(lia)) as Hm.
  pose proof (Z.mod_pos_bound i 8 ltac:(lia)) as Hm'.
  destruct (Z.eqb_spec (i / 8) (j / 8)) as [He|Hne]; simpl; [|reflexivity].
  rewrite testbit_u8 by lia.
  rewrite Z.lor_spec, Z.shiftl_1_l, (Z.pow2_bits_eqb (i mod 8) (j mod 8)) by lia.
  rewrite He. apply orb_comm.
Qed.

Lemma bitmap_get_clear_bit (b : BITMAP) (i j : Z) :
  in_range b i -> 0 <= j ->
  bitmap_get_bit (bitmap_clear_bit b i) j = negb (i =? j) && bitmap_get_bit b j.
Proof.
  intros Hi Hj. destruct (in_range_byte b i Hi) as [Hk Hlen].
  assert (Hj8 : 0 <= j / 8) by (apply Z.div_pos; lia).
  rewrite !bitmap_get_bit_testbit. unfold bitmap_clear_bit.
  rewrite get_byte_set_byte by assumption.
  rewrite (split_index i j).
  pose proof (Z.mod_pos_bound j 8 ltac:(lia)) as Hm.
  pose proof (Z.mod_pos_bound i 8 ltac:(lia)) as Hm'.
  destruct (Z.eqb_spec (i / 8) (j / 8)) as [He|Hne]; simpl; [|reflexivity].
  rewrite testbit_u8 by lia.
  rewrite Z.land_spec, Z.lnot_spec, Z.shiftl_1_l, 
    (Z.pow2_bits_eqb (i mod 8) (j mod 8)) by lia.
  rewrite He. apply andb_comm.
Qed.

Lemma data_length_set_bit b i : length (data (bitmap_set_bit b i)) = length (data b).
Proof. unfold bitmap_set_bit, set_byte. simpl. apply length_insert. Qed.

Lemma data_length_clear_bit b i : length (data (bitmap_clear_bit b i)) = length (data b).
Proof. unfold bitmap_clear_bit, set_byte. simpl. apply length_insert. Qed.

Lemma size_set_bit b i : size (bitmap_set_bit b i) = size b.
Proof. reflexivity. Qed.
Lemma size_clear_bit b i : size (bitmap_clear_bit b i) = size b.
Proof. reflexivity. Qed.

Lemma bitmap_get_bit_out_of_range (b : BITMAP) (j : Z) :
  8 * Z.of_nat (length (data b)) <= j -> bitmap_get_bit b j = false.
Proof.
  intros Hj. rewrite bitmap_get_bit_testbit. unfold get_byte.
  assert (Z.of_nat (length (data b)) <= j / 8) by (apply Z.div_le_lower_bound; lia).
  rewrite lookup_ge_None_2 by lia. simpl. apply Z.bits_0.
Qed.

Lemma bitmap_create_spec (sz : Z) (b : BITMAP) :
  bitmap_create sz = Some b ->
  size b = sz /\ length (data b) = Z.to_nat (byte_size sz) /\
  forall j, bitmap_get_bit b j = false.
Proof.
  unfold bitmap_create. destruct (sz =? 0); [discriminate|].
  intros [= <-]. simpl. repeat split.
  - apply length_replicate.
  - intros j. rewrite bitmap_get_bit_testbit. unfold get_byte. simpl.
    destruct (replicate _ _ !! _) eqn:E; simpl; [|apply Z.bits_0].
    apply lookup_replicate in E. destruct E as [-> _]. apply Z.bits_0.
Qed.

(** Writing one bit, whichever branch of [bitmap_copy] does it. *)
Lemma bitmap_get_write_bit (b : BITMAP) (bit : bool) (i j : Z) :
  in_range b i -> 0 <= j ->
  bitmap_get_bit (if bit then bitmap_set_bit b i else bitmap_clear_bit b i) j
  = if i =? j then bit else bitmap_get_bit b j.
Proof.
  intros Hi Hj. destruct bit.
  - rewrite bitmap_get_set_bit by assumption. now destruct (i =? j).
  - rewrite bitmap_get_clear_bit by assumption. now destruct (i =? j).
Qed.

Lemma data_length_write_bit (b : BITMAP) (bit : bool) (i : Z) :
  length (data (if bit then bitmap_set_bit b i else bitmap_clear_bit b i))
  = length (data b).
Proof. destruct bit; [apply data_length_set_bit | apply data_length_clear_bit]. Qed.

(** ** [bitmap_clear_mod_p] *)

Lemma on_stride_unfold (p idx limit j : Z) :
  0 < p -> idx <= limit ->
  on_stride p idx limit j = (idx =? j) || on_stride p (idx + p) limit j.
Proof.
  intros Hp Hle. unfold on_stride.
  replace (j - (idx + p)) with (j - idx + (-1) * p) by lia.
  rewrite Z.mod_add by lia.
  destruct (Z.eqb_spec idx j) as [->|Hne]; simpl.
  - rewrite Z.sub_diag, Z.mod_0_l by lia.
    rewrite Z.leb_refl. simpl. 
    destruct (Z.leb_spec j limit); [reflexivity | lia].
  - destruct (Z.leb_spec idx j); destruct (Z.leb_spec (idx + p) j);
      destruct (Z.leb_spec j limit); simpl; try reflexivity; try lia.
    apply Z.eqb_neq. rewrite Z.mod_small by lia. lia.
Qed.

Lemma on_stride_empty (p idx limit j : Z) :
  limit < idx -> on_stride p idx limit j = false.
Proof.
  intros H. unfold on_stride.
  destruct (Z.leb_spec idx j); destruct (Z.leb_spec j limit); simpl; try reflexivity; lia.
Qed.

Lemma clear_mod_p_loop_spec (fuel : nat) :
  forall (b : BITMAP) (p idx limit j : Z),
    0 < p -> 0 <= idx -> limit < 8 * Z.of_nat (length (data b)) ->
    limit + p < two64 -> 0 <= j ->
    (limit - idx) / p + 1 <= Z.of_nat fuel ->
    let b' := clear_mod_p_loop fuel b p idx limit in
    length (data b') = length (data b) /\ size b' = size b /\
    bitmap_get_bit b' j = bitmap_get_bit b j && negb (on_stride p idx limit j).
Proof.
  induction fuel as [|fuel IH]; intros b p idx limit j Hp Hidx Hlim Hw Hj Hfuel; cbv zeta.
  - simpl. assert (limit < idx).
    { destruct (Z_lt_le_dec limit idx) as [|Hle]; [assumption|].
      assert (0 <= (limit - idx) / p) by (apply Z.div_pos; lia). lia. }
    rewrite on_stride_empty by assumption. now rewrite andb_true_r.
  - simpl. destruct (Z.leb_spec idx limit) as [Hle|Hgt].
    + rewrite u64_small by lia.
      assert (Hin : in_range b idx) by (unfold in_range; lia).
      specialize (IH (bitmap_clear_bit b idx) p (idx + p) limit j Hp ltac:(lia)).
      rewrite data_length_clear_bit in IH.
      specialize (IH Hlim Hw Hj).
      assert (Hf : (limit - (idx + p)) / p + 1 <= Z.of_nat fuel).
      { replace (limit - (idx + p)) with (limit - idx + (-1) * p) by lia.
        rewrite Z.div_add by lia. lia. }
      destruct (IH Hf) as (Hl & Hs & Hb). 
      split; [exact Hl | split; [exact Hs |]].
      rewrite Hb, bitmap_get_clear_bit by assumption.
      rewrite (on_stride_unfold p idx limit j) by lia.
      destruct (idx =? j); destruct (bitmap_get_bit b j); 
        destruct (on_stride p (idx + p) limit j); reflexivity.
    + rewrite on_stride_empty by assumption. now rewrite andb_true_r.
Qed.

Lemma bitmap_clear_mod_p_spec (b : BITMAP) (p start limit j : Z) :
  0 < p -> 0 <= start -> limit < 8 * Z.of_nat (length (data b)) ->
  limit + p < two64 -> 0 <= j ->
  let b' := bitmap_clear_mod_p b p start limit in
  length (data b') = length (data b) /\ size b' = size b /\
  bitmap_get_bit b' j = bitmap_get_bit b j && negb (on_stride p start limit j).
Proof.
  intros Hp Hs Hl Hw Hj. unfold bitmap_clear_mod_p.
  apply clear_mod_p_loop_spec; try assumption.
  destruct (Z_lt_le_dec ((limit - start) / p + 1) 0); lia.
Qed.

(** The fuel of [bitmap_clear_mod_p] is enough: one more round changes nothing. *)
Lemma clear_mod_p_loop_fuel (fuel : nat) :
  forall (b : BITMAP) (p idx limit : Z),
    0 < p -> 0 <= idx -> limit + p < two64 ->
    (limit - idx) / p + 1 <= Z.of_nat fuel ->
    clear_mod_p_loop (S fuel) b p idx limit = clear_mod_p_loop fuel b p idx limit.
Proof.
  induction fuel as [|fuel IH]; intros b p idx limit Hp Hidx Hw Hfuel.
  - simpl. destruct (Z.leb_spec idx limit) as [Hle|Hgt]; [|reflexivity].
    assert (0 <= (limit - idx) / p) by (apply Z.div_pos; lia). simpl in Hfuel. lia.
  - change (clear_mod_p_loop (S (S fuel)) b p idx limit)
      with (if idx <=? limit
            then clear_mod_p_loop (S fuel) (bitmap_clear_bit b idx) p (u64 (idx + p)) limit
            else b).
    change (clear_mod_p_loop (S fuel) b p idx limit)
      with (if idx <=? limit
            then clear_mod_p_loop fuel (bitmap_clear_bit b idx) p (u64 (idx + p)) limit
            else b).
    destruct (Z.leb_spec idx limit) as [Hle|Hgt]; [|reflexivity].
    rewrite u64_small by lia. apply IH; try lia.
    replace (limit - (idx + p)) with (limit - idx + (-1) * p) by lia.
    rewrite Z.div_add by lia. lia.
Qed.

(** ** [bitmap_copy] within one bitmap, and [bitmap_duplicate_segment] *)

Lemma bitmap_copy_loop_same (n : nat) :
  forall (i : Z) (b : BITMAP) (d s j : Z),
    0 <= i -> 0 <= s -> s + i + Z.of_nat n <= d ->
    d + i + Z.of_nat n <= 8 * Z.of_nat (length (data b)) ->
    d + i + Z.of_nat n < two64 -> 0 <= j ->
    let b' := bitmap_copy_loop n i b d SameBitmap s in
    length (data b') = length (data b) /\ size b' = size b /\
    bitmap_get_bit b' j =
      if (d + i <=? j) && (j <? d + i + Z.of_nat n)
      then bitmap_get_bit b (s + (j - d)) else bitmap_get_bit b j.
Proof.
  induction n as [|n IH]; intros i b d s j Hi Hs Hsd Hr Hw Hj; cbv zeta.
  - simpl. repeat split.
    case_cmp; simpl; try reflexivity; lia.
  - simpl bitmap_copy_loop. simpl source_view.
    rewrite !u64_small by lia.
    set (bit := bitmap_get_bit b (s + i)).
    set (b1 := if bit then bitmap_set_bit b (d + i) else bitmap_clear_bit b (d + i)).
    assert (Hin : in_range b (d + i)) by (unfold in_range; lia).
    assert (Hl1 : length (data b1) = length (data b)) by apply data_length_write_bit.
    assert (Hs1 : size b1 = size b) by (unfold b1; destruct bit; reflexivity).
    specialize (IH (i + 1) b1 d s j ltac:(lia) Hs ltac:(lia)).
    rewrite Hl1 in IH. specialize (IH ltac:(lia) ltac:(lia) Hj).
    destruct IH as (Hl & Hsz & Hb).
    split; [exact Hl | split; [congruence |]].
    rewrite Hb. unfold b1.
    destruct ((d + (i + 1) <=? j) && (j <? d + (i + 1) + Z.of_nat n)) eqn:E1.
    + apply andb_true_iff in E1. destruct E1 as [E1 E2].
      apply Z.leb_le in E1. apply Z.ltb_lt in E2.
      rewrite bitmap_get_write_bit by (try assumption; lia).
      case_cmp; simpl; try reflexivity; lia.
    + rewrite bitmap_get_write_bit by (try assumption; lia).
      apply andb_false_iff in E1.
      destruct E1 as [E1|E1]; [apply Z.leb_gt in E1 | apply Z.ltb_ge in E1];
        case_cmp; simpl; try reflexivity; try lia;
        subst j; unfold bit; f_equal; lia.
Qed.

Lemma bitmap_copy_same_spec (b : BITMAP) (d s len j : Z) :
  0 <= s -> 0 <= len -> s + len <= d ->
  d + len <= 8 * Z.of_nat (length (data b)) -> d + len < two64 -> 0 <= j ->
  let b' := bitmap_copy b d SameBitmap s len in
  length (data b') = length (data b) /\ size b' = size b /\
  bitmap_get_bit b' j =
    if (d <=? j) && (j <? d + len)
    then bitmap_get_bit b (s + (j - d)) else bitmap_get_bit b j.
Proof.
  intros Hs Hlen Hsd Hr Hw Hj. unfold bitmap_copy.
  pose proof (bitmap_copy_loop_same (Z.to_nat len) 0 b d s j) as H.
  rewrite Z2Nat.id, !Z.add_0_r in H by assumption.
  apply H; lia.
Qed.

Lemma duplicate_loop_spec (n : nat) :
  forall (b : BITMAP) (cursor start cs j : Z),
    0 <= start -> 0 < cs -> start + cs <= cursor ->
    (cursor - start) mod cs = 0 ->
    cursor + cs * Z.of_nat n <= 8 * Z.of_nat (length (data b)) ->
    cursor + cs * Z.of_nat n < two64 -> 0 <= j ->
    let b' := duplicate_loop n b cursor start cs in
    length (data b') = length (data b) /\ size b' = size b /\
    bitmap_get_bit b' j =
      if (cursor <=? j) && (j <? cursor + cs * Z.of_nat n)
      then bitmap_get_bit b (start + (j - start) mod cs)
      else bitmap_get_bit b j.
Proof.
  induction n as [|n IH]; intros b cursor start cs j Hst Hcs Hc Hm Hr Hw Hj; cbv zeta.
  - simpl. repeat split.
    case_cmp; simpl; try reflexivity; lia.
  - simpl duplicate_loop.
    assert (Hn : cs * Z.of_nat (S n) = cs + cs * Z.of_nat n) by lia.
    assert (0 <= cs * Z.of_nat n) by lia.
    rewrite u64_small by lia.
    set (b1 := bitmap_copy b cursor SameBitmap start cs).
    assert (Hcopy : forall j', 0 <= j' ->
              length (data b1) = length (data b) /\ size b1 = size b /\
              bitmap_get_bit b1 j' =
                if (cursor <=? j') && (j' <? cursor + cs)
                then bitmap_get_bit b (start + (j' - cursor)) else bitmap_get_bit b j').
    { intros j' Hj'. apply bitmap_copy_same_spec; lia. }
    destruct (Hcopy j Hj) as (Hl1 & Hs1 & Hb1).
    specialize (IH b1 (cursor + cs) start cs j Hst Hcs ltac:(lia)).
    assert (Hm' : (cursor + cs - start) mod cs = 0).
    { replace (cursor + cs - start) with (cursor - start + 1 * cs) by lia.
      rewrite Z.mod_add by lia. exact Hm. }
    rewrite Hl1 in IH. specialize (IH Hm' ltac:(lia) ltac:(lia) Hj).
    destruct IH as (Hl & Hsz & Hb).
    split; [exact Hl | split; [congruence |]].
    rewrite Hb.
    pose proof (Z.mod_pos_bound (j - start) cs Hcs) as Hmod.
    destruct (Z.leb_spec (cursor + cs) j); destruct (Z.ltb_spec j (cursor + cs + cs * Z.of_nat n));
      destruct (Z.leb_spec cursor j); destruct (Z.ltb_spec j (cursor + cs * Z.of_nat (S n)));
      simpl; try lia.
    + destruct (Hcopy (start + (j - start) mod cs) ltac:(lia)) as (_ & _ & ->).
      destruct (Z.leb_spec cursor (start + (j - start) mod cs)); [lia | reflexivity].
    + rewrite Hb1.
      destruct (Z.leb_spec cursor j); destruct (Z.ltb_spec j (cursor + cs)); simpl; try lia. reflexivity.
    + rewrite Hb1.
      destruct (Z.leb_spec cursor j); destruct (Z.ltb_spec j (cursor + cs)); simpl; try lia.
      f_equal. f_equal.
      replace (j - start) with ((j - cursor) + (cursor - start)) by lia.
      rewrite Z.add_mod, Hm, Z.add_0_r, Z.mod_mod by lia.
      symmetry. apply Z.mod_small. lia.
    + rewrite Hb1.
      destruct (Z.leb_spec cursor j); destruct (Z.ltb_spec j (cursor + cs)); simpl; try lia. reflexivity.
Qed.

Lemma bitmap_duplicate_segment_spec (b : BITMAP) (start cs y j : Z) :
  0 <= start -> 0 < cs -> 1 <= y ->
  start + cs * y <= size b -> size b <= 8 * Z.of_nat (length (data b)) ->
  size b < two64 -> 0 <= j ->
  let b' := bitmap_duplicate_segment b start cs y in
  length (data b') = length (data b) /\ size b' = size b /\
  bitmap_get_bit b' j =
    if (start <=? j) && (j <? start + cs * y)
    then bitmap_get_bit b (start + (j - start) mod cs)
    else bitmap_get_bit b j.
Proof.
  intros Hst Hcs Hy Hsz Hwf H64 Hj. unfold bitmap_duplicate_segment.
  assert (Hcy : 0 < cs * y) by nia.
  rewrite (u64_small (cs * y)) by lia.
  rewrite (u64_small (start + cs * y)) by lia.
  destruct (Z.gtb_spec (start + cs * y) (size b)) as [Hgt|_]; [lia|].
  assert (Hcy' : cs <= cs * y) by nia.
  rewrite (u64_small (start + cs)) by lia.
  pose proof (duplicate_loop_spec (Z.to_nat (y - 1)) b (start + cs) start cs j
                Hst Hcs ltac:(lia)) as H.
  replace (start + cs - start) with (1 * cs) in H by lia.
  rewrite Z.mod_mul in H by lia.
  rewrite Z2Nat.id in H by lia.
  replace (start + cs + cs * (y - 1)) with (start + cs * y) in H by lia.
  destruct (H eq_refl ltac:(lia) ltac:(lia) Hj) as (Hl & Hs & Hb).
  split; [exact Hl | split; [exact Hs |]].
  rewrite Hb.
  destruct (Z.leb_spec (start + cs) j); destruct (Z.ltb_spec j (start + cs * y));
    destruct (Z.leb_spec start j); simpl; try lia; try reflexivity.
  rewrite Z.mod_small by lia. f_equal. lia.
Qed.

Lemma existsb_Zrange (j lo : Z) (n : nat) :
  existsb (Z.eqb j) (Zrange lo n) = (lo <=? j) && (j <? lo + Z.of_nat n).
Proof.
  unfold Zrange. revert lo. induction n as [|n IH]; intros lo.
  - simpl. case_cmp; simpl; try reflexivity; lia.
  - rewrite seq_S, map_app, existsb_app, IH. simpl.
    case_cmp; simpl; try reflexivity; lia.
Qed.

Lemma In_Zrange (j lo : Z) (n : nat) :
  lo <= j < lo + Z.of_nat n -> In j (Zrange lo n).
Proof.
  intros H. unfold Zrange. apply in_map_iff. exists (Z.to_nat (j - lo)).
  split; [lia | apply in_seq; lia].
Qed.

Lemma Zrange_1_35 : map Z.of_nat (seq 1 35) = Zrange 1 35.
Proof. reflexivity. Qed.

Lemma construct_vx2_step_eq (x5 x7 : BITMAP) (i : Z) :
  construct_vx2_step (x5, x7) i =
  (if vx2_cond5 i then bitmap_set_bit x5 i else x5,
   if vx2_cond7 i then bitmap_set_bit x7 i else x7).
Proof. reflexivity. Qed.

Lemma construct_vx2_fold (l : list Z) :
  forall (x5 x7 : BITMAP) (j : Z),
    Forall (fun i => in_range x5 i /\ in_range x7 i) l -> 0 <= j ->
    let st := fold_left construct_vx2_step l (x5, x7) in
    length (data (fst st)) = length (data x5) /\
    length (data (snd st)) = length (data x7) /\
    size (fst st) = size x5 /\ size (snd st) = size x7 /\
    bitmap_get_bit (fst st) j
      = bitmap_get_bit x5 j || (existsb (Z.eqb j) l && vx2_cond5 j) /\
    bitmap_get_bit (snd st) j
      = bitmap_get_bit x7 j || (existsb (Z.eqb j) l && vx2_cond7 j).
Proof.
  induction l as [|i l IH]; intros x5 x7 j Hl Hj; cbv zeta.
  - simpl. now rewrite !orb_false_r.
  - inversion Hl as [|? ? [Hi5 Hi7] Hl']; subst.
    cbn [fold_left]. rewrite construct_vx2_step_eq.
    set (a := if vx2_cond5 i then bitmap_set_bit x5 i else x5).
    set (b := if vx2_cond7 i then bitmap_set_bit x7 i else x7).
    assert (Hla : length (data a) = length (data x5)).
    { unfold a. destruct (vx2_cond5 i); [apply data_length_set_bit | reflexivity]. }
    assert (Hlb : length (data b) = length (data x7)).
    { unfold b. destruct (vx2_cond7 i); [apply data_length_set_bit | reflexivity]. }
    assert (Hsa : size a = size x5) by (unfold a; destruct (vx2_cond5 i); reflexivity).
    assert (Hsb : size b = size x7) by (unfold b; destruct (vx2_cond7 i); reflexivity).
    assert (Hl'' : Forall (fun i => in_range a i /\ in_range b i) l).
    { eapply List.Forall_impl; [|exact Hl']. unfold in_range. 
      intros z. rewrite Hla, Hlb. tauto. }
    destruct (IH a b j Hl'' Hj) as (H1 & H2 & H3 & H4 & H5 & H6).
    rewrite H1, H2, H3, H4, H5, H6.
    repeat (split; [congruence |]).
    simpl existsb. unfold a, b. split.
    + destruct (Z.eqb_spec j i) as [->|Hne].
      * destruct (vx2_cond5 i); [rewrite bitmap_get_set_bit, Z.eqb_refl by assumption|];
          simpl; rewrite ?orb_true_r, ?orb_false_r, ?andb_false_r, ?orb_false_r; reflexivity.
      * destruct (vx2_cond5 i); [rewrite bitmap_get_set_bit by assumption|]; simpl; try reflexivity.
        destruct (Z.eqb_spec i j); [lia | reflexivity].
    + destruct (Z.eqb_spec j i) as [->|Hne].
      * destruct (vx2_cond7 i); [rewrite bitmap_get_set_bit, Z.eqb_refl by assumption|];
          simpl; rewrite ?orb_true_r, ?orb_false_r, ?andb_false_r, ?orb_false_r; reflexivity.
      * destruct (vx2_cond7 i); [rewrite bitmap_get_set_bit by assumption|]; simpl; try reflexivity.
        destruct (Z.eqb_spec i j); [lia | reflexivity].
Qed.

Lemma vx2_cond_lane (j : Z) :
  1 <= j <= 35 ->
  vx2_cond5 j = lane5_open (take 2 s_primes) j /\
  vx2_cond7 j = lane7_open (take 2 s_primes) j.
Proof.
  intros Hj.
  assert (Hc : forallb (fun j => eqb (vx2_cond5 j) (lane5_open (take 2 s_primes) j) &&
                                 eqb (vx2_cond7 j) (lane7_open (take 2 s_primes) j))
                       (Zrange 1 35) = true) by (vm_compute; reflexivity).
  rewrite forallb_forall in Hc. specialize (Hc j (In_Zrange j 1 35 ltac:(lia))).
  apply andb_true_iff in Hc. destruct Hc as [H5 H7].
  apply eqb_prop in H5. apply eqb_prop in H7. now split.
Qed.

(** The two bitmaps after [construct_vx2], started from cleared bitmaps. *)
Lemma construct_vx2_spec (x5 x7 : BITMAP) :
  (forall j, bitmap_get_bit x5 j = false) ->
  (forall j, bitmap_get_bit x7 j = false) ->
  36 <= 8 * Z.of_nat (length (data x5)) -> 36 <= 8 * Z.of_nat (length (data x7)) ->
  let st := construct_vx2 x5 x7 in
  length (data (fst st)) = length (data x5) /\
  length (data (snd st)) = length (data x7) /\
  size (fst st) = size x5 /\ size (snd st) = size x7 /\
  wheel_state 2 (35, fst st, snd st).
Proof.
  intros Hz5 Hz7 Hl5 Hl7. cbv zeta. unfold construct_vx2. rewrite Zrange_1_35.
  assert (HF : Forall (fun i => in_range x5 i /\ in_range x7 i) (Zrange 1 35)).
  { apply List.Forall_forall. intros i Hi. unfold Zrange in Hi.
    apply in_map_iff in Hi. destruct Hi as (k & <- & Hk). apply in_seq in Hk.
    unfold in_range. lia. }
  pose proof (fun j Hj => construct_vx2_fold (Zrange 1 35) x5 x7 j HF Hj) as H.
  cbv zeta in H.
  destruct (H 0 ltac:(lia)) as (H1 & H2 & H3 & H4 & _).
  repeat (split; [assumption |]).
  split; [reflexivity |].
  intros j Hj. destruct (H j Hj) as (_ & _ & _ & _ & H5 & H6).
  rewrite H5, H6, Hz5, Hz7, existsb_Zrange. simpl orb.
  change (1 + Z.of_nat 35) with 36.
  destruct (Z.leb_spec 1 j); destruct (Z.ltb_spec j 36); destruct (Z.leb_spec j 35);
    simpl; try lia; try (split; reflexivity).
  apply vx2_cond_lane. lia.
Qed.

Lemma iZm_extend_eq (p cs : Z) (x5 x7 : BITMAP) :
  iZm_extend p (cs, x5, x7) =
  (u64 (cs * p),
   bitmap_clear_mod_p (bitmap_duplicate_segment x5 1 cs p) p (lane5_start p)
                      (u64 (u64 (cs * p) + 1)),
   bitmap_clear_mod_p (bitmap_duplicate_segment x7 1 cs p) p (lane7_start p)
                      (u64 (u64 (cs * p) + 1))).
Proof.
  unfold iZm_extend, lane5_start, lane7_start.
  destruct (p mod 6 >? 1); reflexivity.
Qed.

Lemma mod_shift (a t c q : Z) : 0 < q -> (a - t * (c * q)) mod q = a mod q.
Proof.
  intros Hq. replace (a - t * (c * q)) with (a + (- t * c) * q) by ring.
  apply Z.mod_add. lia.
Qed.

Lemma lane_open_periodic (ps : list Z) (cs j : Z) :
  0 < cs -> Forall (fun q => 0 < q /\ cs mod q = 0) ps ->
  lane5_open ps (1 + (j - 1) mod cs) = lane5_open ps j /\
  lane7_open ps (1 + (j - 1) mod cs) = lane7_open ps j.
Proof.
  intros Hcs HF. unfold lane5_open, lane7_open.
  induction HF as [|q ps [Hq Hd] _ [IH5 IH7]]; [split; reflexivity|].
  simpl. rewrite IH5, IH7.
  apply Z.mod_divide in Hd; [|lia]. destruct Hd as [c Hc].
  rewrite (Z.mod_eq (j - 1) cs) by lia.
  replace (6 * (1 + (j - 1 - cs * ((j - 1) / cs))) - 1)
    with (6 * j - 1 - (6 * ((j - 1) / cs)) * (c * q)) by (rewrite Hc; ring).
  replace (6 * (1 + (j - 1 - cs * ((j - 1) / cs))) + 1)
    with (6 * j + 1 - (6 * ((j - 1) / cs)) * (c * q)) by (rewrite Hc; ring).
  rewrite !mod_shift by lia. split; reflexivity.
Qed.

Lemma lane_open_snoc (ps : list Z) (p j : Z) :
  lane5_open (ps ++ [p]) j = lane5_open ps j && negb ((6 * j - 1) mod p =? 0) /\
  lane7_open (ps ++ [p]) j = lane7_open ps j && negb ((6 * j + 1) mod p =? 0).
Proof.
  unfold lane5_open, lane7_open. rewrite !forallb_app. simpl.
  now rewrite !andb_true_r.
Qed.

Lemma fold_right_mul_snoc (l : list Z) (p : Z) :
  fold_right Z.mul 1 (l ++ [p]) = fold_right Z.mul 1 l * p.
Proof. induction l as [|a l IH]; simpl; [lia | rewrite IH; ring]. Qed.

Lemma primorial_S (k : nat) (p : Z) :
  s_primes !! k = Some p -> primorial (S k) = primorial k * p.
Proof.
  intros H. unfold primorial. rewrite (take_S_r _ _ _ H).
  apply fold_right_mul_snoc.
Qed.

(** Indices hit by the stride from the start of lane 5 are those where [p]
    divides [6 * j - 1], among the indices still open. *)
Lemma stride_hits (p s lim j c : Z) :
  0 < p -> Z.gcd p 6 = 1 -> (6 * s + c) mod p = 0 ->
  s <= j <= lim ->
  on_stride p s lim j = ((6 * j + c) mod p =? 0).
Proof.
  intros Hp Hg Hs Hj. unfold on_stride.
  destruct (Z.leb_spec s j); [|lia]. destruct (Z.leb_spec j lim); [|lia]. simpl.
  apply Z.mod_divide in Hs; [|lia].
  destruct (Z.eqb_spec ((j - s) mod p) 0) as [E|E];
    destruct (Z.eqb_spec ((6 * j + c) mod p) 0) as [E'|E']; try reflexivity; exfalso.
  - apply E'. apply Z.mod_divide in E; [|lia]. apply Z.mod_divide; [lia|].
    replace (6 * j + c) with (6 * (j - s) + (6 * s + c)) by ring.
    apply Z.divide_add_r; [apply Z.divide_mul_r|]; assumption.
  - apply E. apply Z.mod_divide in E'; [|lia]. apply Z.mod_divide; [lia|].
    apply (Z.gauss p 6 (j - s)); [|assumption].
    replace (6 * (j - s)) with ((6 * j + c) - (6 * s + c)) by ring.
    apply Z.divide_sub_r; assumption.
Qed.

Lemma forallb_Zrange (f : Z -> bool) (lo : Z) (n : nat) (j : Z) :
  forallb f (Zrange lo n) = true -> lo <= j < lo + Z.of_nat n -> f j = true.
Proof.
  intros H Hj. rewrite forallb_forall in H. apply H. now apply In_Zrange.
Qed.

(** One round of the loop of [construct_iZm_segment] keeps the wheel. *)
Lemma iZm_extend_wheel (k : nat) (p cs : Z) (x5 x7 : BITMAP) :
  wheel_step_ok k = true -> s_primes !! k = Some p ->
  wheel_state k (cs, x5, x7) ->
  well_sized x5 -> well_sized x7 ->
  cs * p + 2 <= size x5 -> cs * p + 2 <= size x7 ->
  let st := iZm_extend p (cs, x5, x7) in
  wheel_state (S k) st /\
  well_sized (snd (fst st)) /\ well_sized (snd st) /\
  size (snd (fst st)) = size x5 /\ size (snd st) = size x7.
Proof.
  intros Hok Hp [Hcs Hbits] [Hw5 H645] [Hw7 H647] Hsz5 Hsz7. cbv zeta.
  unfold wheel_step_ok in Hok. rewrite Hp in Hok. cbv zeta in Hok.
  repeat (apply andb_true_iff in Hok; destruct Hok as [Hok ?]).
  repeat match goal with
         | H : (_ <=? _) = true |- _ => apply Z.leb_le in H
         | H : (_ <? _) = true |- _ => apply Z.ltb_lt in H
         | H : (_ =? _) = true |- _ => apply Z.eqb_eq in H
         end.
  rename H into F7, H0 into F5, H1 into E7, H2 into E5, H3 into S7, H4 into S5,
         H5 into Hdiv, H6 into Hbound, H7 into Hcspos, H8 into Hgcd, H9 into Hp100.
  rewrite <- Hcs in *.
  assert (HdivF : Forall (fun q => 0 < q /\ cs mod q = 0) (take k s_primes)).
  { apply List.Forall_forall. intros q Hq. rewrite forallb_forall in Hdiv.
    specialize (Hdiv q Hq). apply andb_true_iff in Hdiv. destruct Hdiv as [A B].
    apply Z.ltb_lt in A. apply Z.eqb_eq in B. now split. }
  assert (Hcp : cs <= cs * p) by nia.
  rewrite iZm_extend_eq. cbn [fst snd].
  rewrite (u64_small (cs * p)) by (unfold two64; lia).
  rewrite (u64_small (cs * p + 1)) by (unfold two64; lia).
  set (d5 := bitmap_duplicate_segment x5 1 cs p).
  set (d7 := bitmap_duplicate_segment x7 1 cs p).
  assert (Hd5 : forall j, 0 <= j ->
            length (data d5) = length (data x5) /\ size d5 = size x5 /\
            bitmap_get_bit d5 j =
              if (1 <=? j) && (j <? 1 + cs * p)
              then bitmap_get_bit x5 (1 + (j - 1) mod cs) else bitmap_get_bit x5 j).
  { intros j Hj. apply bitmap_duplicate_segment_spec; lia. }
  assert (Hd7 : forall j, 0 <= j ->
            length (data d7) = length (data x7) /\ size d7 = size x7 /\
            bitmap_get_bit d7 j =
              if (1 <=? j) && (j <? 1 + cs * p)
              then bitmap_get_bit x7 (1 + (j - 1) mod cs) else bitmap_get_bit x7 j).
  { intros j Hj. apply bitmap_duplicate_segment_spec; lia. }
  destruct (Hd5 0 ltac:(lia)) as (Hl5 & Hs5 & _).
  destruct (Hd7 0 ltac:(lia)) as (Hl7 & Hs7 & _).
  assert (Hc5 : forall j, 0 <= j ->
            let b := bitmap_clear_mod_p d5 p (lane5_start p) (cs * p + 1) in
            length (data b) = length (data d5) /\ size b = size d5 /\
            bitmap_get_bit b j =
              bitmap_get_bit d5 j && negb (on_stride p (lane5_start p) (cs * p + 1) j)).
  { intros j Hj. apply bitmap_clear_mod_p_spec; unfold two64; lia. }
  assert (Hc7 : forall j, 0 <= j ->
            let b := bitmap_clear_mod_p d7 p (lane7_start p) (cs * p + 1) in
            length (data b) = length (data d7) /\ size b = size d7 /\
            bitmap_get_bit b j =
              bitmap_get_bit d7 j && negb (on_stride p (lane7_start p) (cs * p + 1) j)).
  { intros j Hj. apply bitmap_clear_mod_p_spec; unfold two64; lia. }
  cbv zeta in Hc5, Hc7.
  destruct (Hc5 0 ltac:(lia)) as (Hl5' & Hs5' & _).
  destruct (Hc7 0 ltac:(lia)) as (Hl7' & Hs7' & _).
  split; [| unfold well_sized; rewrite Hl5', Hl7', Hs5', Hs7', Hl5, Hl7, Hs5, Hs7; tauto].
  split; [rewrite (primorial_S k p Hp); congruence |].
  intros j Hj.
  destruct (Hc5 j Hj) as (_ & _ & ->). destruct (Hc7 j Hj) as (_ & _ & ->).
  destruct (Hd5 j Hj) as (_ & _ & ->). destruct (Hd7 j Hj) as (_ & _ & ->).
  rewrite (take_S_r _ _ _ Hp).
  destruct (lane_open_snoc (take k s_primes) p j) as [-> ->].
  destruct (lane_open_periodic (take k s_primes) cs j Hcspos HdivF) as [P5 P7].
  pose proof (Z.mod_pos_bound (j - 1) cs Hcspos) as Hmod.
  destruct (Hbits (1 + (j - 1) mod cs) ltac:(lia)) as [B5 B7].
  destruct (Hbits j Hj) as [C5 C7].
  destruct (Z.leb_spec 1 j) as [H1j|H1j]; destruct (Z.ltb_spec j (1 + cs * p)) as [Hjcp|Hjcp];
    destruct (Z.leb_spec j (cs * p)); try lia; cbn [andb].
  - (* 1 <= j <= cs * p *)
    rewrite B5, B7, P5, P7.
    destruct (Z.leb_spec 1 (1 + (j - 1) mod cs)); [|lia].
    destruct (Z.leb_spec (1 + (j - 1) mod cs) cs); [|lia]. cbn [andb].
    split.
    + destruct (lane5_open (take k s_primes) j) eqn:Ho; [|reflexivity]. cbn [andb].
      f_equal.
      destruct (Z_lt_le_dec j (lane5_start p)) as [Hlt|Hge].
      * pose proof (forallb_Zrange _ _ _ j F5 ltac:(lia)) as Hf. simpl in Hf.
        rewrite Ho in Hf. simpl in Hf.
        destruct ((6 * j - 1) mod p =? 0); [discriminate|].
        unfold on_stride. destruct (Z.leb_spec (lane5_start p) j); [lia | reflexivity].
      * rewrite (stride_hits p (lane5_start p) (cs * p + 1) j (-1));
          [reflexivity | lia | assumption | exact E5 | lia].
    + destruct (lane7_open (take k s_primes) j) eqn:Ho; [|reflexivity]. cbn [andb].
      f_equal.
      destruct (Z_lt_le_dec j (lane7_start p)) as [Hlt|Hge].
      * pose proof (forallb_Zrange _ _ _ j F7 ltac:(lia)) as Hf. simpl in Hf.
        rewrite Ho in Hf. simpl in Hf.
        destruct ((6 * j + 1) mod p =? 0); [discriminate|].
        unfold on_stride. destruct (Z.leb_spec (lane7_start p) j); [lia | reflexivity].
      * rewrite (stride_hits p (lane7_start p) (cs * p + 1) j 1);
          [reflexivity | lia | assumption | exact E7 | lia].
  - (* cs * p < j *)
    rewrite C5, C7. destruct (Z.leb_spec j cs); [lia|].
    rewrite !andb_false_r. split; reflexivity.
  - (* j = 0 *)
    rewrite C5, C7. destruct (Z.leb_spec 1 j); [lia|]. split; reflexivity.
Qed.

Lemma wheel_run_ok_all : forallb wheel_run_ok (seq 2 13) = true.
Proof. vm_compute. reflexivity. Qed.

Lemma wheel_run_ok_at (K : nat) : (2 <= K <= 14)%nat -> wheel_run_ok K = true.
Proof.
  intros HK. pose proof wheel_run_ok_all as H. rewrite forallb_forall in H.
  apply H. apply in_seq. lia.
Qed.

Lemma s_primes_lookup (k : nat) :
  (k < 23)%nat -> exists p, s_primes !! k = Some p.
Proof.
  intros Hk. apply lookup_lt_is_Some_2. exact Hk.
Qed.

(** The loop of [construct_iZm_segment], from the wheel of the first [k]
    primes to the wheel of the first [K]. *)
Lemma iZm_loop_wheel (n : nat) :
  forall (k K : nat) (st : Z * BITMAP * BITMAP),
    (k + n = K)%nat -> (2 <= k)%nat -> (K <= 14)%nat ->
    wheel_state k st ->
    well_sized (snd (fst st)) -> well_sized (snd st) ->
    primorial K + 2 <= size (snd (fst st)) -> primorial K + 2 <= size (snd st) ->
    wheel_state K (iZm_loop (primorial K) (drop k s_primes) st).
Proof.
  induction n as [|n IH]; intros k K [[cs x5] x7] HkK Hk HK Hst Hw5 Hw7 Hs5 Hs7;
    cbn [fst snd] in *.
  - assert (k = K) by lia. subst k.
    pose proof (wheel_run_ok_at K ltac:(lia)) as Hrun.
    unfold wheel_run_ok in Hrun.
    apply andb_true_iff in Hrun. destruct Hrun as [Hrun _].
    apply andb_true_iff in Hrun. destruct Hrun as [_ Hstop].
    destruct (s_primes_lookup K ltac:(lia)) as [p Hp].
    rewrite (drop_S _ _ _ Hp). cbn [iZm_loop].
    rewrite Hp in Hstop. simpl default in Hstop.
    apply negb_true_iff in Hstop. rewrite Hstop. exact Hst.
  - pose proof (wheel_run_ok_at K ltac:(lia)) as Hrun.
    unfold wheel_run_ok in Hrun.
    apply andb_true_iff in Hrun. destruct Hrun as [Hrun _].
    apply andb_true_iff in Hrun. destruct Hrun as [Hrun _].
    rewrite forallb_forall in Hrun.
    specialize (Hrun k ltac:(apply in_seq; lia)).
    apply andb_true_iff in Hrun. destruct Hrun as [Hrun Hmono].
    apply andb_true_iff in Hrun. destruct Hrun as [Hstep Hdiv].
    destruct (s_primes_lookup k ltac:(lia)) as [p Hp].
    rewrite Hp in Hdiv. simpl default in Hdiv.
    apply Z.leb_le in Hmono. rewrite (primorial_S k p Hp) in Hmono.
    rewrite (drop_S _ _ _ Hp). cbn [iZm_loop]. rewrite Hdiv.
    assert (Hcs : cs = primorial k) by (destruct Hst; assumption).
    pose proof (iZm_extend_wheel k p cs x5 x7 Hstep Hp Hst Hw5 Hw7
                  ltac:(lia) ltac:(lia)) as Hext.
    cbv zeta in Hext. destruct Hext as (Hst' & Hw5' & Hw7' & Hs5' & Hs7').
    apply (IH (S k) K); try lia; try assumption; congruence.
Qed.

(** ** The small primes are primes, and the only primes dividing a primorial *)

Lemma prime_by_trial (p : Z) :
  1 < p ->
  forallb (fun n => negb (p mod n =? 0)) (Zrange 2 (Z.to_nat (p - 2))) = true ->
  Z.prime p.
Proof.
  intros Hp Hc. split; [exact Hp|].
  intros n Hn Hd.
  pose proof (forallb_Zrange _ 2 (Z.to_nat (p - 2)) n Hc ltac:(lia)) as H.
  apply negb_true_iff in H. apply Z.eqb_neq in H.
  apply H. apply Z.mod_divide; [lia | exact Hd].
Qed.

Lemma s_primes_prime : List.Forall Z.prime s_primes.
Proof.
  unfold s_primes.
  repeat (apply List.Forall_cons;
          [apply prime_by_trial; [lia | vm_compute; reflexivity] |]).
  apply List.Forall_nil.
Qed.

Lemma prime_divides_product (q : Z) (l : list Z) :
  Z.prime q -> List.Forall Z.prime l -> (q | fold_right Z.mul 1 l) -> In q l.
Proof.
  intros Hq Hl. induction Hl as [|a l Ha _ IH]; simpl; intros Hd.
  - exfalso. destruct Hq as [H1 _].
    apply Z.divide_1_r_nonneg in Hd; lia.
  - apply Z.divide_prime_mul in Hd; [|exact Hq]. destruct Hd as [Hd|Hd].
    + left. symmetry. apply Z.divide_prime_prime; assumption.
    + right. apply IH. exact Hd.
Qed.

Lemma element_divides_product (q : Z) (l : list Z) :
  In q l -> (q | fold_right Z.mul 1 l).
Proof.
  induction l as [|a l IH]; simpl; [tauto|].
  intros [->|Hin].
  - apply Z.divide_mul_l. apply Z.divide_refl.
  - apply Z.divide_mul_r. apply IH. exact Hin.
Qed.

Lemma take_s_primes_prime (k : nat) : List.Forall Z.prime (take k s_primes).
Proof.
  apply List.Forall_forall. intros q Hq.
  pose proof s_primes_prime as H. rewrite List.Forall_forall in H. apply H.
  apply list_elem_of_In. apply list_elem_of_In in Hq.
  eapply subseteq_take. exact Hq.
Qed.

Lemma lane5_open_prime_divisors (k : nat) (x : Z) :
  lane5_open (take k s_primes) x = true <->
  forall q, Z.prime q -> (q | primorial k) -> ~ (q | 6 * x - 1).
Proof.
  unfold lane5_open. rewrite forallb_forall. split.
  - intros H q Hq Hd Hx.
    pose proof (prime_divides_product q _ Hq (take_s_primes_prime k) Hd) as Hin.
    specialize (H q Hin). apply negb_true_iff in H. apply Z.eqb_neq in H.
    apply H. apply Z.mod_divide; [destruct Hq; lia | exact Hx].
  - intros H q Hin.
    pose proof (take_s_primes_prime k) as HP. rewrite List.Forall_forall in HP.
    pose proof (HP q Hin) as Hq.
    apply negb_true_iff. apply Z.eqb_neq. intros Hm.
    apply (H q Hq (element_divides_product q _ Hin)).
    apply Z.mod_divide; [destruct Hq; lia | exact Hm].
Qed.

Lemma lane7_open_prime_divisors (k : nat) (x : Z) :
  lane7_open (take k s_primes) x = true <->
  forall q, Z.prime q -> (q | primorial k) -> ~ (q | 6 * x + 1).
Proof.
  unfold lane7_open. rewrite forallb_forall. split.
  - intros H q Hq Hd Hx.
    pose proof (prime_divides_product q _ Hq (take_s_primes_prime k) Hd) as Hin.
    specialize (H q Hin). apply negb_true_iff in H. apply Z.eqb_neq in H.
    apply H. apply Z.mod_divide; [destruct Hq; lia | exact Hx].
  - intros H q Hin.
    pose proof (take_s_primes_prime k) as HP. rewrite List.Forall_forall in HP.
    pose proof (HP q Hin) as Hq.
    apply negb_true_iff. apply Z.eqb_neq. intros Hm.
    apply (H q Hq (element_divides_product q _ Hin)).
    apply Z.mod_divide; [destruct Hq; lia | exact Hm].
Qed.

Lemma bitmap_create_well_sized (sz : Z) (b : BITMAP) :
  bitmap_create sz = Some b -> 0 < sz < two64 - 7 ->
  well_sized b /\ size b = sz /\ forall j, bitmap_get_bit b j = false.
Proof.
  intros Hc Hsz. destruct (bitmap_create_spec sz b Hc) as (Hs & Hl & Hz).
  split; [|split; assumption].
  unfold well_sized. rewrite Hs, Hl. unfold byte_size.
  rewrite u64_small by lia.
  assert (0 <= (sz + 7) / 8) by (apply Z.div_pos; lia).
  rewrite Z2Nat.id by assumption.
  pose proof (Z.div_mod (sz + 7) 8 ltac:(lia)).
  pose proof (Z.mod_pos_bound (sz + 7) 8 ltac:(lia)). lia.
Qed.

Lemma primorial_ge_35 (k : nat) : (2 <= k <= 14)%nat -> 35 <= primorial k.
Proof.
  intros Hk.
  assert (Hc : forallb (fun k => 35 <=? primorial k) (seq 2 13) = true)
    by (vm_compute; reflexivity).
  rewrite forallb_forall in Hc. apply Z.leb_le. apply Hc. apply in_seq. lia.
Qed.

(** The wheel built by [construct_iZm_segment] on freshly created bitmaps. *)
Lemma construct_iZm_segment_wheel (k : nat) (sz5 sz7 : Z) (b5 b7 : BITMAP) :
  (2 <= k <= 14)%nat ->
  bitmap_create sz5 = Some b5 -> bitmap_create sz7 = Some b7 ->
  primorial k + 2 <= sz5 < two64 - 7 ->
  primorial k + 2 <= sz7 < two64 - 7 ->
  let w := construct_iZm_segment (primorial k) b5 b7 in
  wheel_state k (primorial k, fst w, snd w).
Proof.
  intros Hk Hc5 Hc7 Hs5 Hs7. cbv zeta.
  pose proof (primorial_ge_35 k Hk) as H35.
  destruct (bitmap_create_well_sized sz5 b5 Hc5 ltac:(lia)) as ([Hw5 H645] & Hsz5 & Hz5).
  destruct (bitmap_create_well_sized sz7 b7 Hc7 ltac:(lia)) as ([Hw7 H647] & Hsz7 & Hz7).
  pose proof (construct_vx2_spec b5 b7 Hz5 Hz7 ltac:(lia) ltac:(lia)) as Hvx2.
  cbv zeta in Hvx2. unfold construct_iZm_segment.
  destruct (construct_vx2 b5 b7) as [a5 a7]. cbn [fst snd] in Hvx2.
  destruct Hvx2 as (Hl5 & Hl7 & Ha5 & Ha7 & Hst).
  pose proof (iZm_loop_wheel (k - 2) 2 k (35, a5, a7) ltac:(lia) ltac:(lia)
                ltac:(lia) Hst) as Hloop.
  cbn [fst snd] in Hloop.
  assert (Hloop' : wheel_state k (iZm_loop (primorial k) (drop 2 s_primes) (35, a5, a7))).
  { apply Hloop; unfold well_sized; rewrite ?Hl5, ?Hl7, ?Ha5, ?Ha7; try split; lia. }
  destruct (iZm_loop (primorial k) (drop 2 s_primes) (35, a5, a7)) as [[cs x5] x7].
  cbn [fst snd]. destruct Hloop' as [Hcs Hbits]. split; [reflexivity|].
  rewrite <- Hcs. exact Hbits.
Qed.

(** C5, amended.  After [construct_iZm_segment(vx, x5, x7)] for the
    primorial [vx] of the first [k] small primes from 5 on ([2 <= k <= 14],
    the primorials that fit in 64 bits), each lane is characterised on its
    own: bit [x] of [x5] is set exactly when [1 <= x <= vx] and no prime
    dividing [vx] divides [6x - 1]; bit [x] of [x7] is set exactly when
    [1 <= x <= vx] and no prime dividing [vx] divides [6x + 1]. *)
Theorem construct_iZm_segment_lanes
        (k : nat) (sz5 sz7 : Z) (b5 b7 : BITMAP) (x : Z) :
  (2 <= k <= 14)%nat ->
  bitmap_create sz5 = Some b5 -> bitmap_create sz7 = Some b7 ->
  primorial k + 2 <= sz5 < two64 - 7 ->
  primorial k + 2 <= sz7 < two64 - 7 ->
  0 <= x ->
  let vx := primorial k in
  let w := construct_iZm_segment vx b5 b7 in
  (bitmap_get_bit (fst w) x = true <->
     1 <= x <= vx /\ forall q, Z.prime q -> (q | vx) -> ~ (q | 6 * x - 1)) /\
  (bitmap_get_bit (snd w) x = true <->
     1 <= x <= vx /\ forall q, Z.prime q -> (q | vx) -> ~ (q | 6 * x + 1)).
Proof.
  intros Hk Hc5 Hc7 Hs5 Hs7 Hx. cbv zeta.
  destruct (construct_iZm_segment_wheel k sz5 sz7 b5 b7 Hk Hc5 Hc7 Hs5 Hs7)
    as [_ Hbits].
  destruct (Hbits x Hx) as [-> ->].
  rewrite <- lane5_open_prime_divisors, <- lane7_open_prime_divisors.
  rewrite !andb_true_iff, !Z.leb_le. tauto.
Qed.

Lemma construct_iZm_segment_lanes_witness :
  bitmap_get_bit (fst (fresh_wheel 35 10)) 4 = true <->
  1 <= 4 <= 35 /\ forall q, Z.prime q -> (q | 35) -> ~ (q | 6 * 4 - 1).
Proof.
  pose proof (construct_iZm_segment_lanes 2 45 45
                (mkBITMAP 45 (replicate 6 0) None) (mkBITMAP 45 (replicate 6 0) None) 4
                ltac:(lia) eq_refl eq_refl) as H.
  apply H; [change (primorial 2) with 35; unfold two64; lia ..| lia].
Defined.

(** C5 as stated fails at [vx = 35], [x = 4]: bit 4 of [x5] is set (23 is
    prime to 35) although 5 divides [6 * 4 + 1]. *)
Lemma wheel_union_not_intersection :
  let w := fresh_wheel 35 10 in
  ~ ((bitmap_get_bit (fst w) 4 = true \/ bitmap_get_bit (snd w) 4 = true) <->
     (1 <= 4 <= 35 /\
      forall q, Z.prime q -> (q | 35) -> ~ (q | 6 * 4 - 1) /\ ~ (q | 6 * 4 + 1))).
Proof.
  cbv zeta. intros [H _].
  assert (H5 : bitmap_get_bit (fst (fresh_wheel 35 10)) 4 = true)
    by (vm_compute; reflexivity).
  destruct (H (or_introl H5)) as [_ Hq].
  assert (P5 : Z.prime 5) by (apply prime_by_trial; [lia | vm_compute; reflexivity]).
  destruct (Hq 5 P5 ltac:(exists 7; lia)) as [_ Hn].
  apply Hn. exists 5. lia.
Qed.

Lemma to_int_small (z : Z) : - 2 ^ 31 <= z < 2 ^ 31 -> to_int z = z.
Proof. intros H. unfold to_int. rewrite Z.mod_small; lia. Qed.

Lemma lane_starts (p : Z) :
  5 <= p < 2 ^ 31 ->
  let x_p := (p + 1) / 6 in
  (p mod 6 = 5 -> lane5_start p = x_p /\ lane7_start p = p * x_p - x_p) /\
  (p mod 6 = 1 -> lane5_start p = p * x_p - x_p /\ lane7_start p = x_p).
Proof.
  intros Hp. cbv zeta. unfold lane5_start, lane7_start.
  rewrite (u64_small (p + 1)) by (unfold two64; lia).
  assert (H1 : 1 <= (p + 1) / 6) by (apply Z.div_le_lower_bound; lia).
  assert (H2 : (p + 1) / 6 < p) by (apply Z.div_lt_upper_bound; lia).
  rewrite to_int_small by lia.
  assert (H3 : 0 <= p * ((p + 1) / 6) < 2 ^ 62) by nia.
  assert (H4 : (p + 1) / 6 <= p * ((p + 1) / 6)) by nia.
  rewrite (u64_small ((p + 1) / 6)) by (unfold two64; lia).
  rewrite (u64_small (p * ((p + 1) / 6))) by (unfold two64; lia).
  rewrite (u64_small (p * ((p + 1) / 6) - (p + 1) / 6)) by (unfold two64; lia).
  split; intros Hm; rewrite Hm; simpl; split; reflexivity.
Qed.




Example iZm_extend_11_bits :
  let w := fresh_wheel 35 360 in
  let '(_, x5, x7) := iZm_extend 11 (35, fst w, snd w) in
  let '(_, s5, s7) := iZm_extend_as_specified 11 (35, fst w, snd w) in
  bitmap_get_bit x5 2 = false /\ bitmap_get_bit x7 2 = true /\
  bitmap_get_bit x7 20 = false /\
  bitmap_get_bit s5 2 = true /\ bitmap_get_bit s7 2 = false.
Proof. vm_compute. repeat split; reflexivity. Qed.

(** ** [sieve_iZ] and [sieve_iZm] on concrete bounds *)

(** [sieve_iZ(30)], with the capacity 12 that [pi_n(30) * 1.5] yields
    ([30 / ln 30 = 8.82]). *)
Example sieve_iZ_30 :
  match sieve_iZ 12 30 with
  | Done primes => primes_of primes = [2; 3; 5; 7; 11; 13; 17; 19; 23; 29]
  | Stop _ => False
  end.
Proof. vm_compute. reflexivity. Qed.

(** Given room, both sieves return the primes up to [n]. *)
Example sieves_agree_with_room :
  forallb (fun n =>
             match sieve_iZ 400 n, sieve_iZm 400 n with
             | Done a, Done b =>
                 bool_decide (primes_of a = primes_upto n) &&
                 bool_decide (primes_of b = primes_upto n)
             | _, _ => false
             end)
          [30; 100; 1000] = true.
Proof. vm_compute. reflexivity. Qed.

(** [sieve_iZm(100)] appends 47 primes: 2, 3, the wheel primes 5 and 7, and
    the 43 primes of segment 0, which spans [x = 2 .. 35], that is the
    numbers up to 211, whatever [n] is. *)
Example sieve_iZm_100_needs_47 :
  sieve_iZm 46 100 = Stop OutOfBoundsWrite /\
  match sieve_iZm 47 100 with
  | Done primes => primes_of primes = primes_upto 100
  | Stop _ => False
  end.
Proof. split; vm_compute; reflexivity. Qed.

(** C1.  [sieve_iZm(100)] writes past the end of its prime array for every
    capacity below 47; the capacity it asks for is
    [(int)(pi_n(100) * 1.5) = 31]. *)
Theorem sieve_iZm_100_overflows (initial_estimate : Z) :
  0 < initial_estimate < 47 ->
  sieve_iZm initial_estimate 100 = Stop OutOfBoundsWrite.
Proof.
  intros H.
  assert (Hc : forallb (fun c => match sieve_iZm c 100 with
                                 | Stop OutOfBoundsWrite => true
                                 | _ => false
                                 end) (Zrange 1 46) = true)
    by (vm_compute; reflexivity).
  pose proof (forallb_Zrange _ 1 46 initial_estimate Hc ltac:(lia)) as Hi.
  cbv beta in Hi.
  destruct (sieve_iZm initial_estimate 100) as [a|[]]; try discriminate Hi.
  reflexivity.
Qed.

Lemma sieve_iZm_100_overflows_witness :
  sieve_iZm 31 100 = Stop OutOfBoundsWrite.
Proof. apply (sieve_iZm_100_overflows 31). lia. Defined.

(** ** [random_iZprime] *)

(** C7.  Lane +1, 8 bits, one worker, first draw 1: [vx] is 35, the base is
    [13 + 35 = 48], and the first candidate [48 + 35 = 83] is prime.  83 is
    [6 * 14 - 1], on lane -1.  Lane -1, 12 bits, draw 1: [vx] is 385 and the
    search returns 787, which is on lane +1 and has 10 bits. *)
Theorem random_iZprime_leaves_lane :
  let cached := primes_upto 100 in
  random_iZprime exact_prime_test cached [1] 1 8 25 1 = Done 83 /\
  83 mod 6 <> (6 + 1) mod 6 /\
  random_iZprime exact_prime_test cached [1] (-1) 12 25 1 = Done 787 /\
  787 mod 6 <> (6 + -1) mod 6 /\
  bit_length 787 < 12 - 1.
Proof.
  cbv zeta. repeat split; try (vm_compute; reflexivity);
    vm_compute; discriminate.
Qed.

(** Each step of the search adds [vx], which is odd, so the candidates run
    through every residue modulo 6; six steps are needed to come back to the
    lane of the base. *)
Lemma search_step_changes_lane (p vx : Z) :
  Z.gcd vx 6 = 1 -> (p + vx) mod 6 <> p mod 6.
Proof.
  intros Hg Heq.
  assert (Hv : vx mod 6 = 0).
  { replace vx with ((p + vx) - p) by ring.
    rewrite Zminus_mod, Heq, Z.sub_diag. reflexivity. }
  apply Z.mod_divide in Hv; [|lia].
  assert (H6 : (6 | Z.gcd vx 6)).
  { apply Z.gcd_greatest; [exact Hv | apply Z.divide_refl]. }
  rewrite Hg in H6. apply Z.divide_1_r_nonneg in H6; lia.
Qed.


(** ** The gap walk of [vx6_sieve] *)

Lemma bitmap_get_clear_bit_other (b : BITMAP) (i j : Z) :
  0 <= i -> 0 <= j -> i <> j ->
  bitmap_get_bit (bitmap_clear_bit b i) j = bitmap_get_bit b j.
Proof.
  intros Hi Hj Hne.
  destruct (Z_lt_le_dec i (8 * Z.of_nat (length (data b)))) as [Hin|Hout].
  - rewrite bitmap_get_clear_bit by (unfold in_range; lia || assumption).
    destruct (Z.eqb_spec i j); [contradiction | reflexivity].
  - assert (Hk : (length (data b) <= Z.to_nat (i / 8))%nat).
    { assert (Z.of_nat (length (data b)) <= i / 8)
        by (apply Z.div_le_lower_bound; lia). lia. }
    unfold bitmap_clear_bit, set_byte, bitmap_get_bit, get_byte. simpl.
    rewrite list_insert_ge by exact Hk. reflexivity.
Qed.

Lemma last_cons_default (c prev : Z) (l : list Z) :
  List.last (c :: l) prev = List.last l c.
Proof.
  revert c prev. induction l as [|a l IH]; intros c prev; [reflexivity|].
  change (List.last (c :: a :: l) prev) with (List.last (a :: l) prev).
  rewrite IH. symmetry. apply IH.
Qed.

Lemma gaps_from_app (prev : Z) (l1 l2 : list Z) :
  gaps_from prev (l1 ++ l2)
  = gaps_from prev l1 ++ gaps_from (List.last l1 prev) l2.
Proof.
  revert prev. induction l1 as [|c l1 IH]; intros prev; [reflexivity|].
  rewrite last_cons_default. simpl. now rewrite IH.
Qed.

Lemma Zrange_S (lo : Z) (n : nat) :
  Zrange lo (S n) = lo :: Zrange (lo + 1) n.
Proof.
  unfold Zrange. simpl. f_equal; [lia|].
  rewrite <- seq_shift, map_map. apply map_ext. intros k. lia.
Qed.

(** Closes the last conjuncts of [walk_visit_spec]: the count, the gap
    counter and the untouched bits. *)
Ltac finish_visit :=
  match goal with
  | Hc4 : w_p_count ?st4 = _, R4gap : w_gap ?st4 = _,
    H45 : w_x5 ?st4 = _, H25 : forall j, 0 <= j -> j <> _ -> bitmap_get_bit (w_x5 _) j = _,
    H47 : forall j, 0 <= j -> j <> _ -> bitmap_get_bit (w_x7 ?st4) j = _ |- _ =>
      split; [repeat constructor; lia |
      split; [exact Hc4 |
      split; [rewrite R4gap; lia |
      split; [rewrite R4gap; lia |
      split; [intros j Hj Hn; rewrite H45; apply H25; assumption
             | exact H47]]]]]
  end.

Section Walk.

Variable probab_prime : Z -> Z -> bool.
Variable is_large_limit : bool.
Variables rounds yvx : Z.

Let lane_value (lane x : Z) : Z := iZ_gmp (yvx + x) lane.
Let hit (b : BITMAP) (lane x : Z) : bool :=
  bitmap_get_bit b x && accepted probab_prime is_large_limit rounds yvx lane x.

Lemma record_gap_spec (st : walk_state) :
  w_p_count st = Z.of_nat (length (w_p_gaps st)) ->
  Z.of_nat (length (w_p_gaps st)) < p_gaps_capacity ->
  record_gap st =
  Done {| w_x5 := w_x5 st; w_x7 := w_x7 st;
          w_p_gaps := w_p_gaps st ++ [u16 (w_gap st)];
          w_p_count := Z.of_nat (length (w_p_gaps st)) + 1;
          w_gap := 0 |}.
Proof.
  intros Hc Hcap. unfold record_gap. rewrite Hc.
  assert (Hcapv : p_gaps_capacity = 808307) by reflexivity.
  destruct (Z.leb_spec 0 (Z.of_nat (length (w_p_gaps st)))); [|lia].
  destruct (Z.ltb_spec (Z.of_nat (length (w_p_gaps st))) p_gaps_capacity); [|lia].
  simpl andb. cbv iota. rewrite Nat2Z.id.
  rewrite (proj2 (Nat.ltb_ge _ _)) by lia.
  rewrite to_int_small by lia. reflexivity.
Qed.

(** The test on lane -1 at [x]. *)
Lemma walk_lane5_spec (x : Z) (st : walk_state) :
  0 <= x ->
  w_p_count st = Z.of_nat (length (w_p_gaps st)) ->
  (hit (w_x5 st) (-1) x = true ->
   Z.of_nat (length (w_p_gaps st)) < p_gaps_capacity) ->
  exists st',
    walk_lane probab_prime is_large_limit rounds yvx (-1) x st = Done st' /\
    w_x7 st' = w_x7 st /\
    (forall j, 0 <= j -> j <> x ->
               bitmap_get_bit (w_x5 st') j = bitmap_get_bit (w_x5 st) j) /\
    w_p_count st' = Z.of_nat (length (w_p_gaps st')) /\
    if hit (w_x5 st) (-1) x
    then w_p_gaps st' = w_p_gaps st ++ [u16 (w_gap st)] /\ w_gap st' = 0
    else w_p_gaps st' = w_p_gaps st /\ w_gap st' = w_gap st.
Proof.
  intros Hx Hc Hcap. unfold walk_lane, hit, accepted in *.
  change (-1 <? 0) with true. cbv iota.
  destruct (bitmap_get_bit (w_x5 st) x); simpl andb.
  - destruct (if is_large_limit
              then probab_prime (iZ_gmp (yvx + x) (-1)) rounds else true).
    + rewrite record_gap_spec by (try assumption; apply Hcap; reflexivity). eexists. split; [reflexivity|].
      simpl. repeat split; try reflexivity.
      rewrite length_app. simpl. lia.
    + eexists. split; [reflexivity|]. simpl. repeat split; try assumption.
      intros j Hj Hne. apply bitmap_get_clear_bit_other; lia.
  - eexists. split; [reflexivity|]. repeat split; assumption || reflexivity.
Qed.

(** The test on lane +1 at [x]. *)
Lemma walk_lane7_spec (x : Z) (st : walk_state) :
  0 <= x ->
  w_p_count st = Z.of_nat (length (w_p_gaps st)) ->
  (hit (w_x7 st) 1 x = true ->
   Z.of_nat (length (w_p_gaps st)) < p_gaps_capacity) ->
  exists st',
    walk_lane probab_prime is_large_limit rounds yvx 1 x st = Done st' /\
    w_x5 st' = w_x5 st /\
    (forall j, 0 <= j -> j <> x ->
               bitmap_get_bit (w_x7 st') j = bitmap_get_bit (w_x7 st) j) /\
    w_p_count st' = Z.of_nat (length (w_p_gaps st')) /\
    if hit (w_x7 st) 1 x
    then w_p_gaps st' = w_p_gaps st ++ [u16 (w_gap st)] /\ w_gap st' = 0
    else w_p_gaps st' = w_p_gaps st /\ w_gap st' = w_gap st.
Proof.
  intros Hx Hc Hcap. unfold walk_lane, hit, accepted in *.
  change (1 <? 0) with false. cbv iota.
  destruct (bitmap_get_bit (w_x7 st) x); simpl andb.
  - destruct (if is_large_limit
              then probab_prime (iZ_gmp (yvx + x) 1) rounds else true).
    + rewrite record_gap_spec by (try assumption; apply Hcap; reflexivity). eexists. split; [reflexivity|].
      simpl. repeat split; try reflexivity.
      rewrite length_app. simpl. lia.
    + eexists. split; [reflexivity|]. simpl. repeat split; try assumption.
      intros j Hj Hne. apply bitmap_get_clear_bit_other; lia.
  - eexists. split; [reflexivity|]. repeat split; assumption || reflexivity.
Qed.

Lemma survivors_at_ext (a5 a7 b5 b7 : BITMAP) (x : Z) :
  bitmap_get_bit a5 x = bitmap_get_bit b5 x ->
  bitmap_get_bit a7 x = bitmap_get_bit b7 x ->
  survivors_at probab_prime is_large_limit rounds yvx a5 a7 x
  = survivors_at probab_prime is_large_limit rounds yvx b5 b7 x.
Proof. intros H5 H7. unfold survivors_at. now rewrite H5, H7. Qed.

Lemma flat_map_survivors_ext (a5 a7 b5 b7 : BITMAP) (lo : Z) (n : nat) :
  0 <= lo ->
  (forall j, lo <= j -> bitmap_get_bit a5 j = bitmap_get_bit b5 j) ->
  (forall j, lo <= j -> bitmap_get_bit a7 j = bitmap_get_bit b7 j) ->
  flat_map (survivors_at probab_prime is_large_limit rounds yvx a5 a7)
           (Zrange lo n)
  = flat_map (survivors_at probab_prime is_large_limit rounds yvx b5 b7)
             (Zrange lo n).
Proof.
  revert lo. induction n as [|n IH]; intros lo Hlo H5 H7; [reflexivity|].
  rewrite Zrange_S. cbn [flat_map]. f_equal.
  - apply survivors_at_ext; [apply H5 | apply H7]; lia.
  - apply IH; [lia | |]; intros j Hj; [apply H5 | apply H7]; lia.
Qed.

(** One round of the walk, at [x]: the state after it, in terms of the two
    lists of survivors at [x]. *)
Lemma walk_visit_spec (x : Z) (st : walk_state) (prev : Z) :
  1 <= x <= vx6 ->
  w_p_count st = Z.of_nat (length (w_p_gaps st)) ->
  let A := survivors_at probab_prime is_large_limit rounds yvx
                        (w_x5 st) (w_x7 st) x in
  Z.of_nat (length (w_p_gaps st)) + Z.of_nat (length A) <= p_gaps_capacity ->
  w_gap st = lane_value 1 (x - 1) - prev ->
  0 <= w_gap st <= 6 * x ->
  exists st',
    walk_visit probab_prime is_large_limit rounds yvx (Done st) x = Done st' /\
    w_p_gaps st' = w_p_gaps st ++ map u16 (gaps_from prev A) /\
    List.Forall (fun g => 0 < g) (gaps_from prev A) /\
    w_p_count st' = Z.of_nat (length (w_p_gaps st')) /\
    w_gap st' = lane_value 1 x - List.last A prev /\
    0 <= w_gap st' <= 6 * (x + 1) /\
    (forall j, 0 <= j -> j <> x ->
               bitmap_get_bit (w_x5 st') j = bitmap_get_bit (w_x5 st) j) /\
    (forall j, 0 <= j -> j <> x ->
               bitmap_get_bit (w_x7 st') j = bitmap_get_bit (w_x7 st) j).
Proof.
  assert (Hvx6 : vx6 = 1616615) by reflexivity.
  intros Hx Hc. cbv zeta. intros Hcap Hgap Hb.
  unfold walk_visit. cbn [mbind outcome_bind].
  unfold survivors_at in *. fold (hit (w_x5 st) (-1) x) in *.
  fold (hit (w_x7 st) 1 x) in *.
  fold (lane_value (-1) x) in *. fold (lane_value 1 x) in *.
  assert (Hv5 : lane_value (-1) x = lane_value 1 (x - 1) + 4)
    by (unfold lane_value, iZ_gmp; simpl; lia).
  assert (Hv7 : lane_value 1 x = lane_value (-1) x + 2)
    by (unfold lane_value, iZ_gmp; simpl; lia).
  set (st1 := add_gap 4 st).
  assert (Hg1 : w_gap st1 = lane_value (-1) x - prev).
  { unfold st1, add_gap. simpl. rewrite to_int_small by lia. lia. }
  rewrite length_app in Hcap.
  destruct (walk_lane5_spec x st1 ltac:(lia) Hc) as (st2 & E2 & H27 & H25 & Hc2 & R2).
  { change (w_x5 st1) with (w_x5 st). change (w_p_gaps st1) with (w_p_gaps st).
    intros Hh. rewrite Hh in Hcap. simpl in Hcap. lia. }
  rewrite E2. cbn [mbind outcome_bind].
  change (w_x5 st1) with (w_x5 st) in *. change (w_p_gaps st1) with (w_p_gaps st) in *.
  change (w_x7 st1) with (w_x7 st) in *.
  set (st3 := add_gap 2 st2).
  assert (Hc3 : w_p_count st3 = Z.of_nat (length (w_p_gaps st3))) by exact Hc2.
  destruct (hit (w_x5 st) (-1) x) eqn:Eh5; destruct R2 as [Rg Rgap].
  - (* recorded on lane -1 *)
    assert (Hg3 : w_gap st3 = 2).
    { unfold st3, add_gap. simpl. rewrite Rgap. reflexivity. }
    destruct (walk_lane7_spec x st3 ltac:(lia) Hc3) as (st4 & E4 & H45 & H47 & Hc4 & R4).
    { change (w_x7 st3) with (w_x7 st2). change (w_p_gaps st3) with (w_p_gaps st2).
      rewrite H27, Rg, length_app. intros Hh. rewrite Hh in Hcap.
      simpl in Hcap. simpl. lia. }
    change (w_x7 st3) with (w_x7 st2) in *. change (w_p_gaps st3) with (w_p_gaps st2) in *.
    change (w_x5 st3) with (w_x5 st2) in *.
    rewrite H27 in *. exists st4. split; [exact E4|].
    destruct (hit (w_x7 st) 1 x); destruct R4 as [R4g R4gap];
      cbn [app map gaps_from List.last].
    + split; [|finish_visit].
      rewrite R4g, Rg, Hg3, Hg1, <- app_assoc. cbn [app].
      replace (lane_value 1 x - lane_value (-1) x) with 2 by lia. reflexivity.
    + split; [|finish_visit].
      rewrite R4g, Rg, Hg1. reflexivity.
  - (* nothing recorded on lane -1 *)
    assert (Hg3 : w_gap st3 = lane_value 1 x - prev).
    { unfold st3, add_gap. simpl. rewrite Rgap, Hg1.
      rewrite to_int_small by lia. lia. }
    destruct (walk_lane7_spec x st3 ltac:(lia) Hc3) as (st4 & E4 & H45 & H47 & Hc4 & R4).
    { change (w_x7 st3) with (w_x7 st2). change (w_p_gaps st3) with (w_p_gaps st2).
      rewrite H27, Rg. intros Hh. rewrite Hh in Hcap. simpl in Hcap. lia. }
    change (w_x7 st3) with (w_x7 st2) in *. change (w_p_gaps st3) with (w_p_gaps st2) in *.
    change (w_x5 st3) with (w_x5 st2) in *.
    rewrite H27 in *. exists st4. split; [exact E4|].
    destruct (hit (w_x7 st) 1 x); destruct R4 as [R4g R4gap];
      cbn [app map gaps_from List.last].
    + split; [|finish_visit].
      rewrite R4g, Rg, Hg3. reflexivity.
    + split; [|finish_visit].
      rewrite R4g, Rg, app_nil_r. reflexivity.
Qed.

(** The walk over [lo, lo + 1, ..., lo + n - 1], started in a state whose
    gap counter is the distance from [prev] (the anchor or the last
    survivor) to the iZ+ value at [lo - 1]. *)
Lemma walk_fold (n : nat) :
  forall (lo : Z) (st : walk_state) (prev : Z),
    1 <= lo -> lo + Z.of_nat n <= vx6 + 1 ->
    w_p_count st = Z.of_nat (length (w_p_gaps st)) ->
    let found := flat_map (survivors_at probab_prime is_large_limit rounds
                                        yvx (w_x5 st) (w_x7 st))
                          (Zrange lo n) in
    Z.of_nat (length (w_p_gaps st)) + Z.of_nat (length found)
    <= p_gaps_capacity ->
    w_gap st = lane_value 1 (lo - 1) - prev ->
    0 <= w_gap st <= 6 * lo ->
    exists st',
      fold_left (walk_visit probab_prime is_large_limit rounds yvx)
                (Zrange lo n) (Done st) = Done st' /\
      w_p_gaps st' = w_p_gaps st ++ map u16 (gaps_from prev found) /\
      List.Forall (fun g => 0 < g) (gaps_from prev found) /\
      w_p_count st' = Z.of_nat (length (w_p_gaps st')).
Proof.
  induction n as [|n IH]; intros lo st prev Hlo Hhi Hc; cbv zeta;
    intros Hcap Hgap Hb.
  - exists st. simpl. rewrite app_nil_r.
    repeat split; try assumption; try reflexivity. constructor.
  - rewrite Zrange_S in *. cbn [flat_map fold_left] in *.
    rewrite length_app in Hcap.
    set (A := survivors_at probab_prime is_large_limit rounds yvx
                           (w_x5 st) (w_x7 st) lo) in *.
    destruct (walk_visit_spec lo st prev ltac:(lia) Hc ltac:(fold A; lia) Hgap Hb)
      as (st1 & E1 & Hg1 & Hpos1 & Hc1 & Hgap1 & Hb1 & H5 & H7).
    fold A in Hg1, Hpos1, Hgap1.
    change (mret st) with (Done st). rewrite E1.
    assert (Hext :
      flat_map (survivors_at probab_prime is_large_limit rounds yvx
                             (w_x5 st1) (w_x7 st1)) (Zrange (lo + 1) n)
      = flat_map (survivors_at probab_prime is_large_limit rounds yvx
                               (w_x5 st) (w_x7 st)) (Zrange (lo + 1) n)).
    { apply flat_map_survivors_ext; [lia | |]; intros j Hj;
        [apply H5 | apply H7]; lia. }
    set (B := flat_map (survivors_at probab_prime is_large_limit rounds yvx
                                     (w_x5 st) (w_x7 st)) (Zrange (lo + 1) n)) in *.
    destruct (IH (lo + 1) st1 (List.last A prev) ltac:(lia) ltac:(lia) Hc1)
      as (st2 & E2 & Hg2 & Hpos2 & Hc2).
    + rewrite Hext, Hg1, length_app, length_map.
      assert (Hl : length (gaps_from prev A) = length A).
      { clear. generalize prev. induction A as [|c A IHA]; intros p;
          simpl; [reflexivity | now rewrite IHA]. }
      rewrite Hl. lia.
    + replace (lo + 1 - 1) with lo by lia. exact Hgap1.
    + lia.
    + rewrite Hext in Hg2, Hpos2. exists st2. split; [exact E2|].
      split; [|split; [|exact Hc2]].
      * rewrite gaps_from_app, map_app, Hg2, Hg1, <- app_assoc. reflexivity.
      * rewrite gaps_from_app. apply List.Forall_app. split; assumption.
Qed.

End Walk.

Lemma Zsum_gaps_from (l : list Z) :
  forall (prev : Z) (k : nat) (c : Z),
    l !! k = Some c -> Zsum (take (S k) (gaps_from prev l)) = c - prev.
Proof.
  induction l as [|a l IH]; intros prev k c Hk; [discriminate|].
  destruct k as [|k].
  - injection Hk as ->. simpl. lia.
  - simpl in Hk. change (gaps_from prev (a :: l)) with ((a - prev) :: gaps_from a l).
    change (take (S (S k)) ((a - prev) :: gaps_from a l))
      with ((a - prev) :: take (S k) (gaps_from a l)).
    change (Zsum ((a - prev) :: take (S k) (gaps_from a l)))
      with ((a - prev) + Zsum (take (S k) (gaps_from a l))).
    rewrite (IH a k c Hk). lia.
Qed.

Lemma map_u16_small (l : list Z) :
  List.Forall (fun g => 0 <= g < 2 ^ 16) l -> map u16 l = l.
Proof.
  induction 1 as [|g l Hg _ IH]; [reflexivity|].
  simpl. rewrite IH. f_equal. unfold u16. apply Z.mod_small. exact Hg.
Qed.

(** What the walk leaves in a fresh block: one cell for each survivor,
    holding the low 16 bits of its distance to the survivor before it (to
    the anchor for the first). *)
Lemma vx6_walk_trace
      (probab_prime : Z -> Z -> bool) (is_large_limit : bool)
      (rounds yvx : Z) (v : VX_OBJ) (x5 x7 : BITMAP) :
  vx_x5 v = Some x5 -> vx_x7 v = Some x7 ->
  vx_p_count v = 0 -> vx_p_gaps v = [] ->
  let cands := survivors probab_prime is_large_limit rounds yvx x5 x7 in
  let anchor := iZ_gmp yvx 1 in
  Z.of_nat (length cands) <= p_gaps_capacity ->
  exists v',
    vx6_walk probab_prime is_large_limit rounds yvx v = Done v' /\
    vx_p_count v' = Z.of_nat (length cands) /\
    vx_p_gaps v' = map u16 (gaps_from anchor cands) /\
    List.Forall (fun g => 0 < g) (gaps_from anchor cands).
Proof.
  intros H5 H7 Hcnt Hgaps. cbv zeta.
  assert (H1 : 4 + Z.of_nat (Z.to_nat (vx6 - 3)) <= vx6 + 1).
  { assert (Hvx6 : vx6 = 1616615) by reflexivity. rewrite Z2Nat.id; lia. }
  unfold vx6_walk, survivors. rewrite H5, H7, Hcnt, Hgaps.
  revert H1. generalize (Z.to_nat (vx6 - 3)). intros n H1 Hcap.
  cbn [deref mbind outcome_bind].
  pose proof (walk_fold probab_prime is_large_limit rounds yvx n 4
                {| w_x5 := x5; w_x7 := x7; w_p_gaps := [];
                   w_p_count := 0; w_gap := 18 |} (iZ_gmp yvx 1)) as Hw.
  cbv zeta in Hw. cbn [w_x5 w_x7 w_p_gaps w_p_count w_gap] in Hw.
  assert (H2 : 18 = iZ_gmp (yvx + (4 - 1)) 1 - iZ_gmp yvx 1)
    by (unfold iZ_gmp; change (0 <? 1) with true; lia).
  assert (H3 : (0 : Z) = Z.of_nat (length (@nil Z))) by reflexivity.
  destruct (Hw ltac:(lia) H1 H3 ltac:(cbn [length]; lia) H2 ltac:(lia))
    as (st & E & Hg & Hpos & Hc).
  change (mret ?x) with (Done x). rewrite E.
  cbn [mbind outcome_bind mret outcome_ret]. eexists. split; [reflexivity|].
  cbn [vx_p_count vx_p_gaps]. rewrite app_nil_l in Hg.
  split; [|split; [exact Hg | exact Hpos]].
  rewrite Hc, Hg, length_map. f_equal.
  generalize (iZ_gmp yvx 1).
  generalize (flat_map (survivors_at probab_prime is_large_limit rounds yvx
                                     x5 x7) (Zrange 4 n)).
  intros l. induction l as [|c l IHl]; intros p; cbn [gaps_from length];
    [reflexivity | now rewrite IHl].
Qed.

(** In a fresh block the walk records one gap for each surviving
    candidate, and the anchor plus the first [k + 1] cells is the [k]-th
    survivor as long as the gaps up to it fit in the 16 bits of a cell. *)
Theorem vx6_walk_gaps
        (probab_prime : Z -> Z -> bool) (is_large_limit : bool)
        (rounds yvx : Z) (v : VX_OBJ) (x5 x7 : BITMAP) :
  vx_x5 v = Some x5 -> vx_x7 v = Some x7 ->
  vx_p_count v = 0 -> vx_p_gaps v = [] ->
  let cands := survivors probab_prime is_large_limit rounds yvx x5 x7 in
  let anchor := iZ_gmp yvx 1 in
  Z.of_nat (length cands) <= p_gaps_capacity ->
  exists v',
    vx6_walk probab_prime is_large_limit rounds yvx v = Done v' /\
    vx_p_count v' = Z.of_nat (length cands) /\
    forall (k : nat) (c : Z),
      cands !! k = Some c ->
      (forall (i : nat) (g : Z),
          (i <= k)%nat -> gaps_from anchor cands !! i = Some g -> g < 2 ^ 16) ->
      anchor + Zsum (take (S k) (vx_p_gaps v')) = c.
Proof.
  intros H5 H7 Hcnt Hgaps. cbv zeta. intros Hcap.
  destruct (vx6_walk_trace probab_prime is_large_limit rounds yvx v x5 x7
              H5 H7 Hcnt Hgaps Hcap) as (v' & E & Hc & Hg & Hpos).
  exists v'. split; [exact E|]. split; [exact Hc|].
  intros k c Hk Hsmall. rewrite Hg, firstn_map, map_u16_small.
  - rewrite (Zsum_gaps_from _ _ k c Hk). lia.
  - apply List.Forall_forall. intros g Hin.
    apply list_elem_of_In in Hin. apply list_elem_of_lookup in Hin.
    destruct Hin as [i Hi].
    pose proof (lookup_lt_Some _ _ _ Hi) as Hlt.
    rewrite length_take in Hlt.
    rewrite lookup_take_lt in Hi by lia.
    split.
    + rewrite List.Forall_forall in Hpos.
      assert (0 < g); [|lia]. apply Hpos.
      apply list_elem_of_In. eapply list_elem_of_lookup_2. exact Hi.
    + apply (Hsmall i g); [lia | exact Hi].
Qed.

(** *** A block with a single set bit *)

Lemma flat_map_single (f : Z -> list Z) (a c : Z) (n : nat) :
  forall lo : Z,
    (forall x, lo <= x -> f x = if a =? x then [c] else []) ->
    flat_map f (Zrange lo n)
    = if (lo <=? a) && (a <? lo + Z.of_nat n) then [c] else [].
Proof.
  induction n as [|n IH]; intros lo Hf.
  - simpl. case_cmp; simpl; try reflexivity; lia.
  - rewrite Zrange_S. cbn [flat_map].
    rewrite (Hf lo ltac:(lia)), IH by (intros x Hx; apply Hf; lia).
    case_cmp; simpl; try reflexivity; lia.
Qed.

Lemma block_with_x5_bit_spec (a : Z) :
  4 <= a <= vx6 ->
  exists (v : VX_OBJ) (x5 x7 : BITMAP),
    block_with_x5_bit a = Some v /\
    vx_x5 v = Some x5 /\ vx_x7 v = Some x7 /\
    vx_p_count v = 0 /\ vx_p_gaps v = [] /\
    forall (pp : Z -> Z -> bool) (rounds yvx : Z),
      survivors pp false rounds yvx x5 x7 = [iZ_gmp (yvx + a) (-1)].
Proof.
  intros Ha. assert (Hvx6 : vx6 = 1616615) by reflexivity.
  unfold block_with_x5_bit.
  change (vx6_init [0; 0; 0; 0] (replicate 32 0) [48])
    with (Some (mkVX vx6 [48] 0 [0; 0; 0; 0] None None [] (replicate 32 0))).
  destruct (bitmap_create (vx6 + 100)) as [b|] eqn:Eb.
  2:{ unfold bitmap_create in Eb.
      change (vx6 + 100 =? 0) with false in Eb. discriminate Eb. }
  destruct (bitmap_create_well_sized _ b Eb ltac:(unfold two64; lia))
    as ([Hw _] & Hs & Hz).
  eexists. exists (bitmap_set_bit b a), b.
  split; [reflexivity|]. cbn [vx_x5 vx_x7 vx_p_count vx_p_gaps].
  repeat (split; [reflexivity|]).
  intros pp rounds yvx. unfold survivors.
  rewrite (flat_map_single _ a (iZ_gmp (yvx + a) (-1))).
  - rewrite Z2Nat.id by lia.
    destruct (Z.leb_spec 4 a); [|lia].
    destruct (Z.ltb_spec a (4 + (vx6 - 3))); [|lia]. reflexivity.
  - intros x Hx. unfold survivors_at, accepted.
    rewrite bitmap_get_set_bit, !Hz by (unfold in_range; lia).
    rewrite orb_false_r. simpl.
    destruct (Z.eqb_spec a x) as [->|]; reflexivity.
Qed.

Lemma vx6_walk_gaps_witness :
  match block_with_x5_bit 4 with
  | Some v =>
      exists v',
        vx6_walk exact_prime_test false 25 0 v = Done v' /\
        iZ_gmp 0 1 + Zsum (take 1 (vx_p_gaps v')) = 23
  | None => False
  end.
Proof.
  destruct (block_with_x5_bit_spec 4 ltac:(vm_compute; split; discriminate))
    as (v & x5 & x7 & -> & H5 & H7 & Hc & Hg & HS).
  destruct (vx6_walk_gaps exact_prime_test false 25 0 v x5 x7 H5 H7 Hc Hg)
    as (v' & E & _ & Hsum).
  - rewrite HS. vm_compute. discriminate.
  - exists v'. split; [exact E|].
    apply (Hsum 0%nat 23).
    + rewrite HS. reflexivity.
    + intros i g Hi Hl. rewrite HS in Hl.
      destruct i as [|i]; [|lia]. simpl in Hl. injection Hl as <-.
      vm_compute. reflexivity.
Defined.

(** What a cell does with a gap of 65536 or more, on bitmaps built by
    hand (the sieve itself walks clones of its cached wheel): with the
    first survivor at [x = 11000] (the value 65999) the accumulated gap is
    65998, the cell keeps [65998 - 65536 = 462], and the anchor plus the
    first gap is 463. *)
Lemma vx6_walk_gap_truncated :
  match block_with_x5_bit 11000 with
  | Some v =>
      exists v',
        vx6_walk exact_prime_test false 25 0 v = Done v' /\
        vx_p_count v' = 1 /\
        vx_p_gaps v' = [462] /\
        iZ_gmp 0 1 + Zsum (take 1 (vx_p_gaps v')) <> iZ_gmp (0 + 11000) (-1)
  | None => False
  end.
Proof.
  destruct (block_with_x5_bit_spec 11000 ltac:(vm_compute; split; discriminate))
    as (v & x5 & x7 & -> & H5 & H7 & Hc & Hg & HS).
  destruct (vx6_walk_trace exact_prime_test false 25 0 v x5 x7 H5 H7 Hc Hg)
    as (v' & E & Hcnt & Hgaps & _).
  - rewrite HS. vm_compute. discriminate.
  - exists v'. rewrite HS in Hcnt, Hgaps.
    split; [exact E|]. split; [exact Hcnt|].
    split; [exact Hgaps|]. rewrite Hgaps. vm_compute. discriminate.
Qed.



(** ** Files *)

Lemma length_le_bytes (n : nat) (z : Z) : length (le_bytes n z) = n.
Proof.
  revert z. induction n as [|n IH]; intros z; cbn [le_bytes length];
    [reflexivity | now rewrite IH].
Qed.

Lemma le_value_le_bytes (n : nat) :
  forall z, 0 <= z < 256 ^ Z.of_nat n -> le_value (le_bytes n z) = z.
Proof.
  induction n as [|n IH]; intros z Hz; cbn [le_bytes le_value].
  - change (256 ^ Z.of_nat 0) with 1 in Hz. lia.
  - rewrite Nat2Z.inj_succ, Z.pow_succ_r in Hz by lia.
    rewrite IH.
    + pose proof (Z.div_mod z 256 ltac:(lia)). lia.
    + split; [apply Z.div_pos; lia | apply Z.div_lt_upper_bound; lia].
Qed.

Lemma fread_app (n : nat) (a b : list Z) :
  length a = n -> fread n (a ++ b) = Some (a, b).
Proof.
  intros <-. unfold fread. rewrite length_app.
  destruct (Nat.ltb_spec (length a + length b) (length a)); [lia|].
  now rewrite take_app_length, drop_app_length.
Qed.

Lemma fread_short (n : nat) (stream : list Z) :
  (length stream < n)%nat -> fread n stream = None.
Proof.
  intros H. unfold fread.
  destruct (Nat.ltb_spec (length stream) n); [reflexivity | lia].
Qed.

Lemma length_words_bytes (w : nat) (l : list Z) :
  length (flat_map (le_bytes w) l) = (w * length l)%nat.
Proof.
  induction l as [|c l IH]; cbn [flat_map length]; [lia|].
  rewrite length_app, length_le_bytes, IH. lia.
Qed.

Lemma le_words_bytes (w : nat) (l rest : list Z) :
  List.Forall (fun c => 0 <= c < 256 ^ Z.of_nat w) l ->
  le_words w (length l) (flat_map (le_bytes w) l ++ rest) = l.
Proof.
  induction 1 as [|c l Hc Hl IH]; cbn [flat_map length le_words];
    [reflexivity|].
  rewrite <- app_assoc.
  rewrite take_app_length' by (symmetry; apply length_le_bytes).
  rewrite drop_app_length' by (symmetry; apply length_le_bytes).
  now rewrite le_value_le_bytes, IH.
Qed.

Lemma c_string_app_nul (s rest : list Z) :
  List.Forall (fun c => c <> 0) s -> c_string (s ++ 0 :: rest) = s.
Proof.
  induction 1 as [|c s Hc Hs IH]; cbn [app c_string].
  - reflexivity.
  - destruct (Z.eqb_spec c 0); [contradiction | now rewrite IH].
Qed.

Lemma c_string_no_nul (s : list Z) :
  List.Forall (fun c => c <> 0) s -> c_string s = s.
Proof.
  induction 1 as [|c s Hc Hs IH]; cbn [c_string]; [reflexivity|].
  destruct (Z.eqb_spec c 0); [contradiction | now rewrite IH].
Qed.

Lemma numeric_no_nul (s : list Z) :
  is_numeric_str s = true -> List.Forall (fun c => c <> 0) s.
Proof.
  unfold is_numeric_str. intros H. apply andb_true_iff in H as [_ H].
  rewrite forallb_forall in H. apply List.Forall_forall. intros c Hin.
  specialize (H c Hin). lia.
Qed.

Lemma Forall_take_Z (P : Z -> Prop) (n : nat) (l : list Z) :
  List.Forall P l -> List.Forall P (take n l).
Proof.
  intros H. revert n. induction H as [|c l Hc Hl IH]; intros [|n];
    cbn [take]; constructor; auto.
Qed.

Lemma fread_all (n : nat) (a : list Z) :
  length a = n -> fread n a = Some (a, []).
Proof.
  intros H. rewrite <- (app_nil_r a) at 1. now apply fread_app.
Qed.

Lemma fread_unchecked_app (n : nat) (a b : list Z) :
  length a = n -> fread_unchecked n (a ++ b) = (a, b).
Proof.
  intros <-. unfold fread_unchecked.
  now rewrite take_app_length, drop_app_length.
Qed.

Lemma fread_unchecked_all (n : nat) (a : list Z) :
  length a = n -> fread_unchecked n a = (a, []).
Proof.
  intros H. rewrite <- (app_nil_r a) at 1. now apply fread_unchecked_app.
Qed.

Section RoundTrips.

Variable SHA256 : list Z -> list Z.
Hypothesis SHA256_length : forall l, length (SHA256 l) = 32%nat.

(** A bitmap file that is complete: the reader accepts it exactly when its
    last 32 bytes are the digest of the bitmap's bytes. *)
Lemma bitmap_read_complete (b : BITMAP) (d : list Z) :
  bitmap_laid_out b -> length d = 32%nat ->
  bitmap_read_file SHA256 (le_bytes 8 (size b) ++ data b ++ d)
  = if bool_decide (d = SHA256 (data b))
    then Done {| size := size b; data := data b;
                 sha256 := Some (SHA256 (data b)) |}
    else Stop ReturnsNull.
Proof.
  intros [Hsz Hlen] Hd.
  unfold bitmap_read_file, bitmap_compute_hash.
  set (n := Z.to_nat (byte_size (size b))) in *.
  assert (Htake : take n (data b) = data b)
    by (rewrite <- Hlen; apply firstn_all).
  rewrite fread_app by apply length_le_bytes.
  rewrite le_value_le_bytes by (unfold two64 in Hsz; simpl; lia).
  unfold bitmap_create. destruct (Z.eqb_spec (size b) 0) as [E|_]; [lia|].
  cbn [size data sha256]. fold n.
  rewrite fread_app by exact Hlen.
  rewrite fread_all by exact Hd.
  rewrite drop_replicate, Nat.sub_diag. cbn [replicate].
  rewrite app_nil_r, Htake.
  destruct (decide (d = SHA256 (data b))) as [->|Hne].
  - now rewrite !bool_decide_true by reflexivity.
  - rewrite !bool_decide_false; [reflexivity | exact Hne | congruence].
Qed.

(** What [bitmap_write_file] writes: size, packed bytes, digest. *)
Lemma bitmap_write_file_bytes (b : BITMAP) :
  bitmap_laid_out b ->
  fst (bitmap_write_file SHA256 b)
  = le_bytes 8 (size b) ++ data b ++ SHA256 (data b).
Proof.
  intros [Hsz Hlen].
  unfold bitmap_write_file, bitmap_compute_hash.
  cbn [fst sha256 default size data].
  assert (Htake : take (Z.to_nat (byte_size (size b))) (data b) = data b)
    by (rewrite <- Hlen; apply firstn_all).
  rewrite Htake. reflexivity.
Qed.

(** A bitmap file read back gives the size, the bytes and the digest that
    were written. *)
Lemma bitmap_round_trip (b : BITMAP) :
  bitmap_laid_out b ->
  bitmap_read_file SHA256 (fst (bitmap_write_file SHA256 b))
  = Done {| size := size b; data := data b;
            sha256 := Some (SHA256 (data b)) |}.
Proof.
  intros Hb. rewrite (bitmap_write_file_bytes b Hb).
  rewrite (bitmap_read_complete b _ Hb (SHA256_length _)).
  now rewrite bool_decide_true by reflexivity.
Qed.

(** A complete file of a non-empty prime list: the reader accepts it
    exactly when its last 32 bytes are the digest of the primes' bytes,
    whatever the fresh memory held. *)
Lemma primes_read_complete (stack_count : Z) (heap : nat -> Z)
      (primes : PRIMES_OBJ) (d : list Z) :
  primes_laid_out primes -> 0 < p_count primes -> length d = 32%nat ->
  primes_obj_read_file SHA256 stack_count heap
    (le_bytes 4 (p_count primes) ++ primes_bytes primes ++ d)
  = if bool_decide (SHA256 (primes_bytes primes) = d)
    then Done {| capacity := p_count primes; p_count := p_count primes;
                 p_array := take (Z.to_nat (p_count primes)) (p_array primes);
                 p_sha256 := d |}
    else Stop ReturnsNull.
Proof.
  intros (Hc & Hlen & Hcells) Hpos Hd.
  unfold primes_obj_read_file, primes_bytes.
  set (k := Z.to_nat (p_count primes)) in *.
  set (cells := take k (p_array primes)).
  assert (Hk : length cells = k) by (apply length_take_le; lia).
  rewrite fread_unchecked_app by apply length_le_bytes.
  rewrite length_le_bytes. cbn [Nat.eqb].
  rewrite le_value_le_bytes by (simpl; lia).
  rewrite to_int_small by lia.
  unfold primes_obj_init.
  destruct (Z.leb_spec (p_count primes) 0) as [E|_]; [lia|].
  cbn [capacity p_sha256 p_count p_array]. fold k.
  rewrite fread_unchecked_app
    by (rewrite length_words_bytes, Hk; reflexivity).
  rewrite length_words_bytes, Hk, Nat.mul_comm, Nat.div_mul by lia.
  rewrite Nat.sub_diag. cbn [seq map]. rewrite app_nil_r.
  rewrite (fread_unchecked_all 32 d) by exact Hd.
  rewrite Hd, drop_replicate, Nat.sub_diag. cbn [replicate].
  rewrite app_nil_r.
  assert (Hw : le_words 8 k (flat_map (le_bytes 8) cells) = cells).
  { rewrite <- Hk at 1. rewrite <- (app_nil_r (flat_map _ _)).
    apply le_words_bytes, Forall_take_Z. exact Hcells. }
  rewrite Hw.
  assert (Ht : take k cells = cells) by (rewrite <- Hk; apply firstn_all).
  rewrite Ht. reflexivity.
Qed.

(** A file of a non-empty prime list read back gives a list of exactly
    the primes written, with its capacity trimmed to the count. *)
Lemma primes_round_trip (stack_count : Z) (heap : nat -> Z)
      (primes : PRIMES_OBJ) :
  primes_laid_out primes -> 0 < p_count primes ->
  primes_obj_read_file SHA256 stack_count heap
    (fst (primes_obj_write_file SHA256 primes))
  = Done {| capacity := p_count primes; p_count := p_count primes;
            p_array := take (Z.to_nat (p_count primes)) (p_array primes);
            p_sha256 := SHA256 (primes_bytes primes) |}.
Proof.
  intros Hp Hpos.
  unfold primes_obj_write_file, primes_obj_compute_hash.
  destruct (Z.eqb_spec (p_count primes) 0) as [E|_]; [lia|].
  cbn [fst p_count p_sha256].
  change (primes_bytes {| capacity := capacity primes;
                          p_count := p_count primes;
                          p_array := p_array primes;
                          p_sha256 := SHA256 (primes_bytes primes) |})
    with (primes_bytes primes).
  rewrite (primes_read_complete stack_count heap primes _ Hp Hpos
             (SHA256_length _)).
  now rewrite bool_decide_true by reflexivity.
Qed.

(** A complete block file read into the object [t]: with at least one
    gap the reader accepts it exactly when its last 32 bytes are the
    digest of the gaps' bytes; with no gap, exactly when they are the 32
    bytes that the unfilled buffer holds. *)
Lemma vx6_read_complete (stack : list Z) (v t : VX_OBJ) (d : list Z) :
  block_laid_out v -> length d = 32%nat ->
  vx6_read_file SHA256 stack t (block_file_body v ++ d)
  = if bool_decide ((if vx_p_count v =? 0 then stack
                     else SHA256 (gaps_bytes v)) = d)
    then Done {| vx_vx := vx_vx t; vx_y := vx_y v;
                 vx_p_count := vx_p_count v; vx_pad := vx_pad v;
                 vx_x5 := vx_x5 t; vx_x7 := vx_x7 t;
                 vx_p_gaps := take (Z.to_nat (vx_p_count v)) (vx_p_gaps v) ++
                              drop (Z.to_nat (vx_p_count v)) (vx_p_gaps t);
                 vx_sha256 := d |}
    else Stop ReturnsZero.
Proof.
  intros (Hc & Hlen & Hcells & Hy & Hylen & Hpad & _) Hd.
  assert (Hcap : p_gaps_capacity = 808307) by reflexivity.
  unfold block_file_body, vx6_read_file, gaps_bytes.
  cbn [vx_vx vx_y vx_p_count vx_pad vx_x5 vx_x7 vx_p_gaps vx_sha256].
  set (k := Z.to_nat (vx_p_count v)) in *.
  set (cells := take k (vx_p_gaps v)).
  assert (Hk : length cells = k) by (apply length_take_le; lia).
  assert (Hnn := numeric_no_nul _ Hy).
  unfold two64 in Hylen.
  rewrite <- !app_assoc.
  rewrite fread_app by apply length_le_bytes.
  rewrite le_value_le_bytes by (simpl; lia).
  rewrite (app_assoc (vx_y v) [0]).
  rewrite (fread_app _ (vx_y v ++ [0]))
    by (rewrite length_app; cbn [length]; lia).
  rewrite (c_string_app_nul _ [] Hnn).
  rewrite (app_assoc (le_bytes 4 _) (vx_pad v)).
  rewrite (fread_app 8 (le_bytes 4 _ ++ vx_pad v))
    by (rewrite length_app, length_le_bytes, Hpad; reflexivity).
  rewrite take_app_length' by (symmetry; apply length_le_bytes).
  rewrite drop_app_length' by (symmetry; apply length_le_bytes).
  rewrite le_value_le_bytes by (simpl; lia).
  rewrite to_int_small by lia.
  rewrite (u64_small (vx_p_count v)) by (unfold two64; lia).
  rewrite (u64_small (vx_p_count v * 2)) by (unfold two64; lia).
  fold k.
  destruct (Z.gtb_spec
              (Z.min (vx_p_count v)
                 (Z.of_nat (length (flat_map (le_bytes 2) cells ++ d)) / 2))
              p_gaps_capacity) as [E|_]; [lia|].
  rewrite fread_app by (rewrite length_words_bytes, Hk; reflexivity).
  rewrite fread_all by exact Hd.
  assert (Hw : le_words 2 k (flat_map (le_bytes 2) cells) = cells).
  { rewrite <- Hk at 1. rewrite <- (app_nil_r (flat_map _ _)).
    apply le_words_bytes, Forall_take_Z. exact Hcells. }
  rewrite Hw, take_app_length' by (symmetry; exact Hk).
  replace (vx_p_count v * 2 =? 0) with (vx_p_count v =? 0)
    by (destruct (Z.eqb_spec (vx_p_count v) 0);
        destruct (Z.eqb_spec (vx_p_count v * 2) 0); lia || reflexivity).
  reflexivity.
Qed.

(** What [vx6_write_file] writes, for a block whose [y] is numeric. *)
Lemma vx6_write_file_bytes (v : VX_OBJ) :
  block_laid_out v ->
  fst (vx6_write_file SHA256 v)
  = block_file_body v ++ (if vx_p_count v =? 0 then vx_sha256 v
                          else SHA256 (gaps_bytes v)).
Proof.
  intros (Hc & _ & _ & Hy & Hylen & _).
  assert (Hcap : p_gaps_capacity = 808307) by reflexivity.
  unfold vx6_write_file, block_file_body. cbn [fst].
  rewrite (c_string_no_nul _ (numeric_no_nul _ Hy)).
  unfold two64 in Hylen.
  rewrite (u64_small (Z.of_nat (length (vx_y v)) + 1)) by (unfold two64; lia).
  rewrite (u64_small (vx_p_count v * 2)) by (unfold two64; lia).
  replace (vx_p_count v * 2 =? 0) with (vx_p_count v =? 0)
    by (destruct (Z.eqb_spec (vx_p_count v) 0);
        destruct (Z.eqb_spec (vx_p_count v * 2) 0); lia || reflexivity).
  rewrite <- !app_assoc. reflexivity.
Qed.

(** A block file with at least one gap, read into the object [t], gives
    the [y], the count, the padding, the gaps and the digest that were
    written; the bitmaps are those of [t]. *)
Lemma vx6_round_trip (stack : list Z) (v t : VX_OBJ) :
  block_laid_out v -> 0 < vx_p_count v ->
  vx6_read_file SHA256 stack t (fst (vx6_write_file SHA256 v))
  = Done {| vx_vx := vx_vx t; vx_y := vx_y v;
            vx_p_count := vx_p_count v; vx_pad := vx_pad v;
            vx_x5 := vx_x5 t; vx_x7 := vx_x7 t;
            vx_p_gaps := take (Z.to_nat (vx_p_count v)) (vx_p_gaps v) ++
                         drop (Z.to_nat (vx_p_count v)) (vx_p_gaps t);
            vx_sha256 := SHA256 (gaps_bytes v) |}.
Proof.
  intros Hv Hpos. rewrite (vx6_write_file_bytes v Hv).
  destruct (Z.eqb_spec (vx_p_count v) 0) as [E|_]; [lia|].
  rewrite (vx6_read_complete stack v t _ Hv (SHA256_length _)).
  destruct (Z.eqb_spec (vx_p_count v) 0) as [E|_]; [lia|].
  now rewrite bool_decide_true by reflexivity.
Qed.

(** A block file without gaps carries the bytes of the writer's digest
    field, which nothing computed; the reader compares them with its own
    unfilled buffer. *)
Lemma vx6_gapless_round_trip (stack : list Z) (e t : VX_OBJ) :
  block_laid_out e -> vx_p_count e = 0 -> length (vx_sha256 e) = 32%nat ->
  vx6_read_file SHA256 stack t (fst (vx6_write_file SHA256 e))
  = if bool_decide (stack = vx_sha256 e)
    then Done {| vx_vx := vx_vx t; vx_y := vx_y e;
                 vx_p_count := 0; vx_pad := vx_pad e;
                 vx_x5 := vx_x5 t; vx_x7 := vx_x7 t;
                 vx_p_gaps := vx_p_gaps t;
                 vx_sha256 := vx_sha256 e |}
    else Stop ReturnsZero.
Proof.
  intros He E0 Hd. rewrite (vx6_write_file_bytes e He).
  rewrite (vx6_read_complete stack e t _ He)
    by (rewrite E0; exact Hd).
  rewrite E0. cbn [Z.eqb Z.to_nat take drop app]. reflexivity.
Qed.

End RoundTrips.

(** An empty prime list is written as a count of 0, and the reader gives
    up on it: [primes_obj_init] refuses an estimate of 0. *)
Lemma empty_primes_read_null (SHA256 : list Z -> list Z)
      (stack_count : Z) (heap : nat -> Z) (primes : PRIMES_OBJ) :
  p_count primes = 0 ->
  primes_obj_read_file SHA256 stack_count heap
    (fst (primes_obj_write_file SHA256 primes))
  = Stop ReturnsNull.
Proof.
  intros E.
  unfold primes_obj_write_file, primes_obj_read_file,
    primes_obj_compute_hash.
  rewrite E. cbn [Z.eqb fst]. rewrite E.
  rewrite fread_unchecked_app by apply length_le_bytes.
  reflexivity.
Qed.

Lemma byte_sum_digest_length (l : list Z) :
  length (byte_sum_digest l) = 32%nat.
Proof. apply length_replicate. Qed.



(** The list that [primes_obj_init 5] makes, with no prime appended yet,
    is written to a file that [primes_obj_read_file] does not read back,
    whatever the fresh memory holds. *)
Lemma empty_prime_list_not_read_back :
  exists primes,
    primes_obj_init 5 = Some primes /\
    primes_laid_out primes /\
    forall (stack_count : Z) (heap : nat -> Z),
      primes_obj_read_file byte_sum_digest stack_count heap
        (fst (primes_obj_write_file byte_sum_digest primes))
      = Stop ReturnsNull.
Proof.
  eexists. split; [reflexivity|]. split.
  - split; [simpl; lia|]. split; [simpl; lia | constructor].
  - intros stack_count heap. apply empty_primes_read_null. reflexivity.
Qed.


(** ** Further properties of the bit array *)

Lemma byte_size_small (sz : Z) :
  0 <= sz < two64 - 7 -> byte_size sz = (sz + 7) / 8.
Proof.
  intros H. unfold byte_size. rewrite u64_small; [reflexivity | lia].
Qed.



(** X2.  Writing bit [i] with [bitmap_set_bit] or [bitmap_clear_bit], for
    [i] inside the allocated bytes, makes [bitmap_get_bit] read 1 or 0 at
    [i] and leaves every other bit, and the size, as they were. *)
Theorem bitmap_bit_updates (b : BITMAP) (i j : Z) :
  in_range b i -> 0 <= j ->
  bitmap_get_bit (bitmap_set_bit b i) j
  = (if i =? j then true else bitmap_get_bit b j) /\
  bitmap_get_bit (bitmap_clear_bit b i) j
  = (if i =? j then false else bitmap_get_bit b j) /\
  size (bitmap_set_bit b i) = size b /\
  size (bitmap_clear_bit b i) = size b.
Proof.
  intros Hi Hj.
  rewrite bitmap_get_set_bit, bitmap_get_clear_bit by assumption.
  destruct (i =? j); repeat split; reflexivity.
Qed.

Lemma bitmap_bit_updates_witness :
  bitmap_get_bit (bitmap_set_bit example_bitmap 3) 3 = true /\
  bitmap_get_bit (bitmap_clear_bit example_bitmap 3) 3 = false /\
  size (bitmap_set_bit example_bitmap 3) = 10 /\
  size (bitmap_clear_bit example_bitmap 3) = 10.
Proof.
  apply (bitmap_bit_updates example_bitmap 3 3); [|lia].
  unfold in_range. simpl. lia.
Defined.

Lemma bitmap_get_bit_filled (sz v : Z) (h : option (list Z)) (n : nat)
      (rest : list Z) (j : Z) :
  0 <= j < 8 * Z.of_nat n ->
  bitmap_get_bit (mkBITMAP sz (replicate n v ++ rest) h) j
  = Z.testbit v (j mod 8).
Proof.
  intros Hj. rewrite bitmap_get_bit_testbit. unfold get_byte. cbn [data].
  assert (0 <= j / 8 < Z.of_nat n)
    by (split; [apply Z.div_pos; lia | apply Z.div_lt_upper_bound; lia]).
  rewrite lookup_app_l by (rewrite length_replicate; lia).
  rewrite lookup_replicate_2 by lia. reflexivity.
Qed.

Lemma filled_index (b : BITMAP) (j : Z) :
  well_sized b -> size b < two64 - 7 -> 0 <= j < size b ->
  0 <= j < 8 * Z.of_nat (Init.Nat.min (Z.to_nat ((size b + 7) / 8))
                                      (length (data b))).
Proof.
  intros [Hlen _] Hsz Hj.
  assert (Hq : j / 8 < (size b + 7) / 8).
  { apply Z.div_lt_upper_bound; [lia|].
    pose proof (Z.mul_div_le (size b + 7) 8 ltac:(lia)).
    pose proof (Z.mod_pos_bound (size b + 7) 8 ltac:(lia)).
    pose proof (Z.div_mod (size b + 7) 8 ltac:(lia)). lia. }
  assert (Hq0 : 0 <= j / 8) by (apply Z.div_pos; lia).
  assert (Hin : j / 8 < Z.of_nat (length (data b)))
    by (apply Z.div_lt_upper_bound; lia).
  pose proof (Z.div_mod j 8 ltac:(lia)).
  pose proof (Z.mod_pos_bound j 8 ltac:(lia)). lia.
Qed.

Lemma bitmap_get_bit_set_all (b : BITMAP) (j : Z) :
  well_sized b -> size b < two64 - 7 -> 0 <= j < size b ->
  bitmap_get_bit (bitmap_set_all b) j = true.
Proof.
  intros Hw Hsz Hj. unfold bitmap_set_all.
  rewrite byte_size_small by lia.
  rewrite bitmap_get_bit_filled by (apply filled_index; assumption).
  pose proof (Z.mod_pos_bound j 8 ltac:(lia)) as Hm.
  assert (Hc : j mod 8 = 0 \/ j mod 8 = 1 \/ j mod 8 = 2 \/ j mod 8 = 3 \/
               j mod 8 = 4 \/ j mod 8 = 5 \/ j mod 8 = 6 \/ j mod 8 = 7)
    by lia.
  destruct Hc as [E|[E|[E|[E|[E|[E|[E|E]]]]]]]; rewrite E; reflexivity.
Qed.

(** X3.  After [bitmap_set_all] every bit below [size] reads 1, after
    [bitmap_clear_all] every bit below [size] reads 0; the size stays. *)
Theorem bitmap_fill (b : BITMAP) (j : Z) :
  well_sized b -> size b < two64 - 7 -> 0 <= j < size b ->
  bitmap_get_bit (bitmap_set_all b) j = true /\
  bitmap_get_bit (bitmap_clear_all b) j = false /\
  size (bitmap_set_all b) = size b /\
  size (bitmap_clear_all b) = size b.
Proof.
  intros Hw Hsz Hj.
  split; [apply bitmap_get_bit_set_all; assumption|].
  split; [|split; reflexivity].
  unfold bitmap_clear_all. rewrite byte_size_small by lia.
  rewrite bitmap_get_bit_filled by (apply filled_index; assumption).
  apply Z.bits_0.
Qed.

Lemma bitmap_fill_witness :
  bitmap_get_bit (bitmap_set_all example_bitmap) 9 = true /\
  bitmap_get_bit (bitmap_clear_all example_bitmap) 9 = false /\
  size (bitmap_set_all example_bitmap) = 10 /\
  size (bitmap_clear_all example_bitmap) = 10.
Proof.
  apply (bitmap_fill example_bitmap 9).
  - split; unfold two64; simpl; lia.
  - unfold two64; simpl; lia.
  - simpl; lia.
Defined.

Lemma on_stride_iff (p start limit j : Z) :
  0 < p ->
  on_stride p start limit j = true <->
  exists k, 0 <= k /\ j = start + k * p /\ j <= limit.
Proof.
  intros Hp. unfold on_stride.
  rewrite !andb_true_iff, !Z.leb_le, Z.eqb_eq. split.
  - intros [[H1 H2] H3]. exists ((j - start) / p).
    pose proof (Z.div_mod (j - start) p ltac:(lia)).
    split; [apply Z.div_pos; lia | split; lia].
  - intros (k & Hk & -> & Hl). split; [split; [nia | lia]|].
    replace (start + k * p - start) with (k * p) by lia.
    apply Z.mod_mul. lia.
Qed.

(** X4.  [bitmap_clear_mod_p(bitmap, p, start, limit)], for [p > 0] and a
    [limit] inside the allocated bytes with [limit + p < 2^64], clears
    exactly the bits [start], [start + p], [start + 2p], ... that do not
    exceed [limit]: a bit reads 1 afterwards if and only if it read 1
    before and is not one of those. *)
Theorem bitmap_clear_mod_p_bits (b : BITMAP) (p start limit j : Z) :
  0 < p -> 0 <= start -> limit < 8 * Z.of_nat (length (data b)) ->
  limit + p < two64 -> 0 <= j ->
  let b' := bitmap_clear_mod_p b p start limit in
  size b' = size b /\
  (bitmap_get_bit b' j = true <->
   bitmap_get_bit b j = true /\
   ~ exists k, 0 <= k /\ j = start + k * p /\ j <= limit).
Proof.
  intros Hp Hs Hl Hw Hj. cbv zeta.
  destruct (bitmap_clear_mod_p_spec b p start limit j Hp Hs Hl Hw Hj)
    as (_ & Hsz & Hbit).
  split; [exact Hsz|]. rewrite Hbit, andb_true_iff, negb_true_iff.
  rewrite <- (on_stride_iff p start limit j Hp).
  destruct (on_stride p start limit j); split; intros [H1 H2];
    split; congruence.
Qed.

Lemma bitmap_clear_mod_p_bits_witness :
  size (bitmap_clear_mod_p example_bitmap 2 0 9) = 10 /\
  (bitmap_get_bit (bitmap_clear_mod_p example_bitmap 2 0 9) 9 = true <->
   bitmap_get_bit example_bitmap 9 = true /\
   ~ exists k, 0 <= k /\ 9 = 0 + k * 2 /\ 9 <= 9).
Proof.
  apply (bitmap_clear_mod_p_bits example_bitmap 2 0 9 9);
    unfold two64; simpl; lia.
Defined.

(** X5.  [bitmap_clone] of a bitmap laid out by [bitmap_create] returns a
    new bitmap with the same size and the same bytes; the digest is not
    copied. *)
Theorem bitmap_clone_copy (b : BITMAP) :
  bitmap_laid_out b ->
  exists c, bitmap_clone b = Some c /\ size c = size b /\
            data c = data b /\ sha256 c = None.
Proof.
  intros [Hsz Hlen]. unfold bitmap_clone, bitmap_create.
  destruct (Z.eqb_spec (size b) 0) as [E|_]; [lia|].
  eexists. split; [reflexivity|]. cbn [size data sha256].
  repeat split.
  rewrite drop_replicate, Nat.sub_diag. cbn [replicate].
  rewrite app_nil_r, <- Hlen. apply firstn_all.
Qed.

Lemma bitmap_clone_copy_witness :
  exists c, bitmap_clone example_bitmap = Some c /\ size c = 10 /\
            data c = [5; 2] /\ sha256 c = None.
Proof.
  apply (bitmap_clone_copy example_bitmap).
  split; [unfold two64; simpl; lia | reflexivity].
Defined.

Lemma bitmap_copy_loop_other (src : BITMAP) (n : nat) :
  forall (i : Z) (b : BITMAP) (d s j : Z),
    0 <= i -> 0 <= s -> 0 <= d ->
    d + i + Z.of_nat n <= 8 * Z.of_nat (length (data b)) ->
    d + i + Z.of_nat n < two64 -> s + i + Z.of_nat n < two64 -> 0 <= j ->
    let b' := bitmap_copy_loop n i b d (OtherBitmap src) s in
    length (data b') = length (data b) /\ size b' = size b /\
    bitmap_get_bit b' j =
      if (d + i <=? j) && (j <? d + i + Z.of_nat n)
      then bitmap_get_bit src (s + (j - d)) else bitmap_get_bit b j.
Proof.
  induction n as [|n IH]; intros i b d s j Hi Hs Hd Hr Hw Hw' Hj; cbv zeta.
  - simpl. repeat split.
    case_cmp; simpl; try reflexivity; lia.
  - simpl bitmap_copy_loop. simpl source_view.
    rewrite !u64_small by lia.
    set (bit := bitmap_get_bit src (s + i)).
    set (b1 := if bit then bitmap_set_bit b (d + i)
               else bitmap_clear_bit b (d + i)).
    assert (Hin : in_range b (d + i)) by (unfold in_range; lia).
    assert (Hl1 : length (data b1) = length (data b))
      by apply data_length_write_bit.
    assert (Hs1 : size b1 = size b) by (unfold b1; destruct bit; reflexivity).
    specialize (IH (i + 1) b1 d s j ltac:(lia) Hs Hd).
    rewrite Hl1 in IH.
    specialize (IH ltac:(lia) ltac:(lia) ltac:(lia) Hj).
    destruct IH as (Hl & Hsz & Hb).
    split; [exact Hl | split; [congruence |]].
    rewrite Hb. unfold b1.
    rewrite bitmap_get_write_bit by (try assumption; lia).
    destruct (Z.eqb_spec (d + i) j) as [E|E].
    + subst j. case_cmp; simpl; try lia. unfold bit. f_equal. lia.
    + case_cmp; simpl; try reflexivity; lia.
Qed.

(** X6.  [bitmap_copy(dest, dest_idx, src, src_idx, length)] between two
    different bitmaps, with both ranges inside the allocated bytes: bit
    [dest_idx + k] of the destination becomes bit [src_idx + k] of the
    source for [k < length], and every other bit of the destination, and
    its size, stay as they were. *)
Theorem bitmap_copy_bits (dest src : BITMAP) (d s len j : Z) :
  0 <= d -> 0 <= s -> 0 <= len ->
  d + len <= 8 * Z.of_nat (length (data dest)) ->
  s + len <= 8 * Z.of_nat (length (data src)) ->
  d + len < two64 -> s + len < two64 -> 0 <= j ->
  let b' := bitmap_copy dest d (OtherBitmap src) s len in
  size b' = size dest /\
  bitmap_get_bit b' j =
    if (d <=? j) && (j <? d + len)
    then bitmap_get_bit src (s + (j - d)) else bitmap_get_bit dest j.
Proof.
  intros Hd Hs Hlen Hr _ Hw Hw' Hj. unfold bitmap_copy.
  pose proof (bitmap_copy_loop_other src (Z.to_nat len) 0 dest d s j) as H.
  rewrite Z2Nat.id, !Z.add_0_r in H by assumption.
  destruct H as (_ & H1 & H2); try lia. split; assumption.
Qed.

Lemma bitmap_copy_bits_witness :
  size (bitmap_copy example_bitmap 4 (OtherBitmap example_bitmap) 0 3) = 10 /\
  bitmap_get_bit (bitmap_copy example_bitmap 4 (OtherBitmap example_bitmap)
                              0 3) 6
  = if (4 <=? 6) && (6 <? 4 + 3)
    then bitmap_get_bit example_bitmap (0 + (6 - 4))
    else bitmap_get_bit example_bitmap 6.
Proof.
  apply (bitmap_copy_bits example_bitmap example_bitmap 4 0 3 6);
    unfold two64; simpl; lia.
Defined.

(** X7.  [bitmap_duplicate_segment(bitmap, start, vx_size, y)]: when
    [start + vx_size * y] exceeds the size nothing is written; otherwise
    the bits [start .. start + vx_size * y - 1] become [y] copies of the
    first [vx_size] of them and the others stay. *)
Theorem bitmap_duplicate_segment_bits (b : BITMAP) (start cs y j : Z) :
  0 <= start -> 0 < cs -> 1 <= y -> well_sized b ->
  start + cs * y < two64 -> 0 <= j ->
  let b' := bitmap_duplicate_segment b start cs y in
  (size b < start + cs * y -> b' = b) /\
  (start + cs * y <= size b ->
   size b' = size b /\
   bitmap_get_bit b' j =
     if (start <=? j) && (j <? start + cs * y)
     then bitmap_get_bit b (start + (j - start) mod cs)
     else bitmap_get_bit b j).
Proof.
  intros Hst Hcs Hy [Hwf H64] Hw Hj. cbv zeta. split.
  - intros Hout. unfold bitmap_duplicate_segment.
    assert (0 < cs * y) by nia.
    rewrite (u64_small (cs * y)), (u64_small (start + cs * y)) by lia.
    destruct (Z.gtb_spec (start + cs * y) (size b)); [reflexivity | lia].
  - intros Hin.
    destruct (bitmap_duplicate_segment_spec b start cs y j Hst Hcs Hy Hin
                Hwf H64 Hj) as (_ & H1 & H2).
    split; assumption.
Qed.

Lemma bitmap_duplicate_segment_bits_witness :
  (size example_bitmap < 0 + 3 * 3 ->
   bitmap_duplicate_segment example_bitmap 0 3 3 = example_bitmap) /\
  (0 + 3 * 3 <= size example_bitmap ->
   size (bitmap_duplicate_segment example_bitmap 0 3 3) = size example_bitmap /\
   bitmap_get_bit (bitmap_duplicate_segment example_bitmap 0 3 3) 5 =
     if (0 <=? 5) && (5 <? 0 + 3 * 3)
     then bitmap_get_bit example_bitmap (0 + (5 - 0) mod 3)
     else bitmap_get_bit example_bitmap 5).
Proof.
  apply (bitmap_duplicate_segment_bits example_bitmap 0 3 3 5);
    try (unfold two64; simpl; lia).
  split; unfold two64; simpl; lia.
Defined.

(** What a character of [bitmap_from_string] does to the bit it meets. *)
Lemma from_string_loop_spec (chars : list Z) :
  forall (i : Z) (b : BITMAP) (j : Z),
    0 <= i -> i + Z.of_nat (length chars) <= 8 * Z.of_nat (length (data b)) ->
    0 <= j ->
    let b' := from_string_loop chars i b in
    length (data b') = length (data b) /\ size b' = size b /\
    bitmap_get_bit b' j =
      match (if i <=? j then chars !! Z.to_nat (j - i) else None) with
      | Some c => if c =? 49 then true
                  else if c =? 48 then false else bitmap_get_bit b j
      | None => bitmap_get_bit b j
      end.
Proof.
  induction chars as [|c chars IH]; intros i b j Hi Hr Hj; cbv zeta.
  - cbn [from_string_loop]. repeat split.
    destruct (i <=? j); reflexivity.
  - cbn [from_string_loop]. cbn [length] in Hr.
    set (b1 := if c =? 49 then bitmap_set_bit b i
               else if c =? 48 then bitmap_clear_bit b i else b).
    assert (Hin : in_range b i) by (unfold in_range; lia).
    assert (Hl1 : length (data b1) = length (data b)).
    { unfold b1. destruct (c =? 49); [apply data_length_set_bit|].
      destruct (c =? 48); [apply data_length_clear_bit | reflexivity]. }
    assert (Hs1 : size b1 = size b).
    { unfold b1. destruct (c =? 49); [reflexivity|].
      destruct (c =? 48); reflexivity. }
    assert (Hb1 : bitmap_get_bit b1 j =
                  if i =? j then (if c =? 49 then true
                                  else if c =? 48 then false
                                       else bitmap_get_bit b j)
                  else bitmap_get_bit b j).
    { unfold b1. destruct (c =? 49).
      - rewrite bitmap_get_set_bit by assumption. destruct (i =? j); reflexivity.
      - destruct (c =? 48).
        + rewrite bitmap_get_clear_bit by assumption.
          destruct (i =? j); reflexivity.
        + destruct (i =? j); reflexivity. }
    destruct (IH (i + 1) b1 j ltac:(lia) ltac:(rewrite Hl1; lia) Hj)
      as (Hl & Hsz & Hb).
    split; [congruence | split; [congruence |]].
    rewrite Hb, Hb1.
    destruct (Z.leb_spec (i + 1) j) as [H1|H1].
    + destruct (Z.leb_spec i j) as [_|H2]; [|lia].
      destruct (Z.eqb_spec i j) as [H3|_]; [lia|].
      replace (Z.to_nat (j - i)) with (S (Z.to_nat (j - (i + 1)))) by lia.
      reflexivity.
    + destruct (Z.leb_spec i j) as [H2|H2].
      * assert (j = i) by lia. subst j.
        rewrite Z.sub_diag, Z.eqb_refl. reflexivity.
      * destruct (Z.eqb_spec i j) as [H3|_]; [lia | reflexivity].
Qed.

Lemma length_Zrange (lo : Z) (n : nat) : length (Zrange lo n) = n.
Proof. unfold Zrange. now rewrite length_map, length_seq. Qed.

Lemma lookup_Zrange (lo : Z) (n k : nat) :
  (k < n)%nat -> Zrange lo n !! k = Some (lo + Z.of_nat k).
Proof.
  intros H. unfold Zrange. rewrite list_lookup_fmap.
  rewrite lookup_seq_lt by exact H. reflexivity.
Qed.

Lemma bitmap_to_string_length (b : BITMAP) :
  length (bitmap_to_string b) = Z.to_nat (size b).
Proof. unfold bitmap_to_string. now rewrite length_map, length_Zrange. Qed.

Lemma bitmap_to_string_lookup (b : BITMAP) (k : nat) :
  (k < Z.to_nat (size b))%nat ->
  bitmap_to_string b !! k
  = Some (if bitmap_get_bit b (Z.of_nat k) then 49 else 48).
Proof.
  intros H. unfold bitmap_to_string. rewrite list_lookup_fmap.
  rewrite lookup_Zrange by exact H. reflexivity.
Qed.

Lemma bitmap_to_string_no_nul (b : BITMAP) :
  List.Forall (fun c => c <> 0) (bitmap_to_string b).
Proof.
  unfold bitmap_to_string. apply List.Forall_forall. intros c Hin.
  apply in_map_iff in Hin. destruct Hin as (i & <- & _).
  destruct (bitmap_get_bit b i); lia.
Qed.

(** X8.  [bitmap_to_string] followed by [bitmap_from_string] into a bitmap
    of the same size gives back every bit; and a string of ['0'] and ['1']
    no longer than the bitmap, written with [bitmap_from_string], is the
    beginning of what [bitmap_to_string] returns. *)
Theorem bitmap_string_round_trip (b dest : BITMAP) (s : list Z) :
  well_sized b -> well_sized dest -> size dest = size b -> 0 <= size b ->
  List.Forall (fun c => c = 48 \/ c = 49) s ->
  Z.of_nat (length s) <= size b ->
  (forall j, 0 <= j < size b ->
     bitmap_get_bit (bitmap_from_string dest (bitmap_to_string b)) j
     = bitmap_get_bit b j) /\
  take (length s) (bitmap_to_string (bitmap_from_string b s)) = s.
Proof.
  intros [Hb _] [Hd _] Hsz Hpos Hs Hlen. split.
  - intros j Hj. unfold bitmap_from_string.
    rewrite (c_string_no_nul _ (bitmap_to_string_no_nul b)).
    rewrite bitmap_to_string_length, Z2Nat.id, Hsz by lia.
    destruct (Z.gtb_spec (size b) (size b)) as [E|_]; [lia|].
    rewrite firstn_all2 by (rewrite bitmap_to_string_length; lia).
    destruct (from_string_loop_spec (bitmap_to_string b) 0 dest j
                ltac:(lia)
                ltac:(rewrite bitmap_to_string_length, Z2Nat.id; lia)
                ltac:(lia)) as (_ & _ & Hbit).
    rewrite Hbit. destruct (Z.leb_spec 0 j) as [_|E]; [|lia].
    rewrite Z.sub_0_r, bitmap_to_string_lookup by lia.
    rewrite Z2Nat.id by lia.
    destruct (bitmap_get_bit b j); reflexivity.
  - assert (Hnn : List.Forall (fun c => c <> 0) s).
    { eapply List.Forall_impl; [|exact Hs]. cbv beta. lia. }
    unfold bitmap_from_string. rewrite (c_string_no_nul _ Hnn).
    destruct (Z.gtb_spec (Z.of_nat (length s)) (size b)) as [E|_]; [lia|].
    rewrite Nat2Z.id, firstn_all.
    apply list_eq. intros k.
    destruct (from_string_loop_spec s 0 b (Z.of_nat k) ltac:(lia) ltac:(lia)
                ltac:(lia)) as (_ & Hsize & Hbit).
    destruct (Nat.lt_ge_cases k (length s)) as [Hk|Hk].
    + rewrite lookup_take_lt by exact Hk.
      rewrite bitmap_to_string_lookup by (rewrite Hsize; lia).
      rewrite Hbit. destruct (Z.leb_spec 0 (Z.of_nat k)) as [_|E]; [|lia].
      rewrite Z.sub_0_r, Nat2Z.id.
      destruct (s !! k) as [c|] eqn:Ek.
      * assert (Hc : c = 48 \/ c = 49).
        { rewrite List.Forall_forall in Hs. apply Hs.
          apply list_elem_of_In. eapply list_elem_of_lookup_2. exact Ek. }
        destruct Hc as [-> | ->]; reflexivity.
      * apply lookup_ge_None in Ek. lia.
    + rewrite lookup_take_ge by exact Hk.
      symmetry. apply lookup_ge_None. exact Hk.
Qed.

Lemma bitmap_string_round_trip_witness :
  (forall j, 0 <= j < size example_bitmap ->
     bitmap_get_bit (bitmap_from_string example_bitmap
                       (bitmap_to_string example_bitmap)) j
     = bitmap_get_bit example_bitmap j) /\
  take (length [49; 48; 49])
       (bitmap_to_string (bitmap_from_string example_bitmap [49; 48; 49]))
  = [49; 48; 49].
Proof.
  apply (bitmap_string_round_trip example_bitmap example_bitmap [49; 48; 49]).
  - split; unfold two64; simpl; lia.
  - split; unfold two64; simpl; lia.
  - reflexivity.
  - simpl; lia.
  - repeat constructor; lia.
  - simpl; lia.
Defined.

(** ** What the file readers accept *)

Lemma le_bytes_le_value (l : list Z) :
  List.Forall (fun c => 0 <= c < 256) l ->
  le_bytes (length l) (le_value l) = l.
Proof.
  induction 1 as [|c l Hc Hl IH]; cbn [length le_bytes le_value];
    [reflexivity|].
  replace (c + 256 * le_value l) with (c + le_value l * 256) by lia.
  rewrite Z.mod_add, Z.div_add, Z.mod_small, Z.div_small by lia.
  now rewrite Z.add_0_l, IH.
Qed.

Lemma le_value_range (l : list Z) :
  List.Forall (fun c => 0 <= c < 256) l ->
  0 <= le_value l < 256 ^ Z.of_nat (length l).
Proof.
  induction 1 as [|c l Hc Hl IH]; cbn [length le_value].
  - change (256 ^ Z.of_nat 0) with 1. lia.
  - rewrite Nat2Z.inj_succ, Z.pow_succ_r by lia. lia.
Qed.

Lemma fread_Some (n : nat) (stream a r : list Z) :
  fread n stream = Some (a, r) -> stream = a ++ r /\ length a = n.
Proof.
  unfold fread. destruct (Nat.ltb_spec (length stream) n) as [H|H];
    [discriminate|].
  intros [= <- <-]. split; [symmetry; apply take_drop|].
  apply length_take_le. lia.
Qed.

Lemma Forall_app_bytes (P : Z -> Prop) (a r : list Z) :
  List.Forall P (a ++ r) -> List.Forall P a /\ List.Forall P r.
Proof. apply List.Forall_app. Qed.

Lemma words_bytes_le_words (w : nat) (n : nat) :
  forall bytes,
    List.Forall (fun c => 0 <= c < 256) bytes ->
    length bytes = (w * n)%nat ->
    flat_map (le_bytes w) (le_words w n bytes) = bytes /\
    length (le_words w n bytes) = n /\
    List.Forall (fun c => 0 <= c < 256 ^ Z.of_nat w) (le_words w n bytes).
Proof.
  induction n as [|n IH]; intros bytes Hb Hl; cbn [le_words flat_map length].
  - rewrite Nat.mul_0_r in Hl. apply nil_length_inv in Hl. subst.
    repeat split. constructor.
  - rewrite <- (take_drop w bytes) in Hb.
    apply List.Forall_app in Hb. destruct Hb as [Hb1 Hb2].
    assert (Hlt : length (take w bytes) = w) by (apply length_take_le; lia).
    destruct (IH (drop w bytes) Hb2 ltac:(rewrite length_drop; lia))
      as (E & El & Ef).
    rewrite E, El. split; [|split; [reflexivity|]].
    + pose proof (le_bytes_le_value _ Hb1) as Hv. rewrite Hlt in Hv.
      rewrite Hv. apply take_drop.
    + constructor; [|exact Ef].
      pose proof (le_value_range _ Hb1) as Hr. rewrite Hlt in Hr. exact Hr.
Qed.

Lemma to_int_range (z : Z) : - 2 ^ 31 <= to_int z < 2 ^ 31.
Proof.
  unfold to_int.
  pose proof (Z.mod_pos_bound (z + 2 ^ 31) (2 ^ 32) ltac:(lia)). lia.
Qed.

Lemma length_le_words (w n : nat) :
  forall bytes, length (le_words w n bytes) = n.
Proof.
  induction n as [|n IH]; intros bytes; cbn [le_words length];
    [reflexivity | now rewrite IH].
Qed.

Lemma le_words_range (w n : nat) :
  forall bytes,
    List.Forall (fun c => 0 <= c < 256) bytes ->
    List.Forall (fun c => 0 <= c < 256 ^ Z.of_nat w) (le_words w n bytes).
Proof.
  induction n as [|n IH]; intros bytes Hb; cbn [le_words]; constructor.
  - pose proof (le_value_range _ (Forall_take_Z _ w _ Hb)) as Hr.
    assert (Hl : (length (take w bytes) <= w)%nat)
      by (rewrite length_take; lia).
    assert (256 ^ Z.of_nat (length (take w bytes)) <= 256 ^ Z.of_nat w)
      by (apply Z.pow_le_mono_r; lia).
    lia.
  - apply IH. rewrite <- (take_drop w bytes) in Hb.
    apply List.Forall_app in Hb. tauto.
Qed.

Section Readers.

Variable SHA256 : list Z -> list Z.

(** X9.  Whatever [bitmap_read_file] returns was in the file: the file of
    bytes begins with the 8 bytes of the size, the [(size + 7) / 8] bytes
    of the bitmap and the SHA-256 digest of exactly those bytes.  A file
    whose digest does not match its bytes, or that is too short, or whose
    size field is 0, is rejected. *)
Theorem bitmap_read_file_sound (file : list Z) (b : BITMAP) :
  List.Forall (fun c => 0 <= c < 256) file ->
  bitmap_read_file SHA256 file = Done b ->
  exists rest,
    file = le_bytes 8 (size b) ++ data b ++ SHA256 (data b) ++ rest /\
    sha256 b = Some (SHA256 (data b)) /\
    size b <> 0 /\
    length (data b) = Z.to_nat (byte_size (size b)) /\
    length (SHA256 (data b)) = 32%nat.
Proof.
  intros Hbytes. unfold bitmap_read_file.
  destruct (fread 8 file) as [[hd r1]|] eqn:E1; [|discriminate].
  apply fread_Some in E1. destruct E1 as [-> Hhd].
  apply List.Forall_app in Hbytes. destruct Hbytes as [Bhd _].
  unfold bitmap_create.
  destruct (Z.eqb_spec (le_value hd) 0) as [E0|E0]; [discriminate|].
  cbn [size data sha256].
  set (n := Z.to_nat (byte_size (le_value hd))).
  destruct (fread n r1) as [[bytes r2]|] eqn:E2; [|discriminate].
  apply fread_Some in E2. destruct E2 as [-> Hb].
  destruct (fread 32 r2) as [[stored r3]|] eqn:E3; [|discriminate].
  apply fread_Some in E3. destruct E3 as [-> Hs].
  unfold bitmap_compute_hash. cbn [size data sha256]. fold n.
  rewrite drop_replicate, Nat.sub_diag. cbn [replicate].
  rewrite app_nil_r.
  assert (Ht : take n bytes = bytes) by (rewrite <- Hb; apply firstn_all).
  rewrite Ht.
  destruct (bool_decide (Some stored = Some (SHA256 bytes))) eqn:Ed;
    [|discriminate].
  apply bool_decide_eq_true_1 in Ed. injection Ed as Ed. subst stored.
  intros [= <-]. cbn [size data sha256]. exists r3.
  pose proof (le_bytes_le_value _ Bhd) as Hv. rewrite Hhd in Hv.
  rewrite Hv. repeat split; assumption.
Qed.

(** X10.  Whatever [primes_obj_read_file] returns has a positive count,
    a capacity equal to it, that many cells, and as digest the SHA-256 of
    the cells' bytes.  The digest field holds the bytes (up to 32) that
    the file has after the count and the cells, followed by the zeros of
    [primes_obj_init] where the file ended early; a file of at least
    [4 + 8 * count + 32] bytes begins with the count, the cells and the
    digest.  A file is not rejected for being short: the reader does not
    look at what [fread] returns. *)
Theorem primes_obj_read_file_sound
        (stack_count : Z) (heap : nat -> Z) (file : list Z)
        (q : PRIMES_OBJ) :
  List.Forall (fun c => 0 <= c < 256) file ->
  primes_obj_read_file SHA256 stack_count heap file = Done q ->
  0 < p_count q < 2 ^ 31 /\
  capacity q = p_count q /\
  Z.of_nat (length (p_array q)) = p_count q /\
  List.Forall (fun p => 0 <= p < two64) (p_array q) /\
  p_sha256 q = SHA256 (flat_map (le_bytes 8) (p_array q)) /\
  (let stored :=
     take 32 (drop (4 + 8 * Z.to_nat (p_count q)) file) in
   p_sha256 q = stored ++ replicate (32 - length stored) 0) /\
  (4 + 8 * p_count q + 32 <= Z.of_nat (length file) ->
   exists rest,
     file = le_bytes 4 (p_count q) ++ flat_map (le_bytes 8) (p_array q) ++
            p_sha256 q ++ rest).
Proof.
  intros Hbytes. unfold primes_obj_read_file, fread_unchecked.
  set (hd := take 4 file).
  set (count := if (length hd =? 4)%nat then to_int (le_value hd)
                else to_int stack_count).
  assert (Hcr : - 2 ^ 31 <= count < 2 ^ 31)
    by (unfold count; destruct (length hd =? 4)%nat; apply to_int_range).
  unfold primes_obj_init.
  destruct (Z.leb_spec count 0) as [E0|E0]; [discriminate|].
  cbn [capacity p_sha256].
  set (k := Z.to_nat count).
  set (bytes := take (8 * k) (drop 4 file)).
  set (m := (length bytes / 8)%nat).
  set (cells := le_words 8 m bytes ++
                map (fun i => u64 (heap i)) (seq m (k - m))).
  set (dg := take 32 (drop (8 * k) (drop 4 file))).
  assert (Bb : List.Forall (fun c => 0 <= c < 256) bytes).
  { unfold bytes. apply Forall_take_Z.
    rewrite <- (take_drop 4 file) in Hbytes.
    apply List.Forall_app in Hbytes. tauto. }
  assert (Hm : (m <= k)%nat).
  { unfold m. apply Nat.Div0.div_le_upper_bound.
    unfold bytes. rewrite length_take. lia. }
  assert (Hcl : length cells = k).
  { unfold cells. rewrite length_app, length_le_words, length_map,
      length_seq. lia. }
  unfold primes_bytes. cbn [p_count p_array]. fold k.
  assert (Ht : take k cells = cells) by (rewrite <- Hcl; apply firstn_all).
  rewrite Ht.
  destruct (bool_decide _) eqn:Ed; [|discriminate].
  apply bool_decide_eq_true_1 in Ed.
  intros [= <-]. cbn [p_count p_array p_sha256 capacity]. fold k.
  split; [lia|]. split; [reflexivity|].
  split; [rewrite Hcl; unfold k; lia|].
  split.
  { unfold cells. apply List.Forall_app. split.
    - exact (le_words_range 8 m bytes Bb).
    - apply List.Forall_forall. intros c Hc. apply in_map_iff in Hc.
      destruct Hc as (i & <- & _). apply u64_range. }
  split; [symmetry; exact Ed|].
  split.
  { cbv zeta. rewrite <- drop_drop. fold dg. f_equal.
    change (drop (length dg) (replicate 32 0)
            = replicate (32 - length dg) 0).
    apply drop_replicate. }
  intros Hfull.
  assert (Hhd : length hd = 4%nat) by (unfold hd; rewrite length_take; lia).
  assert (Bhd : List.Forall (fun c => 0 <= c < 256) hd)
    by (apply Forall_take_Z; exact Hbytes).
  pose proof (le_value_range _ Bhd) as Hv. rewrite Hhd in Hv.
  change (256 ^ Z.of_nat 4) with (2 ^ 32) in Hv.
  assert (Hc : count = le_value hd).
  { unfold count in *. rewrite Hhd in *. cbn [Nat.eqb] in *.
    unfold to_int in *.
    destruct (Z.lt_ge_cases (le_value hd) (2 ^ 31)) as [Hlt|Hge].
    - rewrite Z.mod_small by lia. lia.
    - replace (le_value hd + 2 ^ 31)
        with (le_value hd - 2 ^ 31 + 1 * 2 ^ 32) in E0 by lia.
      rewrite Z.mod_add, Z.mod_small in E0 by lia. lia. }
  assert (Hbl : length bytes = (8 * k)%nat)
    by (unfold bytes; rewrite length_take, length_drop; lia).
  assert (Em : m = k)
    by (unfold m; rewrite Hbl, Nat.mul_comm; apply Nat.div_mul; lia).
  assert (Hdl : length dg = 32%nat)
    by (unfold dg; rewrite length_take, !length_drop; lia).
  destruct (words_bytes_le_words 8 k bytes Bb Hbl) as (Ew & _ & _).
  exists (drop 32 (drop (8 * k) (drop 4 file))).
  unfold cells. rewrite Em, Nat.sub_diag. cbn [seq map].
  rewrite app_nil_r, Ew, Hdl. cbn [drop]. rewrite app_nil_r.
  pose proof (le_bytes_le_value _ Bhd) as Hl.
  rewrite Hhd, <- Hc in Hl. rewrite Hl.
  unfold hd, bytes, dg. now rewrite !take_drop.
Qed.

(** X23.  Whatever [vx6_read_file] accepts was in the file: the file
    begins with the 8 bytes of a length, that many bytes of [y], the 4
    bytes of a count between 0 and the [vx6 / 2] cells of [p_gaps]
    followed by 4 bytes of padding, that many 2-byte gaps and 32 bytes of
    digest.  With at least one gap these 32 bytes are the SHA-256 of
    exactly the gap bytes; with a count of 0 nothing is hashed and they
    are whatever the reader's unfilled buffer ([stack]) holds.  The block
    gets [y], the count, the gaps and the digest from the file and keeps
    its own [vx], [x5] and [x7]. *)
Theorem vx6_read_file_sound (stack : list Z) (v v' : VX_OBJ)
        (file : list Z) :
  List.Forall (fun c => 0 <= c < 256) file ->
  vx6_read_file SHA256 stack v file = Done v' ->
  exists ybuf rest,
    let gaps := take (Z.to_nat (vx_p_count v')) (vx_p_gaps v') in
    file = le_bytes 8 (Z.of_nat (length ybuf)) ++ ybuf ++
           (le_bytes 4 (vx_p_count v') ++ vx_pad v') ++
           flat_map (le_bytes 2) gaps ++ vx_sha256 v' ++ rest /\
    vx_y v' = c_string ybuf /\
    0 <= vx_p_count v' <= p_gaps_capacity /\
    (0 < vx_p_count v' ->
     vx_sha256 v' = SHA256 (flat_map (le_bytes 2) gaps)) /\
    (vx_p_count v' = 0 -> vx_sha256 v' = stack) /\
    List.Forall (fun g => 0 <= g < 2 ^ 16) gaps /\
    vx_vx v' = vx_vx v /\ vx_x5 v' = vx_x5 v /\ vx_x7 v' = vx_x7 v.
Proof.
  intros Hbytes. unfold vx6_read_file.
  assert (Hcap : p_gaps_capacity = 808307) by reflexivity.
  destruct (fread 8 file) as [[hd r1]|] eqn:E1; [|discriminate].
  apply fread_Some in E1. destruct E1 as [-> Hhd].
  apply List.Forall_app in Hbytes. destruct Hbytes as [Bhd B1].
  pose proof (le_value_range _ Bhd) as Hylen.
  destruct (fread (Z.to_nat (le_value hd)) r1) as [[ybuf r2]|] eqn:E2;
    [|discriminate].
  apply fread_Some in E2. destruct E2 as [-> Hy].
  apply List.Forall_app in B1. destruct B1 as [_ B2].
  destruct (fread 8 r2) as [[cnt r3]|] eqn:E3; [|discriminate].
  apply fread_Some in E3. destruct E3 as [-> Hcnt].
  apply List.Forall_app in B2. destruct B2 as [Bcnt B3].
  assert (Bc4 : List.Forall (fun c => 0 <= c < 256) (take 4 cnt))
    by (apply Forall_take_Z; exact Bcnt).
  assert (Hl4 : length (take 4 cnt) = 4%nat) by (apply length_take_le; lia).
  pose proof (le_value_range _ Bc4) as Hv. rewrite Hl4 in Hv.
  change (256 ^ Z.of_nat 4) with (2 ^ 32) in Hv.
  set (count := to_int (le_value (take 4 cnt))).
  pose proof (to_int_range (le_value (take 4 cnt))) as Hcr. fold count in Hcr.
  destruct (Z.gtb_spec (Z.min (u64 count) (Z.of_nat (length r3) / 2))
                       p_gaps_capacity) as [Hover|Hfit]; [discriminate|].
  destruct (fread (2 * Z.to_nat (u64 count)) r3) as [[bytes r4]|] eqn:E4;
    [|discriminate].
  apply fread_Some in E4. destruct E4 as [-> Hb].
  apply List.Forall_app in B3. destruct B3 as [Bb _].
  destruct (fread 32 r4) as [[stored r5]|] eqn:E5; [|discriminate].
  apply fread_Some in E5. destruct E5 as [-> Hs].
  pose proof (u64_range count) as Hu.
  assert (Hw : u64 count <= p_gaps_capacity).
  { rewrite length_app in Hfit.
    assert (u64 count <= Z.of_nat (length bytes + length (stored ++ r5)) / 2)
      by (apply Z.div_le_lower_bound; lia).
    lia. }
  assert (Hnn : 0 <= count).
  { destruct (Z.lt_ge_cases count 0) as [Hneg|]; [|assumption].
    unfold u64 in Hw, Hu.
    replace count with (count + two64 + -1 * two64) in Hw by lia.
    rewrite Z.mod_add, Z.mod_small in Hw by (unfold two64; lia).
    unfold two64 in Hw. lia. }
  rewrite (u64_small count) in * by (unfold two64; lia).
  rewrite (u64_small (count * 2)) by (unfold two64; lia).
  set (k := Z.to_nat count) in *.
  destruct (words_bytes_le_words 2 k bytes Bb Hb) as (Ew & El & Ef).
  unfold gaps_bytes. cbn [vx_p_count vx_p_gaps]. fold k.
  rewrite take_app_length' by (symmetry; exact El). rewrite Ew.
  destruct (bool_decide _) eqn:Ed; [|discriminate].
  apply bool_decide_eq_true_1 in Ed.
  intros [= <-].
  cbn [vx_vx vx_y vx_p_count vx_pad vx_x5 vx_x7 vx_p_gaps vx_sha256].
  exists ybuf, r5. cbv zeta. fold k.
  rewrite take_app_length' by (symmetry; exact El). rewrite Ew.
  assert (Ehd : le_bytes 8 (Z.of_nat (length ybuf)) = hd).
  { rewrite Hy, Z2Nat.id by lia.
    pose proof (le_bytes_le_value _ Bhd) as Hl. rewrite Hhd in Hl. exact Hl. }
  assert (Ec : le_bytes 4 count = take 4 cnt).
  { assert (Ev : count = le_value (take 4 cnt)).
    { unfold count, to_int in *.
      destruct (Z.lt_ge_cases (le_value (take 4 cnt)) (2 ^ 31)) as [Hlt|Hge].
      - rewrite Z.mod_small by lia. lia.
      - replace (le_value (take 4 cnt) + 2 ^ 31)
          with (le_value (take 4 cnt) - 2 ^ 31 + 1 * 2 ^ 32) in Hnn by lia.
        rewrite Z.mod_add, Z.mod_small in Hnn by lia. lia. }
    rewrite Ev. pose proof (le_bytes_le_value _ Bc4) as Hl.
    rewrite Hl4 in Hl. exact Hl. }
  rewrite Ehd, Ec, (take_drop 4 cnt), <- ?app_assoc.
  split; [reflexivity|]. split; [reflexivity|]. split; [lia|].
  split.
  { intros Hpos. destruct (Z.eqb_spec (count * 2) 0) as [E0|_]; [lia|].
    symmetry. exact Ed. }
  split.
  { intros E0. rewrite E0 in Ed. cbn [Z.mul Z.eqb] in Ed.
    symmetry. exact Ed. }
  split; [exact Ef|]. repeat split.
Qed.

End Readers.

Lemma bitmap_read_file_sound_witness :
  exists rest,
    [10; 0; 0; 0; 0; 0; 0; 0; 5; 2] ++ replicate 32 7
    = le_bytes 8 10 ++ [5; 2] ++ byte_sum_digest [5; 2] ++ rest /\
    Some (byte_sum_digest [5; 2]) = Some (byte_sum_digest [5; 2]) /\
    10 <> 0 /\
    length [5; 2] = Z.to_nat (byte_size 10) /\
    length (byte_sum_digest [5; 2]) = 32%nat.
Proof.
  apply (bitmap_read_file_sound byte_sum_digest
           ([10; 0; 0; 0; 0; 0; 0; 0; 5; 2] ++ replicate 32 7)
           (mkBITMAP 10 [5; 2] (Some (byte_sum_digest [5; 2])))).
  - repeat (constructor; [lia|]). constructor.
  - vm_compute. reflexivity.
Defined.

Lemma primes_obj_read_file_sound_witness :
  0 < 1 < 2 ^ 31 /\
  1 = 1 /\
  Z.of_nat (length [5]) = 1 /\
  List.Forall (fun p => 0 <= p < two64) [5] /\
  replicate 32 5 = byte_sum_digest (flat_map (le_bytes 8) [5]) /\
  (let stored :=
     take 32 (drop (4 + 8 * Z.to_nat 1)
                   ([1; 0; 0; 0; 5; 0; 0; 0; 0; 0; 0; 0] ++ replicate 32 5)) in
   replicate 32 5 = stored ++ replicate (32 - length stored) 0) /\
  (4 + 8 * 1 + 32
   <= Z.of_nat (length ([1; 0; 0; 0; 5; 0; 0; 0; 0; 0; 0; 0] ++
                        replicate 32 5)) ->
   exists rest,
     [1; 0; 0; 0; 5; 0; 0; 0; 0; 0; 0; 0] ++ replicate 32 5
     = le_bytes 4 1 ++ flat_map (le_bytes 8) [5] ++ replicate 32 5 ++ rest).
Proof.
  apply (primes_obj_read_file_sound byte_sum_digest 0 (fun _ => 0)
           ([1; 0; 0; 0; 5; 0; 0; 0; 0; 0; 0; 0] ++ replicate 32 5)
           (mkPRIMES 1 1 [5] (replicate 32 5))).
  - repeat (constructor; [lia|]). constructor.
  - vm_compute. reflexivity.
Defined.

(** A file cut inside the digest is accepted when the missing bytes are
    zero.  Here the digest function returns 31 ones and a zero, and the
    file of the one cell 256 stops after the 31st digest byte: 43 bytes
    instead of 44. *)
Lemma short_primes_file_accepted :
  exists q,
    primes_obj_read_file (fun bytes => replicate 31 1 ++ [0]) 0 (fun _ => 0)
      ([1; 0; 0; 0; 0; 1; 0; 0; 0; 0; 0; 0] ++ replicate 31 1) = Done q /\
    p_array q = [256] /\
    length ([1; 0; 0; 0; 0; 1; 0; 0; 0; 0; 0; 0] ++ replicate 31 1)
    = 43%nat.
Proof. eexists. split; [vm_compute; reflexivity|]. split; reflexivity. Qed.

Lemma vx6_read_file_sound_witness :
  exists ybuf rest,
    let gaps := take (Z.to_nat 1) [4] in
    [2; 0; 0; 0; 0; 0; 0; 0; 49; 0; 1; 0; 0; 0; 0; 0; 0; 0; 4; 0] ++
    replicate 32 4
    = le_bytes 8 (Z.of_nat (length ybuf)) ++ ybuf ++
      (le_bytes 4 1 ++ [0; 0; 0; 0]) ++
      flat_map (le_bytes 2) gaps ++ replicate 32 4 ++ rest /\
    [49] = c_string ybuf /\
    0 <= 1 <= p_gaps_capacity /\
    (0 < 1 -> replicate 32 4 = byte_sum_digest (flat_map (le_bytes 2) gaps)) /\
    (1 = 0 -> replicate 32 4 = replicate 32 255) /\
    List.Forall (fun g => 0 <= g < 2 ^ 16) gaps /\
    vx6 = vx6 /\ @None BITMAP = None /\ @None BITMAP = None.
Proof.
  apply (vx6_read_file_sound byte_sum_digest (replicate 32 255) fresh_block
           (mkVX vx6 [49] 1 [0; 0; 0; 0] None None [4] (replicate 32 4))
           ([2; 0; 0; 0; 0; 0; 0; 0; 49; 0; 1; 0; 0; 0; 0; 0; 0; 0; 4; 0] ++
            replicate 32 4)).
  - repeat (constructor; [lia|]). constructor.
  - vm_compute. reflexivity.
Defined.

(** ** Further properties of the lane arithmetic *)

Lemma gcd_6_of_lane (p : Z) :
  p mod 6 = 1 \/ p mod 6 = 5 -> Z.gcd p 6 = 1.
Proof.
  intros H. rewrite Z.gcd_comm, <- Z.gcd_mod by lia.
  destruct H as [-> | ->]; reflexivity.
Qed.

(** Two indices of the same lane whose values are both multiples of [p]
    differ by a multiple of [p]. *)
Lemma same_lane_multiples (p a b c : Z) :
  Z.gcd p 6 = 1 -> (p | 6 * a + c) -> (p | 6 * b + c) -> (p | a - b).
Proof.
  intros Hg Ha Hb. apply (Z.gauss p 6 (a - b)); [|exact Hg].
  replace (6 * (a - b)) with ((6 * a + c) - (6 * b + c)) by ring.
  now apply Z.divide_sub_r.
Qed.

Lemma no_smaller_multiple (p a b c : Z) :
  Z.gcd p 6 = 1 -> 0 < b < a -> a <= p ->
  (p | 6 * a + c) -> ~ (p | 6 * b + c).
Proof.
  intros Hg Hb Ha Hda Hdb.
  pose proof (same_lane_multiples p a b c Hg Hda Hdb) as Hd.
  apply Z.divide_pos_le in Hd; lia.
Qed.

Lemma normalized_xp_divides (lane p : Z) :
  lane = -1 \/ lane = 1 -> 5 <= p < two64 - 1 ->
  p mod 6 = 1 \/ p mod 6 = 5 ->
  (p | 6 * normalized_xp lane p + lane).
Proof.
  intros Hl Hp Hm. unfold normalized_xp.
  assert (Hx : u64 (p + 1) / 6 = (p + 1) / 6).
  { rewrite u64_small; [reflexivity | unfold two64 in *; lia]. }
  rewrite Hx.
  assert (H1 : 1 <= (p + 1) / 6) by (apply Z.div_le_lower_bound; lia).
  assert (H2 : (p + 1) / 6 < p) by (apply Z.div_lt_upper_bound; lia).
  rewrite (u64_small (p - (p + 1) / 6)) by (unfold two64 in *; lia).
  pose proof (Z.div_mod p 6 ltac:(lia)) as Hdm.
  destruct Hm as [Hm|Hm]; rewrite Hm in *; cbn [Z.eqb Z.ltb Z.compare Pos.eqb].
  - assert (Hq : (p + 1) / 6 = p / 6).
    { replace (p + 1) with (2 + (p / 6) * 6) by lia.
      rewrite Z.div_add by lia. reflexivity. }
    rewrite Hq. destruct Hl as [-> | ->]; cbn [Z.ltb Z.compare].
    + exists 5. lia.
    + exists 1. lia.
  - assert (Hq : (p + 1) / 6 = p / 6 + 1).
    { replace (p + 1) with (0 + (p / 6 + 1) * 6) by lia.
      rewrite Z.div_add by lia. reflexivity. }
    rewrite Hq. destruct Hl as [-> | ->]; cbn [Z.ltb Z.compare].
    + exists 1. lia.
    + exists 5. lia.
Qed.

(** X11.  For [p >= 5] on either lane ([p mod 6] is 1 or 5),
    [normalized_xp(lane, p)] is the smallest index [x > 0] whose value
    [6x + lane] on the given lane is a multiple of [p], and it is below
    [p]. *)
Theorem normalized_xp_first_multiple (lane p : Z) :
  lane = -1 \/ lane = 1 -> 5 <= p < two64 - 1 ->
  p mod 6 = 1 \/ p mod 6 = 5 ->
  let x := normalized_xp lane p in
  0 < x < p /\ (p | 6 * x + lane) /\
  forall x', 0 < x' < x -> ~ (p | 6 * x' + lane).
Proof.
  intros Hl Hp Hm. cbv zeta.
  pose proof (normalized_xp_range lane p Hp) as Hr.
  pose proof (normalized_xp_divides lane p Hl Hp Hm) as Hd.
  split; [exact Hr|]. split; [exact Hd|].
  intros x' Hx'.
  apply (no_smaller_multiple p (normalized_xp lane p) x' lane);
    [apply gcd_6_of_lane; exact Hm | lia | lia | exact Hd].
Qed.

Lemma normalized_xp_first_multiple_witness :
  0 < normalized_xp 1 23 < 23 /\ (23 | 6 * normalized_xp 1 23 + 1) /\
  forall x', 0 < x' < normalized_xp 1 23 -> ~ (23 | 6 * x' + 1).
Proof.
  apply (normalized_xp_first_multiple 1 23);
    [right; reflexivity | unfold two64; lia | right; reflexivity].
Defined.

(** X12.  [solve_for_x_gmp(lane, p, vx, y)], for [p >= 5] on either lane
    and any [y], returns the smallest [x > 0] such that the value
    [6 (x + vx y) + lane] at index [x] of segment [y] is a multiple of
    [p]; it is at most [p]. *)
Theorem solve_for_x_gmp_first_multiple (lane p vx y : Z) :
  lane = -1 \/ lane = 1 -> 5 <= p < two64 - 1 ->
  p mod 6 = 1 \/ p mod 6 = 5 ->
  let x := solve_for_x_gmp lane p vx y in
  0 < x <= p /\ (p | 6 * (x + vx * y) + lane) /\
  forall x', 0 < x' < x -> ~ (p | 6 * (x' + vx * y) + lane).
Proof.
  intros Hl Hp Hm. cbv zeta.
  destruct (solve_for_x_gmp_correct lane p vx y Hp) as [Hr Hc].
  cbv zeta in Hr, Hc.
  pose proof (normalized_xp_divides lane p Hl Hp Hm) as Hd.
  set (x := solve_for_x_gmp lane p vx y) in *.
  assert (Hdx : (p | 6 * (x + vx * y) + lane)).
  { rewrite <- Hc in Hd.
    rewrite (Z.div_mod (x + vx * y) p) by lia.
    replace (6 * (p * ((x + vx * y) / p) + (x + vx * y) mod p) + lane)
      with (p * (6 * ((x + vx * y) / p)) + (6 * ((x + vx * y) mod p) + lane))
      by ring.
    apply Z.divide_add_r; [apply Z.divide_factor_l | exact Hd]. }
  split; [exact Hr|]. split; [exact Hdx|].
  intros x' Hx' Hd'.
  pose proof (same_lane_multiples p (x + vx * y) (x' + vx * y) lane
                (gcd_6_of_lane p Hm) Hdx Hd') as Hs.
  replace (x + vx * y - (x' + vx * y)) with (x - x') in Hs by ring.
  apply Z.divide_pos_le in Hs; lia.
Qed.

Lemma solve_for_x_gmp_first_multiple_witness :
  0 < solve_for_x_gmp (-1) 23 vx6 7 <= 23 /\
  (23 | 6 * (solve_for_x_gmp (-1) 23 vx6 7 + vx6 * 7) + -1) /\
  forall x', 0 < x' < solve_for_x_gmp (-1) 23 vx6 7 ->
             ~ (23 | 6 * (x' + vx6 * 7) + -1).
Proof.
  apply (solve_for_x_gmp_first_multiple (-1) 23 vx6 7);
    [left; reflexivity | unfold two64; lia | right; reflexivity].
Defined.

(** X13.  The fixed-width [solve_for_x] returns the same index as
    [solve_for_x_gmp] whenever the product [vx * y] fits in 64 bits and is
    not below [normalized_xp(lane, p)], that is, whenever its unsigned
    subtraction does not wrap. *)
Theorem solve_for_x_agrees (lane p vx y : Z) :
  5 <= p < two64 - 1 ->
  normalized_xp lane p <= vx * y < two64 ->
  solve_for_x lane p vx y = solve_for_x_gmp lane p vx y.
Proof.
  intros Hp Hy. pose proof (normalized_xp_range lane p Hp) as Hr.
  unfold solve_for_x, solve_for_x_gmp.
  rewrite (u64_small (vx * y)) by lia.
  rewrite (u64_small (vx * y - normalized_xp lane p)) by lia.
  now rewrite (Z.mul_comm vx y).
Qed.

Lemma solve_for_x_agrees_witness :
  solve_for_x 1 23 vx6 7 = solve_for_x_gmp 1 23 vx6 7.
Proof.
  apply (solve_for_x_agrees 1 23 vx6 7); unfold two64; [lia|].
  vm_compute. split; [discriminate | reflexivity].
Defined.

(** X14.  [normalized_xp_gmp] returns the value of [normalized_xp] for
    every [p] below [2^64 - 1]. *)
Theorem normalized_xp_gmp_agrees (matrix_id p : Z) :
  0 <= p < two64 - 1 ->
  normalized_xp_gmp matrix_id p = normalized_xp matrix_id p.
Proof.
  intros Hp. unfold normalized_xp_gmp, normalized_xp.
  rewrite (u64_small (p + 1)) by lia.
  pose proof (Z.mod_pos_bound p 6 ltac:(lia)) as Hm.
  rewrite (to_int_small (p mod 6)) by lia.
  assert (H1 : 0 <= (p + 1) / 6) by (apply Z.div_pos; lia).
  assert (H2 : (p + 1) / 6 <= p).
  { destruct (Z.eq_dec p 0) as [->|]; [reflexivity|].
    apply Z.lt_le_incl, Z.div_lt_upper_bound; lia. }
  rewrite (u64_small (p - (p + 1) / 6)) by lia.
  destruct (matrix_id <? 0); destruct (p mod 6 =? 1); reflexivity.
Qed.

Lemma normalized_xp_gmp_agrees_witness :
  normalized_xp_gmp (-1) 29 = normalized_xp (-1) 29.
Proof. apply (normalized_xp_gmp_agrees (-1) 29). unfold two64. lia. Defined.

Lemma int_pow_loop_spec (n : nat) :
  forall base result,
    0 <= result < two64 ->
    int_pow_loop n base result = (result * base ^ Z.of_nat n) mod two64.
Proof.
  induction n as [|n IH]; intros base result Hr; cbn [int_pow_loop].
  - rewrite Z.pow_0_r, Z.mul_1_r, Z.mod_small by lia. reflexivity.
  - rewrite IH by apply u64_range.
    rewrite Nat2Z.inj_succ, Z.pow_succ_r by lia. unfold u64.
    rewrite Z.mul_mod_idemp_l by (unfold two64; lia).
    f_equal. ring.
Qed.

(** X15.  [int_pow(base, exp)] is [base] to the power [exp] reduced
    modulo [2^64]; for [exp <= 0] it is 1. *)
Theorem int_pow_wraps (base exp : Z) :
  (0 <= exp -> int_pow base exp = (base ^ exp) mod two64) /\
  (exp <= 0 -> int_pow base exp = 1).
Proof.
  unfold int_pow. split; intros H.
  - rewrite int_pow_loop_spec by (unfold two64; lia).
    rewrite Z2Nat.id, Z.mul_1_l by lia. reflexivity.
  - replace (Z.to_nat exp) with 0%nat by lia. reflexivity.
Qed.

Lemma int_pow_wraps_witness :
  int_pow 10 20 = (10 ^ 20) mod two64 /\ int_pow 10 0 = 1.
Proof.
  split.
  - apply (proj1 (int_pow_wraps 10 20)). lia.
  - apply (proj2 (int_pow_wraps 10 0)). lia.
Defined.

Lemma primorial_small (k : nat) :
  (k <= 14)%nat -> 0 < primorial k < 2 ^ 63.
Proof.
  intros Hk.
  do 15 (destruct k as [|k]; [vm_compute; split; reflexivity|]). lia.
Qed.

Lemma compute_limited_vx_loop_spec (n : nat) :
  forall (k : nat) (x_n vx_limit : Z),
    (k + n = 14)%nat -> vx_limit <= 14 ->
    exists K : nat,
      (k <= K <= 14)%nat /\
      compute_limited_vx_loop (drop k s_primes) x_n vx_limit (primorial k)
                              (Z.of_nat k) = primorial K /\
      (Z.of_nat K <= Z.max (Z.of_nat k) vx_limit) /\
      ((k < K)%nat -> primorial K < x_n / 2) /\
      (Z.of_nat K < vx_limit -> x_n / 2 <= primorial (S K)).
Proof.
  induction n as [|n IH]; intros k x_n vx_limit Hk Hl.
  - assert (k = 14%nat) by lia. subst k.
    exists 14%nat. split; [lia|]. split.
    + change (drop 14 s_primes)
        with [59; 61; 67; 71; 73; 79; 83; 89; 97].
      cbn [compute_limited_vx_loop].
      destruct (Z.ltb_spec (Z.of_nat 14) vx_limit) as [E|_]; [lia|].
      now rewrite andb_false_r.
    + split; [lia|]. split; lia.
  - destruct (s_primes_lookup k ltac:(lia)) as [p Hp].
    rewrite (drop_S _ _ _ Hp). cbn [compute_limited_vx_loop].
    pose proof (primorial_S k p Hp) as HS.
    pose proof (primorial_small (S k) ltac:(lia)) as Hb.
    rewrite <- HS, u64_small by (unfold two64; lia).
    destruct (Z.ltb_spec (primorial (S k)) (x_n / 2)) as [H1|H1];
      destruct (Z.ltb_spec (Z.of_nat k) vx_limit) as [H2|H2]; cbn [andb].
    + destruct (IH (S k) x_n vx_limit ltac:(lia) Hl)
        as (K & HK & E & Hm & Hlt & Hge).
      replace (Z.of_nat k + 1) with (Z.of_nat (S k)) by lia.
      exists K. split; [lia|]. split; [exact E|]. split; [lia|].
      split; [|exact Hge].
      intros _. destruct (Nat.eq_dec K (S k)) as [->|]; [exact H1|].
      apply Hlt. lia.
    + exists k. split; [lia|]. split; [reflexivity|]. split; [lia|]. split; lia.
    + exists k. split; [lia|]. split; [reflexivity|]. split; [lia|]. split; lia.
    + exists k. split; [lia|]. split; [reflexivity|]. split; [lia|]. split; lia.
Qed.

(** X18.  [compute_limited_vx(x_n, vx_limit)], for [vx_limit <= 14],
    returns the product of the first [K] small primes 5, 7, 11, ... for
    some [K] from 2 to [max(2, vx_limit)]: it is 35, or a larger primorial
    below [x_n / 2]; and it stops only at [vx_limit] primes or when one
    more prime would reach [x_n / 2]. *)
Theorem compute_limited_vx_primorial (x_n vx_limit : Z) :
  vx_limit <= 14 ->
  exists K : nat,
    (2 <= K <= 14)%nat /\
    compute_limited_vx x_n vx_limit = primorial K /\
    Z.of_nat K <= Z.max 2 vx_limit /\
    ((2 < K)%nat -> primorial K < x_n / 2) /\
    (Z.of_nat K < vx_limit -> x_n / 2 <= primorial (S K)).
Proof.
  intros Hl.
  destruct (compute_limited_vx_loop_spec 12 2 x_n vx_limit eq_refl Hl)
    as (K & HK & E & Hm & Hlt & Hge).
  exists K. split; [lia|]. split; [exact E|]. split; [exact Hm|].
  split; assumption.
Qed.

Lemma compute_limited_vx_primorial_witness :
  exists K : nat,
    (2 <= K <= 14)%nat /\
    compute_limited_vx 1000 6 = primorial K /\
    Z.of_nat K <= Z.max 2 6 /\
    ((2 < K)%nat -> primorial K < 1000 / 2) /\
    (Z.of_nat K < 6 -> 1000 / 2 <= primorial (S K)).
Proof. apply (compute_limited_vx_primorial 1000 6). lia. Defined.

(** ** [modular_inverse] and [solve_for_y] without wrap *)

Section Euclid.

Variables a0 m0 : Z.
Hypothesis m0_range : 1 < m0 < 2 ^ 31.

Lemma euclid_inv_step (a m x0 x1 : Z) :
  euclid_inv a0 m0 (a, m, x0, x1) -> 1 < a ->
  0 < m /\ let '(a', m', x0', x1') := modular_inverse_step (a, m, x0, x1) in
           a' = m /\ m' = a mod m /\ euclid_inv a0 m0 (a', m', x0', x1').
Proof.
  intros (Ha & Hm & Hg & H1 & H0 & Hb & Hs) Ha1.
  assert (Hmpos : 0 < m).
  { destruct (Z.eq_dec m 0) as [->|]; [|lia].
    rewrite Z.gcd_0_r in Hg. lia. }
  split; [exact Hmpos|].
  unfold modular_inverse_step.
  rewrite Z.quot_div_nonneg, Z.rem_mod_nonneg by lia.
  set (q := a / m).
  assert (Hq : 0 <= q) by (apply Z.div_pos; lia).
  pose proof (Z.div_mod a m ltac:(lia)) as Hdm. fold q in Hdm.
  pose proof (Z.mod_pos_bound a m Hmpos) as Hr.
  assert (Hx0 : - m0 <= x1 - q * x0 <= m0 /\ - m0 <= q * x0 <= m0).
  { destruct Hs as [[Hsg Hd]|[Hsg Hd]]; split; nia. }
  destruct Hx0 as [Hx0 Hqx].
  rewrite (to_int_small (q * x0)) by lia.
  rewrite (to_int_small (x1 - q * x0)) by lia.
  split; [reflexivity|]. split; [reflexivity|].
  unfold euclid_inv. repeat split; try lia.
  - rewrite Z.gcd_comm, Z.gcd_mod, Z.gcd_comm by lia. exact Hg.
  - exact H0.
  - replace ((x1 - q * x0) * a0 - a mod m)
      with ((x1 * a0 - a) - q * (x0 * a0 - m)) by lia.
    apply Z.divide_sub_r; [exact H1 | apply Z.divide_mul_r; exact H0].
  - destruct Hs as [[Hsg Hd]|[Hsg Hd]]; nia.
  - destruct Hs as [[Hsg Hd]|[Hsg Hd]]; nia.
Qed.

(** The sum [a + m] shrinks by a third at each round once [m <= a], so
    the fuel is never spent. *)
Lemma modular_inverse_loop_ends (fuel : nat) :
  forall a m x0 x1,
    euclid_inv a0 m0 (a, m, x0, x1) -> m <= a ->
    (a + m) * 2 ^ Z.of_nat fuel < 3 ^ Z.of_nat fuel ->
    exists m' x0' x1',
      modular_inverse_loop fuel (a, m, x0, x1) = Some (1, m', x0', x1') /\
      euclid_inv a0 m0 (1, m', x0', x1').
Proof.
  induction fuel as [|fuel IH]; intros a m x0 x1 Hinv Hle Hf.
  - change (Z.of_nat 0) with 0 in Hf. rewrite !Z.pow_0_r in Hf.
    assert (a = 1) by (destruct Hinv as (Ha & Hm & _); lia). subst a.
    exists m, x0, x1. split; [reflexivity | exact Hinv].
  - cbn [modular_inverse_loop].
    destruct (Z.gtb_spec a 1) as [Ha1|Ha1].
    + destruct (euclid_inv_step a m x0 x1 Hinv Ha1) as [Hm Hstep].
      destruct (Z.eqb_spec m 0) as [E|_]; [lia|].
      destruct (modular_inverse_step (a, m, x0, x1)) as [[[a' m'] x0'] x1'].
      destruct Hstep as (-> & -> & Hinv').
      pose proof (Z.mod_pos_bound a m Hm) as Hr.
      pose proof (Z.div_mod a m ltac:(lia)) as Hdm.
      assert (Hq : 1 <= a / m) by (apply Z.div_le_lower_bound; lia).
      apply IH; [exact Hinv' | lia |].
      rewrite Nat2Z.inj_succ, !Z.pow_succ_r in Hf by lia.
      assert (H2 : 0 < 2 ^ Z.of_nat fuel) by (apply Z.pow_pos_nonneg; lia).
      nia.
    + assert (a = 1) by (destruct Hinv as (Ha & _); lia). subst a.
      exists m, x0, x1. split; [reflexivity | exact Hinv].
Qed.

Lemma modular_inverse_loop_any (fuel : nat) (a m x0 x1 : Z) :
  euclid_inv a0 m0 (a, m, x0, x1) ->
  (a + m) * 2 ^ Z.of_nat fuel < 3 ^ Z.of_nat fuel ->
  exists m' x0' x1',
    modular_inverse_loop (S fuel) (a, m, x0, x1) = Some (1, m', x0', x1') /\
    euclid_inv a0 m0 (1, m', x0', x1').
Proof.
  intros Hinv Hf.
  assert (H2 : 0 < 2 ^ Z.of_nat fuel) by (apply Z.pow_pos_nonneg; lia).
  assert (H3 : 0 < 3 ^ Z.of_nat fuel) by (apply Z.pow_pos_nonneg; lia).
  destruct (Z.le_gt_cases m a) as [Hle|Hgt].
  - apply modular_inverse_loop_ends; [exact Hinv | exact Hle |].
    rewrite Nat2Z.inj_succ, !Z.pow_succ_r by lia. nia.
  - cbn [modular_inverse_loop].
    destruct (Z.gtb_spec a 1) as [Ha1|Ha1].
    + destruct (euclid_inv_step a m x0 x1 Hinv Ha1) as [Hm Hstep].
      destruct (Z.eqb_spec m 0) as [E|_]; [lia|].
      destruct (modular_inverse_step (a, m, x0, x1)) as [[[a' m'] x0'] x1'].
      destruct Hstep as (-> & -> & Hinv').
      pose proof (Z.mod_pos_bound a m Hm) as Hr.
      apply modular_inverse_loop_ends; [exact Hinv' | lia |].
      rewrite Z.mod_small by (destruct Hinv as (Ha & _); lia).
      replace (m + a) with (a + m) by ring. exact Hf.
    + assert (a = 1) by (destruct Hinv as (Ha & _); lia). subst a.
      exists m, x0, x1. split; [reflexivity | exact Hinv].
Qed.

(** While the invariant holds no product or difference of a round leaves
    the range of [int], so the watched round is the round. *)
Lemma checked_step_agrees (a m x0 x1 : Z) :
  euclid_inv a0 m0 (a, m, x0, x1) -> 1 < a ->
  modular_inverse_step_checked (a, m, x0, x1)
  = Value (modular_inverse_step (a, m, x0, x1)).
Proof.
  intros (Ha & Hm & Hg & H1 & H0 & Hb & Hs) Ha1.
  assert (Hmpos : 0 < m).
  { destruct (Z.eq_dec m 0) as [->|]; [|lia].
    rewrite Z.gcd_0_r in Hg. lia. }
  unfold modular_inverse_step_checked, modular_inverse_step.
  destruct (Z.eqb_spec m 0) as [E|_]; [lia|].
  rewrite Z.quot_div_nonneg, Z.rem_mod_nonneg by lia.
  set (q := a / m).
  assert (Hq : 0 <= q) by (apply Z.div_pos; lia).
  assert (Hqa : q <= a) by (apply Z.div_le_upper_bound; nia).
  pose proof (Z.div_mod a m ltac:(lia)) as Hdm. fold q in Hdm.
  pose proof (Z.mod_pos_bound a m Hmpos) as Hr.
  assert (Hx0 : - m0 <= x1 - q * x0 <= m0 /\ - m0 <= q * x0 <= m0).
  { destruct Hs as [[Hsg Hd]|[Hsg Hd]]; split; nia. }
  destruct Hx0 as [Hx0 Hqx].
  rewrite (to_int_small (q * x0)) by lia.
  rewrite (to_int_small (x1 - q * x0)) by lia.
  unfold in_int.
  destruct (Z.leb_spec (- 2 ^ 31) q); [|lia].
  destruct (Z.ltb_spec q (2 ^ 31)); [|lia].
  destruct (Z.leb_spec (- 2 ^ 31) (q * x0)); [|lia].
  destruct (Z.ltb_spec (q * x0) (2 ^ 31)); [|lia].
  destruct (Z.leb_spec (- 2 ^ 31) (x1 - q * x0)); [|lia].
  destruct (Z.ltb_spec (x1 - q * x0) (2 ^ 31)); [|lia].
  reflexivity.
Qed.

Lemma checked_loop_agrees (fuel : nat) :
  forall a m x0 x1 s',
    euclid_inv a0 m0 (a, m, x0, x1) ->
    modular_inverse_loop fuel (a, m, x0, x1) = Some s' ->
    modular_inverse_loop_checked fuel (a, m, x0, x1) = Value s'.
Proof.
  induction fuel as [|fuel IH]; intros a m x0 x1 s' Hinv;
    cbn [modular_inverse_loop modular_inverse_loop_checked];
    destruct (Z.gtb_spec a 1) as [Ha1|Ha1];
    try discriminate; try (intros [= <-]; reflexivity).
  destruct (euclid_inv_step a m x0 x1 Hinv Ha1) as [Hm Hstep].
  rewrite (checked_step_agrees a m x0 x1 Hinv Ha1).
  destruct (Z.eqb_spec m 0) as [E|_]; [lia|].
  destruct (modular_inverse_step (a, m, x0, x1)) as [[[a' m'] x0'] x1'].
  destruct Hstep as (_ & _ & Hinv'). apply IH. exact Hinv'.
Qed.

End Euclid.

(** The loop of [modular_inverse] on coprime [int] arguments ends with
    [a = 1] and the invariant. *)
Lemma modular_inverse_run (a m : Z) :
  0 < a < 2 ^ 31 -> 1 < m < 2 ^ 31 -> Z.gcd a m = 1 ->
  euclid_inv a m (a, m, 0, 1) /\
  exists m' x0' x1',
    modular_inverse_loop 100 (a, m, 0, 1) = Some (1, m', x0', x1') /\
    euclid_inv a m (1, m', x0', x1').
Proof.
  intros Ha Hm Hg.
  assert (Hinv : euclid_inv a m (a, m, 0, 1)).
  { unfold euclid_inv. repeat split; try lia.
    - exists 0. lia.
    - exists (-1). lia. }
  split; [exact Hinv|].
  assert (Hf : (a + m) * 2 ^ Z.of_nat 99 < 3 ^ Z.of_nat 99).
  { assert (Hc : 2 ^ 32 * 2 ^ Z.of_nat 99 < 3 ^ Z.of_nat 99)
      by (vm_compute; reflexivity).
    assert (H2 : 0 < 2 ^ Z.of_nat 99) by (apply Z.pow_pos_nonneg; lia).
    nia. }
  exact (modular_inverse_loop_any a m Hm 99 a m 0 1 Hinv Hf).
Qed.

Lemma modular_inverse_inverts (a m : Z) :
  0 < a < 2 ^ 31 -> 1 < m < 2 ^ 31 -> Z.gcd a m = 1 ->
  exists r, modular_inverse a m = Some r /\ 0 <= r < m /\ (a * r) mod m = 1.
Proof.
  intros Ha Hm Hg. unfold modular_inverse.
  destruct (Z.eqb_spec m 1) as [E|_]; [lia|].
  assert (Hinv : euclid_inv a m (a, m, 0, 1)).
  { unfold euclid_inv. repeat split; try lia.
    - exists 0. lia.
    - exists (-1). lia. }
  assert (Hf : (a + m) * 2 ^ Z.of_nat 99 < 3 ^ Z.of_nat 99).
  { assert (Hc : 2 ^ 32 * 2 ^ Z.of_nat 99 < 3 ^ Z.of_nat 99)
      by (vm_compute; reflexivity).
    assert (H2 : 0 < 2 ^ Z.of_nat 99) by (apply Z.pow_pos_nonneg; lia).
    nia. }
  destruct (modular_inverse_loop_any a m Hm 99 a m 0 1 Hinv Hf)
    as (m' & x0' & x1' & E & Hinv').
  rewrite E.
  destruct Hinv' as (_ & _ & _ & [k Hk] & _ & Hb & _).
  assert (Hmod : forall r, r = x1' \/ r = x1' + m -> (a * r) mod m = 1).
  { intros r Hr.
    assert (Er : a * r = 1 + (if Z.eq_dec r x1' then k else k + a) * m)
      by (destruct (Z.eq_dec r x1'); lia).
    rewrite Er, Z.mod_add, Z.mod_small by lia. reflexivity. }
  destruct (Z.ltb_spec x1' 0) as [Hneg|Hpos].
  - rewrite to_int_small by lia.
    eexists. split; [reflexivity|]. split; [lia|]. apply Hmod. now right.
  - eexists. split; [reflexivity|]. split; [|apply Hmod; now left].
    split; [lia|]. destruct (Z.eq_dec x1' m) as [->|]; [|lia].
    assert (Hd : (m | 1)) by (exists (a - k); lia).
    apply Z.divide_1_r_nonneg in Hd; lia.
Qed.

(** X16.  [modular_inverse(a, m)], for [int] arguments with [a > 0],
    [m > 1] and [gcd(a, m) = 1], returns the inverse of [a] modulo [m] in
    [[0, m)].  The run with every [int] result watched returns the same
    value: the loop ends without a division by zero, and no quotient,
    product, difference or sum leaves the range of [int]. *)
Theorem modular_inverse_correct (a m : Z) :
  0 < a < 2 ^ 31 -> 1 < m < 2 ^ 31 -> Z.gcd a m = 1 ->
  exists r,
    modular_inverse_checked a m = Value r /\
    modular_inverse a m = Some r /\ 0 <= r < m /\ (a * r) mod m = 1.
Proof.
  intros Ha Hm Hg.
  destruct (modular_inverse_inverts a m Ha Hm Hg) as (r & Er & Hr & Hinvr).
  exists r. split; [|split; [exact Er | split; assumption]].
  destruct (modular_inverse_run a m Ha Hm Hg)
    as (Hinv & m' & x0' & x1' & E & Hinv').
  unfold modular_inverse in Er. unfold modular_inverse_checked.
  destruct (Z.eqb_spec m 1) as [E1|_]; [lia|].
  rewrite (checked_loop_agrees a m Hm 100 a m 0 1 _ Hinv E).
  rewrite E in Er.
  destruct Hinv' as (_ & _ & _ & _ & _ & Hb & _).
  destruct (Z.ltb_spec x1' 0) as [Hneg|Hpos];
    [|injection Er as <-; reflexivity].
  rewrite to_int_small in Er by lia. injection Er as <-.
  unfold in_int.
  destruct (Z.leb_spec (- 2 ^ 31) (x1' + m)); [|lia].
  destruct (Z.ltb_spec (x1' + m) (2 ^ 31)); [|lia].
  reflexivity.
Qed.

Lemma modular_inverse_correct_witness :
  exists r, modular_inverse_checked 35 23 = Value r /\
            modular_inverse 35 23 = Some r /\ 0 <= r < 23 /\
            (35 * r) mod 23 = 1.
Proof.
  apply (modular_inverse_correct 35 23); [lia | lia | reflexivity].
Defined.

(** X17.  [solve_for_y(lane, p, vx, x)] returns the failure value
    [(uint64_t)-1] when [p] divides [vx].  When [gcd(vx, p) = 1], [p] is
    below 46341 (so that [p * p] fits an [int]), [vx] fits an [int] and
    [x] does not exceed [normalized_xp(lane, p)] (so that the unsigned
    difference does not wrap), it returns the [y] of [[0, p)] with
    [(x + vx * y) mod p = normalized_xp(lane, p)]. *)
Theorem solve_for_y_no_wrap (lane p vx x : Z) :
  5 <= p < 46341 -> 0 < vx < 2 ^ 31 ->
  (vx mod p = 0 -> solve_for_y lane p vx x = Some (two64 - 1)) /\
  (Z.gcd vx p = 1 -> 0 <= x <= normalized_xp lane p ->
   exists y, solve_for_y lane p vx x = Some y /\ 0 <= y < p /\
             (x + vx * y) mod p = normalized_xp lane p).
Proof.
  intros Hp Hvx. unfold solve_for_y. split.
  - intros ->. reflexivity.
  - intros Hg Hx.
    pose proof (normalized_xp_range lane p ltac:(unfold two64; lia)) as Hxp.
    set (x_p := normalized_xp lane p) in *.
    destruct (Z.eqb_spec (vx mod p) 0) as [E|_].
    { apply Z.mod_divide in E; [|lia].
      assert (Hd : (p | Z.gcd vx p))
        by (apply Z.gcd_greatest; [exact E | apply Z.divide_refl]).
      rewrite Hg in Hd. apply Z.divide_1_r_nonneg in Hd; lia. }
    destruct (Z.eqb_spec (x mod p) x_p) as [E|_].
    { exists 0. rewrite Z.mul_0_r, Z.add_0_r.
      split; [reflexivity | split; [lia | exact E]]. }
    rewrite (u64_small (x_p - x)) by (unfold two64; lia).
    pose proof (Z.mod_pos_bound (x_p - x) p ltac:(lia)) as Hd.
    set (delta := (x_p - x) mod p) in *.
    rewrite (to_int_small delta) by lia.
    destruct (Z.ltb_spec delta 0) as [E|_]; [lia|].
    rewrite (u64_small delta), Z.add_0_r, (u64_small delta),
      (to_int_small delta) by (unfold two64; lia).
    rewrite (to_int_small vx), (to_int_small p) by lia.
    destruct (modular_inverse_inverts vx p ltac:(lia) ltac:(lia) Hg)
      as (r & -> & Hr & Hinv).
    assert (Hdr : 0 <= delta * r < 2 ^ 31) by nia.
    rewrite (to_int_small (delta * r)), (u64_small (delta * r))
      by (unfold two64; lia).
    eexists. split; [reflexivity|].
    pose proof (Z.mod_pos_bound (delta * r) p ltac:(lia)) as Hy.
    split; [exact Hy|].
    pose proof (Z.div_mod (x_p - x) p ltac:(lia)) as E1. fold delta in E1.
    pose proof (Z.div_mod (vx * r) p ltac:(lia)) as E2. rewrite Hinv in E2.
    pose proof (Z.div_mod (delta * r) p ltac:(lia)) as E3.
    set (k1 := (x_p - x) / p) in *. set (k2 := vx * r / p) in *.
    set (k3 := delta * r / p) in *. set (y := (delta * r) mod p) in *.
    replace (x + vx * y)
      with (x_p + (delta * k2 - vx * k3 - k1) * p) by nia.
    rewrite Z.mod_add, Z.mod_small by lia. reflexivity.
Qed.

Lemma solve_for_y_no_wrap_witness :
  exists y, solve_for_y (-1) 23 35 3 = Some y /\ 0 <= y < 23 /\
            (3 + 35 * y) mod 23 = normalized_xp (-1) 23.
Proof.
  apply (proj2 (solve_for_y_no_wrap (-1) 23 35 3 ltac:(lia) ltac:(lia)));
    [reflexivity | vm_compute; split; discriminate].
Defined.

(** ** The prime list *)

Lemma primes_obj_append_full (primes : PRIMES_OBJ) (p : Z) :
  p_count primes = Z.of_nat (length (p_array primes)) ->
  p_count primes < capacity primes ->
  primes_obj_append primes p
  = Done {| capacity := capacity primes; p_count := p_count primes + 1;
            p_array := p_array primes ++ [p];
            p_sha256 := p_sha256 primes |}.
Proof.
  intros Hc Hcap. unfold primes_obj_append.
  destruct (Z.ltb_spec (p_count primes) (capacity primes)) as [_|E]; [|lia].
  destruct (Nat.ltb_spec (Z.to_nat (p_count primes))
                         (length (p_array primes))) as [E|_]; [lia|].
  reflexivity.
Qed.



(** ** [sieve_iZ] returns the primes up to [n] *)

(** *** Divisors *)

Lemma least_divisor_upto (c : Z) (k : nat) :
  (exists d, 2 <= d < 2 + Z.of_nat k /\ (d | c) /\
             forall d', 2 <= d' < d -> ~ (d' | c)) \/
  (forall d, 2 <= d < 2 + Z.of_nat k -> ~ (d | c)).
Proof.
  induction k as [|k [(d & Hd & Hdc & Hmin)|Hnone]].
  - right. intros d Hd. lia.
  - left. exists d. split; [lia | split; assumption].
  - destruct (Z.eq_dec (c mod (2 + Z.of_nat k)) 0) as [E|E].
    + left. exists (2 + Z.of_nat k). split; [lia|]. split.
      * apply Z.mod_divide; [lia | exact E].
      * intros d' Hd'. apply Hnone. lia.
    + right. intros d Hd Hdc.
      destruct (Z.eq_dec d (2 + Z.of_nat k)) as [->|Hne].
      * apply E. apply Z.mod_divide; [lia | exact Hdc].
      * apply (Hnone d); [lia | exact Hdc].
Qed.

Lemma least_prime_divisor (c : Z) :
  1 < c ->
  exists q, Z.prime q /\ (q | c) /\ forall d, 1 < d -> (d | c) -> q <= d.
Proof.
  intros Hc.
  destruct (least_divisor_upto c (Z.to_nat (c - 1)))
    as [(d & Hd & Hdc & Hmin)|Hnone].
  - exists d. split; [|split; [exact Hdc|]].
    + split; [lia|]. intros n Hn Hnd.
      apply (Hmin n); [lia|]. eapply Z.divide_trans; eassumption.
    + intros d' Hd' Hd'c.
      destruct (Z.le_gt_cases d d') as [|Hlt]; [assumption|].
      exfalso. apply (Hmin d'); [lia | exact Hd'c].
  - exfalso. apply (Hnone c); [lia | apply Z.divide_refl].
Qed.

(** A number above 1 is prime or the product of a prime by a factor that
    is not smaller. *)
Lemma prime_or_factored (c : Z) :
  1 < c ->
  Z.prime c \/ exists q m, Z.prime q /\ c = q * m /\ q <= m.
Proof.
  intros Hc.
  destruct (least_prime_divisor c Hc) as (q & Hq & [m Hm] & Hmin).
  pose proof (Z.prime_ge_2 q Hq) as Hq2.
  destruct (Z.eq_dec q c) as [->|Hne]; [left; exact Hq|].
  right. exists q, m. split; [exact Hq|]. split; [lia|].
  assert (Hm1 : 1 < m).
  { destruct (Z.le_gt_cases m 1) as [Hle|]; [|assumption]. exfalso.
    destruct (Z.eq_dec m 1) as [->|]; [lia|].
    assert (m * q <= 0) by (apply Z.mul_nonpos_nonneg; lia). lia. }
  apply Hmin; [exact Hm1|]. exists q. lia.
Qed.

Lemma composite_not_prime (c : Z) : composite c -> ~ Z.prime c.
Proof.
  intros (d & e & Hd & He & ->) [_ Hp].
  apply (Hp d); [nia|]. exists e. lia.
Qed.

Lemma forallb_Zrange_intro (f : Z -> bool) (lo : Z) (n : nat) :
  (forall j, lo <= j < lo + Z.of_nat n -> f j = true) ->
  forallb f (Zrange lo n) = true.
Proof.
  intros H. apply forallb_forall. intros j Hin.
  unfold Zrange in Hin. apply in_map_iff in Hin.
  destruct Hin as (k & <- & Hk). apply in_seq in Hk. apply H. lia.
Qed.

(** The trial division of the reference decides primality. *)
Lemma is_prime_trial_spec (m : Z) : is_prime_trial m = true <-> Z.prime m.
Proof.
  unfold is_prime_trial. rewrite andb_true_iff, Z.ltb_lt. split.
  - intros [Hm Ht].
    destruct (prime_or_factored m Hm) as [Hp|(q & e & Hq & -> & Hqe)];
      [exact Hp|].
    pose proof (Z.prime_ge_2 q Hq) as Hq2.
    assert (Hs : q <= Z.sqrt (q * e)).
    { apply Z.sqrt_le_square; nia. }
    pose proof (forallb_Zrange _ 2 _ q Ht ltac:(lia)) as Hn.
    apply negb_true_iff, Z.eqb_neq in Hn. exfalso. apply Hn.
    rewrite Z.mul_comm. apply Z.mod_mul. lia.
  - intros Hp. pose proof (Z.prime_ge_2 m Hp) as Hm2.
    split; [lia|]. apply forallb_Zrange_intro. intros d Hd.
    apply negb_true_iff, Z.eqb_neq. intros E.
    apply Z.mod_divide in E; [|lia].
    destruct Hp as [_ Hp]. apply (Hp d); [|exact E].
    assert (Z.sqrt m < m) by (apply Z.sqrt_lt_lin; lia). lia.
Qed.

Lemma primes_upto_spec (n p : Z) :
  In p (primes_upto n) <-> Z.prime p /\ p <= n.
Proof.
  unfold primes_upto. rewrite filter_In, is_prime_trial_spec.
  unfold Zrange. rewrite in_map_iff. split.
  - intros [(k & <- & Hk) Hp]. apply in_seq in Hk. split; [exact Hp | lia].
  - intros [Hp Hn]. pose proof (Z.prime_ge_2 p Hp). split; [|exact Hp].
    exists (Z.to_nat (p - 2)). split; [lia|]. apply in_seq. lia.
Qed.

(** Between two candidates of the lanes there is no prime. *)
Lemma no_prime_off_lanes (p x : Z) :
  1 <= x -> Z.prime p ->
  p = 6 * x \/ p = 6 * x + 2 \/ p = 6 * x + 3 \/ p = 6 * x + 4 -> False.
Proof.
  intros Hx [_ Hp] Hc.
  destruct Hc as [-> | [-> | [-> | ->]]].
  - apply (Hp 2); [lia | exists (3 * x); lia].
  - apply (Hp 2); [lia | exists (3 * x + 1); lia].
  - apply (Hp 3); [lia | exists (2 * x + 1); lia].
  - apply (Hp 2); [lia | exists (3 * x + 2); lia].
Qed.

(** *** Strictly ascending lists *)

Lemma sorted_snoc (L : list Z) (z : Z) :
  StronglySorted Z.lt L -> (forall p, In p L -> p < z) ->
  StronglySorted Z.lt (L ++ [z]).
Proof.
  induction 1 as [|a L HL IH Ha]; intros Hz; cbn [app].
  - constructor; constructor.
  - constructor.
    + apply IH. intros p Hp. apply Hz. now right.
    + apply List.Forall_app. split; [exact Ha|].
      constructor; [|constructor]. apply Hz. now left.
Qed.

Lemma sorted_NoDup (L : list Z) : StronglySorted Z.lt L -> List.NoDup L.
Proof.
  induction 1 as [|a L HL IH Ha]; constructor; [|exact IH].
  intros Hin. rewrite List.Forall_forall in Ha.
  specialize (Ha a Hin). lia.
Qed.

Lemma sorted_take (L : list Z) (k : nat) :
  StronglySorted Z.lt L -> StronglySorted Z.lt (take k L).
Proof.
  intros H. revert k. induction H as [|a L HL IH Ha]; intros [|k];
    cbn [take]; try constructor.
  - apply IH.
  - apply Forall_take_Z. exact Ha.
Qed.

(** Two strictly ascending lists with the same elements are equal. *)
Lemma sorted_unique (L L' : list Z) :
  StronglySorted Z.lt L -> StronglySorted Z.lt L' ->
  (forall p, In p L <-> In p L') -> L = L'.
Proof.
  intros H. revert L'. induction H as [|a L HL IH Ha]; intros L' H' Hin.
  - destruct L' as [|b L']; [reflexivity|].
    exfalso. apply (proj2 (Hin b)). now left.
  - destruct L' as [|b L'].
    { exfalso. apply (proj1 (Hin a)). now left. }
    apply StronglySorted_inv in H'. destruct H' as [HL' Hb].
    rewrite List.Forall_forall in Ha, Hb.
    assert (a = b).
    { destruct (proj1 (Hin a) (or_introl eq_refl)) as [E|E]; [congruence|].
      destruct (proj2 (Hin b) (or_introl eq_refl)) as [E'|E']; [congruence|].
      specialize (Ha b E'). specialize (Hb a E). lia. }
    subst b. f_equal. apply IH; [exact HL'|].
    intros p. split; intros Hp.
    + destruct (proj1 (Hin p) (or_intror Hp)) as [E|E]; [|exact E].
      subst p. specialize (Ha a Hp). lia.
    + destruct (proj2 (Hin p) (or_intror Hp)) as [E|E]; [|exact E].
      subst p. specialize (Hb a Hp). lia.
Qed.

Lemma Zrange_sorted (n : nat) :
  forall lo, StronglySorted Z.lt (Zrange lo n).
Proof.
  induction n as [|n IH]; intros lo.
  - constructor.
  - rewrite Zrange_S. constructor; [apply IH|].
    apply List.Forall_forall. intros j Hj.
    unfold Zrange in Hj. apply in_map_iff in Hj.
    destruct Hj as (k & <- & _). lia.
Qed.

Lemma sorted_filter (f : Z -> bool) (L : list Z) :
  StronglySorted Z.lt L -> StronglySorted Z.lt (List.filter f L).
Proof.
  induction 1 as [|a L HL IH Ha]; cbn [List.filter]; [constructor|].
  destruct (f a); [|exact IH]. constructor; [exact IH|].
  rewrite List.Forall_forall in *. intros p Hp.
  apply filter_In in Hp. apply Ha. tauto.
Qed.

Lemma primes_upto_sorted (n : Z) : StronglySorted Z.lt (primes_upto n).
Proof. apply sorted_filter, Zrange_sorted. Qed.

(** *** The list of primes found so far *)

Lemma primes_so_far_length (n F : Z) (L : list Z) :
  primes_so_far n F L -> (length L <= S (length (primes_upto n)))%nat.
Proof.
  intros (Hs & Hin & _).
  apply (NoDup_incl_length (l' := last_candidate n :: primes_upto n)).
  - apply sorted_NoDup. exact Hs.
  - intros p Hp. destruct (Hin p Hp) as (_ & Hpr & [Hle | ->]).
    + right. apply primes_upto_spec. split; [apply Hpr|]; exact Hle.
    + now left.
Qed.

Lemma primes_so_far_append (n z : Z) (L : list Z) :
  primes_so_far n z L -> 2 <= z -> (z <= n -> Z.prime z) ->
  (z <= n \/ z = last_candidate n) ->
  primes_so_far n (z + 1) (L ++ [z]).
Proof.
  intros (Hs & Hin & Hall) Hz Hp Hl. split; [|split].
  - apply sorted_snoc; [exact Hs|]. intros p Hpin.
    destruct (Hin p Hpin) as (Hb & _). lia.
  - intros p Hpin. apply in_app_or in Hpin. destruct Hpin as [Hpin | [<- | []]].
    + destruct (Hin p Hpin) as (Hb & Hrest). split; [lia | exact Hrest].
    + split; [lia|]. split; assumption.
  - intros p Hpp Hlt Hle. apply in_or_app.
    destruct (Z.eq_dec p z) as [->|Hne]; [right; now left|].
    left. apply Hall; [exact Hpp | lia | exact Hle].
Qed.

Lemma primes_so_far_skip (n z : Z) (L : list Z) :
  primes_so_far n z L -> ~ Z.prime z -> primes_so_far n (z + 1) L.
Proof.
  intros (Hs & Hin & Hall) Hnp. split; [exact Hs|]. split.
  - intros p Hpin. destruct (Hin p Hpin) as (Hb & Hrest).
    split; [lia | exact Hrest].
  - intros p Hpp Hlt Hle.
    destruct (Z.eq_dec p z) as [->|Hne]; [contradiction|].
    apply Hall; [exact Hpp | lia | exact Hle].
Qed.

Lemma primes_so_far_advance (n F F' : Z) (L : list Z) :
  primes_so_far n F L -> F <= F' ->
  (forall p, F <= p < F' -> ~ Z.prime p) ->
  primes_so_far n F' L.
Proof.
  intros (Hs & Hin & Hall) Hle Hnone. split; [exact Hs|]. split.
  - intros p Hpin. destruct (Hin p Hpin) as (Hb & Hrest).
    split; [lia | exact Hrest].
  - intros p Hpp Hlt Hpn.
    destruct (Z.lt_ge_cases p F) as [Hp|Hp].
    + apply Hall; assumption.
    + exfalso. apply (Hnone p); [lia | exact Hpp].
Qed.

(** *** The two bitmaps *)

Lemma lanes_so_far_advance (n F F' : Z) (x5 x7 : BITMAP) :
  lanes_so_far n F x5 x7 -> F <= F' ->
  (forall p, F <= p < F' -> ~ (Z.prime p /\ p <= Z.sqrt n)) ->
  lanes_so_far n F' x5 x7.
Proof.
  intros (H5 & H7 & Hsound & Hcompl) Hle Hnone.
  split; [exact H5|]. split; [exact H7|]. split; [exact Hsound|].
  intros lane j q m Hl Hj Hq Hlt Hroot Hqm Hm.
  destruct (Z.lt_ge_cases q F) as [Hq'|Hq'].
  - apply (Hcompl lane j q m); assumption.
  - exfalso. apply (Hnone q); [lia | split; assumption].
Qed.

(** A set bit at a candidate that does not exceed [n] stands for a
    prime. *)
Lemma lanes_prime_at (n x i : Z) (x5 x7 : BITMAP) :
  lanes_so_far n (6 * x + i) x5 x7 ->
  i = -1 \/ i = 1 -> 1 <= x <= (n + 1) / 6 + 1 -> 6 * x + i <= n ->
  bitmap_get_bit (if i <? 0 then x5 else x7) x = true ->
  Z.prime (6 * x + i).
Proof.
  intros (_ & _ & _ & Hcompl) Hi Hx Hn Hbit.
  destruct (prime_or_factored (6 * x + i) ltac:(lia))
    as [Hp|(q & m & Hq & Hqm & Hle)]; [exact Hp|].
  pose proof (Z.prime_ge_2 q Hq) as Hq2.
  assert (Hroot : q <= Z.sqrt n) by (apply Z.sqrt_le_square; nia).
  rewrite (Hcompl i x q m Hi Hx Hq ltac:(nia) Hroot Hqm Hle) in Hbit.
  discriminate.
Qed.

Lemma lanes_unset_not_prime (n F x i : Z) (x5 x7 : BITMAP) :
  lanes_so_far n F x5 x7 ->
  i = -1 \/ i = 1 -> 1 <= x <= (n + 1) / 6 + 1 ->
  bitmap_get_bit (if i <? 0 then x5 else x7) x = false ->
  ~ Z.prime (6 * x + i).
Proof.
  intros (_ & _ & Hsound & _) Hi Hx Hbit.
  apply composite_not_prime. apply Hsound; assumption.
Qed.

(** The indices cleared on lane [l] for the prime [z = 6x + i]: they start
    at [z * x + l * i * x], whose value is [z * (z - i + l * i)], and are
    the indices of the multiples [z * m] with [m] at least
    [z - i + l * i]. *)
Lemma cleared_are_multiples (x i l j lim : Z) :
  i = -1 \/ i = 1 -> l = -1 \/ l = 1 -> 1 <= x -> j <= lim ->
  let z := 6 * x + i in
  on_stride z (z * x + l * i * x) lim j = true <->
  exists m, 6 * j + l = z * m /\ z - i + l * i <= m.
Proof.
  intros Hi Hl Hx Hj. cbv zeta.
  set (z := 6 * x + i).
  assert (Hz : 5 <= z) by (unfold z; lia).
  assert (Hg : Z.gcd z 6 = 1).
  { apply gcd_6_of_lane. unfold z.
    destruct Hi as [-> | ->].
    - right. replace (6 * x + -1) with (5 + (x - 1) * 6) by lia.
      rewrite Z.mod_add by lia. reflexivity.
    - left. replace (6 * x + 1) with (1 + x * 6) by lia.
      rewrite Z.mod_add by lia. reflexivity. }
  assert (Hstart : 6 * (z * x + l * i * x) + l = z * (z - i + l * i)).
  { unfold z. destruct Hi as [-> | ->]; destruct Hl as [-> | ->]; ring. }
  rewrite on_stride_iff by lia. split.
  - intros (k & Hk & -> & _).
    exists (z - i + l * i + 6 * k). split; [|lia].
    replace (6 * (z * x + l * i * x + k * z) + l)
      with (6 * (z * x + l * i * x) + l + z * (6 * k)) by ring.
    rewrite Hstart. ring.
  - intros (m & Hm & Hle).
    assert (Hd : (z | j - (z * x + l * i * x))).
    { apply (Z.gauss z 6); [|exact Hg].
      exists (m - (z - i + l * i)).
      replace (6 * (j - (z * x + l * i * x)))
        with ((6 * j + l) - (6 * (z * x + l * i * x) + l)) by ring.
      rewrite Hm, Hstart. ring. }
    destruct Hd as [k Hk].
    assert (Hge : z * (z - i + l * i) <= z * m) by nia.
    exists k. split; [nia|]. split; [lia | exact Hj].
Qed.

Lemma lanes_so_far_mark (n x i : Z) (x5 x7 : BITMAP) :
  2 <= n < 2 ^ 52 -> i = -1 \/ i = 1 -> 1 <= x <= (n + 1) / 6 ->
  let z := 6 * x + i in
  let lim := (n + 1) / 6 + 1 in
  Z.prime z -> z <= Z.sqrt n ->
  lanes_so_far n z x5 x7 ->
  lanes_so_far n (z + 1)
    (bitmap_clear_mod_p x5 z (z * x - i * x) lim)
    (bitmap_clear_mod_p x7 z (z * x + i * x) lim).
Proof.
  intros Hn Hi Hx. cbv zeta.
  set (z := 6 * x + i). set (X := (n + 1) / 6). intros Hp Hroot.
  intros (H5 & H7 & Hsound & Hcompl). fold X in H5, H7, Hsound, Hcompl.
  assert (Hz : 5 <= z) by (unfold z; lia).
  assert (HX : 0 <= X < 2 ^ 50).
  { unfold X. split; [apply Z.div_pos; lia|].
    apply Z.div_lt_upper_bound; lia. }
  assert (Hs0 : 0 <= z * x - i * x /\ 0 <= z * x + i * x)
    by (destruct Hi as [-> | ->]; nia).
  assert (Hbits : forall l j, l = -1 \/ l = 1 -> 0 <= j ->
            bitmap_get_bit
              (if l <? 0
               then bitmap_clear_mod_p x5 z (z * x - i * x) (X + 1)
               else bitmap_clear_mod_p x7 z (z * x + i * x) (X + 1)) j
            = bitmap_get_bit (if l <? 0 then x5 else x7) j &&
              negb (on_stride z (z * x + l * i * x) (X + 1) j)).
  { intros l j Hl Hj. destruct Hl as [-> | ->]; cbn [Z.ltb Z.compare].
    - replace (z * x + -1 * i * x) with (z * x - i * x) by ring.
      apply bitmap_clear_mod_p_spec; unfold two64; lia.
    - replace (z * x + 1 * i * x) with (z * x + i * x) by ring.
      apply bitmap_clear_mod_p_spec; unfold two64; lia. }
  assert (Hlen5 : length (data (bitmap_clear_mod_p x5 z (z * x - i * x)
                                                   (X + 1)))
                  = length (data x5))
    by (apply bitmap_clear_mod_p_spec with (j := 0); unfold two64; lia).
  assert (Hlen7 : length (data (bitmap_clear_mod_p x7 z (z * x + i * x)
                                                   (X + 1)))
                  = length (data x7))
    by (apply bitmap_clear_mod_p_spec with (j := 0); unfold two64; lia).
  split; [rewrite Hlen5; exact H5|]. split; [rewrite Hlen7; exact H7|].
  split.
  - intros l j Hl Hj Hbit. rewrite Hbits in Hbit by (try assumption; lia).
    apply andb_false_iff in Hbit. destruct Hbit as [Hbit|Hbit].
    + apply Hsound; assumption.
    + apply negb_false_iff in Hbit.
      apply (cleared_are_multiples x i l j (X + 1) Hi Hl) in Hbit; [|lia..].
      destruct Hbit as (m & Hm & Hle). fold z in Hm, Hle.
      exists z, m. split; [lia|]. split; [|exact Hm].
      destruct Hi as [-> | ->]; destruct Hl as [-> | ->]; lia.
  - intros l j q m Hl Hj Hq Hlt Hqr Hqm Hle.
    rewrite Hbits by (try assumption; lia).
    destruct (Z.eq_dec q z) as [->|Hne].
    + apply andb_false_iff. right. apply negb_false_iff.
      apply (cleared_are_multiples x i l j (X + 1) Hi Hl); [lia..|].
      fold z. exists m. split; [exact Hqm|].
      (* the other factor lies on the lane that makes the product fall on
         lane [l] *)
      assert (Hmod : exists t, m = 6 * t + l * i).
      { exists (i * (j - x * m)). unfold z in Hqm.
        destruct Hi as [-> | ->]; destruct Hl as [-> | ->]; lia. }
      destruct Hmod as [t Ht]. unfold z in *.
      destruct Hi as [-> | ->]; destruct Hl as [-> | ->]; lia.
    + apply andb_false_iff. left.
      apply (Hcompl l j q m); try assumption. lia.
Qed.

(** *** The main loop *)

Section SieveLoop.

Variables cap n : Z.
Hypothesis n_range : 2 <= n < 2 ^ 52.
Hypothesis room : Z.of_nat (length (primes_upto n)) < cap.

Let X := (n + 1) / 6.
Let is_root := fun z : Z => z <? u64 (Z.sqrt n + 1).

Lemma last_index_bounds : 0 <= X < 2 ^ 50 /\ 6 * X <= n + 1 <= 6 * X + 5.
Proof.
  unfold X. pose proof (Z.div_mod (n + 1) 6 ltac:(lia)).
  pose proof (Z.mod_pos_bound (n + 1) 6 ltac:(lia)).
  split; [split; [apply Z.div_pos; lia | apply Z.div_lt_upper_bound; lia]|].
  lia.
Qed.

Lemma sqrt_bounds : 1 <= Z.sqrt n <= n.
Proof.
  split.
  - apply Z.sqrt_le_square; lia.
  - apply Z.lt_le_incl, Z.sqrt_lt_lin. lia.
Qed.

Lemma sieve_inv_advance (F F' : Z) (st : sieve_state) :
  sieve_inv cap n F st -> F <= F' ->
  (forall p, F <= p < F' -> ~ Z.prime p) ->
  sieve_inv cap n F' st.
Proof.
  destruct st as [[primes x5] x7].
  intros (Hc & Hk & HL & HB) Hle Hnone.
  split; [exact Hc|]. split; [exact Hk|]. split.
  - eapply primes_so_far_advance; eassumption.
  - eapply lanes_so_far_advance; [eassumption | exact Hle |].
    intros p Hp [Hpp _]. exact (Hnone p Hp Hpp).
Qed.

(** One test of the loop body: the bit of lane [i] at [x]. *)
Lemma sieve_lane_visit (i x : Z) (st : sieve_state) :
  i = -1 \/ i = 1 -> 1 <= x <= X ->
  sieve_inv cap n (6 * x + i) st ->
  exists st',
    (if bitmap_get_bit (if i <? 0 then snd (fst st) else snd st) x
     then sieve_mark i is_root (X + 1) x st else mret st) = Done st' /\
    sieve_inv cap n (6 * x + i + 1) st'.
Proof.
  intros Hi Hx. destruct st as [[primes x5] x7]. cbn [fst snd].
  intros (Hc & Hk & HL & HB).
  pose proof last_index_bounds as [HX HX6]. pose proof sqrt_bounds as Hsq.
  set (z := 6 * x + i) in *.
  assert (Hz : 5 <= z < 2 ^ 53) by (unfold z; lia).
  destruct (bitmap_get_bit (if i <? 0 then x5 else x7) x) eqn:Hbit.
  - (* the candidate is appended *)
    assert (Hprime : z <= n -> Z.prime z).
    { intros Hzn. apply (lanes_prime_at n x i x5 x7); try assumption.
      fold X. lia. }
    assert (Hlast : z <= n \/ z = last_candidate n).
    { unfold last_candidate. fold X. unfold z.
      destruct Hi as [-> | ->]; [left; lia|].
      destruct (Z.eq_dec x X) as [->|]; [right; lia | left; lia]. }
    pose proof (primes_so_far_append n z (p_array primes) HL ltac:(lia)
                  Hprime Hlast) as HL'.
    pose proof (primes_so_far_length _ _ _ HL') as Hlen.
    rewrite length_app in Hlen. cbn [length] in Hlen.
    unfold sieve_mark, iZ. fold z.
    rewrite (u64_small z) by (unfold two64; lia).
    rewrite primes_obj_append_full by lia.
    cbn [mbind outcome_bind].
    set (primes' := {| capacity := capacity primes;
                       p_count := p_count primes + 1;
                       p_array := p_array primes ++ [z];
                       p_sha256 := p_sha256 primes |}).
    assert (Hk' : p_count primes' = Z.of_nat (length (p_array primes'))).
    { unfold primes'. cbn [p_count p_array]. rewrite length_app.
      cbn [length]. lia. }
    unfold is_root. rewrite (u64_small (Z.sqrt n + 1)) by (unfold two64; lia).
    destruct (Z.ltb_spec z (Z.sqrt n + 1)) as [Hroot|Hroot].
    + assert (Hzp : Z.prime z) by (apply Hprime; lia).
      assert (Hzz : z * z <= n).
      { destruct (Z.sqrt_spec n ltac:(lia)) as [Hs _].
        assert (z * z <= Z.sqrt n * Z.sqrt n)
          by (apply Z.mul_le_mono_nonneg; lia).
        lia. }
      assert (Hxz : 0 <= z * x - x /\ z * x + x < 2 ^ 53)
        by (unfold z in *; destruct Hi as [-> | ->]; nia).
      rewrite (u64_small (z * x)) by (unfold two64; nia).
      rewrite (u64_small (z * x + x)), (u64_small (z * x - x))
        by (unfold two64; lia).
      pose proof (lanes_so_far_mark n x i x5 x7 n_range Hi Hx Hzp
                    ltac:(fold z; lia) HB) as HB'.
      cbv zeta in HB'. fold z X in HB'.
      destruct Hi as [-> | ->]; cbn [Z.ltb Z.compare];
        change (mret ?v) with (Done v); eexists; (split; [reflexivity|]);
        (split; [exact Hc|]); (split; [exact Hk'|]);
        (split; [exact HL'|]).
      * replace (z * x + x) with (z * x - -1 * x) by ring.
        replace (z * x - x) with (z * x + -1 * x) by ring. exact HB'.
      * replace (z * x + x) with (z * x + 1 * x) by ring.
        replace (z * x - x) with (z * x - 1 * x) by ring. exact HB'.
    + change (mret ?v) with (Done v). eexists. split; [reflexivity|].
      split; [exact Hc|]. split; [exact Hk'|]. split; [exact HL'|].
      apply (lanes_so_far_advance n z); [exact HB | lia |].
      intros p Hp [_ Hpr]. lia.
  - (* the candidate is skipped *)
    assert (Hnp : ~ Z.prime z).
    { apply (lanes_unset_not_prime n z x i x5 x7); try assumption.
      fold X. lia. }
    change (mret ?v) with (Done v). eexists. split; [reflexivity|].
    split; [exact Hc|]. split; [exact Hk|]. split.
    + apply primes_so_far_skip; assumption.
    + apply (lanes_so_far_advance n z); [exact HB | lia |].
      intros p Hp [Hpr _]. assert (p = z) by lia. subst p. contradiction.
Qed.

(** The loop body at [x]. *)
Lemma sieve_visit_ok (x : Z) (st : sieve_state) :
  1 <= x <= X ->
  sieve_inv cap n (6 * x - 1) st ->
  exists st',
    sieve_visit is_root (X + 1) (Done st) x = Done st' /\
    sieve_inv cap n (6 * (x + 1) - 1) st'.
Proof.
  intros Hx Hinv.
  change (sieve_visit is_root (X + 1) (Done st) x)
    with (mbind (fun st0 : sieve_state =>
                   if bitmap_get_bit (snd st0) x
                   then sieve_mark 1 is_root (X + 1) x st0 else mret st0)
                (if bitmap_get_bit (snd (fst st)) x
                 then sieve_mark (-1) is_root (X + 1) x st else mret st)).
  destruct (sieve_lane_visit (-1) x st ltac:(now left) Hx Hinv)
    as (st1 & E1 & Hinv1).
  cbn [Z.ltb Z.compare] in E1. rewrite E1. cbn [mbind outcome_bind].
  assert (Hinv1' : sieve_inv cap n (6 * x + 1) st1).
  { apply (sieve_inv_advance (6 * x + -1 + 1)); [exact Hinv1 | lia |].
    intros p Hp Hpp. apply (no_prime_off_lanes p x); [lia | exact Hpp |].
    left. lia. }
  destruct (sieve_lane_visit 1 x st1 ltac:(now right) Hx Hinv1')
    as (st2 & E2 & Hinv2).
  cbn [Z.ltb Z.compare] in E2. rewrite E2.
  exists st2. split; [reflexivity|].
  apply (sieve_inv_advance (6 * x + 1 + 1)); [exact Hinv2 | lia |].
  intros p Hp Hpp. apply (no_prime_off_lanes p x); [lia | exact Hpp |].
  right. lia.
Qed.

Lemma sieve_loop_ok (k : nat) :
  forall (lo : Z) (st : sieve_state),
    1 <= lo -> lo + Z.of_nat k <= X + 1 ->
    sieve_inv cap n (6 * lo - 1) st ->
    exists st',
      fold_left (sieve_visit is_root (X + 1)) (Zrange lo k) (Done st)
      = Done st' /\
      sieve_inv cap n (6 * (lo + Z.of_nat k) - 1) st'.
Proof.
  induction k as [|k IH]; intros lo st Hlo Hhi Hinv.
  - exists st. split; [reflexivity|].
    replace (lo + Z.of_nat 0) with lo by lia. exact Hinv.
  - rewrite Zrange_S. cbn [fold_left].
    destruct (sieve_visit_ok lo st ltac:(lia) Hinv) as (st1 & E1 & Hinv1).
    rewrite E1.
    destruct (IH (lo + 1) st1 ltac:(lia) ltac:(lia) Hinv1)
      as (st2 & E2 & Hinv2).
    exists st2. split; [exact E2|].
    replace (lo + Z.of_nat (S k)) with (lo + 1 + Z.of_nat k) by lia.
    exact Hinv2.
Qed.

End SieveLoop.

(** *** Before and after the loop *)

Lemma primes_so_far_start (n : Z) : 2 <= n -> primes_so_far n 5 [2; 3].
Proof.
  intros Hn. split; [|split].
  - repeat constructor; lia.
  - intros p [<- | [<- | []]].
    + split; [lia|]. split; [intros _; apply Z.prime_2 | left; lia].
    + split; [lia|]. split; [intros _; apply Z.prime_3|].
      destruct (Z.eq_dec n 2) as [->|]; [right; reflexivity | left; lia].
  - intros p Hp Hlt Hle. pose proof (Z.prime_ge_2 p Hp).
    assert (Hc : p = 2 \/ p = 3 \/ p = 4) by lia.
    destruct Hc as [-> | [-> | ->]]; [now left | right; now left |].
    exfalso. destruct Hp as [_ Hp]. apply (Hp 2); [lia | exists 2; lia].
Qed.

Lemma lanes_so_far_start (n : Z) (b5 b7 : BITMAP) :
  2 <= n < 2 ^ 52 ->
  bitmap_create ((n + 1) / 6 + 2) = Some b5 ->
  bitmap_create ((n + 1) / 6 + 2) = Some b7 ->
  lanes_so_far n 5 (bitmap_set_all b5) (bitmap_set_all b7).
Proof.
  intros Hn E5 E7.
  assert (HX : 0 <= (n + 1) / 6 < 2 ^ 50).
  { split; [apply Z.div_pos; lia | apply Z.div_lt_upper_bound; lia]. }
  set (X := (n + 1) / 6) in *.
  assert (Hfill : forall b, bitmap_create (X + 2) = Some b ->
            X + 2 <= 8 * Z.of_nat (length (data (bitmap_set_all b))) /\
            forall j, 1 <= j <= X + 1 ->
                      bitmap_get_bit (bitmap_set_all b) j = true).
  { intros b E.
    destruct (bitmap_create_well_sized (X + 2) b E ltac:(unfold two64; lia))
      as ([Hw1 Hw2] & Hsz & _).
    split.
    - unfold bitmap_set_all. cbn [data].
      rewrite length_app, length_replicate, length_drop. lia.
    - intros j Hj.
      apply (bitmap_get_bit_set_all b j);
        [split; assumption | unfold two64; lia | lia]. }
  destruct (Hfill b5 E5) as [Hl5 Hb5]. destruct (Hfill b7 E7) as [Hl7 Hb7].
  split; [exact Hl5|]. split; [exact Hl7|]. split.
  - intros lane j [-> | ->] Hj Hbit; cbn [Z.ltb Z.compare] in Hbit.
    + rewrite Hb5 in Hbit by exact Hj. discriminate.
    + rewrite Hb7 in Hbit by exact Hj. discriminate.
  - intros lane j q m Hl Hj Hq Hlt _ Hqm _. exfalso.
    pose proof (Z.prime_ge_2 q Hq).
    assert (Hc : q = 2 \/ q = 3 \/ q = 4) by lia.
    destruct Hc as [-> | [-> | ->]].
    + destruct Hl as [-> | ->]; lia.
    + destruct Hl as [-> | ->]; lia.
    + destruct Hq as [_ Hq]. apply (Hq 2); [lia | exists 2; lia].
Qed.

Lemma sorted_snoc_inv (L : list Z) (a p : Z) :
  StronglySorted Z.lt (L ++ [a]) -> In p L -> p < a.
Proof.
  induction L as [|b L IH]; intros Hs Hin; [contradiction|].
  cbn [app] in Hs. apply StronglySorted_inv in Hs. destruct Hs as [Hs Hb].
  destruct Hin as [<- | Hin]; [|apply IH; assumption].
  rewrite List.Forall_forall in Hb. apply Hb. apply in_or_app.
  right. now left.
Qed.

(** The last step of [sieve_iZ]: dropping the last entry when it exceeds
    [n] leaves the primes up to [n]. *)
Lemma primes_so_far_trim (n F : Z) (L0 : list Z) (a : Z) :
  primes_so_far n F (L0 ++ [a]) -> n < F ->
  let R := if a >? n then L0 else L0 ++ [a] in
  StronglySorted Z.lt R /\ forall p, In p R <-> Z.prime p /\ p <= n.
Proof.
  intros (Hs & Hin & Hall) HF. cbv zeta.
  assert (Ha : In a (L0 ++ [a])) by (apply in_or_app; right; now left).
  destruct (Z.gtb_spec a n) as [Hgt|Hle].
  - split.
    + rewrite <- (take_app_length L0 [a]). apply sorted_take. exact Hs.
    + intros p. split.
      * intros Hp. pose proof (sorted_snoc_inv L0 a p Hs Hp) as Hlt.
        destruct (Hin p (in_or_app _ _ _ (or_introl Hp)))
          as (_ & Hpr & [Hpn|Hpl]).
        -- split; [apply Hpr|]; exact Hpn.
        -- destruct (Hin a Ha) as (_ & _ & [Han|Hal]); lia.
      * intros [Hp Hpn].
        destruct (in_app_or _ _ _ (Hall p Hp ltac:(lia) Hpn))
          as [H|[<- | []]]; [exact H | lia].
  - split; [exact Hs|]. intros p. split.
    + intros Hp. destruct (Hin p Hp) as (_ & Hpr & _).
      assert (p <= a).
      { apply in_app_or in Hp. destruct Hp as [Hp | [<- | []]]; [|lia].
        pose proof (sorted_snoc_inv L0 a p Hs Hp). lia. }
      split; [apply Hpr|]; lia.
    + intros [Hp Hpn]. apply Hall; [exact Hp | lia | exact Hpn].
Qed.

(** X20.  [sieve_iZ(n)], for [2 <= n < 2^52] and a prime array with room
    for one entry more than there are primes up to [n], returns the primes
    up to [n] and nothing else, in ascending order, trimmed to their
    count: the list is the one the reference obtains by trial division. *)
Theorem sieve_iZ_correct (initial_estimate n : Z) :
  2 <= n < 2 ^ 52 ->
  Z.of_nat (length (primes_upto n)) < initial_estimate ->
  exists primes,
    sieve_iZ initial_estimate n = Done primes /\
    primes_of primes = primes_upto n /\
    StronglySorted Z.lt (primes_of primes) /\
    (forall p, In p (primes_of primes) <-> Z.prime p /\ p <= n) /\
    capacity primes = p_count primes.
Proof.
  intros Hn Hroom.
  pose proof (last_index_bounds n Hn) as [HX HX6].
  set (X := (n + 1) / 6) in *.
  assert (Hpi : (1 <= length (primes_upto n))%nat).
  { assert (Hin : In 2 (primes_upto n))
      by (apply primes_upto_spec; split; [apply Z.prime_2 | lia]).
    destruct (primes_upto n); [contradiction | cbn [length]; lia]. }
  unfold sieve_iZ, primes_obj_init.
  destruct (Z.leb_spec initial_estimate 0) as [E|_]; [lia|].
  rewrite primes_obj_append_full by (cbn [p_count p_array capacity length]; lia).
  cbn [mbind outcome_bind capacity p_count p_array p_sha256 app].
  rewrite primes_obj_append_full by (cbn [p_count p_array capacity length]; lia).
  cbn [mbind outcome_bind capacity p_count p_array p_sha256 app].
  rewrite (u64_small (n + 1)) by (unfold two64; lia). fold X.
  rewrite (u64_small (X + 1)) by (unfold two64; lia).
  rewrite (u64_small (X + 1 + 1)) by (unfold two64; lia).
  replace (X + 1 + 1) with (X + 2) by ring.
  destruct (bitmap_create (X + 2)) as [b|] eqn:Eb.
  2: { unfold bitmap_create in Eb.
       destruct (Z.eqb_spec (X + 2) 0); [lia | discriminate]. }
  cbn [deref mbind outcome_bind].
  replace (X + 1 - 1) with X by ring.
  set (primes0 := {| capacity := initial_estimate; p_count := 0 + 1 + 1;
                     p_array := [2; 3]; p_sha256 := replicate 32 0 |}).
  assert (Hinv0 : sieve_inv initial_estimate n (6 * 1 - 1)
                            (primes0, bitmap_set_all b, bitmap_set_all b)).
  { split; [reflexivity|]. split; [reflexivity|]. split.
    - apply primes_so_far_start. lia.
    - apply lanes_so_far_start; assumption. }
  destruct (sieve_loop_ok initial_estimate n Hn Hroom (Z.to_nat X) 1
              (primes0, bitmap_set_all b, bitmap_set_all b)
              ltac:(lia) ltac:(fold X; lia) Hinv0)
    as ([[primes x5] x7] & Eloop & Hc & Hk & HL & _).
  fold X in Eloop. change (mret ?v) with (Done v).
  match goal with
  | |- context [fold_left ?f ?l ?a] =>
      replace (fold_left f l a)
        with (Done (primes, x5, x7) : outcome (PRIMES_OBJ * BITMAP * BITMAP))
        by (symmetry; exact Eloop)
  end.
  cbn [mbind outcome_bind]. clear Eloop Hinv0.
  rewrite Z2Nat.id in HL by lia.
  pose proof (primes_so_far_length _ _ _ HL) as Hlen.
  assert (Hne : p_array primes <> []).
  { destruct HL as (_ & _ & Hall). intros E.
    pose proof (Hall 2 Z.prime_2 ltac:(lia) ltac:(lia)) as H2.
    rewrite E in H2. contradiction. }
  destruct (exists_last Hne) as (L0 & a & EL).
  assert (Hlast : p_array primes !! Z.to_nat (p_count primes - 1) = Some a).
  { rewrite Hk, EL, length_app. cbn [length].
    replace (Z.to_nat (Z.of_nat (length L0 + 1) - 1)) with (length L0) by lia.
    apply list_lookup_middle. reflexivity. }
  assert (Hcnt : p_count primes = Z.of_nat (length L0) + 1).
  { rewrite Hk, EL, length_app. cbn [length]. lia. }
  unfold primes_obj_get. rewrite Hlast.
  destruct (Z.leb_spec 0 (p_count primes - 1)) as [_|E]; [|lia].
  destruct (Z.ltb_spec (p_count primes - 1) (capacity primes)) as [_|E];
    [|rewrite EL, length_app in Hlen; cbn [length] in Hlen; lia].
  cbn [andb mbind outcome_bind].
  rewrite EL in HL.
  destruct (primes_so_far_trim n (6 * (1 + X) - 1) L0 a HL ltac:(lia))
    as [Hsorted Hmem].
  eexists. split; [reflexivity|].
  assert (ER : primes_of
                 (primes_obj_resize_to_p_count
                    (if a >? n
                     then {| capacity := capacity primes;
                             p_count := p_count primes - 1;
                             p_array := p_array primes;
                             p_sha256 := p_sha256 primes |}
                     else primes))
               = if a >? n then L0 else L0 ++ [a]).
  { unfold primes_of, primes_obj_resize_to_p_count.
    destruct (a >? n); cbn [p_count p_array]; rewrite take_take, Nat.min_id.
    - rewrite EL. replace (Z.to_nat (p_count primes - 1)) with (length L0)
        by lia.
      apply take_app_length.
    - rewrite EL. apply firstn_all2. rewrite length_app. cbn [length]. lia. }
  rewrite ER.
  split; [|split; [exact Hsorted | split; [exact Hmem|]]].
  - apply sorted_unique; [exact Hsorted | apply primes_upto_sorted |].
    intros p. rewrite Hmem, primes_upto_spec. reflexivity.
  - destruct (a >? n); reflexivity.
Qed.

Lemma sieve_iZ_correct_witness :
  exists primes,
    sieve_iZ 31 100 = Done primes /\
    primes_of primes = primes_upto 100 /\
    StronglySorted Z.lt (primes_of primes) /\
    (forall p, In p (primes_of primes) <-> Z.prime p /\ p <= 100) /\
    capacity primes = p_count primes.
Proof.
  apply (sieve_iZ_correct 31 100); [lia|].
  vm_compute. reflexivity.
Defined.

(** ** [random_iZprime]: what a returned value satisfies *)

Lemma search_attempts_found (probab_prime : Z -> Z -> bool) (n : nat) :
  forall tmp vx rounds p,
    search_attempts probab_prime n tmp vx rounds = Some p ->
    probab_prime p rounds = true /\
    exists j, 1 <= j <= Z.of_nat n /\ p = tmp + j * vx.
Proof.
  induction n as [|n IH]; intros tmp vx rounds p; cbn [search_attempts];
    [discriminate|].
  destruct (probab_prime (tmp + vx) rounds) eqn:E.
  - intros [= <-]. split; [exact E|]. exists 1. lia.
  - intros H. destruct (IH _ _ _ _ H) as (Hp & j & Hj & ->).
    split; [exact Hp|]. exists (j + 1). lia.
Qed.

Lemma search_p_in_iZm_found (probab_prime : Z -> Z -> bool)
      (draws : list Z) (matrix_id vx rounds p : Z) :
  search_p_in_iZm probab_prime draws matrix_id vx rounds = Done p ->
  probab_prime p rounds = true /\
  exists r k, In r draws /\ 0 < r /\ 2 <= k <= 1000001 /\
              p = coprime_walk (Z.to_nat 9999) vx (iZ_gmp r matrix_id)
                  + k * vx.
Proof.
  induction draws as [|r draws IH]; cbn [search_p_in_iZm]; [discriminate|].
  unfold set_random_base.
  destruct (Z.ltb_spec 0 r) as [Hr|Hr]; [|discriminate].
  change (mret ?v) with (Done v). cbn [mbind outcome_bind].
  destruct (search_attempts probab_prime (Z.to_nat 1000000) _ vx rounds)
    as [q|] eqn:E.
  - intros [= <-]. apply search_attempts_found in E.
    destruct E as (Hq & j & Hj & ->). split; [exact Hq|].
    exists r, (j + 1). split; [now left|]. split; [exact Hr|].
    split; [lia | ring].
  - intros H. destruct (IH H) as (Hp & r' & k & Hin & Hrest).
    split; [exact Hp|]. exists r', k. split; [now right | exact Hrest].
Qed.

(** X21.  Whatever the single-worker [random_iZprime] returns passed
    [mpz_probab_prime_p] with the rounds it was given, and it is the base
    of one of the random draws [r > 0] (the first value coprime to [vx]
    met from [iZ(r, lane)] in steps of 6) plus [k * vx] with
    [2 <= k <= 1000001]. *)
Theorem random_iZprime_passed_test
        (probab_prime : Z -> Z -> bool) (cached draws : list Z)
        (p_id bit_size rounds cores_num p : Z) :
  random_iZprime probab_prime cached draws p_id bit_size rounds cores_num
  = Done p ->
  probab_prime p rounds = true /\
  exists vx r k,
    gmp_compute_max_vx cached bit_size = Done vx /\
    In r draws /\ 0 < r /\ 2 <= k <= 1000001 /\
    p = coprime_walk (Z.to_nat 9999) vx (iZ_gmp r p_id) + k * vx.
Proof.
  unfold random_iZprime.
  destruct (gmp_compute_max_vx cached bit_size) as [vx|f] eqn:Evx;
    cbn [mbind outcome_bind]; [|discriminate].
  destruct (cores_num <? 2); [|discriminate].
  intros H. apply search_p_in_iZm_found in H.
  destruct H as (Hp & r & k & Hin & Hr & Hk & ->).
  split; [exact Hp|]. exists vx, r, k. repeat split; try assumption; lia.
Qed.

Lemma random_iZprime_passed_test_witness :
  exact_prime_test 83 25 = true /\
  exists vx r k,
    gmp_compute_max_vx (primes_upto 100) 8 = Done vx /\
    In r [1] /\ 0 < r /\ 2 <= k <= 1000001 /\
    83 = coprime_walk (Z.to_nat 9999) vx (iZ_gmp r 1) + k * vx.
Proof.
  apply (random_iZprime_passed_test exact_prime_test (primes_upto 100) [1]
           1 8 25 1 83).
  vm_compute. reflexivity.
Defined.

Lemma max_vx_loop_spec (ps : list Z) :
  forall bit_size vx last vx' last',
    List.Forall (fun p => 0 < p) ps ->
    max_vx_loop ps bit_size vx last = Done (vx', last') ->
    u64 bit_size <= bit_length vx' /\
    ((vx' = vx /\ last' = last) \/
     exists k : nat,
       ps !! k = Some last' /\
       vx' = vx * fold_right Z.mul 1 (take k ps) * last' /\
       bit_length (vx * fold_right Z.mul 1 (take k ps)) < u64 bit_size).
Proof.
  induction ps as [|p ps IH]; intros bit_size vx last vx' last' Hpos;
    cbn [max_vx_loop].
  - destruct (Z.ltb_spec (bit_length vx) (u64 bit_size)) as [Hlt|Hge];
      [discriminate|].
    intros [= <- <-]. split; [exact Hge | now left].
  - destruct (Z.ltb_spec (bit_length vx) (u64 bit_size)) as [Hlt|Hge].
    + intros H. apply List.Forall_cons_iff in Hpos. destruct Hpos as [Hp Hps].
      destruct (IH _ _ _ _ _ Hps H) as (Hbits & [[-> ->]|(k & Hk & -> & Hb)]).
      * split; [exact Hbits|]. right. exists 0%nat.
        cbn [take fold_right]. rewrite Z.mul_1_r.
        split; [reflexivity | split; [reflexivity | exact Hlt]].
      * split; [exact Hbits|]. right. exists (S k).
        cbn [take fold_right]. split; [exact Hk|].
        split; [ring|].
        replace (vx * (p * fold_right Z.mul 1 (take k ps)))
          with (vx * p * fold_right Z.mul 1 (take k ps)) by ring.
        exact Hb.
    + intros [= <- <-]. split; [exact Hge | now left].
Qed.

(** X22.  [gmp_compute_max_vx(vx, bit_size)], on a cache of positive
    primes, returns 1 when the third cached prime already has [bit_size]
    bits or more; otherwise it returns the product of the cached primes
    from the third one up to some prime, a product of fewer than
    [bit_size] bits that reaches [bit_size] bits when multiplied by the
    next cached prime. *)
Theorem gmp_compute_max_vx_bits (cached : list Z) (bit_size vx : Z) :
  List.Forall (fun p => 0 < p) cached -> 0 <= bit_size < 2 ^ 31 ->
  gmp_compute_max_vx cached bit_size = Done vx ->
  exists p2 ps,
    drop 2 cached = p2 :: ps /\
    ((bit_size <= bit_length p2 /\ vx = 1) \/
     exists (k : nat) (next : Z),
       ps !! k = Some next /\
       vx = p2 * fold_right Z.mul 1 (take k ps) /\
       bit_length vx < bit_size /\
       bit_size <= bit_length (vx * next)).
Proof.
  intros Hpos Hbs. unfold gmp_compute_max_vx.
  destruct (drop 2 cached) as [|p2 ps] eqn:Ed; [discriminate|].
  assert (Hpos' : List.Forall (fun p => 0 < p) (p2 :: ps)).
  { rewrite <- (take_drop 2 cached) in Hpos.
    apply List.Forall_app in Hpos. destruct Hpos as [_ Hpos].
    rewrite Ed in Hpos. exact Hpos. }
  apply List.Forall_cons_iff in Hpos'. destruct Hpos' as [Hp2 Hps].
  destruct (max_vx_loop ps bit_size p2 p2) as [[v last]|f] eqn:E;
    cbn [mbind outcome_bind]; [|discriminate].
  change (mret ?v) with (Done v). intros [= <-].
  apply max_vx_loop_spec in E; [|exact Hps].
  rewrite (u64_small bit_size) in E by (unfold two64; lia).
  destruct E as (Hbits & [[-> ->]|(k & Hk & -> & Hb)]).
  - exists p2, ps. split; [reflexivity|]. left.
    split; [exact Hbits|]. apply Z.div_same. lia.
  - exists p2, ps. split; [reflexivity|]. right. exists k, last.
    assert (Hl : 0 < last).
    { rewrite List.Forall_forall in Hps. apply Hps.
      apply list_elem_of_In. eapply list_elem_of_lookup_2. exact Hk. }
    rewrite Z.div_mul by lia.
    split; [exact Hk|]. split; [reflexivity|]. split; [exact Hb | exact Hbits].
Qed.

Lemma gmp_compute_max_vx_bits_witness :
  exists p2 ps,
    drop 2 (primes_upto 100) = p2 :: ps /\
    ((8 <= bit_length p2 /\ 35 = 1) \/
     exists (k : nat) (next : Z),
       ps !! k = Some next /\
       35 = p2 * fold_right Z.mul 1 (take k ps) /\
       bit_length 35 < 8 /\
       8 <= bit_length (35 * next)).
Proof.
  apply (gmp_compute_max_vx_bits (primes_upto 100) 8 35).
  - apply List.Forall_forall. intros p Hp.
    apply primes_upto_spec in Hp. destruct Hp as [Hp _].
    pose proof (Z.prime_ge_2 p Hp). lia.
  - lia.
  - vm_compute. reflexivity.
Defined.

(** * The sieves of Eratosthenes *)

(** ** Clearing with the block watched *)

Lemma on_stride_later (p idx limit j : Z) :
  0 < p -> on_stride p (idx + p) limit j = true ->
  on_stride p idx limit j = true.
Proof.
  intros Hp H. apply on_stride_iff in H; [|exact Hp].
  destruct H as (k & Hk & -> & Hl). apply on_stride_iff; [exact Hp|].
  exists (k + 1). split; [lia|]. split; [ring | exact Hl].
Qed.

Lemma clear_mod_p_in_block_spec (fuel : nat) :
  forall (b : BITMAP) (p idx limit : Z),
    0 < p -> 0 <= idx -> limit + p < two64 ->
    (forall j, on_stride p idx limit j = true ->
               j < 8 * Z.of_nat (length (data b))) ->
    (limit - idx) / p + 1 <= Z.of_nat fuel ->
    exists b',
      clear_mod_p_in_block fuel b p idx limit = Done b' /\
      length (data b') = length (data b) /\
      forall j, 0 <= j ->
        bitmap_get_bit b' j
        = bitmap_get_bit b j && negb (on_stride p idx limit j).
Proof.
  induction fuel as [|fuel IH]; intros b p idx limit Hp Hidx Hw Hin Hfuel.
  - assert (limit < idx).
    { destruct (Z_lt_le_dec limit idx) as [|Hle]; [assumption|].
      assert (0 <= (limit - idx) / p) by (apply Z.div_pos; lia). lia. }
    exists b. split; [reflexivity|]. split; [reflexivity|]. intros j Hj.
    rewrite on_stride_empty by assumption. now rewrite andb_true_r.
  - cbn [clear_mod_p_in_block].
    destruct (Z.leb_spec idx limit) as [Hle|Hgt].
    + assert (Hi : idx < 8 * Z.of_nat (length (data b))).
      { apply Hin. rewrite on_stride_unfold by lia.
        now rewrite Z.eqb_refl. }
      destruct (Z.ltb_spec (idx / 8) (Z.of_nat (length (data b))))
        as [_|Hout].
      2: { assert (idx / 8 < Z.of_nat (length (data b)))
             by (apply Z.div_lt_upper_bound; lia). lia. }
      rewrite u64_small by lia.
      destruct (IH (bitmap_clear_bit b idx) p (idx + p) limit Hp
                   ltac:(lia) Hw) as (b' & E & Hl & Hb).
      * intros j Hj. rewrite data_length_clear_bit. apply Hin.
        now apply on_stride_later.
      * replace (limit - (idx + p)) with (limit - idx + (-1) * p) by lia.
        rewrite Z.div_add by lia. lia.
      * exists b'. split; [exact E|].
        rewrite data_length_clear_bit in Hl. split; [exact Hl|].
        intros j Hj. rewrite Hb by exact Hj.
        rewrite bitmap_get_clear_bit by (unfold in_range; lia).
        rewrite (on_stride_unfold p idx limit j) by lia.
        destruct (idx =? j); destruct (bitmap_get_bit b j);
          destruct (on_stride p (idx + p) limit j); reflexivity.
    + exists b. split; [reflexivity|]. split; [reflexivity|]. intros j Hj.
      rewrite on_stride_empty by assumption. now rewrite andb_true_r.
Qed.

Lemma clear_mod_p_in_block_overrun (fuel : nat) :
  forall (b : BITMAP) (p idx limit j0 : Z),
    0 < p -> 0 <= idx -> limit + p < two64 ->
    on_stride p idx limit j0 = true ->
    8 * Z.of_nat (length (data b)) <= j0 ->
    (limit - idx) / p + 1 <= Z.of_nat fuel ->
    clear_mod_p_in_block fuel b p idx limit = Stop OutOfBoundsWrite.
Proof.
  induction fuel as [|fuel IH]; intros b p idx limit j0 Hp Hidx Hw Hon Hout
                                       Hfuel.
  - exfalso. assert (limit < idx).
    { destruct (Z_lt_le_dec limit idx) as [|Hle]; [assumption|].
      assert (0 <= (limit - idx) / p) by (apply Z.div_pos; lia). lia. }
    rewrite on_stride_empty in Hon by assumption. discriminate.
  - cbn [clear_mod_p_in_block].
    destruct (Z.leb_spec idx limit) as [Hle|Hgt].
    2: { rewrite on_stride_empty in Hon by assumption. discriminate. }
    destruct (Z.ltb_spec (idx / 8) (Z.of_nat (length (data b))))
      as [Hi|_]; [|reflexivity].
    rewrite u64_small by lia.
    rewrite on_stride_unfold in Hon by lia.
    destruct (Z.eqb_spec idx j0) as [->|Hne].
    + exfalso.
      assert (Z.of_nat (length (data b)) <= j0 / 8)
        by (apply Z.div_le_lower_bound; lia).
      lia.
    + cbn [orb] in Hon.
      apply (IH (bitmap_clear_bit b idx) p (idx + p) limit j0); try lia.
      * exact Hon.
      * rewrite data_length_clear_bit. exact Hout.
      * replace (limit - (idx + p)) with (limit - idx + (-1) * p) by lia.
        rewrite Z.div_add by lia. lia.
Qed.

(** ** The list of primes *)

Lemma primes_below_upto (F : Z) (L : list Z) :
  primes_below F L -> L = primes_upto (F - 1).
Proof.
  intros [Hs Hin]. apply sorted_unique;
    [exact Hs | apply primes_upto_sorted |].
  intros p. rewrite Hin, primes_upto_spec.
  split; intros [Hp Hlt]; (split; [exact Hp | lia]).
Qed.

Lemma primes_upto_length_mono (a b : Z) :
  a <= b -> (length (primes_upto a) <= length (primes_upto b))%nat.
Proof.
  intros Hab. apply NoDup_incl_length.
  - apply sorted_NoDup, primes_upto_sorted.
  - intros p Hp. apply primes_upto_spec in Hp. apply primes_upto_spec.
    destruct Hp as [Hp Hle]. split; [exact Hp | lia].
Qed.

Lemma primes_below_append (z : Z) (L : list Z) :
  primes_below z L -> Z.prime z -> primes_below (z + 1) (L ++ [z]).
Proof.
  intros [Hs Hin] Hz. split.
  - apply sorted_snoc; [exact Hs|]. intros p Hp. apply Hin in Hp. lia.
  - intros p. rewrite in_app_iff, Hin. cbn [In]. split.
    + intros [[Hp Hlt] | [<- | []]]; (split; [assumption | lia]).
    + intros [Hp Hlt]. destruct (Z.eq_dec z p) as [->|Hne].
      * right. now left.
      * left. split; [exact Hp | lia].
Qed.

Lemma primes_below_advance (F F' : Z) (L : list Z) :
  primes_below F L -> F <= F' ->
  (forall p, F <= p < F' -> ~ Z.prime p) ->
  primes_below F' L.
Proof.
  intros [Hs Hin] Hle Hnone. split; [exact Hs|].
  intros p. rewrite Hin. split.
  - intros [Hp Hlt]. split; [exact Hp | lia].
  - intros [Hp Hlt]. split; [exact Hp|].
    destruct (Z.lt_ge_cases p F) as [H|H]; [exact H|].
    exfalso. apply (Hnone p); [lia | exact Hp].
Qed.

Lemma primes_below_room (n z : Z) (L : list Z) :
  primes_below z L -> Z.prime z -> z <= n ->
  (length L < length (primes_upto n))%nat.
Proof.
  intros HL Hz Hn.
  pose proof (primes_below_append z L HL Hz) as HL'.
  apply primes_below_upto in HL'.
  pose proof (primes_upto_length_mono (z + 1 - 1) n ltac:(lia)) as Hm.
  rewrite <- HL', length_app in Hm. cbn [length] in Hm. lia.
Qed.

(** ** The bitmap *)

Lemma marks_so_far_advance (step n F F' : Z) (b : BITMAP) :
  marks_so_far step n F b -> F <= F' ->
  (forall p, F <= p < F' -> ~ (Z.prime p /\ p <= Z.sqrt n)) ->
  marks_so_far step n F' b.
Proof.
  intros (Hlen & Hsound & Hcompl) Hle Hnone.
  split; [exact Hlen|]. split; [exact Hsound|].
  intros j q m Hj Hs Hq Hlt Hroot Hqm Hm.
  destruct (Z.lt_ge_cases q F) as [Hq'|Hq'].
  - apply (Hcompl j q m); assumption.
  - exfalso. apply (Hnone q); [lia | split; assumption].
Qed.

Lemma marks_prime_at (step n p : Z) (b : BITMAP) :
  marks_so_far step n p b -> 2 <= p <= n -> (p - 1) mod step = 0 ->
  bitmap_get_bit b p = true -> Z.prime p.
Proof.
  intros (_ & _ & Hcompl) Hp Hs Hbit.
  destruct (prime_or_factored p ltac:(lia))
    as [Hpr|(q & m & Hq & Hqm & Hle)]; [exact Hpr|].
  pose proof (Z.prime_ge_2 q Hq) as Hq2.
  assert (Hroot : q <= Z.sqrt n) by (apply Z.sqrt_le_square; nia).
  rewrite (Hcompl p q m Hp Hs Hq ltac:(nia) Hroot Hqm Hle) in Hbit.
  discriminate.
Qed.

Lemma block_covers (n : Z) :
  0 <= n -> n + 1 <= 8 * ((n + 8) / 8) /\
            ((n + 1) mod 8 <> 0 -> n + 2 <= 8 * ((n + 8) / 8)) /\
            ((n + 1) mod 8 = 0 -> n + 1 = 8 * ((n + 8) / 8)).
Proof.
  intros Hn.
  pose proof (Z.div_mod (n + 1) 8 ltac:(lia)) as H1.
  pose proof (Z.mod_pos_bound (n + 1) 8 ltac:(lia)) as H2.
  replace (n + 8) with (n + 1 + 7) by ring.
  pose proof (Z.div_mod (n + 1 + 7) 8 ltac:(lia)) as H3.
  pose proof (Z.mod_pos_bound (n + 1 + 7) 8 ltac:(lia)) as H4.
  assert (Hc : (n + 1) mod 8 = 0 /\ (n + 1 + 7) / 8 = (n + 1) / 8 \/
               (n + 1) mod 8 <> 0 /\ (n + 1 + 7) / 8 = (n + 1) / 8 + 1).
  { destruct (Z.eq_dec ((n + 1) mod 8) 0) as [E|E]; [left | right];
      (split; [exact E|]).
    - symmetry. apply (Z.div_unique _ 8 _ 7); lia.
    - symmetry. apply (Z.div_unique _ 8 _ ((n + 1) mod 8 - 1)); lia. }
  lia.
Qed.

(** The multiples cleared for the prime [p]. *)
Lemma marks_so_far_mark_upto (step n limit p : Z) (b b' : BITMAP) :
  step = 1 \/ step = 2 /\ p mod 2 = 1 ->
  2 <= p -> p <= Z.sqrt n -> Z.prime p -> n <= limit ->
  marks_so_far step n p b ->
  length (data b') = length (data b) ->
  (forall j, 0 <= j <= n ->
     bitmap_get_bit b' j
     = bitmap_get_bit b j && negb (on_stride (step * p) (p * p) limit j)) ->
  marks_so_far step n (p + 1) b'.
Proof.
  intros Hstep Hp Hroot Hprime Hlim (Hlen & Hsound & Hcompl) Hl Hbits.
  assert (Hsp : 0 < step * p) by (destruct Hstep as [-> | [-> _]]; lia).
  split; [rewrite Hl; exact Hlen|]. split.
  - intros j Hj Hbit. rewrite Hbits in Hbit by lia.
    apply andb_false_iff in Hbit. destruct Hbit as [Hbit|Hbit].
    + apply Hsound; assumption.
    + apply negb_false_iff in Hbit. apply on_stride_iff in Hbit; [|exact Hsp].
      destruct Hbit as (k & Hk & Hjk & _).
      exists p, (p + k * step). split; [lia|]. split; [nia|].
      rewrite Hjk. ring.
  - intros j q m Hj Hs Hq Hlt Hqr Hqm Hle.
    rewrite Hbits by lia.
    destruct (Z.eq_dec q p) as [->|Hne].
    + apply andb_false_iff. right. apply negb_false_iff.
      apply on_stride_iff; [exact Hsp|].
      assert (Hk : exists k, 0 <= k /\ m = p + k * step).
      { destruct Hstep as [-> | [-> Hodd]].
        - exists (m - p). lia.
        - exists ((m - p) / 2).
          assert (Hjm : j mod 2 = 1).
          { pose proof (Z.div_mod (j - 1) 2 ltac:(lia)) as Hd.
            rewrite Hs in Hd.
            replace j with (1 + (j - 1) / 2 * 2) by lia.
            rewrite Z.mod_add by lia. reflexivity. }
          assert (Hmm : m mod 2 = 1).
          { pose proof (Z.mod_pos_bound m 2 ltac:(lia)) as Hb.
            destruct (Z.eq_dec (m mod 2) 1) as [E|E]; [exact E|].
            assert (E0 : m mod 2 = 0) by lia.
            rewrite Hqm, <- Zmult_mod_idemp_r, E0, Z.mul_0_r in Hjm.
            discriminate Hjm. }
          pose proof (Z.div_mod m 2 ltac:(lia)) as Hdm.
          pose proof (Z.div_mod p 2 ltac:(lia)) as Hdp.
          assert (Hev : m - p = 2 * (m / 2 - p / 2)) by lia.
          rewrite Hev, Z.mul_comm, Z.div_mul by lia. lia. }
      destruct Hk as (k & Hk & ->).
      exists k. split; [exact Hk|]. split; [rewrite Hqm; ring | lia].
    + apply andb_false_iff. left.
      apply (Hcompl j q m); try assumption. lia.
Qed.

Lemma marks_so_far_mark (step n p : Z) (b b' : BITMAP) :
  step = 1 \/ step = 2 /\ p mod 2 = 1 ->
  2 <= p -> p <= Z.sqrt n -> Z.prime p ->
  marks_so_far step n p b ->
  length (data b') = length (data b) ->
  (forall j, 0 <= j ->
     bitmap_get_bit b' j
     = bitmap_get_bit b j && negb (on_stride (step * p) (p * p) (n + 1) j)) ->
  marks_so_far step n (p + 1) b'.
Proof.
  intros Hstep Hp Hroot Hprime HB Hl Hbits.
  apply (marks_so_far_mark_upto step n (n + 1) p b b'); try assumption;
    [lia|].
  intros j Hj. apply Hbits. lia.
Qed.

(** ** The main loop *)

Section EratosthenesLoop.

Variables step cap n : Z.
Hypothesis n_range : 2 <= n < 2 ^ 52.
Hypothesis room : Z.of_nat (length (primes_upto n)) <= cap.
Hypothesis step_cases : step = 1 /\ (n + 1) mod 8 <> 0 \/ step = 2.

(** The loop body at [p]. *)
Lemma eratosthenes_visit_ok (p : Z) (st : option PRIMES_OBJ * BITMAP) :
  2 <= p <= n -> (step = 2 -> p mod 2 = 1) ->
  eratosthenes_inv step cap n p st ->
  exists st',
    eratosthenes_visit step (Z.sqrt n) (u64 (n + 1)) (Done st) p = Done st' /\
    eratosthenes_inv step cap n (p + 1) st'.
Proof.
  intros Hp Hodd. destruct st as [primes b].
  intros (obj & Eo & Hc & Hk & HL & HB). cbn [fst snd] in Eo, HB.
  subst primes.
  assert (Hs1 : (p - 1) mod step = 0).
  { destruct step_cases as [[-> _] | ->]; [apply Z.mod_1_r|].
    pose proof (Z.div_mod p 2 ltac:(lia)) as Hd.
    rewrite (Hodd eq_refl) in Hd.
    replace (p - 1) with (p / 2 * 2) by lia. apply Z.mod_mul. lia. }
  assert (Hsq : Z.sqrt n <= n)
    by (apply Z.lt_le_incl, Z.sqrt_lt_lin; lia).
  unfold eratosthenes_visit. cbn [mbind outcome_bind].
  destruct (bitmap_get_bit b p) eqn:Hbit.
  - assert (Hprime : Z.prime p)
      by (apply (marks_prime_at step n p b); assumption).
    pose proof (primes_below_room n p _ HL Hprime ltac:(lia)) as Hroom.
    cbn [deref mbind outcome_bind].
    rewrite primes_obj_append_full by lia.
    cbn [mbind outcome_bind].
    set (obj' := {| capacity := capacity obj; p_count := p_count obj + 1;
                    p_array := p_array obj ++ [p];
                    p_sha256 := p_sha256 obj |}).
    assert (Hk' : p_count obj' = Z.of_nat (length (p_array obj'))).
    { unfold obj'. cbn [p_count p_array]. rewrite length_app.
      cbn [length]. lia. }
    pose proof (primes_below_append p _ HL Hprime) as HL'.
    destruct (Z.leb_spec p (Z.sqrt n)) as [Hroot|Hroot].
    + assert (Hpp : p * p <= n).
      { destruct (Z.sqrt_spec n ltac:(lia)) as [Hs _].
        assert (p * p <= Z.sqrt n * Z.sqrt n)
          by (apply Z.mul_le_mono_nonneg; lia).
        lia. }
      assert (Hsp : 0 < step * p <= 2 * n)
        by (destruct step_cases as [[-> _] | ->]; lia).
      rewrite (u64_small (step * p)), (u64_small (p * p)),
        (u64_small (n + 1)) by (unfold two64; lia).
      destruct HB as (Hlen & Hsound & Hcompl).
      destruct (block_covers n ltac:(lia)) as (Hb1 & Hb2 & Hb3).
      unfold bitmap_clear_mod_p_in_block.
      destruct (clear_mod_p_in_block_spec
                  (Z.to_nat ((n + 1 - p * p) / (step * p) + 1)) b (step * p)
                  (p * p) (n + 1) ltac:(lia) ltac:(lia)
                  ltac:(unfold two64; lia))
        as (b' & E & Hl & Hbits).
      * intros j Hj. rewrite Hlen.
        apply on_stride_iff in Hj; [|lia]. destruct Hj as (k & Hk0 & Hjk & Hjn).
        destruct step_cases as [[_ H8] | E2]; [specialize (Hb2 H8); lia|].
        destruct (Z.eq_dec j (n + 1)) as [Ej|]; [|lia].
        assert (H8 : (n + 1) mod 8 <> 0).
        { intros E8. rewrite E2 in Hjk.
          assert (Hj2 : j mod 2 = 1).
          { rewrite Hjk.
            replace (p * p + k * (2 * p)) with (p * p + k * p * 2) by ring.
            rewrite Z.mod_add, <- Zmult_mod_idemp_l, (Hodd E2) by lia.
            rewrite Z.mul_1_l. exact (Hodd E2). }
          rewrite Ej in Hj2.
          pose proof (Z.div_mod (n + 1) 8 ltac:(lia)) as Hd.
          rewrite E8 in Hd.
          replace (n + 1) with ((n + 1) / 8 * 4 * 2) in Hj2 by lia.
          rewrite Z.mod_mul in Hj2 by lia. discriminate. }
        specialize (Hb2 H8). lia.
      * assert (0 <= (n + 1 - p * p) / (step * p))
          by (apply Z.div_pos; lia).
        lia.
      * rewrite E. cbn [mbind outcome_bind]. eexists. split; [reflexivity|].
        exists obj'. cbn [fst snd]. split; [reflexivity|].
        split; [exact Hc|]. split; [exact Hk'|]. split; [exact HL'|].
        refine (marks_so_far_mark step n p b b' _ ltac:(lia) Hroot Hprime _
                                  Hl Hbits).
        -- destruct step_cases as [[E1 _] | E2]; [now left|].
           right. split; [exact E2 | now apply Hodd].
        -- split; [exact Hlen|]. split; assumption.
    + eexists. split; [reflexivity|].
      exists obj'. cbn [fst snd]. split; [reflexivity|].
      split; [exact Hc|]. split; [exact Hk'|]. split; [exact HL'|].
      apply (marks_so_far_advance step n p); [exact HB | lia |].
      intros q Hq [_ Hqr]. lia.
  - assert (Hnp : ~ Z.prime p).
    { apply composite_not_prime. destruct HB as (_ & Hsound & _).
      apply Hsound; assumption. }
    eexists. split; [reflexivity|].
    exists obj. cbn [fst snd]. split; [reflexivity|].
    split; [exact Hc|]. split; [exact Hk|]. split.
    + apply (primes_below_advance p); [exact HL | lia |].
      intros q Hq. assert (q = p) by lia. subst q. exact Hnp.
    + apply (marks_so_far_advance step n p); [exact HB | lia |].
      intros q Hq [Hpr _]. assert (q = p) by lia. subst q. contradiction.
Qed.

Lemma eratosthenes_inv_advance (F F' : Z) (st : option PRIMES_OBJ * BITMAP) :
  eratosthenes_inv step cap n F st -> F <= F' ->
  (forall p, F <= p < F' -> ~ Z.prime p) ->
  eratosthenes_inv step cap n F' st.
Proof.
  intros (obj & Eo & Hc & Hk & HL & HB) Hle Hnone.
  exists obj. split; [exact Eo|]. split; [exact Hc|]. split; [exact Hk|].
  split.
  - eapply primes_below_advance; eassumption.
  - eapply marks_so_far_advance; [eassumption | exact Hle |].
    intros p Hp [Hpp _]. exact (Hnone p Hp Hpp).
Qed.

(** [for (p = 2; p <= n; p++)] *)
Lemma classic_loop_ok (k : nat) :
  forall (lo : Z) (st : option PRIMES_OBJ * BITMAP),
    step = 1 -> 2 <= lo -> lo + Z.of_nat k <= n + 1 ->
    eratosthenes_inv step cap n lo st ->
    exists st',
      fold_left (eratosthenes_visit step (Z.sqrt n) (u64 (n + 1)))
                (Zrange lo k) (Done st) = Done st' /\
      eratosthenes_inv step cap n (lo + Z.of_nat k) st'.
Proof.
  induction k as [|k IH]; intros lo st Hs Hlo Hhi Hinv.
  - exists st. split; [reflexivity|].
    replace (lo + Z.of_nat 0) with lo by lia. exact Hinv.
  - rewrite Zrange_S. cbn [fold_left].
    destruct (eratosthenes_visit_ok lo st ltac:(lia) ltac:(lia) Hinv)
      as (st1 & E1 & Hinv1).
    rewrite E1.
    destruct (IH (lo + 1) st1 Hs ltac:(lia) ltac:(lia) Hinv1)
      as (st2 & E2 & Hinv2).
    exists st2. split; [exact E2|].
    replace (lo + Z.of_nat (S k)) with (lo + 1 + Z.of_nat k) by lia.
    exact Hinv2.
Qed.

(** [for (p = 3; p <= n; p += 2)] *)
Lemma odd_loop_ok (k : nat) :
  forall (a : Z) (st : option PRIMES_OBJ * BITMAP),
    step = 2 -> 0 <= a -> 3 + 2 * (a + Z.of_nat k) <= n + 2 ->
    eratosthenes_inv step cap n (3 + 2 * a) st ->
    exists st',
      fold_left (eratosthenes_visit step (Z.sqrt n) (u64 (n + 1)))
                (map (fun i => 3 + 2 * i) (Zrange a k)) (Done st)
      = Done st' /\
      eratosthenes_inv step cap n (3 + 2 * (a + Z.of_nat k)) st'.
Proof.
  induction k as [|k IH]; intros a st Hs Ha Hhi Hinv.
  - exists st. split; [reflexivity|].
    replace (a + Z.of_nat 0) with a by lia. exact Hinv.
  - rewrite Zrange_S. cbn [map fold_left].
    assert (Hodd : (3 + 2 * a) mod 2 = 1).
    { replace (3 + 2 * a) with (1 + (a + 1) * 2) by ring.
      rewrite Z.mod_add by lia. reflexivity. }
    destruct (eratosthenes_visit_ok (3 + 2 * a) st ltac:(lia)
                ltac:(intros _; exact Hodd) Hinv) as (st1 & E1 & Hinv1).
    rewrite E1.
    assert (Hinv1' : eratosthenes_inv step cap n (3 + 2 * (a + 1)) st1).
    { apply (eratosthenes_inv_advance (3 + 2 * a + 1));
        [exact Hinv1 | lia |].
      intros p Hp Hpp. assert (p = 2 * (a + 2)) by lia. subst p.
      destruct Hpp as [_ Hpp]. apply (Hpp 2); [lia|].
      exists (a + 2). ring. }
    destruct (IH (a + 1) st1 Hs ltac:(lia) ltac:(lia) Hinv1')
      as (st2 & E2 & Hinv2).
    exists st2. split; [exact E2|].
    replace (a + Z.of_nat (S k)) with (a + 1 + Z.of_nat k) by lia.
    exact Hinv2.
Qed.

End EratosthenesLoop.

(** ** Before and after the loop *)

Lemma marks_so_far_start (step n F : Z) (b : BITMAP) :
  2 <= n < 2 ^ 52 -> bitmap_create (n + 1) = Some b ->
  (forall q, Z.prime q -> q < F -> q = 2 /\ step = 2) ->
  marks_so_far step n F (bitmap_set_all b).
Proof.
  intros Hn E Hq.
  destruct (bitmap_create_well_sized (n + 1) b E ltac:(unfold two64; lia))
    as ([Hw1 Hw2] & Hsz & _).
  destruct (bitmap_create_spec (n + 1) b E) as (_ & Hlen & _).
  rewrite byte_size_small in Hlen by (unfold two64; lia).
  assert (0 <= (n + 1 + 7) / 8) by (apply Z.div_pos; lia).
  split; [|split].
  - unfold bitmap_set_all. cbn [data].
    rewrite length_app, length_replicate, length_drop, Hlen.
    replace (n + 8) with (n + 1 + 7) by ring. lia.
  - intros j Hj Hbit. exfalso.
    rewrite (bitmap_get_bit_set_all b j) in Hbit;
      [discriminate | split; assumption | unfold two64; lia | lia].
  - intros j q m Hj Hs Hpr Hlt _ Hqm _. exfalso.
    destruct (Hq q Hpr Hlt) as [-> ->].
    pose proof (Z.div_mod (j - 1) 2 ltac:(lia)) as Hd. lia.
Qed.

Lemma primes_below_exact (n F : Z) (L : list Z) :
  primes_below F L -> n < F -> (forall p, n < p < F -> ~ Z.prime p) ->
  L = primes_upto n.
Proof.
  intros [Hs Hin] HF Hnone. apply sorted_unique;
    [exact Hs | apply primes_upto_sorted |].
  intros p. rewrite Hin, primes_upto_spec. split.
  - intros [Hp Hlt]. split; [exact Hp|].
    destruct (Z.le_gt_cases p n) as [H|H]; [exact H|].
    exfalso. apply (Hnone p); [lia | exact Hp].
  - intros [Hp Hle]. split; [exact Hp | lia].
Qed.

Lemma eratosthenes_result (obj : PRIMES_OBJ) (n : Z) :
  p_count obj = Z.of_nat (length (p_array obj)) ->
  p_array obj = primes_upto n ->
  exists primes,
    resize_or_null (Some obj) = Done primes /\
    primes_of primes = primes_upto n /\
    (forall p, In p (primes_of primes) <-> Z.prime p /\ p <= n) /\
    capacity primes = p_count primes.
Proof.
  intros Hk HL. eexists. split; [reflexivity|].
  assert (E : primes_of (primes_obj_resize_to_p_count obj) = primes_upto n).
  { unfold primes_of, primes_obj_resize_to_p_count. cbn [p_count p_array].
    rewrite take_take, Nat.min_id, Hk, Nat2Z.id, firstn_all. exact HL. }
  rewrite E. split; [reflexivity|]. split; [|reflexivity].
  intros p. apply primes_upto_spec.
Qed.

Lemma primes_upto_nonempty (n : Z) :
  2 <= n -> (1 <= length (primes_upto n))%nat.
Proof.
  intros Hn.
  assert (Hin : In 2 (primes_upto n))
    by (apply primes_upto_spec; split; [apply Z.prime_2 | lia]).
  destruct (primes_upto n); [contradiction | cbn [length]; lia].
Qed.

Lemma bitmap_create_some (sz : Z) :
  sz <> 0 -> exists b, bitmap_create sz = Some b.
Proof.
  intros H. unfold bitmap_create.
  destruct (Z.eqb_spec sz 0); [contradiction | eexists; reflexivity].
Qed.

(** X24.  [classic_sieve_eratosthenes(n)], for [2 <= n < 2^52] with
    [n + 1] not a multiple of 8 and a prime array with room for the primes
    up to [n], returns exactly the primes up to [n], in ascending order,
    trimmed to their count. *)
Theorem classic_sieve_eratosthenes_correct (initial_estimate n : Z) :
  2 <= n < 2 ^ 52 -> (n + 1) mod 8 <> 0 ->
  Z.of_nat (length (primes_upto n)) <= initial_estimate ->
  exists primes,
    classic_sieve_eratosthenes initial_estimate n = Done primes /\
    primes_of primes = primes_upto n /\
    (forall p, In p (primes_of primes) <-> Z.prime p /\ p <= n) /\
    capacity primes = p_count primes.
Proof.
  intros Hn H8 Hroom.
  pose proof (primes_upto_nonempty n ltac:(lia)) as Hpi.
  unfold classic_sieve_eratosthenes, primes_obj_init.
  destruct (Z.leb_spec initial_estimate 0) as [E|_]; [lia|].
  rewrite (u64_small (n + 1)) by (unfold two64; lia).
  destruct (bitmap_create_some (n + 1) ltac:(lia)) as [b Eb]. rewrite Eb.
  cbn [deref mbind outcome_bind].
  set (obj0 := {| capacity := initial_estimate; p_count := 0;
                  p_array := []; p_sha256 := replicate 32 0 |}).
  assert (Hinv0 : eratosthenes_inv 1 initial_estimate n 2
                                   (Some obj0, bitmap_set_all b)).
  { exists obj0. split; [reflexivity|]. split; [reflexivity|].
    split; [reflexivity|]. split.
    - split; [constructor|]. intros p. split; [intros []|].
      intros [Hp Hlt]. pose proof (Z.prime_ge_2 p Hp). lia.
    - apply marks_so_far_start; [exact Hn | exact Eb |].
      intros q Hq Hlt. pose proof (Z.prime_ge_2 q Hq). lia. }
  destruct (classic_loop_ok 1 initial_estimate n Hn Hroom
              ltac:(left; split; [reflexivity | exact H8])
              (Z.to_nat (n - 1)) 2 (Some obj0, bitmap_set_all b)
              eq_refl ltac:(lia) ltac:(lia) Hinv0)
    as ([primes b'] & Eloop & obj & Eo & Hc & Hk & HL & _).
  cbn [fst] in Eo. subst primes.
  rewrite (u64_small (n + 1)) in Eloop by (unfold two64; lia).
  change (mret ?v) with (Done v).
  match goal with
  | |- context [fold_left ?f ?l ?a] =>
      replace (fold_left f l a)
        with (Done (Some obj, b') : outcome (option PRIMES_OBJ * BITMAP))
        by (symmetry; exact Eloop)
  end.
  cbn [mbind outcome_bind].
  apply eratosthenes_result; [exact Hk|].
  apply (primes_below_exact n (2 + Z.of_nat (Z.to_nat (n - 1))));
    [exact HL | lia | intros p Hp; lia].
Qed.

Lemma classic_sieve_eratosthenes_correct_witness :
  exists primes,
    classic_sieve_eratosthenes 25 100 = Done primes /\
    primes_of primes = primes_upto 100 /\
    (forall p, In p (primes_of primes) <-> Z.prime p /\ p <= 100) /\
    capacity primes = p_count primes.
Proof.
  apply (classic_sieve_eratosthenes_correct 25 100);
    [lia | vm_compute; discriminate | vm_compute; discriminate].
Defined.

Lemma eratosthenes_visit_stop (step n_sqrt limit : Z) (f : fault)
      (l : list Z) :
  fold_left (eratosthenes_visit step n_sqrt limit) l (Stop f) = Stop f.
Proof. induction l as [|p l IH]; [reflexivity | exact IH]. Qed.

(** X25.  [classic_sieve_eratosthenes(n)] writes past the end of its
    bitmap whenever [n + 1] is a multiple of 8 ([7 <= n < 2^52], any
    positive capacity): the bitmap of [n + 1] bits has [(n + 1) / 8]
    bytes, and clearing the multiples of 2 up to the limit [n + 1] clears
    bit [n + 1], which lies in the byte after the last. *)
Theorem classic_sieve_eratosthenes_overruns (initial_estimate n : Z) :
  7 <= n < 2 ^ 52 -> (n + 1) mod 8 = 0 -> 0 < initial_estimate ->
  classic_sieve_eratosthenes initial_estimate n = Stop OutOfBoundsWrite.
Proof.
  intros Hn H8 Hcap.
  unfold classic_sieve_eratosthenes, primes_obj_init.
  destruct (Z.leb_spec initial_estimate 0) as [E|_]; [lia|].
  rewrite (u64_small (n + 1)) by (unfold two64; lia).
  destruct (bitmap_create_some (n + 1) ltac:(lia)) as [b Eb]. rewrite Eb.
  cbn [deref mbind outcome_bind].
  destruct (bitmap_create_well_sized (n + 1) b Eb ltac:(unfold two64; lia))
    as ([Hw1 Hw2] & Hsz & _).
  destruct (bitmap_create_spec (n + 1) b Eb) as (_ & Hlen & _).
  rewrite byte_size_small in Hlen by (unfold two64; lia).
  assert (H0 : 0 <= (n + 1 + 7) / 8) by (apply Z.div_pos; lia).
  destruct (block_covers n ltac:(lia)) as (_ & _ & Hb3).
  specialize (Hb3 H8). replace (n + 8) with (n + 1 + 7) in Hb3 by ring.
  assert (Hl' : Z.of_nat (length (data (bitmap_set_all b))) = (n + 1 + 7) / 8).
  { unfold bitmap_set_all. cbn [data].
    rewrite length_app, length_replicate, length_drop, Hlen. lia. }
  assert (Hbit : bitmap_get_bit (bitmap_set_all b) 2 = true).
  { apply (bitmap_get_bit_set_all b 2);
      [split; assumption | unfold two64; lia | lia]. }
  assert (Hsq : 2 <= Z.sqrt n) by (apply Z.sqrt_le_square; lia).
  replace (Z.to_nat (n - 1)) with (S (Z.to_nat (n - 2))) by lia.
  rewrite Zrange_S. cbn [fold_left].
  assert (E1 : eratosthenes_visit 1 (Z.sqrt n) (n + 1)
                 (mret (Some {| capacity := initial_estimate; p_count := 0;
                                p_array := []; p_sha256 := replicate 32 0 |},
                        bitmap_set_all b)) 2
               = Stop OutOfBoundsWrite).
  { unfold eratosthenes_visit. change (mret ?v) with (Done v).
    cbn [mbind outcome_bind]. rewrite Hbit. cbn [deref mbind outcome_bind].
    rewrite primes_obj_append_full
      by (cbn [p_count p_array capacity length]; lia).
    cbn [mbind outcome_bind].
    destruct (Z.leb_spec 2 (Z.sqrt n)) as [_|]; [|lia].
    change (u64 (1 * 2)) with 2. change (u64 (2 * 2)) with 4.
    unfold bitmap_clear_mod_p_in_block.
    rewrite (clear_mod_p_in_block_overrun _ _ 2 4 (n + 1) (n + 1));
      [reflexivity | lia | lia | unfold two64; lia | | lia |].
    - apply on_stride_iff; [lia|]. exists ((n + 1) / 8 * 4 - 2).
      pose proof (Z.div_mod (n + 1) 8 ltac:(lia)) as Hd.
      assert (1 <= (n + 1) / 8) by (apply Z.div_le_lower_bound; lia).
      lia.
    - assert (0 <= (n + 1 - 4) / 2) by (apply Z.div_pos; lia). lia. }
  rewrite E1, eratosthenes_visit_stop. reflexivity.
Qed.

Lemma classic_sieve_eratosthenes_overruns_witness :
  classic_sieve_eratosthenes 10 7 = Stop OutOfBoundsWrite.
Proof.
  apply (classic_sieve_eratosthenes_overruns 10 7); [lia | reflexivity | lia].
Defined.

(** X26.  [sieve_eratosthenes(n)], for [2 <= n < 2^52] and a prime array
    with room for the primes up to [n], returns exactly the primes up to
    [n], in ascending order, trimmed to their count; clearing only odd
    multiples, it stays inside its bitmap for every such [n]. *)
Theorem sieve_eratosthenes_correct (initial_estimate n : Z) :
  2 <= n < 2 ^ 52 ->
  Z.of_nat (length (primes_upto n)) <= initial_estimate ->
  exists primes,
    sieve_eratosthenes initial_estimate n = Done primes /\
    primes_of primes = primes_upto n /\
    (forall p, In p (primes_of primes) <-> Z.prime p /\ p <= n) /\
    capacity primes = p_count primes.
Proof.
  intros Hn Hroom.
  pose proof (primes_upto_nonempty n ltac:(lia)) as Hpi.
  unfold sieve_eratosthenes, primes_obj_init.
  destruct (Z.leb_spec initial_estimate 0) as [E|_]; [lia|].
  rewrite (u64_small (n + 1)) by (unfold two64; lia).
  destruct (bitmap_create_some (n + 1) ltac:(lia)) as [b Eb]. rewrite Eb.
  cbn [deref mbind outcome_bind].
  rewrite primes_obj_append_full
    by (cbn [p_count p_array capacity length]; lia).
  cbn [mbind outcome_bind capacity p_count p_array p_sha256 app].
  set (obj0 := {| capacity := initial_estimate; p_count := 0 + 1;
                  p_array := [2]; p_sha256 := replicate 32 0 |}).
  assert (Hinv0 : eratosthenes_inv 2 initial_estimate n (3 + 2 * 0)
                                   (Some obj0, bitmap_set_all b)).
  { exists obj0. split; [reflexivity|]. split; [reflexivity|].
    split; [reflexivity|]. split.
    - split; [repeat constructor|]. intros p. cbn [In p_array obj0]. split.
      + intros [<- | []]. split; [apply Z.prime_2 | lia].
      + intros [Hp Hlt]. pose proof (Z.prime_ge_2 p Hp). left. lia.
    - apply marks_so_far_start; [exact Hn | exact Eb |].
      intros q Hq Hlt. pose proof (Z.prime_ge_2 q Hq).
      split; [lia | reflexivity]. }
  assert (Hhalf : 0 <= (n - 1) / 2) by (apply Z.div_pos; lia).
  pose proof (Z.div_mod (n - 1) 2 ltac:(lia)) as Hd.
  pose proof (Z.mod_pos_bound (n - 1) 2 ltac:(lia)) as Hm.
  destruct (odd_loop_ok 2 initial_estimate n Hn Hroom
              ltac:(right; reflexivity)
              (Z.to_nat ((n - 1) / 2)) 0 (Some obj0, bitmap_set_all b)
              eq_refl ltac:(lia) ltac:(lia) Hinv0)
    as ([primes b'] & Eloop & obj & Eo & Hc & Hk & HL & _).
  cbn [fst] in Eo. subst primes.
  rewrite (u64_small (n + 1)) in Eloop by (unfold two64; lia).
  change (mret ?v) with (Done v).
  match goal with
  | |- context [fold_left ?f ?l ?a] =>
      replace (fold_left f l a)
        with (Done (Some obj, b') : outcome (option PRIMES_OBJ * BITMAP))
        by (symmetry; exact Eloop)
  end.
  cbn [mbind outcome_bind].
  apply eratosthenes_result; [exact Hk|].
  apply (primes_below_exact n _ _ HL); [lia|].
  intros p Hp Hpp. assert (Ep : p = 2 * ((n - 1) / 2 + 1)) by lia.
  destruct Hpp as [_ Hpp]. apply (Hpp 2); [lia|].
  exists ((n - 1) / 2 + 1). lia.
Qed.

Lemma sieve_eratosthenes_correct_witness :
  exists primes,
    sieve_eratosthenes 27 103 = Done primes /\
    primes_of primes = primes_upto 103 /\
    (forall p, In p (primes_of primes) <-> Z.prime p /\ p <= 103) /\
    capacity primes = p_count primes.
Proof.
  apply (sieve_eratosthenes_correct 27 103);
    [lia | vm_compute; discriminate].
Defined.

(** * [sieve_iZm] *)

(** ** The operations on bitmaps keep the block and the size *)

Lemma same_shape_refl (b : BITMAP) : same_shape b b.
Proof. split; reflexivity. Qed.

Lemma same_shape_trans (a b c : BITMAP) :
  same_shape a b -> same_shape b c -> same_shape a c.
Proof. intros [H1 H2] [H3 H4]. split; congruence. Qed.

Lemma bitmap_set_bit_shape (b : BITMAP) (i : Z) :
  same_shape (bitmap_set_bit b i) b.
Proof. split; [apply data_length_set_bit | reflexivity]. Qed.

Lemma bitmap_clear_bit_shape (b : BITMAP) (i : Z) :
  same_shape (bitmap_clear_bit b i) b.
Proof. split; [apply data_length_clear_bit | reflexivity]. Qed.

Lemma clear_mod_p_loop_shape (fuel : nat) :
  forall (b : BITMAP) (p idx limit : Z),
    same_shape (clear_mod_p_loop fuel b p idx limit) b.
Proof.
  induction fuel as [|fuel IH]; intros b p idx limit;
    cbn [clear_mod_p_loop]; [apply same_shape_refl|].
  destruct (idx <=? limit); [|apply same_shape_refl].
  eapply same_shape_trans; [apply IH | apply bitmap_clear_bit_shape].
Qed.

Lemma bitmap_clear_mod_p_shape (b : BITMAP) (p start limit : Z) :
  same_shape (bitmap_clear_mod_p b p start limit) b.
Proof. apply clear_mod_p_loop_shape. Qed.

Lemma bitmap_copy_loop_shape (n : nat) :
  forall (i : Z) (dest : BITMAP) (d : Z) (s : copy_source) (si : Z),
    same_shape (bitmap_copy_loop n i dest d s si) dest.
Proof.
  induction n as [|n IH]; intros i dest d s si; cbn [bitmap_copy_loop];
    [apply same_shape_refl|].
  eapply same_shape_trans; [apply IH|].
  destruct (bitmap_get_bit (source_view dest s) (u64 (si + i)));
    [apply bitmap_set_bit_shape | apply bitmap_clear_bit_shape].
Qed.

Lemma duplicate_loop_shape (n : nat) :
  forall (b : BITMAP) (cursor start vx : Z),
    same_shape (duplicate_loop n b cursor start vx) b.
Proof.
  induction n as [|n IH]; intros b cursor start vx; cbn [duplicate_loop];
    [apply same_shape_refl|].
  eapply same_shape_trans; [apply IH | apply bitmap_copy_loop_shape].
Qed.

Lemma bitmap_duplicate_segment_shape (b : BITMAP) (start vx y : Z) :
  same_shape (bitmap_duplicate_segment b start vx y) b.
Proof.
  unfold bitmap_duplicate_segment.
  destruct (_ >? _); [apply same_shape_refl | apply duplicate_loop_shape].
Qed.

Lemma construct_vx2_shape (l : list Z) :
  forall (x5 x7 : BITMAP),
    same_shape (fst (fold_left construct_vx2_step l (x5, x7))) x5 /\
    same_shape (snd (fold_left construct_vx2_step l (x5, x7))) x7.
Proof.
  induction l as [|i l IH]; intros x5 x7; cbn [fold_left];
    [split; apply same_shape_refl|].
  unfold construct_vx2_step at 2.
  set (c5 := negb (u64 (i - 1) mod 5 =? 0) && negb (u64 (i + 1) mod 7 =? 0)).
  set (c7 := negb (u64 (i + 1) mod 5 =? 0) && negb (u64 (i - 1) mod 7 =? 0)).
  destruct (IH (if c5 then bitmap_set_bit x5 i else x5)
               (if c7 then bitmap_set_bit x7 i else x7)) as [H5 H7].
  split.
  - eapply same_shape_trans; [exact H5|].
    destruct c5; [apply bitmap_set_bit_shape | apply same_shape_refl].
  - eapply same_shape_trans; [exact H7|].
    destruct c7; [apply bitmap_set_bit_shape | apply same_shape_refl].
Qed.

Lemma iZm_extend_shape (p cs : Z) (x5 x7 : BITMAP) :
  same_shape (snd (fst (iZm_extend p (cs, x5, x7)))) x5 /\
  same_shape (snd (iZm_extend p (cs, x5, x7))) x7.
Proof.
  rewrite iZm_extend_eq. cbn [fst snd]. split;
    (eapply same_shape_trans;
     [apply bitmap_clear_mod_p_shape | apply bitmap_duplicate_segment_shape]).
Qed.

Lemma iZm_loop_shape (vx : Z) (ps : list Z) :
  forall (cs : Z) (x5 x7 : BITMAP),
    same_shape (snd (fst (iZm_loop vx ps (cs, x5, x7)))) x5 /\
    same_shape (snd (iZm_loop vx ps (cs, x5, x7))) x7.
Proof.
  induction ps as [|p ps IH]; intros cs x5 x7; cbn [iZm_loop];
    [split; apply same_shape_refl|].
  destruct (vx mod p =? 0); [|split; apply same_shape_refl].
  destruct (iZm_extend_shape p cs x5 x7) as [H5 H7].
  destruct (iZm_extend p (cs, x5, x7)) as [[cs' y5] y7]. cbn [fst snd] in *.
  destruct (IH cs' y5 y7) as [G5 G7].
  split; eapply same_shape_trans; eassumption.
Qed.

Lemma construct_iZm_segment_shape (vx : Z) (x5 x7 : BITMAP) :
  same_shape (fst (construct_iZm_segment vx x5 x7)) x5 /\
  same_shape (snd (construct_iZm_segment vx x5 x7)) x7.
Proof.
  unfold construct_iZm_segment, construct_vx2.
  destruct (construct_vx2_shape (map Z.of_nat (seq 1 35)) x5 x7) as [H5 H7].
  destruct (fold_left construct_vx2_step _ (x5, x7)) as [a5 a7].
  cbn [fst snd] in *.
  destruct (iZm_loop_shape vx (drop 2 s_primes) 35 a5 a7) as [G5 G7].
  destruct (iZm_loop vx (drop 2 s_primes) (35, a5, a7)) as [[cs y5] y7].
  cbn [fst snd] in *.
  split; eapply same_shape_trans; eassumption.
Qed.

(** [bitmap_clone] of a bitmap with the block of [bitmap_create]. *)
Lemma bitmap_clone_same (b : BITMAP) :
  size b <> 0 -> length (data b) = Z.to_nat (byte_size (size b)) ->
  exists c, bitmap_clone b = Some c /\ data c = data b /\ size c = size b.
Proof.
  intros Hsz Hlen. unfold bitmap_clone, bitmap_create.
  destruct (Z.eqb_spec (size b) 0) as [E|_]; [contradiction|].
  eexists. split; [reflexivity|]. cbn [size data]. split; [|reflexivity].
  rewrite drop_replicate, Nat.sub_diag. cbn [replicate].
  rewrite app_nil_r, <- Hlen. apply firstn_all.
Qed.

Lemma bitmap_get_bit_data (a b : BITMAP) (j : Z) :
  data a = data b -> bitmap_get_bit a j = bitmap_get_bit b j.
Proof. intros E. unfold bitmap_get_bit, get_byte. now rewrite E. Qed.

(** ** The facts about each wheel *)

Lemma iZm_wheel_ok_all : forallb iZm_wheel_ok (seq 2 5) = true.
Proof. vm_compute. reflexivity. Qed.

Lemma guard_prime_prime : Z.prime guard_prime.
Proof. apply is_prime_trial_spec. vm_compute. reflexivity. Qed.

Lemma primes_below_of_upto (n : Z) : primes_below (n + 1) (primes_upto n).
Proof.
  split; [apply primes_upto_sorted|].
  intros p. rewrite primes_upto_spec.
  split; intros [Hp Hl]; (split; [exact Hp | lia]).
Qed.

Lemma prime_on_lane (q : Z) :
  Z.prime q -> 5 <= q -> q mod 6 = 1 \/ q mod 6 = 5.
Proof.
  intros [_ Hq] H5.
  pose proof (Z.div_mod q 6 ltac:(lia)) as Hd.
  pose proof (Z.mod_pos_bound q 6 ltac:(lia)) as Hm.
  assert (Hc : q mod 6 = 0 \/ q mod 6 = 1 \/ q mod 6 = 2 \/ q mod 6 = 3 \/
               q mod 6 = 4 \/ q mod 6 = 5) by lia.
  destruct Hc as [E|[E|[E|[E|[E|E]]]]]; rewrite E in Hd;
    [exfalso | now left | exfalso | exfalso | exfalso | now right].
  - apply (Hq 2); [lia | exists (3 * (q / 6)); lia].
  - apply (Hq 2); [lia | exists (3 * (q / 6) + 1); lia].
  - apply (Hq 3); [lia | exists (2 * (q / 6) + 1); lia].
  - apply (Hq 2); [lia | exists (3 * (q / 6) + 2); lia].
Qed.

(** A prime factor of a candidate of the lanes is at least 5. *)
Lemma lane_factor_ge_5 (q m j lane : Z) :
  lane = -1 \/ lane = 1 -> Z.prime q -> 6 * j + lane = q * m -> 5 <= q.
Proof.
  intros Hl Hq Hqm. pose proof (Z.prime_ge_2 q Hq) as H2.
  destruct (Z.eq_dec q 2) as [->|N2]; [destruct Hl as [-> | ->]; lia|].
  destruct (Z.eq_dec q 3) as [->|N3]; [destruct Hl as [-> | ->]; lia|].
  destruct (Z.eq_dec q 4) as [->|N4]; [|lia].
  destruct Hl as [-> | ->]; lia.
Qed.

Section Wheel.

Variable K : nat.
Hypothesis K_range : (2 <= K <= 6)%nat.

Let vx := primorial K.
Let W := take K s_primes.

Lemma wheel_facts :
  take K (take 6 iZm_s_primes) = W /\
  (forall p, In p W -> vx mod p = 0) /\
  match drop K (take 6 iZm_s_primes) with
  | [] => True
  | p :: _ => vx mod p <> 0
  end /\
  [2; 3] ++ W = primes_upto (Z.max 10 (wheel_top K)) /\
  Z.sqrt (6 * vx + 1) * Z.sqrt (6 * vx + 1) < 6 * vx /\
  7 <= wheel_top K < 20 /\ 35 <= vx < 2 ^ 21.
Proof.
  pose proof iZm_wheel_ok_all as H. rewrite forallb_forall in H.
  specialize (H K ltac:(apply in_seq; lia)). unfold iZm_wheel_ok in H.
  fold vx W in H. rewrite !andb_true_iff in H.
  destruct H as [[[[[[[[H1 H2] H3] H4] H5] H6] H7] _] H8].
  apply bool_decide_eq_true_1 in H1. apply bool_decide_eq_true_1 in H4.
  rewrite forallb_forall in H2.
  split; [exact H1|]. split.
  { intros p Hp. apply Z.eqb_eq. now apply H2. }
  split.
  { destruct (drop K (take 6 iZm_s_primes)) as [|p ?]; [exact I|].
    apply negb_true_iff, Z.eqb_neq in H3. exact H3. }
  split; [exact H4|]. split; [lia|]. split; [lia|].
  pose proof (primorial_ge_35 K ltac:(lia)). fold vx in H. lia.
Qed.

Lemma wheel_top_in : In (wheel_top K) W.
Proof.
  pose proof iZm_wheel_ok_all as H. rewrite forallb_forall in H.
  specialize (H K ltac:(apply in_seq; lia)). unfold iZm_wheel_ok in H.
  fold vx W in H. rewrite !andb_true_iff in H.
  destruct H as [[_ H] _]. apply existsb_exists in H.
  destruct H as (p & Hp & E). apply Z.eqb_eq in E. now subst p.
Qed.

Lemma wheel_primes (q : Z) : In q W -> Z.prime q /\ 5 <= q <= wheel_top K.
Proof.
  intros Hq. destruct wheel_facts as (_ & _ & _ & E & _ & Ht & _).
  assert (Hin : In q (primes_upto (Z.max 10 (wheel_top K)))).
  { rewrite <- E. apply in_or_app. now right. }
  apply primes_upto_spec in Hin. destruct Hin as [Hp Hle].
  split; [exact Hp|].
  pose proof (take_s_primes_prime K) as HW. fold W in HW.
  assert (H5 : 5 <= q).
  { assert (Hs : List.Forall (fun p => 5 <= p) s_primes)
      by (repeat constructor; lia).
    rewrite List.Forall_forall in Hs. apply Hs.
    rewrite <- (take_drop K s_primes). apply in_or_app. now left. }
  split; [exact H5|].
  destruct (Z.le_gt_cases q (wheel_top K)) as [|Hgt]; [assumption|].
  exfalso. assert (Hc : q = 8 \/ q = 9 \/ q = 10) by lia.
  destruct Hp as [_ Hp].
  destruct Hc as [-> | [-> | ->]].
  - apply (Hp 2); [lia | exists 4; lia].
  - apply (Hp 3); [lia | exists 3; lia].
  - apply (Hp 2); [lia | exists 5; lia].
Qed.

Lemma wheel_holds (q : Z) :
  Z.prime q -> 5 <= q <= wheel_top K -> In q W.
Proof.
  intros Hq Hr. destruct wheel_facts as (_ & _ & _ & E & _).
  assert (Hin : In q ([2; 3] ++ W)).
  { rewrite E. apply primes_upto_spec. split; [exact Hq | lia]. }
  cbn [app In] in Hin. destruct Hin as [<- | [<- | Hin]]; [lia | lia | exact Hin].
Qed.

Lemma wheel_prime_divides (q : Z) : In q W -> (q | vx).
Proof.
  intros Hq. destruct wheel_facts as (_ & Hd & _).
  destruct (wheel_primes q Hq) as [_ H5].
  apply Z.mod_divide; [lia|]. now apply Hd.
Qed.

End Wheel.

(** ** The prime list *)

Lemma done_or_full_bind {A B : Type} (cap N : Z) (m : outcome A)
      (f : A -> outcome B) (good1 : A -> Prop) (good2 : B -> Prop) :
  done_or_full cap N m good1 ->
  (forall a, good1 a -> done_or_full cap N (f a) good2) ->
  done_or_full cap N (mbind f m) good2.
Proof.
  intros [(a & -> & Ha) | [-> Hs]] Hf; [apply Hf; exact Ha|].
  right. split; [reflexivity | exact Hs].
Qed.

Lemma done_or_full_weaken {A : Type} (cap N : Z) (run : outcome A)
      (good good' : A -> Prop) :
  done_or_full cap N run good -> (forall a, good a -> good' a) ->
  done_or_full cap N run good'.
Proof.
  intros [(a & E & Ha) | H] Hw; [left; exists a; split; auto | now right].
Qed.

Lemma iZm_list_advance (K : nat) (cap F F' : Z) (primes : PRIMES_OBJ) :
  iZm_list_inv K cap F primes -> F <= F' ->
  (forall p, F <= p < F' -> ~ Z.prime p) ->
  iZm_list_inv K cap F' primes.
Proof.
  intros (Hc & Hk & Ht & HL & Hfit) Hle Hnone.
  split; [exact Hc|]. split; [exact Hk|]. split; [exact Ht|].
  split; [|exact Hfit].
  apply (primes_below_advance (Z.max F (wheel_top K + 1))); [exact HL | lia|].
  intros p Hp. apply Hnone. lia.
Qed.

Lemma iZm_list_append (K : nat) (cap N z : Z) (primes : PRIMES_OBJ) :
  (K <= 6)%nat ->
  iZm_list_inv K cap z primes -> Z.prime z -> wheel_top K < z -> z <= N ->
  done_or_full cap N (primes_obj_append primes z)
               (iZm_list_inv K cap (z + 1)).
Proof.
  intros HK (Hc & Hk & Ht & HL & Hfit) Hz Hw HN.
  rewrite Z.max_l in HL by lia.
  pose proof (primes_below_room N z _ HL Hz HN) as Hlen.
  destruct (Z.lt_ge_cases (p_count primes) (capacity primes)) as [Hlt|Hge].
  - left. rewrite primes_obj_append_full by lia.
    eexists. split; [reflexivity|].
    split; [exact Hc|]. cbn [p_count p_array]. split.
    { rewrite length_app. cbn [length]. lia. }
    split; [|split].
    + rewrite take_app_le; [exact Ht|].
      apply (f_equal (@length Z)) in Ht.
      rewrite length_take, length_app, length_take in Ht.
      change (length s_primes) with 23%nat in Ht. cbn [length] in Ht. lia.
    + rewrite Z.max_l by lia. apply primes_below_append; assumption.
    + rewrite length_app. cbn [length]. lia.
  - right. split; [|lia].
    unfold primes_obj_append.
    destruct (Z.ltb_spec (p_count primes) (capacity primes)) as [|_];
      [lia | reflexivity].
Qed.

(** ** Segment 0 *)

Section Segment0.

Variable K : nat.
Hypothesis K_range : (2 <= K <= 6)%nat.
Variable cap : Z.

Let vx := primorial K.
Let W := take K s_primes.

Lemma wheel_lanes_advance (F F' : Z) (x5 x7 : BITMAP) :
  wheel_lanes_so_far K F x5 x7 -> F <= F' ->
  (forall p, F <= p < F' -> Z.prime p -> p * p < 6 * vx -> In p W) ->
  wheel_lanes_so_far K F' x5 x7.
Proof.
  intros (H5 & H7 & Hsound & Hwheel & Hcompl) Hle Hnone.
  split; [exact H5|]. split; [exact H7|]. split; [exact Hsound|].
  split; [exact Hwheel|].
  intros lane j q m Hl Hj Hq Hlt Hroot Hqm Hm.
  destruct (Z.lt_ge_cases q F) as [Hq'|Hq'].
  - apply (Hcompl lane j q m); assumption.
  - apply (Hwheel lane j q Hl Hj).
    + apply Hnone; [lia | exact Hq | exact Hroot].
    + exists m. rewrite Hqm. ring.
Qed.

(** A set bit in segment 0 stands for a prime above the wheel primes. *)
Lemma wheel_lanes_prime_at (x i : Z) (x5 x7 : BITMAP) :
  wheel_lanes_so_far K (6 * x + i) x5 x7 ->
  i = -1 \/ i = 1 -> 2 <= x <= vx ->
  bitmap_get_bit (if i <? 0 then x5 else x7) x = true ->
  Z.prime (6 * x + i) /\ wheel_top K < 6 * x + i.
Proof.
  intros (_ & _ & _ & Hwheel & Hcompl) Hi Hx Hbit.
  destruct (wheel_facts K K_range) as (_ & _ & _ & _ & Hsq & Htop & Hvx).
  fold vx in Hsq, Hvx, Hwheel, Hcompl.
  assert (Hprime : Z.prime (6 * x + i)).
  { destruct (prime_or_factored (6 * x + i) ltac:(lia))
      as [Hp|(q & m & Hq & Hqm & Hle)]; [exact Hp|]. exfalso.
    pose proof (lane_factor_ge_5 q m x i Hi Hq Hqm) as H5.
    destruct (Z.le_gt_cases q (wheel_top K)) as [Hw|Hw].
    - rewrite (Hwheel i x q Hi ltac:(lia)) in Hbit; [discriminate | |].
      + apply wheel_holds; [exact K_range | exact Hq | lia].
      + exists m. rewrite Hqm. ring.
    - assert (Hqq : q * q < 6 * vx).
      { assert (Hle2 : q * q <= 6 * vx + 1) by nia.
        assert (Hqs : q <= Z.sqrt (6 * vx + 1))
          by (apply Z.sqrt_le_square; lia).
        assert (q * q <= Z.sqrt (6 * vx + 1) * Z.sqrt (6 * vx + 1))
          by (apply Z.mul_le_mono_nonneg; lia).
        lia. }
      rewrite (Hcompl i x q m Hi ltac:(lia) Hq ltac:(nia) Hqq Hqm Hle)
        in Hbit.
      discriminate. }
  split; [exact Hprime|].
  destruct (Z.lt_ge_cases (wheel_top K) (6 * x + i)) as [|Hle];
    [assumption|]. exfalso.
  rewrite (Hwheel i x (6 * x + i) Hi ltac:(lia)) in Hbit; [discriminate | |].
  - apply wheel_holds; [exact K_range | exact Hprime | lia].
  - apply Z.divide_refl.
Qed.

Lemma wheel_lanes_mark (x i : Z) (x5 x7 : BITMAP) :
  i = -1 \/ i = 1 -> 2 <= x <= vx ->
  let z := 6 * x + i in
  Z.prime z -> z * z < 6 * vx ->
  wheel_lanes_so_far K z x5 x7 ->
  wheel_lanes_so_far K (z + 1)
    (bitmap_clear_mod_p x5 z (z * x - i * x) vx)
    (bitmap_clear_mod_p x7 z (z * x + i * x) vx).
Proof.
  intros Hi Hx. cbv zeta.
  set (z := 6 * x + i). intros Hp Hroot.
  intros (H5 & H7 & Hsound & Hwheel & Hcompl).
  fold vx in H5, H7, Hsound, Hwheel, Hcompl.
  destruct (wheel_facts K K_range) as (_ & _ & _ & _ & _ & _ & Hvx).
  fold vx in Hvx.
  assert (Hz : 11 <= z) by (unfold z; lia).
  assert (Hs0 : 0 <= z * x - i * x /\ 0 <= z * x + i * x)
    by (destruct Hi as [-> | ->]; nia).
  assert (Hzv : z < 6 * vx) by nia.
  assert (Hbits : forall l j, l = -1 \/ l = 1 -> 0 <= j ->
            bitmap_get_bit
              (if l <? 0
               then bitmap_clear_mod_p x5 z (z * x - i * x) vx
               else bitmap_clear_mod_p x7 z (z * x + i * x) vx) j
            = bitmap_get_bit (if l <? 0 then x5 else x7) j &&
              negb (on_stride z (z * x + l * i * x) vx j)).
  { intros l j Hl Hj. destruct Hl as [-> | ->]; cbn [Z.ltb Z.compare].
    - replace (z * x + -1 * i * x) with (z * x - i * x) by ring.
      apply bitmap_clear_mod_p_spec; unfold two64; lia.
    - replace (z * x + 1 * i * x) with (z * x + i * x) by ring.
      apply bitmap_clear_mod_p_spec; unfold two64; lia. }
  destruct (bitmap_clear_mod_p_shape x5 z (z * x - i * x) vx) as [Hlen5 _].
  destruct (bitmap_clear_mod_p_shape x7 z (z * x + i * x) vx) as [Hlen7 _].
  split; [rewrite Hlen5; exact H5|]. split; [rewrite Hlen7; exact H7|].
  split; [|split].
  - intros l j Hl Hj Hbit. rewrite Hbits in Hbit by (try assumption; lia).
    apply andb_false_iff in Hbit. destruct Hbit as [Hbit|Hbit].
    + apply Hsound; assumption.
    + left. apply negb_false_iff in Hbit.
      apply (cleared_are_multiples x i l j vx Hi Hl) in Hbit; [|lia..].
      destruct Hbit as (m & Hm & Hle). fold z in Hm, Hle.
      exists z, m. split; [lia|]. split; [|exact Hm].
      destruct Hi as [-> | ->]; destruct Hl as [-> | ->]; lia.
  - intros l j q Hl Hj Hq Hd. rewrite Hbits by (try assumption; lia).
    rewrite (Hwheel l j q Hl Hj Hq Hd). reflexivity.
  - intros l j q m Hl Hj Hq Hlt Hqr Hqm Hle.
    rewrite Hbits by (try assumption; lia).
    destruct (Z.eq_dec q z) as [->|Hne].
    + apply andb_false_iff. right. apply negb_false_iff.
      apply (cleared_are_multiples x i l j vx Hi Hl); [lia..|].
      fold z. exists m. split; [exact Hqm|].
      assert (Hmod : exists t, m = 6 * t + l * i).
      { exists (i * (j - x * m)). unfold z in Hqm.
        destruct Hi as [-> | ->]; destruct Hl as [-> | ->]; lia. }
      destruct Hmod as [t Ht]. unfold z in *.
      destruct Hi as [-> | ->]; destruct Hl as [-> | ->]; lia.
    + apply andb_false_iff. left.
      apply (Hcompl l j q m); try assumption. lia.
Qed.

Let is_root := fun p : Z => u64 (p * p) / 6 <? vx.

(** One test of the loop body: the bit of lane [i] at [x]. *)
Lemma segment0_lane_visit (i x : Z) (st : sieve_state) :
  i = -1 \/ i = 1 -> 2 <= x <= vx ->
  segment0_inv K cap (6 * x + i) st ->
  done_or_full cap (6 * vx + 1)
    (if bitmap_get_bit (if i <? 0 then snd (fst st) else snd st) x
     then sieve_mark i is_root vx x st else mret st)
    (segment0_inv K cap (6 * x + i + 1)).
Proof.
  intros Hi Hx. destruct st as [[primes x5] x7]. cbn [fst snd].
  intros [HL HB].
  destruct (wheel_facts K K_range) as (_ & _ & _ & _ & _ & Htop & Hvx).
  fold vx in Hvx.
  set (z := 6 * x + i) in *.
  assert (Hz : 11 <= z <= 6 * vx + 1) by (unfold z; lia).
  destruct (bitmap_get_bit (if i <? 0 then x5 else x7) x) eqn:Hbit.
  - destruct (wheel_lanes_prime_at x i x5 x7 HB Hi Hx Hbit) as [Hprime Hw].
    fold z in Hprime, Hw.
    unfold sieve_mark, iZ. fold z.
    rewrite (u64_small z) by (unfold two64; lia).
    destruct (iZm_list_append K cap (6 * vx + 1) z primes ltac:(lia) HL
                Hprime Hw ltac:(lia)) as [(primes' & Ea & HL') | [Ea Hfull]];
      rewrite Ea; cbn [mbind outcome_bind];
      [left | right; split; [reflexivity | exact Hfull]].
    unfold is_root. rewrite (u64_small (z * z)) by (unfold two64; nia).
    destruct (Z.ltb_spec (z * z / 6) vx) as [Hroot|Hroot].
    + assert (Hzz : z * z < 6 * vx).
      { pose proof (Z.mul_div_le (z * z) 6 ltac:(lia)).
        pose proof (Z.mod_pos_bound (z * z) 6 ltac:(lia)).
        pose proof (Z.div_mod (z * z) 6 ltac:(lia)). lia. }
      assert (Hxz : 0 <= z * x - x /\ z * x + x < 2 ^ 53)
        by (unfold z in *; destruct Hi as [-> | ->]; nia).
      rewrite (u64_small (z * x)) by (unfold two64; nia).
      rewrite (u64_small (z * x + x)), (u64_small (z * x - x))
        by (unfold two64; lia).
      pose proof (wheel_lanes_mark x i x5 x7 Hi Hx Hprime Hzz HB) as HB'.
      cbv zeta in HB'. fold z in HB'.
      destruct Hi as [-> | ->]; cbn [Z.ltb Z.compare];
        change (mret ?v) with (Done v); eexists; (split; [reflexivity|]);
        (split; [exact HL'|]).
      * replace (z * x + x) with (z * x - -1 * x) by ring.
        replace (z * x - x) with (z * x + -1 * x) by ring. exact HB'.
      * replace (z * x + x) with (z * x + 1 * x) by ring.
        replace (z * x - x) with (z * x - 1 * x) by ring. exact HB'.
    + change (mret ?v) with (Done v). eexists. split; [reflexivity|].
      split; [exact HL'|].
      apply (wheel_lanes_advance z); [exact HB | lia |].
      intros p Hp _ Hpp. exfalso. assert (p = z) by lia. subst p.
      assert (z * z / 6 < vx) by (apply Z.div_lt_upper_bound; lia). lia.
  - left. change (mret ?v) with (Done v). eexists. split; [reflexivity|].
    destruct HB as (H5 & H7 & Hsound & Hwheel & Hcompl).
    destruct (Hsound i x Hi ltac:(lia) Hbit) as [Hcomp|Hin];
      [fold z in Hcomp | fold z in Hin].
    + split.
      * apply (iZm_list_advance K cap z); [exact HL | lia |].
        intros p Hp. assert (p = z) by lia. subst p.
        now apply composite_not_prime.
      * apply (wheel_lanes_advance z);
          [repeat split; assumption | lia |].
        intros p Hp Hpp _. exfalso. assert (p = z) by lia. subst p.
        now apply (composite_not_prime z).
    + destruct (wheel_primes K K_range z Hin) as [Hzp Hzt]. split.
      * destruct HL as (Hc & Hk & Ht & HL & Hfit).
        split; [exact Hc|]. split; [exact Hk|]. split; [exact Ht|].
        split; [|exact Hfit].
        rewrite Z.max_r in * by lia. exact HL.
      * apply (wheel_lanes_advance z);
          [repeat split; assumption | lia |].
        intros p Hp _ _. assert (p = z) by lia. subst p. exact Hin.
Qed.

Lemma segment0_inv_advance (F F' : Z) (st : sieve_state) :
  segment0_inv K cap F st -> F <= F' ->
  (forall p, F <= p < F' -> ~ Z.prime p) ->
  segment0_inv K cap F' st.
Proof.
  destruct st as [[primes x5] x7]. intros [HL HB] Hle Hnone. split.
  - eapply iZm_list_advance; eassumption.
  - eapply wheel_lanes_advance; [eassumption | exact Hle |].
    intros p Hp Hpp _. exfalso. exact (Hnone p Hp Hpp).
Qed.

(** The loop body at [x]. *)
Lemma segment0_visit_ok (x : Z) (st : sieve_state) :
  2 <= x <= vx ->
  segment0_inv K cap (6 * x - 1) st ->
  done_or_full cap (6 * vx + 1) (sieve_visit is_root vx (Done st) x)
               (segment0_inv K cap (6 * (x + 1) - 1)).
Proof.
  intros Hx Hinv.
  change (sieve_visit is_root vx (Done st) x)
    with (mbind (fun st0 : sieve_state =>
                   if bitmap_get_bit (snd st0) x
                   then sieve_mark 1 is_root vx x st0 else mret st0)
                (if bitmap_get_bit (snd (fst st)) x
                 then sieve_mark (-1) is_root vx x st else mret st)).
  apply (done_or_full_bind cap (6 * vx + 1) _ _
           (segment0_inv K cap (6 * x + 1))).
  - pose proof (segment0_lane_visit (-1) x st ltac:(now left) Hx Hinv) as H1.
    cbn [Z.ltb Z.compare] in H1.
    apply (done_or_full_weaken _ _ _ _ _ H1). intros st1 Hinv1.
    apply (segment0_inv_advance (6 * x + -1 + 1)); [exact Hinv1 | lia |].
    intros p Hp Hpp. apply (no_prime_off_lanes p x); [lia | exact Hpp |].
    left. lia.
  - intros st1 Hinv1.
    pose proof (segment0_lane_visit 1 x st1 ltac:(now right) Hx Hinv1) as H2.
    cbn [Z.ltb Z.compare] in H2.
    apply (done_or_full_weaken _ _ _ _ _ H2). intros st2 Hinv2.
    apply (segment0_inv_advance (6 * x + 1 + 1)); [exact Hinv2 | lia |].
    intros p Hp Hpp. apply (no_prime_off_lanes p x); [lia | exact Hpp |].
    right. lia.
Qed.

Lemma sieve_visit_stop (f : Z -> bool) (lim : Z) (e : fault) (l : list Z) :
  fold_left (sieve_visit f lim) l (Stop e) = Stop e.
Proof. induction l as [|x l IH]; [reflexivity | exact IH]. Qed.

Lemma segment0_loop_ok (k : nat) :
  forall (lo : Z) (st : sieve_state),
    2 <= lo -> lo + Z.of_nat k <= vx + 1 ->
    segment0_inv K cap (6 * lo - 1) st ->
    done_or_full cap (6 * vx + 1)
      (fold_left (sieve_visit is_root vx) (Zrange lo k) (Done st))
      (segment0_inv K cap (6 * (lo + Z.of_nat k) - 1)).
Proof.
  induction k as [|k IH]; intros lo st Hlo Hhi Hinv.
  - left. exists st. split; [reflexivity|].
    replace (lo + Z.of_nat 0) with lo by lia. exact Hinv.
  - rewrite Zrange_S. cbn [fold_left].
    destruct (segment0_visit_ok lo st ltac:(lia) Hinv)
      as [(st1 & E1 & Hinv1) | [E1 Hfull]]; rewrite E1.
    + replace (lo + Z.of_nat (S k)) with (lo + 1 + Z.of_nat k) by lia.
      apply IH; [lia | lia | exact Hinv1].
    + right. rewrite sieve_visit_stop. split; [reflexivity | exact Hfull].
Qed.

End Segment0.

(** ** The later segments *)

Lemma sorted_app_inv (A B : list Z) :
  StronglySorted Z.lt (A ++ B) ->
  StronglySorted Z.lt B /\ forall a b, In a A -> In b B -> a < b.
Proof.
  induction A as [|c A IH]; cbn [app]; intros Hs.
  - split; [exact Hs | intros a b []].
  - apply StronglySorted_inv in Hs. destruct Hs as [Hs Hc].
    destruct (IH Hs) as [HB Hlt]. split; [exact HB|].
    intros a b [<- | Ha] Hb; [|now apply Hlt].
    rewrite List.Forall_forall in Hc. apply Hc. apply in_or_app. now right.
Qed.

(** The indices cleared in segment [y] on lane [l] for the root prime [q]
    are those of the multiples of [q]. *)
Lemma stride_divides (l q vx y limit j : Z) :
  l = -1 \/ l = 1 -> Z.prime q -> 5 <= q <= vx * y -> vx * y < 2 ^ 62 ->
  1 <= j <= limit ->
  on_stride q (solve_for_x l q vx y) limit j = true <->
  (q | 6 * (j + vx * y) + l).
Proof.
  intros Hl Hq Hr Hvy Hj.
  assert (Hq64 : 5 <= q < two64 - 1) by (unfold two64; lia).
  pose proof (normalized_xp_range l q Hq64) as Hxp.
  destruct (solve_for_x_no_wrap l q vx y Hq64 ltac:(unfold two64; lia))
    as [Hs Hmod].
  pose proof (prime_on_lane q Hq ltac:(lia)) as Hlane.
  pose proof (normalized_xp_divides l q Hl Hq64 Hlane) as Hd.
  pose proof (gcd_6_of_lane q Hlane) as Hg.
  set (s := solve_for_x l q vx y) in *.
  assert (Hsd : (q | 6 * (s + vx * y) + l)).
  { pose proof (Z.div_mod (s + vx * y) q ltac:(lia)) as Hdm.
    rewrite Hmod in Hdm. destruct Hd as [t Ht].
    exists (6 * ((s + vx * y) / q) + t). lia. }
  rewrite on_stride_iff by lia. split.
  - intros (k & Hk & -> & _). destruct Hsd as [t Ht].
    exists (t + 6 * k). lia.
  - intros Hjd.
    pose proof (same_lane_multiples q (j + vx * y) (s + vx * y) l Hg Hjd Hsd)
      as [t Ht].
    exists t. split; [nia|]. split; [lia | lia].
Qed.

Lemma mark_segment_spec (vx y limit : Z) (R : list Z) :
  forall (t5 t7 : BITMAP),
    StronglySorted Z.lt R ->
    (forall p, In p R -> 0 < p /\ limit + p < two64) ->
    limit < 8 * Z.of_nat (length (data t5)) ->
    limit < 8 * Z.of_nat (length (data t7)) ->
    let r := mark_segment R vx y limit t5 t7 in
    forall j, 0 <= j ->
      (bitmap_get_bit (fst r) j = true <->
       bitmap_get_bit t5 j = true /\
       forall q, In q R ->
         (forall p, In p R -> p <= q -> marks_in_segment vx y limit p) ->
         on_stride q (solve_for_x (-1) q vx y) limit j = false) /\
      (bitmap_get_bit (snd r) j = true <->
       bitmap_get_bit t7 j = true /\
       forall q, In q R ->
         (forall p, In p R -> p <= q -> marks_in_segment vx y limit p) ->
         on_stride q (solve_for_x 1 q vx y) limit j = false).
Proof.
  induction R as [|p R IH]; intros t5 t7 Hs Hpos H5 H7; cbv zeta;
    intros j Hj.
  - cbn [mark_segment fst snd]. split; (split; [intros H | intros [H _]]);
      try exact H; (split; [exact H | intros q []]).
  - cbn [mark_segment].
    apply StronglySorted_inv in Hs. destruct Hs as [Hs Hhead].
    rewrite List.Forall_forall in Hhead.
    destruct (u64 (p * p) / 6 >? u64 (u64 (y * vx) + limit)) eqn:Hbrk.
    + cbn [fst snd].
      assert (Hvac : forall q, In q (p :: R) ->
                (forall p0, In p0 (p :: R) -> p0 <= q ->
                            marks_in_segment vx y limit p0) -> False).
      { intros q Hq Hall.
        assert (Hpq : p <= q).
        { destruct Hq as [<- | Hq]; [lia|]. specialize (Hhead q Hq). lia. }
        specialize (Hall p ltac:(now left) Hpq).
        unfold marks_in_segment in Hall. congruence. }
      split; (split; [intros H | intros [H _]]); try exact H;
        (split; [exact H|]); intros q Hq Hall; exfalso;
        exact (Hvac q Hq Hall).
    + destruct (Hpos p ltac:(now left)) as [Hp0 Hpl].
      pose proof (u64_range (p - u64 (u64 (vx * y) - normalized_xp (-1) p)
                                  mod p)) as Hr5.
      pose proof (u64_range (p - u64 (u64 (vx * y) - normalized_xp 1 p)
                                  mod p)) as Hr7.
      fold (solve_for_x (-1) p vx y) in Hr5.
      fold (solve_for_x 1 p vx y) in Hr7.
      destruct (bitmap_clear_mod_p_spec t5 p (solve_for_x (-1) p vx y) limit
                  j Hp0 ltac:(lia) H5 Hpl Hj) as (Hl5 & _ & Hb5).
      destruct (bitmap_clear_mod_p_spec t7 p (solve_for_x 1 p vx y) limit
                  j Hp0 ltac:(lia) H7 Hpl Hj) as (Hl7 & _ & Hb7).
      specialize (IH (bitmap_clear_mod_p t5 p (solve_for_x (-1) p vx y) limit)
                     (bitmap_clear_mod_p t7 p (solve_for_x 1 p vx y) limit)
                     Hs ltac:(intros q Hq; apply Hpos; now right)
                     ltac:(rewrite Hl5; exact H5)
                     ltac:(rewrite Hl7; exact H7)).
      cbv zeta in IH. destruct (IH j Hj) as [IH5 IH7]. clear IH.
      rewrite IH5, IH7, Hb5, Hb7, !andb_true_iff, !negb_true_iff.
      assert (Hext : forall q, In q R ->
                (forall p0, In p0 (p :: R) -> p0 <= q ->
                            marks_in_segment vx y limit p0) <->
                (forall p0, In p0 R -> p0 <= q ->
                            marks_in_segment vx y limit p0)).
      { intros q Hq. split.
        - intros H p0 Hp0' Hle. apply H; [now right | exact Hle].
        - intros H p0 [<- | Hp0'] Hle; [exact Hbrk | now apply H]. }
      assert (Hself : forall p0, In p0 (p :: R) -> p0 <= p ->
                                 marks_in_segment vx y limit p0).
      { intros p0 [<- | Hp0'] Hle; [exact Hbrk|].
        specialize (Hhead p0 Hp0'). lia. }
      split; split.
      * intros [[Hb Hst] Hrest]. split; [exact Hb|].
        intros q [<- | Hq] Hall; [exact Hst|].
        apply Hrest; [exact Hq | now apply Hext].
      * intros [Hb Hall]. split; [split; [exact Hb|]|].
        -- apply Hall; [now left | exact Hself].
        -- intros q Hq Hq'. apply Hall; [now right | now apply Hext].
      * intros [[Hb Hst] Hrest]. split; [exact Hb|].
        intros q [<- | Hq] Hall; [exact Hst|].
        apply Hrest; [exact Hq | now apply Hext].
      * intros [Hb Hall]. split; [split; [exact Hb|]|].
        -- apply Hall; [now left | exact Hself].
        -- intros q Hq Hq'. apply Hall; [now right | now apply Hext].
Qed.

Lemma wheel_bit (K : nat) (cs : Z) (x5 x7 : BITMAP) (l j : Z) :
  wheel_state K (cs, x5, x7) -> l = -1 \/ l = 1 -> 0 <= j ->
  (forall q, In q (take K s_primes) -> 0 < q) ->
  bitmap_get_bit (if l <? 0 then x5 else x7) j = true <->
  1 <= j <= cs /\ forall q, In q (take K s_primes) -> ~ (q | 6 * j + l).
Proof.
  intros [_ Hbits] Hl Hj Hpos. destruct (Hbits j Hj) as [B5 B7].
  assert (Hopen : forall c, forallb (fun q => negb ((6 * j + c) mod q =? 0))
                                    (take K s_primes) = true <->
                            forall q, In q (take K s_primes) ->
                                      ~ (q | 6 * j + c)).
  { intros c. rewrite forallb_forall. split; intros H q Hq.
    - specialize (H q Hq). apply negb_true_iff, Z.eqb_neq in H.
      intros Hd. apply H. apply Z.mod_divide; [specialize (Hpos q Hq); lia|].
      exact Hd.
    - apply negb_true_iff, Z.eqb_neq. intros Hm. apply (H q Hq).
      apply Z.mod_divide; [specialize (Hpos q Hq); lia | exact Hm]. }
  destruct Hl as [-> | ->]; cbn [Z.ltb Z.compare].
  - rewrite B5, !andb_true_iff, !Z.leb_le. unfold lane5_open.
    change (6 * j - 1) with (6 * j + -1). rewrite Hopen. tauto.
  - rewrite B7, !andb_true_iff, !Z.leb_le. unfold lane7_open.
    rewrite Hopen. tauto.
Qed.

Lemma mul_ge_r (y vx : Z) : 1 <= y -> 0 <= vx -> vx <= y * vx.
Proof.
  intros Hy Hv. replace vx with (1 * vx) at 1 by ring.
  apply Z.mul_le_mono_nonneg_r; lia.
Qed.

Lemma square_le (a b : Z) : 0 <= a <= b -> 0 <= a * a <= b * b.
Proof.
  intros H. split; [apply Z.mul_nonneg_nonneg; lia|].
  apply Z.mul_le_mono_nonneg; lia.
Qed.

Section Segments.

Variable K : nat.
Hypothesis K_range : (2 <= K <= 6)%nat.
Variables cap X : Z.

Let vx := primorial K.
Let W := take K s_primes.

Hypothesis X_range : 1 <= X < 2 ^ 50.

Variables x5 x7 : BITMAP.
Hypothesis wheel : wheel_state K (vx, x5, x7).
Hypothesis block5 : vx + 1 <= 8 * Z.of_nat (length (data x5)).
Hypothesis block7 : vx + 1 <= 8 * Z.of_nat (length (data x7)).
Hypothesis laid5 :
  size x5 <> 0 /\ length (data x5) = Z.to_nat (byte_size (size x5)).
Hypothesis laid7 :
  size x7 <> 0 /\ length (data x7) = Z.to_nat (byte_size (size x7)).

(** The root primes of a segment: the entries after the wheel primes. *)
Lemma roots_spec (F : Z) (primes : PRIMES_OBJ) :
  iZm_list_inv K cap F primes -> 20 <= F ->
  let R := drop (2 + K) (p_array primes) in
  StronglySorted Z.lt R /\
  forall q, In q R <-> Z.prime q /\ wheel_top K < q < F.
Proof.
  intros (_ & _ & Ht & [Hs Hin] & _) HF. cbv zeta.
  destruct (wheel_facts K K_range) as (_ & _ & _ & _ & _ & Htop & _).
  rewrite Z.max_l in Hin by lia.
  rewrite <- (take_drop (2 + K) (p_array primes)) in Hs.
  destruct (sorted_app_inv _ _ Hs) as [HR Hlt]. split; [exact HR|].
  intros q. split.
  - intros Hq.
    assert (Hq' : In q (p_array primes)).
    { rewrite <- (take_drop (2 + K) (p_array primes)).
      apply in_or_app. now right. }
    apply Hin in Hq'. destruct Hq' as [Hp HqF]. split; [exact Hp|].
    split; [|exact HqF].
    apply Hlt; [|exact Hq]. rewrite Ht. apply in_or_app. right.
    apply wheel_top_in. exact K_range.
  - intros [Hp [Hw HqF]].
    assert (Hq' : In q (p_array primes)) by (apply Hin; split; assumption).
    rewrite <- (take_drop (2 + K) (p_array primes)) in Hq'.
    apply in_app_or in Hq'. destruct Hq' as [Hq'|Hq']; [|exact Hq'].
    exfalso. rewrite Ht in Hq'. cbn [app In] in Hq'.
    destruct Hq' as [<- | [<- | Hq']]; [lia | lia |].
    destruct (wheel_primes K K_range q Hq') as [_ Hr]. lia.
Qed.

Section OneSegment.

Variables y limit : Z.
Hypothesis y_range : 1 <= y.
Hypothesis limit_range : 0 <= limit <= vx.
Hypothesis inside : y * vx + limit <= X.

Variable primes : PRIMES_OBJ.
Hypothesis list_inv : iZm_list_inv K cap (6 * (y * vx + 1) - 1) primes.

Let R := drop (2 + K) (p_array primes).

(** A root prime that [mark_segment] reaches is small: the loop has ended
    at [guard_prime] at the latest. *)
Lemma reached_small (q : Z) :
  In q R ->
  (forall p, In p R -> p <= q -> marks_in_segment vx y limit p) ->
  q * q <= 6 * (y * vx + limit) + 5 /\ q <= vx * y.
Proof.
  intros Hq Hall.
  destruct (wheel_facts K K_range) as (_ & _ & _ & _ & _ & Htop & Hvx).
  fold vx in Hvx.
  pose proof (mul_ge_r y vx y_range ltac:(lia)) as Hvt.
  assert (Hyv : 35 <= y * vx < 2 ^ 50) by lia.
  destruct (roots_spec _ primes list_inv ltac:(lia)) as [_ HR].
  fold R in HR.
  pose proof (proj1 (HR q) Hq) as [Hqp [Hqw HqF]].
  assert (Hsmall : q <= guard_prime).
  { destruct (Z.le_gt_cases q guard_prime) as [|Hgt]; [assumption|].
    exfalso.
    assert (Hg : In guard_prime R).
    { apply HR. split; [apply guard_prime_prime|].
      unfold guard_prime in *. lia. }
    specialize (Hall guard_prime Hg ltac:(lia)).
    unfold marks_in_segment in Hall.
    rewrite (u64_small (y * vx)), (u64_small (y * vx + limit)) in Hall
      by (unfold two64; lia).
    change (u64 (guard_prime * guard_prime) / 6)
      with 3002401049018508 in Hall.
    destruct (Z.gtb_spec 3002401049018508 (y * vx + limit)) as [|Hle];
      [discriminate | lia]. }
  specialize (Hall q Hq ltac:(lia)). unfold marks_in_segment in Hall.
  assert (Hq5 : 8 <= q) by lia.
  assert (Hqq : q * q < 2 ^ 55).
  { pose proof (square_le q guard_prime ltac:(lia)) as Hsq.
    change (guard_prime * guard_prime) with 18014406294111049 in Hsq. lia. }
  rewrite (u64_small (y * vx)), (u64_small (y * vx + limit)),
    (u64_small (q * q)) in Hall by (unfold two64; lia).
  destruct (Z.gtb_spec (q * q / 6) (y * vx + limit)) as [|Hle];
    [discriminate|].
  pose proof (Z.div_mod (q * q) 6 ltac:(lia)) as Hd.
  pose proof (Z.mod_pos_bound (q * q) 6 ltac:(lia)) as Hm.
  split; [lia|].
  destruct (Z.le_gt_cases q (vx * y)) as [|Hgt]; [assumption|]. exfalso.
  rewrite (Z.mul_comm vx y) in Hgt.
  set (t := y * vx) in *.
  assert (Hsq : 35 * t <= t * t) by (apply Z.mul_le_mono_nonneg_r; lia).
  assert (Hqt : (t + 1) * (t + 1) <= q * q)
    by (apply Z.mul_le_mono_nonneg; lia).
  replace ((t + 1) * (t + 1)) with (t * t + 2 * t + 1) in Hqt by ring.
  lia.
Qed.

(** After [mark_segment], a set bit of the segment stands for a prime and
    a cleared bit for a composite. *)
Lemma segment_bits (t5 t7 : BITMAP) (l j : Z) :
  data t5 = data x5 -> data t7 = data x7 ->
  l = -1 \/ l = 1 -> 1 <= j <= limit ->
  let r := mark_segment R vx y limit t5 t7 in
  bitmap_get_bit (if l <? 0 then fst r else snd r) j = true <->
  Z.prime (6 * (j + y * vx) + l).
Proof.
  intros E5 E7 Hl Hj. cbv zeta.
  destruct (wheel_facts K K_range) as (_ & Hdiv & _ & _ & _ & Htop & Hvx).
  fold vx in Hvx, Hdiv.
  pose proof (mul_ge_r y vx y_range ltac:(lia)) as Hvt.
  assert (Hyv : 35 <= y * vx < 2 ^ 50) by lia.
  destruct (roots_spec _ primes list_inv ltac:(lia)) as [HRs HR].
  fold R in HR, HRs.
  assert (HWpos : forall q, In q (take K s_primes) -> 0 < q).
  { intros q Hq. destruct (wheel_primes K K_range q Hq). lia. }
  assert (Hpos : forall p, In p R -> 0 < p /\ limit + p < two64).
  { intros p Hp. apply HR in Hp. unfold two64. lia. }
  pose proof (mark_segment_spec vx y limit R t5 t7 HRs Hpos
                ltac:(rewrite E5; lia) ltac:(rewrite E7; lia) j ltac:(lia))
    as [M5 M7].
  set (z := 6 * (j + y * vx) + l).
  assert (Hz : 6 * (y * vx) + 5 <= z <= 6 * (y * vx + limit) + 1)
    by (unfold z; destruct Hl as [-> | ->]; lia).
  assert (Hmark : bitmap_get_bit
                    (if l <? 0 then fst (mark_segment R vx y limit t5 t7)
                     else snd (mark_segment R vx y limit t5 t7)) j = true <->
                  bitmap_get_bit (if l <? 0 then x5 else x7) j = true /\
                  forall q, In q R ->
                    (forall p, In p R -> p <= q ->
                               marks_in_segment vx y limit p) ->
                    on_stride q (solve_for_x l q vx y) limit j = false).
  { destruct Hl as [-> | ->]; cbn [Z.ltb Z.compare].
    - rewrite M5, (bitmap_get_bit_data t5 x5 j E5). reflexivity.
    - rewrite M7, (bitmap_get_bit_data t7 x7 j E7). reflexivity. }
  rewrite Hmark, (wheel_bit K vx x5 x7 l j wheel Hl ltac:(lia) HWpos).
  assert (Hshift : forall q, In q W -> (q | 6 * j + l) <-> (q | z)).
  { intros q Hq. destruct (wheel_prime_divides K K_range q Hq) as [t Ht].
    fold vx in Ht. unfold z. split; intros [u Hu].
    - exists (u + 6 * y * t). rewrite Ht. lia.
    - exists (u - 6 * y * t). rewrite Ht in Hu. lia. }
  split.
  - intros [[_ Hopen] Hroots].
    destruct (prime_or_factored z ltac:(lia))
      as [Hp|(q & m & Hq & Hqm & Hle)]; [exact Hp|]. exfalso.
    pose proof (lane_factor_ge_5 q m (j + y * vx) l Hl Hq Hqm) as H5.
    destruct (Z.le_gt_cases q (wheel_top K)) as [Hw|Hw].
    + apply (Hopen q).
      * apply wheel_holds; [exact K_range | exact Hq | lia].
      * apply Hshift; [apply wheel_holds; [exact K_range | exact Hq | lia]|].
        exists m. rewrite Hqm. ring.
    + assert (Hqq : q * q <= z)
        by (rewrite Hqm; apply Z.mul_le_mono_nonneg_l; lia).
      assert (HqR : In q R).
      { apply HR. split; [exact Hq|]. split; [exact Hw|].
        destruct (Z.lt_ge_cases q (6 * (y * vx + 1) - 1)) as [|Hge];
          [assumption|]. exfalso.
        pose proof (square_le (6 * (y * vx) + 5) q ltac:(lia)) as [_ Hsq].
        pose proof (Z.mul_nonneg_nonneg (y * vx) (y * vx) ltac:(lia)
                      ltac:(lia)) as Htt.
        replace ((6 * (y * vx) + 5) * (6 * (y * vx) + 5))
          with (36 * (y * vx * (y * vx)) + 60 * (y * vx) + 25) in Hsq
          by ring.
        lia. }
      assert (Hall : forall p, In p R -> p <= q ->
                               marks_in_segment vx y limit p).
      { intros p Hp Hpq. apply HR in Hp. destruct Hp as [_ [Hp1 _]].
        unfold marks_in_segment.
        pose proof (square_le p q ltac:(lia)) as Hpp.
        rewrite (u64_small (y * vx)), (u64_small (y * vx + limit)),
          (u64_small (p * p)) by (unfold two64; lia).
        destruct (Z.gtb_spec (p * p / 6) (y * vx + limit)) as [Hgt|];
          [|reflexivity].
        exfalso.
        assert (Hdiv6 : p * p / 6 <= (1 + (y * vx + limit) * 6) / 6)
          by (apply Z.div_le_mono; lia).
        rewrite Z.div_add in Hdiv6 by lia. change (1 / 6) with 0 in Hdiv6.
        lia. }
      pose proof (Hroots q HqR Hall) as Hoff.
      destruct (reached_small q HqR Hall) as [_ Hqv].
      assert (Hon : on_stride q (solve_for_x l q vx y) limit j = true).
      { apply stride_divides; try assumption; try lia.
        exists m. rewrite (Z.mul_comm vx y). fold z. rewrite Hqm. ring. }
      congruence.
  - intros Hp. split; [split; [lia|]|].
    + intros q Hq Hd. apply (Hshift q Hq) in Hd.
      destruct (wheel_primes K K_range q Hq) as [_ Hr].
      destruct Hp as [_ Hp]. apply (Hp q); [lia | exact Hd].
    + intros q Hq Hall.
      destruct (reached_small q Hq Hall) as [_ Hqv].
      apply HR in Hq. destruct Hq as [Hqp [Hq1 Hq2]].
      destruct (on_stride q (solve_for_x l q vx y) limit j) eqn:Hon;
        [|reflexivity].
      exfalso. apply stride_divides in Hon; try assumption; try lia.
      rewrite (Z.mul_comm vx y) in Hon. fold z in Hon.
      destruct Hp as [_ Hp]. apply (Hp q); [lia | exact Hon].
Qed.

End OneSegment.

(** "Collect unmarked x values as primes" at [x]. *)
Lemma collect_visit_ok (t5 t7 : BITMAP) (y x : Z) (primes : PRIMES_OBJ) :
  1 <= y -> 1 <= x -> y * vx + x <= X ->
  (forall l, l = -1 \/ l = 1 ->
     bitmap_get_bit (if l <? 0 then t5 else t7) x = true <->
     Z.prime (6 * (x + y * vx) + l)) ->
  iZm_list_inv K cap (6 * (x + y * vx) - 1) primes ->
  done_or_full cap (6 * X + 1)
    (collect_visit t5 t7 (y * vx) (Done primes) x)
    (iZm_list_inv K cap (6 * (x + 1 + y * vx) - 1)).
Proof.
  intros Hy Hx Hin Hbits Hinv.
  destruct (wheel_facts K K_range) as (_ & _ & _ & _ & _ & Htop & Hvx).
  fold vx in Hvx.
  pose proof (mul_ge_r y vx Hy ltac:(lia)) as Hyv.
  unfold collect_visit. cbn [mbind outcome_bind].
  set (x' := x + y * vx) in *.
  rewrite (u64_small x') by (unfold two64, x'; lia).
  unfold iZ. rewrite !u64_small by (unfold two64, x'; lia).
  pose proof (Hbits (-1) ltac:(now left)) as B5.
  pose proof (Hbits 1 ltac:(now right)) as B7.
  cbn [Z.ltb Z.compare] in B5, B7.
  apply (done_or_full_bind cap (6 * X + 1) _ _
           (iZm_list_inv K cap (6 * x' + 1))).
  - destruct (bitmap_get_bit t5 x).
    + pose proof (iZm_list_append K cap (6 * X + 1) (6 * x' + -1) primes
                    ltac:(lia) Hinv ltac:(now apply B5) ltac:(lia)
                    ltac:(unfold x'; lia)) as H1.
      apply (done_or_full_weaken _ _ _ _ _ H1). intros p1 Hp1.
      apply (iZm_list_advance K cap (6 * x' + -1 + 1)); [exact Hp1 | lia |].
      intros p Hp Hpp. apply (no_prime_off_lanes p x');
        [unfold x'; lia | exact Hpp | left; lia].
    + left. exists primes. split; [reflexivity|].
      apply (iZm_list_advance K cap (6 * x' - 1)); [exact Hinv | lia |].
      intros p Hp Hpp.
      destruct (Z.eq_dec p (6 * x' + -1)) as [->|Hne].
      * apply B5 in Hpp. discriminate.
      * apply (no_prime_off_lanes p x');
          [unfold x'; lia | exact Hpp | left; lia].
  - intros p1 H1. destruct (bitmap_get_bit t7 x).
    + pose proof (iZm_list_append K cap (6 * X + 1) (6 * x' + 1) p1
                    ltac:(lia) H1 ltac:(now apply B7) ltac:(lia)
                    ltac:(unfold x'; lia)) as H2.
      apply (done_or_full_weaken _ _ _ _ _ H2). intros p2 Hp2.
      apply (iZm_list_advance K cap (6 * x' + 1 + 1)); [exact Hp2 | lia |].
      intros p Hp Hpp. apply (no_prime_off_lanes p x');
        [unfold x'; lia | exact Hpp | right; lia].
    + left. exists p1. split; [reflexivity|].
      apply (iZm_list_advance K cap (6 * x' + 1)); [exact H1 | lia |].
      intros p Hp Hpp.
      destruct (Z.eq_dec p (6 * x' + 1)) as [->|Hne].
      * apply B7 in Hpp. discriminate.
      * apply (no_prime_off_lanes p x');
          [unfold x'; lia | exact Hpp | right; lia].
Qed.

Lemma collect_visit_stop (t5 t7 : BITMAP) (yvx : Z) (e : fault)
      (l : list Z) :
  fold_left (collect_visit t5 t7 yvx) l (Stop e) = Stop e.
Proof. induction l as [|x l IH]; [reflexivity | exact IH]. Qed.

Lemma collect_loop_ok (t5 t7 : BITMAP) (y limit : Z) (k : nat) :
  forall (lo : Z) (primes : PRIMES_OBJ),
    1 <= y -> 1 <= lo -> lo + Z.of_nat k <= limit + 1 ->
    y * vx + limit <= X ->
    (forall l j, l = -1 \/ l = 1 -> 1 <= j <= limit ->
       bitmap_get_bit (if l <? 0 then t5 else t7) j = true <->
       Z.prime (6 * (j + y * vx) + l)) ->
    iZm_list_inv K cap (6 * (lo + y * vx) - 1) primes ->
    done_or_full cap (6 * X + 1)
      (fold_left (collect_visit t5 t7 (y * vx)) (Zrange lo k) (Done primes))
      (iZm_list_inv K cap (6 * (lo + Z.of_nat k + y * vx) - 1)).
Proof.
  induction k as [|k IH]; intros lo primes Hy Hlo Hhi Hin Hbits Hinv.
  - left. exists primes. split; [reflexivity|].
    replace (lo + Z.of_nat 0) with lo by lia. exact Hinv.
  - rewrite Zrange_S. cbn [fold_left].
    destruct (collect_visit_ok t5 t7 y lo primes Hy Hlo ltac:(lia)
                ltac:(intros l Hl; apply Hbits; [exact Hl | lia]) Hinv)
      as [(p1 & E1 & H1) | [E1 Hfull]]; rewrite E1.
    + replace (lo + Z.of_nat (S k)) with (lo + 1 + Z.of_nat k) by lia.
      apply IH; try assumption; lia.
    + right. rewrite collect_visit_stop. split; [reflexivity | exact Hfull].
Qed.

(** One segment [y >= 1]. *)
Lemma sieve_segment_ok (y : Z) (primes : PRIMES_OBJ) :
  1 <= y <= X / vx ->
  iZm_list_inv K cap (6 * (y * vx + 1) - 1) primes ->
  let limit := if y =? X / vx then X mod vx else vx in
  done_or_full cap (6 * X + 1)
    (sieve_segment x5 x7 X vx (X / vx) (2 + Z.of_nat K) (Done primes) y)
    (iZm_list_inv K cap (6 * (y * vx + limit + 1) - 1)).
Proof.
  intros Hy Hinv. cbv zeta.
  destruct (wheel_facts K K_range) as (_ & _ & _ & _ & _ & Htop & Hvx).
  fold vx in Hvx.
  pose proof (Z.div_mod X vx ltac:(lia)) as Hdm.
  pose proof (Z.mod_pos_bound X vx ltac:(lia)) as Hmod.
  set (limit := if y =? X / vx then X mod vx else vx).
  assert (Hlimit : 0 <= limit <= vx /\ y * vx + limit <= X).
  { unfold limit. destruct (Z.eqb_spec y (X / vx)) as [->|Hne]; [lia|].
    split; [lia|]. assert (Hy1 : y + 1 <= X / vx) by lia.
    assert ((y + 1) * vx <= X / vx * vx)
      by (apply Z.mul_le_mono_nonneg_r; lia).
    lia. }
  destruct Hlimit as [Hl1 Hl2].
  unfold sieve_segment. cbn [mbind outcome_bind].
  destruct laid5 as [Hs5 Hd5]. destruct laid7 as [Hs7 Hd7].
  destruct (bitmap_clone_same x5 Hs5 Hd5) as (c5 & -> & E5 & _).
  destruct (bitmap_clone_same x7 Hs7 Hd7) as (c7 & -> & E7 & _).
  cbn [deref mbind outcome_bind]. fold limit.
  assert (Eroots : drop (Z.to_nat (2 + Z.of_nat K)) (primes_of primes)
                   = drop (2 + K) (p_array primes)).
  { destruct Hinv as (_ & Hk & _). unfold primes_of.
    rewrite Hk, Nat2Z.id, firstn_all. f_equal. lia. }
  rewrite Eroots.
  pose proof (fun l j Hl Hj =>
                segment_bits y limit ltac:(lia) Hl1 Hl2 primes Hinv c5 c7 l j
                             E5 E7 Hl Hj) as Hbits.
  cbv zeta in Hbits.
  destruct (mark_segment (drop (2 + K) (p_array primes)) vx y limit c5 c7)
    as [t5 t7]. cbn [fst snd] in Hbits.
  pose proof (mul_ge_r y vx ltac:(lia) ltac:(lia)) as Hvt.
  rewrite (u64_small (y * vx)) by (unfold two64; lia).
  replace (6 * (y * vx + limit + 1) - 1)
    with (6 * (1 + Z.of_nat (Z.to_nat limit) + y * vx) - 1) by lia.
  apply (collect_loop_ok t5 t7 y limit (Z.to_nat limit) 1 primes);
    try assumption; try lia.
  replace (6 * (1 + y * vx) - 1) with (6 * (y * vx + 1) - 1) by ring.
  exact Hinv.
Qed.

(** The loop over the segments [y .. max_y]. *)
Lemma sieve_segment_stop (max_y start_i : Z) (e : fault) (l : list Z) :
  fold_left (sieve_segment x5 x7 X vx max_y start_i) l (Stop e) = Stop e.
Proof. induction l as [|x l IH]; [reflexivity | exact IH]. Qed.

Lemma segments_loop_ok (k : nat) :
  forall (y : Z) (primes : PRIMES_OBJ),
    1 <= y -> y + Z.of_nat k = X / vx ->
    iZm_list_inv K cap (6 * (y * vx + 1) - 1) primes ->
    done_or_full cap (6 * X + 1)
      (fold_left (sieve_segment x5 x7 X vx (X / vx) (2 + Z.of_nat K))
                 (Zrange y (S k)) (Done primes))
      (iZm_list_inv K cap (6 * (X + 1) - 1)).
Proof.
  induction k as [|k IH]; intros y primes Hy Hk Hinv;
    rewrite Zrange_S; cbn [fold_left];
    pose proof (sieve_segment_ok y primes ltac:(lia) Hinv) as H1;
    cbv zeta in H1;
    (destruct H1 as [(p1 & E1 & H1) | [E1 Hfull]]; rewrite E1;
     [|right; rewrite sieve_segment_stop; split;
       [reflexivity | exact Hfull]]).
  - cbn [Zrange map seq fold_left]. left. exists p1. split; [reflexivity|].
    destruct (Z.eqb_spec y (X / vx)) as [Ey|]; [|lia].
    destruct (wheel_facts K K_range) as (_ & _ & _ & _ & _ & _ & Hvx).
    fold vx in Hvx.
    pose proof (Z.div_mod X vx ltac:(lia)) as Hdm.
    replace (6 * (X + 1) - 1) with (6 * (y * vx + X mod vx + 1) - 1) by lia.
    exact H1.
  - destruct (Z.eqb_spec y (X / vx)) as [Ey|_]; [lia|].
    apply (IH (y + 1) p1); [lia | lia |].
    replace (6 * ((y + 1) * vx + 1) - 1) with (6 * (y * vx + vx + 1) - 1)
      by ring.
    exact H1.
Qed.

End Segments.

(** ** Before the segments *)

(** "Add pre-sieved primes to primes array": the primes of [ps1] divide
    [vx], the next one does not. *)
Lemma add_presieved_app (vx : Z) (ps1 : list Z) :
  forall (ps2 : list Z) (primes : PRIMES_OBJ) (s : Z),
    (forall p, In p ps1 -> vx mod p = 0) ->
    match ps2 with [] => True | p :: _ => vx mod p <> 0 end ->
    p_count primes = Z.of_nat (length (p_array primes)) ->
    p_count primes + Z.of_nat (length ps1) <= capacity primes ->
    add_presieved (ps1 ++ ps2) vx primes s
    = Done ({| capacity := capacity primes;
               p_count := p_count primes + Z.of_nat (length ps1);
               p_array := p_array primes ++ ps1;
               p_sha256 := p_sha256 primes |},
            s + Z.of_nat (length ps1)).
Proof.
  induction ps1 as [|p ps1 IH]; intros ps2 primes s Hdiv Hstop Hk Hcap.
  - cbn [app length]. rewrite app_nil_r, !Z.add_0_r.
    destruct primes as [c k a h]. cbn [capacity p_count p_array p_sha256].
    destruct ps2 as [|p ps2]; cbn [add_presieved]; [reflexivity|].
    destruct (Z.eqb_spec (vx mod p) 0) as [E|_]; [contradiction|].
    reflexivity.
  - cbn [app add_presieved length] in *.
    rewrite (proj2 (Z.eqb_eq _ _) (Hdiv p ltac:(now left))).
    rewrite primes_obj_append_full by lia. cbn [mbind outcome_bind].
    rewrite IH; cbn [capacity p_count p_array p_sha256].
    + rewrite <- app_assoc. cbn [app].
      f_equal. f_equal; [f_equal; lia | lia].
    + intros q Hq. apply Hdiv. now right.
    + exact Hstop.
    + rewrite length_app. cbn [length]. lia.
    + lia.
Qed.

Lemma add_presieved_full (vx : Z) (ps1 : list Z) :
  forall (ps2 : list Z) (primes : PRIMES_OBJ) (s : Z),
    (forall p, In p ps1 -> vx mod p = 0) ->
    p_count primes = Z.of_nat (length (p_array primes)) ->
    p_count primes <= capacity primes ->
    capacity primes < p_count primes + Z.of_nat (length ps1) ->
    add_presieved (ps1 ++ ps2) vx primes s = Stop OutOfBoundsWrite.
Proof.
  induction ps1 as [|p ps1 IH]; intros ps2 primes s Hdiv Hk Hle Hcap;
    cbn [app add_presieved length] in *; [lia|].
  rewrite (proj2 (Z.eqb_eq _ _) (Hdiv p ltac:(now left))).
  destruct (Z.lt_ge_cases (p_count primes) (capacity primes)) as [Hlt|Hge].
  - rewrite primes_obj_append_full by lia. cbn [mbind outcome_bind].
    apply IH; cbn [capacity p_count p_array p_sha256].
    + intros q Hq. apply Hdiv. now right.
    + rewrite length_app. cbn [length]. lia.
    + lia.
    + lia.
  - unfold primes_obj_append.
    destruct (Z.ltb_spec (p_count primes) (capacity primes)) as [|_];
      [lia | reflexivity].
Qed.

Lemma divides_among (W : list Z) (c : Z) :
  (forall q, In q W -> 0 < q) ->
  (forall q, In q W -> ~ (q | c)) \/ exists q, In q W /\ (q | c).
Proof.
  induction W as [|p W IH]; intros Hpos; [left; intros q []|].
  destruct (Z.eq_dec (c mod p) 0) as [Hd|Hn].
  - right. exists p. split; [now left|].
    apply Z.mod_divide; [specialize (Hpos p ltac:(now left)); lia | exact Hd].
  - destruct (IH ltac:(intros q Hq; apply Hpos; now right))
      as [IH'|(q & Hq & Hd)].
    + left. intros q [<- | Hq]; [|now apply IH'].
      intros Hd. apply Hn. apply Z.mod_divide;
        [specialize (Hpos p ltac:(now left)); lia | exact Hd].
    + right. exists q. split; [now right | exact Hd].
Qed.

Section Start.

Variable K : nat.
Hypothesis K_range : (2 <= K <= 6)%nat.
Variable cap : Z.

Let vx := primorial K.
Let W := take K s_primes.

Lemma segment0_start (primes : PRIMES_OBJ) (x5 x7 c5 c7 : BITMAP) :
  capacity primes = cap ->
  p_count primes = Z.of_nat (length (p_array primes)) ->
  p_array primes = [2; 3] ++ W ->
  p_count primes <= cap ->
  wheel_state K (vx, x5, x7) ->
  vx + 1 <= 8 * Z.of_nat (length (data x5)) ->
  vx + 1 <= 8 * Z.of_nat (length (data x7)) ->
  data c5 = data x5 -> data c7 = data x7 ->
  segment0_inv K cap (6 * 2 - 1) (primes, c5, c7).
Proof.
  intros Hc Hk Ha Hfit Hwheel H5 H7 E5 E7.
  destruct (wheel_facts K K_range) as (_ & _ & _ & Eup & _ & Htop & Hvx).
  fold vx W in Eup, Hvx.
  assert (HWpos : forall q, In q (take K s_primes) -> 0 < q).
  { intros q Hq. destruct (wheel_primes K K_range q Hq). lia. }
  assert (Hbit : forall l j, l = -1 \/ l = 1 -> 0 <= j ->
            bitmap_get_bit (if l <? 0 then c5 else c7) j = true <->
            1 <= j <= vx /\ forall q, In q W -> ~ (q | 6 * j + l)).
  { intros l j Hl Hj. unfold W.
    rewrite <- (wheel_bit K vx x5 x7 l j Hwheel Hl Hj HWpos).
    destruct Hl as [-> | ->]; cbn [Z.ltb Z.compare].
    - now rewrite (bitmap_get_bit_data c5 x5 j E5).
    - now rewrite (bitmap_get_bit_data c7 x7 j E7). }
  split.
  - split; [exact Hc|]. split; [exact Hk|]. split.
    + rewrite Ha. apply firstn_all2. rewrite length_app.
      unfold W. rewrite length_take. cbn [length]. lia.
    + split; [|lia]. rewrite Ha, Eup.
      replace (Z.max (6 * 2 - 1) (wheel_top K + 1))
        with (Z.max 10 (wheel_top K) + 1) by lia.
      apply primes_below_of_upto.
  - split; [rewrite E5; exact H5|]. split; [rewrite E7; exact H7|].
    split; [|split].
    + intros l j Hl Hj Hb.
      destruct (divides_among W (6 * j + l) HWpos)
        as [Hnone|(q & Hq & Hd)].
      * exfalso. rewrite (proj2 (Hbit l j Hl ltac:(lia))) in Hb;
          [discriminate | split; [exact Hj | exact Hnone]].
      * destruct (wheel_primes K K_range q Hq) as [Hqp Hq5].
        destruct Hd as [m Hm].
        destruct (Z.eq_dec m 1) as [->|Hm1].
        -- right. replace (6 * j + l) with q by lia. exact Hq.
        -- left. exists q, m. split; [lia|]. split; [|lia].
           assert (0 < m) by (destruct Hl as [-> | ->]; nia). lia.
    + intros l j q Hl Hj Hq Hd.
      destruct (bitmap_get_bit (if l <? 0 then c5 else c7) j) eqn:Hb;
        [|reflexivity].
      exfalso. apply (Hbit l j Hl ltac:(lia)) in Hb.
      destruct Hb as [_ Hb]. exact (Hb q Hq Hd).
    + intros l j q m Hl Hj Hq Hlt _ Hqm _.
      destruct (bitmap_get_bit (if l <? 0 then c5 else c7) j) eqn:Hb;
        [|reflexivity].
      exfalso. apply (Hbit l j Hl ltac:(lia)) in Hb.
      destruct Hb as [_ Hb].
      pose proof (lane_factor_ge_5 q m j l Hl Hq Hqm) as Hq5.
      assert (Hq7 : q <= 7).
      { destruct (Z.le_gt_cases q 7) as [|Hgt]; [assumption|]. exfalso.
        assert (Hc3 : q = 8 \/ q = 9 \/ q = 10) by lia.
        destruct Hq as [_ Hq].
        destruct Hc3 as [-> | [-> | ->]].
        - apply (Hq 2); [lia | exists 4; lia].
        - apply (Hq 3); [lia | exists 3; lia].
        - apply (Hq 2); [lia | exists 5; lia]. }
      apply (Hb q).
      * apply wheel_holds; [exact K_range | exact Hq | lia].
      * exists m. rewrite Hqm. ring.
Qed.

End Start.

(** ** After the segments *)

Lemma Zrange_app (lo : Z) (a b : nat) :
  Zrange lo (a + b) = Zrange lo a ++ Zrange (lo + Z.of_nat a) b.
Proof.
  revert lo. induction a as [|a IH]; intros lo.
  - change (Z.of_nat 0) with 0. rewrite Z.add_0_r. reflexivity.
  - cbn [Nat.add]. rewrite !Zrange_S, IH. cbn [app]. do 3 f_equal. lia.
Qed.

Lemma primes_upto_split (n M : Z) :
  2 <= n <= M ->
  exists rest, primes_upto M = primes_upto n ++ rest /\
               forall v, In v rest -> n < v.
Proof.
  intros H. exists (List.filter is_prime_trial
                                 (Zrange (n + 1) (Z.to_nat (M - n)))).
  split.
  - unfold primes_upto.
    replace (Z.to_nat (M - 1)) with (Z.to_nat (n - 1) + Z.to_nat (M - n))%nat
      by lia.
    rewrite Zrange_app, List.filter_app. do 3 f_equal. lia.
  - intros v Hv. apply filter_In in Hv. destruct Hv as [Hv _].
    unfold Zrange in Hv. apply in_map_iff in Hv.
    destruct Hv as (k & <- & _). lia.
Qed.

(** [while (primes->p_array[primes->p_count - 1] > n) primes->p_count--]
    on an array that holds [k >= 1] entries up to [n] followed by [m]
    entries above [n]. *)
Lemma drop_above_spec (n : Z) (A : list Z) (m : nat) :
  forall (fuel : nat) (primes : PRIMES_OBJ) (B : list Z),
    (m < fuel)%nat -> A <> [] ->
    (forall v, In v A -> v <= n) -> (forall v, In v B -> n < v) ->
    (m <= length B)%nat ->
    p_array primes = A ++ B ->
    p_count primes = Z.of_nat (length A + m) ->
    p_count primes <= capacity primes ->
    drop_above fuel n primes
    = Done {| capacity := capacity primes;
              p_count := Z.of_nat (length A);
              p_array := p_array primes;
              p_sha256 := p_sha256 primes |}.
Proof.
  induction m as [|m IH]; intros fuel primes B Hf HA HAle HBgt HmB Ha Hk Hcap;
    (destruct fuel as [|fuel]; [lia|]); cbn [drop_above].
  - destruct (exists_last HA) as (A0 & a & EA).
    assert (Hlk : p_array primes !! Z.to_nat (p_count primes - 1) = Some a).
    { rewrite Hk, Ha, EA, length_app, <- app_assoc. cbn [length app].
      replace (Z.to_nat (Z.of_nat (length A0 + 1 + 0) - 1)) with (length A0)
        by lia.
      apply list_lookup_middle. reflexivity. }
    assert (Hlen : (1 <= length A)%nat)
      by (rewrite EA, length_app; cbn [length]; lia).
    unfold primes_obj_get. rewrite Hlk.
    destruct (Z.leb_spec 0 (p_count primes - 1)) as [_|]; [|lia].
    destruct (Z.ltb_spec (p_count primes - 1) (capacity primes)) as [_|];
      [|lia].
    cbn [andb mbind outcome_bind].
    assert (Han : a <= n).
    { apply HAle. rewrite EA. apply in_or_app. right. now left. }
    destruct (Z.gtb_spec a n) as [|_]; [lia|].
    destruct primes as [c k arr h]. cbn [capacity p_count p_array p_sha256] in *.
    change (mret ?v) with (Done v). do 2 f_equal. lia.
  - assert (HB : exists b, p_array primes !! (length A + m)%nat = Some b /\
                           In b B).
    { destruct (lookup_lt_is_Some_2 B m ltac:(lia)) as [b Hb].
      exists b. split.
      - rewrite Ha, lookup_app_r by lia.
        replace (length A + m - length A)%nat with m by lia. exact Hb.
      - apply list_elem_of_In. eapply list_elem_of_lookup_2. exact Hb. }
    destruct HB as (b & Hlk & Hb).
    unfold primes_obj_get.
    replace (Z.to_nat (p_count primes - 1)) with (length A + m)%nat by lia.
    rewrite Hlk.
    destruct (Z.leb_spec 0 (p_count primes - 1)) as [_|]; [|lia].
    destruct (Z.ltb_spec (p_count primes - 1) (capacity primes)) as [_|];
      [|lia].
    cbn [andb mbind outcome_bind].
    pose proof (HBgt b Hb) as Hbn.
    destruct (Z.gtb_spec b n) as [_|]; [|lia].
    rewrite (IH fuel _ B); cbn [capacity p_count p_array p_sha256];
      try assumption; try lia.
    reflexivity.
Qed.

(** ** The whole sieve *)

Lemma max_y_fits (K : nat) (X : Z) :
  (2 <= K <= 6)%nat -> 1 <= X < 2 ^ 50 ->
  (Z.of_nat K < 6 -> X / 2 <= primorial (S K)) ->
  0 <= X / primorial K < 2 ^ 31.
Proof.
  intros HK HX Hge.
  assert (Hc : K = 2%nat \/ K = 3%nat \/ K = 4%nat \/ K = 5%nat \/ K = 6%nat)
    by lia.
  pose proof (Z.div_mod X 2 ltac:(lia)) as Hd.
  pose proof (Z.mod_pos_bound X 2 ltac:(lia)) as Hm.
  destruct Hc as [-> | [-> | [-> | [-> | ->]]]];
    try (specialize (Hge ltac:(lia)));
    match goal with
    | |- context [primorial ?k] =>
        let v := eval vm_compute in (primorial k) in
        change (primorial k) with v
    end;
    try match type of Hge with
        | context [primorial ?k] =>
            let v := eval vm_compute in (primorial k) in
            change (primorial k) with v in Hge
        end;
    (split; [apply Z.div_pos; lia | apply Z.div_lt_upper_bound; lia]).
Qed.

Lemma primes_upto_211 : length (primes_upto 211) = 47%nat.
Proof. vm_compute. reflexivity. Qed.

(** The run of [sieve_iZm(n)] for every positive capacity. *)
Lemma sieve_iZm_run (initial_estimate n : Z) :
  2 <= n < 2 ^ 52 -> 0 < initial_estimate ->
  let needed := Z.of_nat (length (primes_upto (iZm_reach n))) in
  (needed <= initial_estimate /\
   exists primes,
     sieve_iZm initial_estimate n = Done primes /\
     primes_of primes = primes_upto n /\
     capacity primes = p_count primes) \/
  (initial_estimate < needed /\
   sieve_iZm initial_estimate n = Stop OutOfBoundsWrite).
Proof.
  intros Hn Hpos. cbv zeta. unfold iZm_reach.
  set (X := (n + 1) / 6 + 1) in *.
  assert (HX : 1 <= X < 2 ^ 50 /\ 6 * X - 6 <= n + 1 <= 6 * X - 1).
  { unfold X. pose proof (Z.div_mod (n + 1) 6 ltac:(lia)).
    pose proof (Z.mod_pos_bound (n + 1) 6 ltac:(lia)).
    assert (0 <= (n + 1) / 6 < 2 ^ 50 - 1)
      by (split; [apply Z.div_pos; lia | apply Z.div_lt_upper_bound; lia]).
    lia. }
  destruct HX as [HX HXn].
  set (needed := Z.of_nat (length (primes_upto (6 * Z.max X 35 + 1)))).
  assert (Hneeded : 47 <= needed).
  { pose proof (primes_upto_length_mono 211 (6 * Z.max X 35 + 1) ltac:(lia))
      as Hm. rewrite primes_upto_211 in Hm. unfold needed. lia. }
  unfold sieve_iZm.
  rewrite (u64_small (n + 1)) by (unfold two64; lia).
  rewrite (u64_small ((n + 1) / 6 + 1)) by (unfold two64; fold X; lia).
  fold X.
  (* the wheel *)
  destruct (compute_limited_vx_loop_spec 12 2 X 6 eq_refl ltac:(lia))
    as (K & HK & EK & HKm & Hlt & Hge).
  change (compute_limited_vx_loop (drop 2 s_primes) X 6 (primorial 2)
                                  (Z.of_nat 2))
    with (compute_limited_vx X 6) in EK.
  rewrite EK.
  assert (K_range : (2 <= K <= 6)%nat) by lia.
  destruct (wheel_facts K K_range)
    as (Etab & Hdiv & Hstop & _ & _ & Htop & Hvx).
  set (vx := primorial K) in *.
  set (W := take K s_primes) in *.
  assert (Hvx_reach : 6 * vx + 1 <= 6 * Z.max X 35 + 1).
  { destruct (Nat.eq_dec K 2%nat) as [->|HK2].
    - change vx with 35. lia.
    - specialize (Hlt ltac:(lia)).
      pose proof (Z.div_mod X 2 ltac:(lia)).
      pose proof (Z.mod_pos_bound X 2 ltac:(lia)). lia. }
  assert (reach0 : Z.of_nat (length (primes_upto (6 * vx + 1))) <= needed).
  { pose proof (primes_upto_length_mono _ _ Hvx_reach). unfold needed. lia. }
  assert (reachX : Z.of_nat (length (primes_upto (6 * X + 1))) <= needed).
  { pose proof (primes_upto_length_mono (6 * X + 1) (6 * Z.max X 35 + 1)
                  ltac:(lia)). unfold needed. lia. }
  assert (HlenW : length W = K).
  { unfold W. rewrite length_take. change (length s_primes) with 23%nat. lia. }
  (* the first entries *)
  unfold primes_obj_init.
  destruct (Z.leb_spec initial_estimate 0) as [E|_]; [lia|].
  rewrite primes_obj_append_full by (cbn [p_count p_array capacity length]; lia).
  cbn [mbind outcome_bind capacity p_count p_array p_sha256 app].
  destruct (Z.lt_ge_cases initial_estimate 2) as [Hone|Htwo].
  { right. split; [lia|]. unfold primes_obj_append at 1.
    cbn [p_count capacity].
    destruct (Z.ltb_spec (0 + 1) initial_estimate) as [|_]; [lia|].
    reflexivity. }
  rewrite primes_obj_append_full by (cbn [p_count p_array capacity length]; lia).
  cbn [mbind outcome_bind capacity p_count p_array p_sha256 app].
  change (Z.to_nat 6) with 6%nat.
  rewrite <- (take_drop K (take 6 iZm_s_primes)), Etab.
  destruct (Z.lt_ge_cases initial_estimate (2 + Z.of_nat K)) as [Hfew|Hroom].
  { right. split; [lia|].
    rewrite add_presieved_full;
      [reflexivity | exact Hdiv | reflexivity
      | cbn [p_count capacity]; lia
      | cbn [p_count capacity]; rewrite HlenW; lia]. }
  rewrite add_presieved_app;
    [|exact Hdiv | exact Hstop | reflexivity
     |cbn [p_count capacity]; rewrite HlenW; lia].
  cbn [mbind outcome_bind capacity p_count p_array p_sha256 app].
  rewrite HlenW.
  set (primes0 := {| capacity := initial_estimate;
                     p_count := 0 + 1 + 1 + Z.of_nat K;
                     p_array := 2 :: 3 :: W;
                     p_sha256 := replicate 32 0 |}).
  (* the bitmaps *)
  rewrite (u64_small (vx + 10)) by (unfold two64; lia).
  destruct (bitmap_create_some (vx + 10) ltac:(lia)) as [b Eb]. rewrite Eb.
  cbn [deref mbind outcome_bind].
  pose proof (construct_iZm_segment_wheel K (vx + 10) (vx + 10) b b
                ltac:(lia) Eb Eb ltac:(fold vx; unfold two64; lia)
                ltac:(fold vx; unfold two64; lia)) as Hwheel.
  cbv zeta in Hwheel. fold vx in Hwheel.
  destruct (construct_iZm_segment_shape vx b b) as [[Hl5 Hs5] [Hl7 Hs7]].
  destruct (bitmap_create_spec (vx + 10) b Eb) as (Hbs & Hbl & _).
  destruct (construct_iZm_segment vx b b) as [x5 x7]. cbn [fst snd] in *.
  assert (Hbytes : vx + 1 <= 8 * Z.of_nat (length (data b))).
  { rewrite Hbl, byte_size_small by (unfold two64; lia).
    assert (0 <= (vx + 10 + 7) / 8) by (apply Z.div_pos; lia).
    pose proof (Z.div_mod (vx + 10 + 7) 8 ltac:(lia)).
    pose proof (Z.mod_pos_bound (vx + 10 + 7) 8 ltac:(lia)). lia. }
  assert (laid5 : size x5 <> 0 /\
                  length (data x5) = Z.to_nat (byte_size (size x5)))
    by (rewrite Hs5, Hl5, Hbs; split; [lia | exact Hbl]).
  assert (laid7 : size x7 <> 0 /\
                  length (data x7) = Z.to_nat (byte_size (size x7)))
    by (rewrite Hs7, Hl7, Hbs; split; [lia | exact Hbl]).
  destruct (bitmap_clone_same x5 (proj1 laid5) (proj2 laid5))
    as (c5 & Ec5 & E5 & _).
  destruct (bitmap_clone_same x7 (proj1 laid7) (proj2 laid7))
    as (c7 & Ec7 & E7 & _).
  rewrite Ec5, Ec7. cbn [deref mbind outcome_bind].
  (* segment 0 *)
  pose proof (segment0_start K K_range initial_estimate primes0 x5 x7 c5 c7
                eq_refl
                ltac:(cbn [p_count p_array primes0 length];
                      rewrite HlenW; lia)
                eq_refl ltac:(cbn [p_count primes0]; lia)
                Hwheel ltac:(rewrite Hl5; exact Hbytes)
                ltac:(rewrite Hl7; exact Hbytes) E5 E7) as Hinv0.
  pose proof (segment0_loop_ok K K_range initial_estimate
                (Z.to_nat (vx - 1)) 2 (primes0, c5, c7) ltac:(lia)
                ltac:(fold vx; lia) Hinv0) as Hseg0.
  fold vx in Hseg0. change (mret ?v) with (Done v).
  destruct Hseg0 as [([[primes1 y5] y7] & Eloop & Hlist1 & _) | [Eloop Hfull]].
  2: { match goal with
       | |- context [fold_left (sieve_visit ?f ?lim) ?l ?a] =>
           replace (fold_left (sieve_visit f lim) l a)
             with (Stop OutOfBoundsWrite
                   : outcome (PRIMES_OBJ * BITMAP * BITMAP))
             by (symmetry; exact Eloop)
       end.
       right. split; [lia | reflexivity]. }
  match goal with
  | |- context [fold_left (sieve_visit ?f ?lim) ?l ?a] =>
      replace (fold_left (sieve_visit f lim) l a)
        with (Done (primes1, y5, y7) : outcome (PRIMES_OBJ * BITMAP * BITMAP))
        by (symmetry; exact Eloop)
  end.
  cbn [mbind outcome_bind].
  clear Eloop Hinv0.
  replace (6 * (2 + Z.of_nat (Z.to_nat (vx - 1))) - 1)
    with (6 * (1 * vx + 1) - 1) in Hlist1 by lia.
  (* the later segments *)
  pose proof (max_y_fits K X K_range HX Hge) as Hmax. fold vx in Hmax.
  rewrite (to_int_small (X / vx)) by lia.
  assert (Hsegs :
            done_or_full initial_estimate (6 * Z.max X 35 + 1)
              (fold_left (sieve_segment x5 x7 X vx (X / vx) (2 + Z.of_nat K))
                         (Zrange 1 (Z.to_nat (X / vx))) (Done primes1))
              (iZm_list_inv K initial_estimate (6 * (Z.max X 35 + 1) - 1))).
  { destruct (Z.eq_dec (X / vx) 0) as [E0|N0].
    - rewrite E0. left. exists primes1. split; [reflexivity|].
      pose proof (Z.div_mod X vx ltac:(lia)) as Hd.
      pose proof (Z.mod_pos_bound X vx ltac:(lia)) as Hm.
      rewrite E0 in Hd.
      assert (HK2e : K = 2%nat).
      { destruct (Nat.eq_dec K 2%nat) as [|HK2]; [assumption|].
        specialize (Hlt ltac:(lia)).
        pose proof (Z.div_mod X 2 ltac:(lia)).
        pose proof (Z.mod_pos_bound X 2 ltac:(lia)). lia. }
      assert (Evx : vx = 35) by (unfold vx; rewrite HK2e; reflexivity).
      replace (6 * (Z.max X 35 + 1) - 1) with (6 * (1 * vx + 1) - 1) by lia.
      exact Hlist1.
    - assert (HXv : vx <= X).
      { assert (Hq1 : 1 <= X / vx) by lia.
        assert (1 * vx <= X / vx * vx)
          by (apply Z.mul_le_mono_nonneg_r; lia).
        pose proof (Z.div_mod X vx ltac:(lia)) as Hd.
        pose proof (Z.mod_pos_bound X vx ltac:(lia)) as Hm.
        lia. }
      pose proof (segments_loop_ok K K_range initial_estimate X HX x5 x7
                    Hwheel ltac:(rewrite Hl5; exact Hbytes)
                    ltac:(rewrite Hl7; exact Hbytes) laid5 laid7
                    (Z.to_nat (X / vx) - 1) 1 primes1 ltac:(lia)
                    ltac:(fold vx; lia) Hlist1) as H2.
      fold vx in H2.
      replace (S (Z.to_nat (X / vx) - 1)) with (Z.to_nat (X / vx)) in H2
        by lia.
      replace (Z.max X 35) with X by lia. exact H2. }
  destruct Hsegs as [(primes2 & E2 & (Hc2 & Hk2 & _ & HL2 & Hfit2)) | [E2 Hfull]];
    rewrite E2; cbn [mbind outcome_bind];
    [|right; split; [exact Hfull | reflexivity]].
  (* the end *)
  set (X' := Z.max X 35) in *.
  rewrite Z.max_l in HL2 by lia.
  assert (Earr : p_array primes2 = primes_upto (6 * X' + 1)).
  { apply (primes_below_exact (6 * X' + 1) (6 * (X' + 1) - 1));
      [exact HL2 | lia |].
    intros p Hp Hpp. apply (no_prime_off_lanes p X');
      [lia | exact Hpp | right; lia]. }
  destruct (primes_upto_split n (6 * X' + 1) ltac:(lia))
    as (rest & Esplit & Hrest).
  left. split; [unfold needed; rewrite <- Earr; exact Hfit2|].
  rewrite (drop_above_spec n (primes_upto n) (length rest) _ primes2 rest).
  - cbn [mbind outcome_bind]. eexists. split; [reflexivity|].
    split; [|reflexivity].
    unfold primes_of, primes_obj_resize_to_p_count. cbn [p_count p_array].
    rewrite take_take, Nat.min_id, Nat2Z.id, Earr, Esplit.
    apply take_app_length.
  - rewrite Hk2, Earr, Esplit, length_app. lia.
  - pose proof (primes_upto_nonempty n ltac:(lia)) as Hne.
    intros E. rewrite E in Hne. cbn [length] in Hne. lia.
  - intros v Hv. apply primes_upto_spec in Hv. lia.
  - exact Hrest.
  - lia.
  - rewrite Earr. exact Esplit.
  - rewrite Hk2, Earr, Esplit, length_app. lia.
  - lia.
Qed.

(** X27.  [sieve_iZm(n)], for [2 <= n < 2^52] and a prime array with room
    for the primes up to the last candidate the sieve visits
    ([iZm_reach n]: it goes on to the end of its last segment, and to 211
    at least), returns exactly the primes up to [n], in ascending order,
    trimmed to their count. *)
Theorem sieve_iZm_correct (initial_estimate n : Z) :
  2 <= n < 2 ^ 52 ->
  Z.of_nat (length (primes_upto (iZm_reach n))) <= initial_estimate ->
  exists primes,
    sieve_iZm initial_estimate n = Done primes /\
    primes_of primes = primes_upto n /\
    (forall p, In p (primes_of primes) <-> Z.prime p /\ p <= n) /\
    capacity primes = p_count primes.
Proof.
  intros Hn Hroom.
  assert (Hpos : 0 < initial_estimate).
  { pose proof (primes_upto_length_mono 211 (iZm_reach n)
                  ltac:(unfold iZm_reach; lia)) as Hm.
    rewrite primes_upto_211 in Hm. lia. }
  destruct (sieve_iZm_run initial_estimate n Hn Hpos)
    as [(_ & primes & E & Hp & Hc) | [Hlt _]]; [|lia].
  exists primes. split; [exact E|]. split; [exact Hp|].
  split; [|exact Hc]. intros p. rewrite Hp. apply primes_upto_spec.
Qed.

Lemma sieve_iZm_correct_witness :
  exists primes,
    sieve_iZm 47 100 = Done primes /\
    primes_of primes = primes_upto 100 /\
    (forall p, In p (primes_of primes) <-> Z.prime p /\ p <= 100) /\
    capacity primes = p_count primes.
Proof.
  apply (sieve_iZm_correct 47 100); [lia | vm_compute; discriminate].
Defined.

(** X28.  [sieve_iZm(n)], for [2 <= n < 2^52], writes past the end of its
    prime array whenever the capacity is below the number of primes up to
    the last candidate it visits ([iZm_reach n], which is 211 at least):
    every capacity below 47 overflows, whatever [n] is. *)
Theorem sieve_iZm_overflows (initial_estimate n : Z) :
  2 <= n < 2 ^ 52 ->
  0 < initial_estimate < Z.of_nat (length (primes_upto (iZm_reach n))) ->
  sieve_iZm initial_estimate n = Stop OutOfBoundsWrite /\
  47 <= Z.of_nat (length (primes_upto (iZm_reach n))).
Proof.
  intros Hn Hcap. split.
  - destruct (sieve_iZm_run initial_estimate n Hn ltac:(lia))
      as [(Hle & _) | [_ E]]; [lia | exact E].
  - pose proof (primes_upto_length_mono 211 (iZm_reach n)
                  ltac:(unfold iZm_reach; lia)) as Hm.
    rewrite primes_upto_211 in Hm. lia.
Qed.

Lemma sieve_iZm_overflows_witness :
  sieve_iZm 150 1000 = Stop OutOfBoundsWrite /\
  47 <= Z.of_nat (length (primes_upto (iZm_reach 1000))).
Proof.
  apply (sieve_iZm_overflows 150 1000); [lia|].
  split; [lia | vm_compute; reflexivity].
Defined.

(** * [vx6_sieve] in its deterministic regime *)

(** ** Marking *)

(** The stride that starts at the first multiple of [q] on a lane covers
    the multiples of [q] on that lane. *)
Lemma stride_of_first (q s c limit j : Z) :
  Z.gcd q 6 = 1 -> 0 < s <= q -> (q | 6 * s + c) -> 1 <= j <= limit ->
  on_stride q s limit j = true <-> (q | 6 * j + c).
Proof.
  intros Hg Hs Hsd Hj. rewrite on_stride_iff by lia. split.
  - intros (k & Hk & -> & _). destruct Hsd as [t Ht].
    exists (t + 6 * k). lia.
  - intros Hjd.
    pose proof (same_lane_multiples q j s c Hg Hjd Hsd) as [t Ht].
    exists t. split; [nia|]. split; lia.
Qed.

Lemma stride_divides_gmp (l q vx y limit j : Z) :
  l = -1 \/ l = 1 -> Z.prime q -> 5 <= q < 2 ^ 31 -> 1 <= j <= limit ->
  on_stride q (solve_for_x_gmp l q vx y) limit j = true <->
  (q | 6 * (j + vx * y) + l).
Proof.
  intros Hl Hq Hr Hj.
  assert (Hq64 : 5 <= q < two64 - 1) by (unfold two64; lia).
  destruct (solve_for_x_gmp_correct l q vx y Hq64) as [Hs Hmod].
  pose proof (prime_on_lane q Hq ltac:(lia)) as Hlane.
  pose proof (normalized_xp_divides l q Hl Hq64 Hlane) as Hd.
  pose proof (gcd_6_of_lane q Hlane) as Hg.
  set (s := solve_for_x_gmp l q vx y) in *.
  assert (Hsd : (q | 6 * s + (6 * (vx * y) + l))).
  { pose proof (Z.div_mod (s + vx * y) q ltac:(lia)) as Hdm.
    rewrite Hmod in Hdm. destruct Hd as [t Ht].
    exists (6 * ((s + vx * y) / q) + t). lia. }
  rewrite (stride_of_first q s (6 * (vx * y) + l) limit j Hg Hs Hsd Hj).
  replace (6 * j + (6 * (vx * y) + l)) with (6 * (j + vx * y) + l) by ring.
  reflexivity.
Qed.

(** "mark composites of cached primes": on an ascending list the loop
    clears the strides of the primes up to [upper_limit], and the flag is
    cleared when a cached prime exceeds [upper_limit]. *)
Lemma vx6_mark_spec (upper y : Z) (R : list Z) :
  forall (t5 t7 : BITMAP),
    StronglySorted Z.lt R ->
    (forall p, In p R -> 5 <= p < 2 ^ 31) ->
    vx6 < 8 * Z.of_nat (length (data t5)) ->
    vx6 < 8 * Z.of_nat (length (data t7)) ->
    let r := vx6_mark R upper y t5 t7 in
    (snd r = false <-> exists q, In q R /\ upper < q) /\
    forall j, 0 <= j ->
      (bitmap_get_bit (fst (fst r)) j = true <->
       bitmap_get_bit t5 j = true /\
       forall q, In q R -> q <= upper ->
         on_stride q (solve_for_x_gmp (-1) q vx6 y) vx6 j = false) /\
      (bitmap_get_bit (snd (fst r)) j = true <->
       bitmap_get_bit t7 j = true /\
       forall q, In q R -> q <= upper ->
         on_stride q (solve_for_x_gmp 1 q vx6 y) vx6 j = false).
Proof.
  assert (Hvx6 : vx6 = 1616615) by reflexivity.
  induction R as [|p R IH]; intros t5 t7 Hs Hr H5 H7; cbv zeta.
  - cbn [vx6_mark fst snd]. split.
    + split; [discriminate | intros (q & [] & _)].
    + intros j Hj. split; (split; [intros H | intros [H _]]);
        try exact H; (split; [exact H | intros q []]).
  - cbn [vx6_mark].
    apply StronglySorted_inv in Hs. destruct Hs as [Hs Hhead].
    rewrite List.Forall_forall in Hhead.
    destruct (Z.gtb_spec p upper) as [Hgt|Hle].
    + cbn [fst snd]. split.
      * split; [intros _ | reflexivity]. exists p. split; [now left | exact Hgt].
      * intros j Hj.
        assert (Hvac : forall q, In q (p :: R) -> q <= upper -> False).
        { intros q [<- | Hq] Hqu; [lia|]. specialize (Hhead q Hq). lia. }
        split; (split; [intros H | intros [H _]]); try exact H;
          (split; [exact H|]); intros q Hq Hqu; exfalso;
          exact (Hvac q Hq Hqu).
    + pose proof (Hr p ltac:(now left)) as Hp.
      assert (Es : forall l, u64 (to_int (solve_for_x_gmp l (u64 (to_int p))
                                                            vx6 y))
                             = solve_for_x_gmp l p vx6 y).
      { intros l. rewrite (to_int_small p), (u64_small p)
          by (unfold two64; lia).
        destruct (solve_for_x_gmp_correct l p vx6 y
                    ltac:(unfold two64; lia)) as [Hsr _].
        rewrite to_int_small, u64_small by (unfold two64; lia).
        reflexivity. }
      rewrite !Es. rewrite (to_int_small p), (u64_small p)
        by (unfold two64; lia).
      destruct (solve_for_x_gmp_correct (-1) p vx6 y
                  ltac:(unfold two64; lia)) as [Hs5 _].
      destruct (solve_for_x_gmp_correct 1 p vx6 y
                  ltac:(unfold two64; lia)) as [Hs7 _].
      cbv zeta in Hs5, Hs7.
      destruct (bitmap_clear_mod_p_shape t5 p (solve_for_x_gmp (-1) p vx6 y)
                                         vx6) as [Hl5 _].
      destruct (bitmap_clear_mod_p_shape t7 p (solve_for_x_gmp 1 p vx6 y)
                                         vx6) as [Hl7 _].
      specialize (IH (bitmap_clear_mod_p t5 p (solve_for_x_gmp (-1) p vx6 y)
                                         vx6)
                     (bitmap_clear_mod_p t7 p (solve_for_x_gmp 1 p vx6 y)
                                         vx6)
                     Hs ltac:(intros q Hq; apply Hr; now right)
                     ltac:(rewrite Hl5; exact H5)
                     ltac:(rewrite Hl7; exact H7)).
      cbv zeta in IH. destruct IH as [IHf IHb]. split.
      * rewrite IHf. split; intros (q & Hq & Hqu).
        -- exists q. split; [now right | exact Hqu].
        -- exists q. split; [|exact Hqu].
           destruct Hq as [<- | Hq]; [lia | exact Hq].
      * intros j Hj. destruct (IHb j Hj) as [IH5 IH7].
        destruct (bitmap_clear_mod_p_spec t5 p (solve_for_x_gmp (-1) p vx6 y)
                    vx6 j ltac:(lia) ltac:(lia) H5
                    ltac:(unfold two64; lia) Hj) as (_ & _ & Hb5).
        destruct (bitmap_clear_mod_p_spec t7 p (solve_for_x_gmp 1 p vx6 y)
                    vx6 j ltac:(lia) ltac:(lia) H7
                    ltac:(unfold two64; lia) Hj) as (_ & _ & Hb7).
        rewrite IH5, IH7, Hb5, Hb7, !andb_true_iff, !negb_true_iff.
        split; split.
        -- intros [[Hb Hst] Hrest]. split; [exact Hb|].
           intros q [<- | Hq] Hqu; [exact Hst | now apply Hrest].
        -- intros [Hb Hall]. split; [split; [exact Hb|]|].
           ++ apply Hall; [now left | exact Hle].
           ++ intros q Hq Hqu. apply Hall; [now right | exact Hqu].
        -- intros [[Hb Hst] Hrest]. split; [exact Hb|].
           intros q [<- | Hq] Hqu; [exact Hst | now apply Hrest].
        -- intros [Hb Hall]. split; [split; [exact Hb|]|].
           ++ apply Hall; [now left | exact Hle].
           ++ intros q Hq Hqu. apply Hall; [now right | exact Hqu].
Qed.

(** The cached primes from index 8 on. *)
Lemma cached_roots (M : Z) :
  19 <= M ->
  let R := drop 8 (primes_upto M) in
  StronglySorted Z.lt R /\
  forall q, In q R <-> Z.prime q /\ 19 < q <= M.
Proof.
  intros HM. cbv zeta.
  destruct (primes_upto_split 19 M ltac:(lia)) as (rest & E & Hrest).
  change (primes_upto 19) with [2; 3; 5; 7; 11; 13; 17; 19] in E.
  pose proof (primes_upto_sorted M) as Hs. rewrite E in *.
  change (drop 8 ([2; 3; 5; 7; 11; 13; 17; 19] ++ rest)) with rest.
  destruct (sorted_app_inv _ _ Hs) as [HR _]. split; [exact HR|].
  intros q. split.
  - intros Hq. pose proof (Hrest q Hq) as H19.
    assert (Hin : In q (primes_upto M))
      by (rewrite E; apply in_or_app; now right).
    apply primes_upto_spec in Hin. destruct Hin as [Hp Hle].
    split; [exact Hp | lia].
  - intros [Hp Hr].
    assert (Hin : In q (primes_upto M))
      by (apply primes_upto_spec; split; [exact Hp | lia]).
    rewrite E in Hin. apply in_app_or in Hin.
    destruct Hin as [Hin|Hin]; [|exact Hin].
    exfalso. cbn [In] in Hin. lia.
Qed.

Section Block.

Variables y M : Z.
Hypothesis y_range : 1 <= y.
Hypothesis M_range : M < 2 ^ 31.

Let upper := Z.sqrt (6 * (y * vx6 + vx6) + 1).

Hypothesis guard : exists q, In q (primes_upto M) /\ upper < q.

Variables x5 x7 t5 t7 : BITMAP.
Hypothesis wheel : wheel_state 6 (vx6, x5, x7).
Hypothesis clone5 : data t5 = data x5.
Hypothesis clone7 : data t7 = data x7.
Hypothesis block5 : vx6 < 8 * Z.of_nat (length (data t5)).
Hypothesis block7 : vx6 < 8 * Z.of_nat (length (data t7)).

Let R := drop 8 (primes_upto M).

Lemma upper_bounds :
  19 < upper /\ upper * upper <= 6 * (y * vx6 + vx6) + 1 /\
  upper < 6 * (y * vx6) + 5 /\ upper < M.
Proof.
  assert (Hvx6 : vx6 = 1616615) by reflexivity.
  pose proof (mul_ge_r y vx6 y_range ltac:(lia)) as Hyv.
  destruct (Z.sqrt_spec (6 * (y * vx6 + vx6) + 1) ltac:(lia)) as [Hlo Hhi].
  fold upper in Hlo, Hhi.
  assert (H0 : 0 <= upper) by apply Z.sqrt_nonneg.
  split; [|split; [exact Hlo|split]].
  - destruct (Z.lt_ge_cases 19 upper) as [|Hge]; [assumption|]. exfalso.
    assert ((upper + 1) * (upper + 1) <= 20 * 20)
      by (apply Z.mul_le_mono_nonneg; lia).
    lia.
  - destruct (Z.lt_ge_cases upper (6 * (y * vx6) + 5)) as [|Hge];
      [assumption|]. exfalso.
    pose proof (square_le (6 * (y * vx6) + 5) upper ltac:(lia)) as [_ Hsq].
    pose proof (Z.mul_nonneg_nonneg (y * vx6) (y * vx6) ltac:(lia)
                  ltac:(lia)) as Htt.
    replace ((6 * (y * vx6) + 5) * (6 * (y * vx6) + 5))
      with (36 * (y * vx6 * (y * vx6)) + 60 * (y * vx6) + 25) in Hsq by ring.
    lia.
  - destruct guard as (q & Hq & Hgt). apply primes_upto_spec in Hq. lia.
Qed.

(** After the marking, the flag is cleared and a set bit of the block
    stands for a prime, a cleared bit for a composite. *)
Lemma block_bits (l j : Z) :
  l = -1 \/ l = 1 -> 1 <= j <= vx6 ->
  let r := vx6_mark R upper y t5 t7 in
  snd r = false /\
  (bitmap_get_bit (if l <? 0 then fst (fst r) else snd (fst r)) j = true <->
   Z.prime (6 * (j + y * vx6) + l)).
Proof.
  intros Hl Hj. cbv zeta.
  assert (Hvx6 : vx6 = 1616615) by reflexivity.
  assert (K6 : (2 <= 6 <= 6)%nat) by lia.
  destruct upper_bounds as (Hu19 & Hulo & Huz & HuM).
  pose proof (mul_ge_r y vx6 y_range ltac:(lia)) as Hyv.
  destruct (cached_roots M ltac:(lia)) as [HRs HR]. fold R in HRs, HR.
  assert (HWpos : forall q, In q (take 6 s_primes) -> 0 < q).
  { intros q Hq. destruct (wheel_primes 6 K6 q Hq). lia. }
  assert (Hrange : forall p, In p R -> 5 <= p < 2 ^ 31).
  { intros p Hp. apply HR in Hp. lia. }
  destruct (vx6_mark_spec upper y R t5 t7 HRs Hrange block5 block7)
    as [Hflag Hbits].
  split.
  { apply Hflag. destruct guard as (q & Hq & Hgt). exists q.
    split; [|exact Hgt]. apply HR. apply primes_upto_spec in Hq.
    destruct Hq as [Hqp Hql]. split; [exact Hqp | lia]. }
  destruct (Hbits j ltac:(lia)) as [M5 M7].
  set (z := 6 * (j + y * vx6) + l).
  assert (Hz : 6 * (y * vx6) + 5 <= z <= 6 * (y * vx6 + vx6) + 1)
    by (unfold z; destruct Hl as [-> | ->]; lia).
  assert (Hmark : bitmap_get_bit
                    (if l <? 0 then fst (fst (vx6_mark R upper y t5 t7))
                     else snd (fst (vx6_mark R upper y t5 t7))) j = true <->
                  bitmap_get_bit (if l <? 0 then x5 else x7) j = true /\
                  forall q, In q R -> q <= upper ->
                    on_stride q (solve_for_x_gmp l q vx6 y) vx6 j = false).
  { destruct Hl as [-> | ->]; cbn [Z.ltb Z.compare].
    - rewrite M5, (bitmap_get_bit_data t5 x5 j clone5). reflexivity.
    - rewrite M7, (bitmap_get_bit_data t7 x7 j clone7). reflexivity. }
  rewrite Hmark, (wheel_bit 6 vx6 x5 x7 l j wheel Hl ltac:(lia) HWpos).
  assert (Hshift : forall q, In q (take 6 s_primes) ->
                             (q | 6 * j + l) <-> (q | z)).
  { intros q Hq. destruct (wheel_prime_divides 6 K6 q Hq) as [t Ht].
    change (primorial 6) with vx6 in Ht. unfold z. split; intros [u Hu].
    - exists (u + 6 * y * t). rewrite Ht. lia.
    - exists (u - 6 * y * t). rewrite Ht in Hu. lia. }
  assert (Htop : wheel_top 6 = 19) by reflexivity.
  split.
  - intros [[_ Hopen] Hroots].
    destruct (prime_or_factored z ltac:(lia))
      as [Hp|(q & m & Hq & Hqm & Hle)]; [exact Hp|]. exfalso.
    pose proof (lane_factor_ge_5 q m (j + y * vx6) l Hl Hq Hqm) as H5.
    destruct (Z.le_gt_cases q 19) as [Hw|Hw].
    + assert (HqW : In q (take 6 s_primes))
        by (apply wheel_holds; [exact K6 | exact Hq | lia]).
      apply (Hopen q HqW). apply (Hshift q HqW).
      exists m. rewrite Hqm. ring.
    + assert (Hqq : q * q <= z)
        by (rewrite Hqm; apply Z.mul_le_mono_nonneg_l; lia).
      assert (Hqu : q <= upper) by (apply Z.sqrt_le_square; lia).
      assert (HqR : In q R) by (apply HR; split; [exact Hq | lia]).
      pose proof (Hroots q HqR Hqu) as Hoff.
      assert (Hon : on_stride q (solve_for_x_gmp l q vx6 y) vx6 j = true).
      { apply stride_divides_gmp; try assumption; try lia.
        exists m. rewrite (Z.mul_comm vx6 y). fold z. rewrite Hqm. ring. }
      congruence.
  - intros Hp. split; [split; [lia|]|].
    + intros q Hq Hd. apply (Hshift q Hq) in Hd.
      destruct (wheel_primes 6 K6 q Hq) as [_ Hr].
      destruct Hp as [_ Hp]. apply (Hp q); [lia | exact Hd].
    + intros q Hq Hqu.
      pose proof (proj1 (HR q) Hq) as [Hqp Hqr].
      destruct (on_stride q (solve_for_x_gmp l q vx6 y) vx6 j) eqn:Hon;
        [|reflexivity].
      exfalso. apply stride_divides_gmp in Hon; try assumption; try lia.
      rewrite (Z.mul_comm vx6 y) in Hon. fold z in Hon.
      destruct Hp as [_ Hp]. apply (Hp q); [lia | exact Hon].
Qed.

(** The candidates that survive the marking are the primes of the
    block. *)
Lemma block_survivors (probab_prime : Z -> Z -> bool) (rounds : Z)
      (m5 m7 : BITMAP) :
  vx6_mark R upper y t5 t7 = (m5, m7, false) ->
  survivors probab_prime false rounds (y * vx6) m5 m7 = block_primes y.
Proof.
  intros Em. unfold survivors, block_primes, block_candidates.
  assert (Hvx6 : vx6 = 1616615) by reflexivity.
  assert (Hhi : 4 + Z.of_nat (Z.to_nat (vx6 - 3)) <= vx6 + 1) by lia.
  revert Hhi. generalize (Z.to_nat (vx6 - 3)). intros n.
  assert (Hlo : 1 <= 4) by lia. revert Hlo. generalize 4.
  induction n as [|n IH]; intros lo Hlo Hhi; [reflexivity|].
  rewrite Zrange_S. cbn [flat_map]. rewrite List.filter_app.
  rewrite IH by lia. f_equal.
  unfold survivors_at, accepted. rewrite !andb_true_r.
  destruct (block_bits (-1) lo ltac:(now left) ltac:(lia)) as [_ B5].
  destruct (block_bits 1 lo ltac:(now right) ltac:(lia)) as [_ B7].
  cbv zeta in B5, B7. rewrite Em in B5, B7.
  cbn [fst snd Z.ltb Z.compare] in B5, B7.
  unfold iZ_gmp. change (0 <? -1) with false. change (0 <? 1) with true.
  cbn [List.filter app].
  replace (6 * (y * vx6 + lo) - 1) with (6 * (lo + y * vx6) + -1) by ring.
  replace (6 * (y * vx6 + lo) + 1) with (6 * (lo + y * vx6) + 1) by ring.
  assert (E5 : bitmap_get_bit m5 lo
               = is_prime_trial (6 * (lo + y * vx6) + -1)).
  { apply eq_true_iff_eq. rewrite B5, is_prime_trial_spec. reflexivity. }
  assert (E7 : bitmap_get_bit m7 lo
               = is_prime_trial (6 * (lo + y * vx6) + 1)).
  { apply eq_true_iff_eq. rewrite B7, is_prime_trial_spec. reflexivity. }
  rewrite E5, E7.
  destruct (is_prime_trial (6 * (lo + y * vx6) + -1));
    destruct (is_prime_trial (6 * (lo + y * vx6) + 1)); reflexivity.
Qed.

End Block.

(** ** The walk when the gap block is too small *)

Section WalkFull.

Variable probab_prime : Z -> Z -> bool.
Variable is_large_limit : bool.
Variables rounds yvx : Z.

Lemma record_gap_full (st : walk_state) :
  w_p_count st = Z.of_nat (length (w_p_gaps st)) ->
  p_gaps_capacity <= Z.of_nat (length (w_p_gaps st)) ->
  record_gap st = Stop OutOfBoundsWrite.
Proof.
  intros Hc Hcap. unfold record_gap. rewrite Hc.
  destruct (Z.ltb_spec (Z.of_nat (length (w_p_gaps st))) p_gaps_capacity);
    [lia|].
  rewrite andb_false_r. reflexivity.
Qed.

Lemma walk_lane_hit (lane x : Z) (st : walk_state) :
  bitmap_get_bit (if lane <? 0 then w_x5 st else w_x7 st) x = true ->
  accepted probab_prime is_large_limit rounds yvx lane x = true ->
  walk_lane probab_prime is_large_limit rounds yvx lane x st = record_gap st.
Proof.
  intros Hb Ha. unfold walk_lane. rewrite Hb.
  unfold accepted in Ha. cbv zeta. rewrite Ha. reflexivity.
Qed.

Lemma walk_visit_stop (e : fault) (l : list Z) :
  fold_left (walk_visit probab_prime is_large_limit rounds yvx) l (Stop e)
  = Stop e.
Proof. induction l as [|x l IH]; [reflexivity | exact IH]. Qed.

(** One round of the walk that meets a survivor with the block full. *)
Lemma walk_visit_full (x : Z) (st : walk_state) :
  1 <= x <= vx6 ->
  w_p_count st = Z.of_nat (length (w_p_gaps st)) ->
  let A := survivors_at probab_prime is_large_limit rounds yvx
                        (w_x5 st) (w_x7 st) x in
  Z.of_nat (length (w_p_gaps st)) <= p_gaps_capacity ->
  p_gaps_capacity < Z.of_nat (length (w_p_gaps st)) + Z.of_nat (length A) ->
  walk_visit probab_prime is_large_limit rounds yvx (Done st) x
  = Stop OutOfBoundsWrite.
Proof.
  intros Hx Hc. cbv zeta. intros Hle Hfull.
  unfold survivors_at in Hfull. rewrite length_app in Hfull.
  unfold walk_visit. cbn [mbind outcome_bind].
  set (st1 := add_gap 4 st).
  destruct (bitmap_get_bit (w_x5 st) x &&
            accepted probab_prime is_large_limit rounds yvx (-1) x) eqn:E5.
  - apply andb_true_iff in E5. destruct E5 as [B5 A5].
    rewrite (walk_lane_hit (-1) x st1 B5 A5).
    destruct (Z.lt_ge_cases (Z.of_nat (length (w_p_gaps st)))
                            p_gaps_capacity) as [Hlt|Hge].
    + rewrite record_gap_spec by assumption. cbn [mbind outcome_bind].
      destruct (bitmap_get_bit (w_x7 st) x &&
                accepted probab_prime is_large_limit rounds yvx 1 x) eqn:E7;
        [|cbn [length] in Hfull; lia].
      apply andb_true_iff in E7. destruct E7 as [B7 A7].
      rewrite walk_lane_hit by assumption.
      apply record_gap_full; unfold st1; cbn [add_gap w_p_count w_p_gaps];
        rewrite length_app; cbn [length] in *; lia.
    + rewrite record_gap_full by (unfold st1; cbn [add_gap w_p_count w_p_gaps]; assumption). reflexivity.
  - cbn [length Z.of_nat] in Hfull.
    destruct (bitmap_get_bit (w_x7 st) x &&
              accepted probab_prime is_large_limit rounds yvx 1 x) eqn:E7;
      [|cbn [length] in Hfull; lia].
    apply andb_true_iff in E7. destruct E7 as [B7 A7].
    cbn [length] in Hfull.
    destruct (walk_lane5_spec probab_prime is_large_limit rounds yvx x st1
                ltac:(lia) Hc) as (st2 & E2 & H27 & _ & Hc2 & R2).
    { change (w_x5 st1) with (w_x5 st). rewrite E5. discriminate. }
    change (w_x5 st1) with (w_x5 st) in R2. rewrite E5 in R2.
    destruct R2 as [Rg _].
    rewrite E2. cbn [mbind outcome_bind].
    rewrite walk_lane_hit;
      [|cbn [add_gap w_x7 Z.ltb Z.compare]; rewrite H27; exact B7 | exact A7].
    apply record_gap_full; cbn [add_gap w_p_count w_p_gaps];
      [exact Hc2 | rewrite Rg; change (w_p_gaps st1) with (w_p_gaps st); lia].
Qed.

Lemma gaps_from_length (prev : Z) (l : list Z) :
  length (gaps_from prev l) = length l.
Proof.
  revert prev. induction l as [|c l IH]; intros prev; cbn [gaps_from length];
    [reflexivity | now rewrite IH].
Qed.

Lemma walk_fold_full (n : nat) :
  forall (lo : Z) (st : walk_state) (prev : Z),
    1 <= lo -> lo + Z.of_nat n <= vx6 + 1 ->
    w_p_count st = Z.of_nat (length (w_p_gaps st)) ->
    let found := flat_map (survivors_at probab_prime is_large_limit rounds
                                        yvx (w_x5 st) (w_x7 st))
                          (Zrange lo n) in
    Z.of_nat (length (w_p_gaps st)) <= p_gaps_capacity ->
    p_gaps_capacity
    < Z.of_nat (length (w_p_gaps st)) + Z.of_nat (length found) ->
    w_gap st = iZ_gmp (yvx + (lo - 1)) 1 - prev ->
    0 <= w_gap st <= 6 * lo ->
    fold_left (walk_visit probab_prime is_large_limit rounds yvx)
              (Zrange lo n) (Done st) = Stop OutOfBoundsWrite.
Proof.
  induction n as [|n IH]; intros lo st prev Hlo Hhi Hc; cbv zeta;
    intros Hle Hfull Hgap Hb.
  - cbn [Zrange seq map flat_map length] in Hfull. lia.
  - rewrite Zrange_S in *. cbn [flat_map fold_left] in *.
    rewrite length_app in Hfull.
    set (A := survivors_at probab_prime is_large_limit rounds yvx
                           (w_x5 st) (w_x7 st) lo) in *.
    destruct (Z.le_gt_cases (Z.of_nat (length (w_p_gaps st))
                             + Z.of_nat (length A)) p_gaps_capacity)
      as [Hfit|Hover].
    + destruct (walk_visit_spec probab_prime is_large_limit rounds yvx lo st
                  prev ltac:(lia) Hc Hfit Hgap Hb)
        as (st1 & E1 & Hg1 & _ & Hc1 & Hgap1 & Hb1 & H5 & H7).
      fold A in Hg1, Hgap1. rewrite E1.
      assert (Hext :
        flat_map (survivors_at probab_prime is_large_limit rounds yvx
                               (w_x5 st1) (w_x7 st1)) (Zrange (lo + 1) n)
        = flat_map (survivors_at probab_prime is_large_limit rounds yvx
                                 (w_x5 st) (w_x7 st)) (Zrange (lo + 1) n)).
      { apply flat_map_survivors_ext; [lia | |]; intros j Hj;
          [apply H5 | apply H7]; lia. }
      apply (IH (lo + 1) st1 (List.last A prev)); try lia; try assumption.
      * rewrite Hg1, length_app, length_map, gaps_from_length. lia.
      * rewrite Hext, Hg1, length_app, length_map, gaps_from_length. lia.
      * replace (lo + 1 - 1) with lo by lia. exact Hgap1.
    + rewrite (walk_visit_full lo st ltac:(lia) Hc Hle Hover).
      apply walk_visit_stop.
Qed.

(** The walk in a fresh block with more survivors than cells. *)
Lemma vx6_walk_full (v : VX_OBJ) (x5 x7 : BITMAP) :
  vx_x5 v = Some x5 -> vx_x7 v = Some x7 ->
  vx_p_count v = 0 -> vx_p_gaps v = [] ->
  p_gaps_capacity
  < Z.of_nat (length (survivors probab_prime is_large_limit rounds yvx
                                x5 x7)) ->
  vx6_walk probab_prime is_large_limit rounds yvx v = Stop OutOfBoundsWrite.
Proof.
  intros H5 H7 Hcnt Hgaps Hfull.
  assert (H1 : 4 + Z.of_nat (Z.to_nat (vx6 - 3)) <= vx6 + 1).
  { assert (Hvx6 : vx6 = 1616615) by reflexivity. rewrite Z2Nat.id; lia. }
  unfold vx6_walk, survivors in *. rewrite H5, H7, Hcnt, Hgaps.
  revert H1 Hfull. generalize (Z.to_nat (vx6 - 3)). intros n H1 Hfull.
  cbn [deref mbind outcome_bind]. change (mret ?x) with (Done x).
  rewrite (walk_fold_full n 4
             {| w_x5 := x5; w_x7 := x7; w_p_gaps := [];
                w_p_count := 0; w_gap := 18 |} (iZ_gmp yvx 1));
    cbn [w_x5 w_x7 w_p_gaps w_p_count w_gap length];
    try reflexivity; try lia; try exact Hfull.
  - assert (p_gaps_capacity = 808307) by reflexivity. lia.
  - unfold iZ_gmp. change (0 <? 1) with true. lia.
Qed.

End WalkFull.

(** ** The block of [vx6_sieve] *)

(** [block_primes y] lists the primes of block [y]: those between
    [6 * (y * vx6) + 23] and [6 * (y * vx6 + vx6) + 1]. *)
Lemma block_primes_spec (y p : Z) :
  0 <= y ->
  In p (block_primes y) <->
  Z.prime p /\ 6 * (y * vx6) + 23 <= p <= 6 * (y * vx6 + vx6) + 1.
Proof.
  intros Hy. assert (Hvx6 : vx6 = 1616615) by reflexivity.
  unfold block_primes, block_candidates.
  rewrite filter_In, is_prime_trial_spec, in_flat_map. split.
  - intros [(x & Hx & Hin) Hp]. split; [exact Hp|].
    unfold Zrange in Hx. apply in_map_iff in Hx.
    destruct Hx as (k & <- & Hk). apply in_seq in Hk.
    unfold iZ_gmp in Hin. change (0 <? -1) with false in Hin.
    change (0 <? 1) with true in Hin. cbv iota in Hin.
    destruct Hin as [<- | [<- | []]]; lia.
  - intros [Hp Hr]. split; [|exact Hp].
    pose proof (Z.mul_nonneg_nonneg y vx6 Hy ltac:(lia)) as Hyv.
    pose proof (Z.div_mod p 6 ltac:(lia)) as Hd.
    destruct (prime_on_lane p Hp ltac:(lia)) as [E|E]; rewrite E in Hd.
    + exists (p / 6 - y * vx6). split.
      * apply In_Zrange. rewrite Z2Nat.id by lia. lia.
      * right. left. unfold iZ_gmp. change (0 <? 1) with true. cbv iota.
        lia.
    + exists (p / 6 + 1 - y * vx6). split.
      * apply In_Zrange. rewrite Z2Nat.id by lia. lia.
      * left. unfold iZ_gmp. change (0 <? -1) with false. cbv iota. lia.
Qed.

(** The cached wheel of [vx6 + 100] bits and its clones. *)
Lemma vx6_wheel_clones :
  let w := fresh_wheel vx6 100 in
  wheel_state 6 (vx6, fst w, snd w) /\
  exists t5 t7,
    bitmap_clone (fst w) = Some t5 /\ bitmap_clone (snd w) = Some t7 /\
    data t5 = data (fst w) /\ data t7 = data (snd w) /\
    vx6 < 8 * Z.of_nat (length (data t5)) /\
    vx6 < 8 * Z.of_nat (length (data t7)).
Proof.
  cbv zeta. assert (Hvx6 : vx6 = 1616615) by reflexivity.
  destruct (bitmap_create_some (vx6 + 100) ltac:(lia)) as [b Eb].
  unfold fresh_wheel. rewrite Eb.
  destruct (bitmap_create_spec (vx6 + 100) b Eb) as (Hsz & Hlen & _).
  assert (Hbytes : byte_size (vx6 + 100) = 202090) by reflexivity.
  destruct (construct_iZm_segment_shape vx6 b b) as [[L5 S5] [L7 S7]].
  split.
  - change vx6 with (primorial 6).
    apply (construct_iZm_segment_wheel 6 (primorial 6 + 100)
             (primorial 6 + 100) b b); try exact Eb; try lia;
      change (primorial 6) with 1616615; unfold two64; lia.
  - destruct (bitmap_clone_same (fst (construct_iZm_segment vx6 b b)))
      as (t5 & E5 & D5 & _); [rewrite S5; lia | rewrite S5, L5, Hsz; exact Hlen|].
    destruct (bitmap_clone_same (snd (construct_iZm_segment vx6 b b)))
      as (t7 & E7 & D7 & _); [rewrite S7; lia | rewrite S7, L7, Hsz; exact Hlen|].
    exists t5, t7. split; [exact E5|]. split; [exact E7|].
    split; [exact D5|]. split; [exact D7|]. split.
    + rewrite D5, L5, Hlen, Hbytes. lia.
    + rewrite D7, L7, Hlen, Hbytes. lia.
Qed.



(** * The wheel sieve *)

Lemma marks_so_far_below (step n F F' : Z) (b : BITMAP) :
  marks_so_far step n F b -> F' <= F -> marks_so_far step n F' b.
Proof.
  intros (Hlen & Hs & Hc) HF. split; [exact Hlen|]. split; [exact Hs|].
  intros j q m Hj Hst Hq Hlt. apply Hc; try assumption. lia.
Qed.

Lemma even_not_prime (a : Z) : 1 < a -> ~ Z.prime (2 * a).
Proof.
  intros Ha. apply composite_not_prime. exists 2, a.
  split; [lia|]. split; [exact Ha | reflexivity].
Qed.

Lemma odd_pred (p : Z) : p mod 2 = 1 -> (p - 1) mod 2 = 0.
Proof.
  intros Hodd. pose proof (Z.div_mod p 2 ltac:(lia)) as Hd.
  rewrite Hodd in Hd.
  replace (p - 1) with (p / 2 * 2) by lia. apply Z.mod_mul. lia.
Qed.

Lemma odd_from (c a : Z) : (c mod 2 = 1) -> (c + 2 * a) mod 2 = 1.
Proof.
  intros Hc. replace (c + 2 * a) with (c + a * 2) by ring.
  rewrite Z.mod_add by lia. exact Hc.
Qed.

(** The table of 30 bits is filled without a fault. *)
Lemma wheel_table_done :
  match bitmap_create 30 with
  | Some b => match fold_left wheel_table_visit [2; 3; 5] (Done b) with
              | Done _ => True
              | Stop _ => False
              end
  | None => False
  end.
Proof. vm_compute. exact I. Qed.

(** A clearing loop up to [n] on the bitmap of [n + 1] bits stays inside
    the block. *)
Lemma clear_stride_upto (n q s : Z) (b : BITMAP) :
  0 <= n < 2 ^ 52 -> 0 < q < 2 ^ 53 -> 0 <= s ->
  Z.of_nat (length (data b)) = (n + 8) / 8 ->
  exists b',
    bitmap_clear_mod_p_in_block b q s n = Done b' /\
    length (data b') = length (data b) /\
    forall j, 0 <= j ->
      bitmap_get_bit b' j = bitmap_get_bit b j && negb (on_stride q s n j).
Proof.
  intros Hn Hq Hs Hlen. unfold bitmap_clear_mod_p_in_block.
  destruct (block_covers n ltac:(lia)) as (Hb1 & _ & _).
  apply clear_mod_p_in_block_spec; try lia.
  - unfold two64. lia.
  - intros j Hj. apply on_stride_iff in Hj; [|lia].
    destruct Hj as (k & _ & _ & Hjn). lia.
Qed.

Lemma primes_below_7 (q : Z) : Z.prime q -> q < 7 -> q = 2 \/ q = 3 \/ q = 5.
Proof.
  intros Hq Hlt.
  assert (Hin : In q (primes_upto 6))
    by (apply primes_upto_spec; split; [exact Hq | lia]).
  change (primes_upto 6) with [2; 3; 5] in Hin.
  destruct Hin as [<- | [<- | [<- | []]]]; auto.
Qed.

(** The multiples of 2, 3 and 5 from their squares on are cleared. *)
Lemma wheel_base_marks (n : Z) (b : BITMAP) :
  0 <= n < 2 ^ 52 -> bitmap_create (n + 1) = Some b ->
  exists s,
    fold_left (wheel_base_visit n) [2; 3; 5] (Done (bitmap_set_all b))
    = Done s /\
    marks_so_far 2 n 7 s.
Proof.
  intros Hn E.
  destruct (bitmap_create_well_sized (n + 1) b E ltac:(unfold two64; lia))
    as (Hw & Hsz & _).
  destruct (bitmap_create_spec (n + 1) b E) as (_ & Hlen & _).
  rewrite byte_size_small in Hlen by (unfold two64; lia).
  assert (H0 : 0 <= (n + 1 + 7) / 8) by (apply Z.div_pos; lia).
  assert (Hl0 : Z.of_nat (length (data (bitmap_set_all b))) = (n + 8) / 8).
  { unfold bitmap_set_all. cbn [data].
    rewrite length_app, length_replicate, length_drop, Hlen.
    replace (n + 8) with (n + 1 + 7) by ring. lia. }
  assert (Hset : forall j, 0 <= j <= n ->
                           bitmap_get_bit (bitmap_set_all b) j = true).
  { intros j Hj. apply bitmap_get_bit_set_all;
      [exact Hw | unfold two64; lia | lia]. }
  cbn [fold_left]. unfold wheel_base_visit. cbn [mbind outcome_bind].
  change (u64 (2 * 2)) with 4. change (u64 (3 * 3)) with 9.
  change (u64 (5 * 5)) with 25.
  destruct (clear_stride_upto n 2 4 (bitmap_set_all b) Hn ltac:(lia)
              ltac:(lia) Hl0) as (b2 & E2 & L2 & B2).
  rewrite E2. cbn [mbind outcome_bind].
  destruct (clear_stride_upto n 3 9 b2 Hn ltac:(lia) ltac:(lia)
              ltac:(rewrite L2; exact Hl0)) as (b3 & E3 & L3 & B3).
  rewrite E3. cbn [mbind outcome_bind].
  destruct (clear_stride_upto n 5 25 b3 Hn ltac:(lia) ltac:(lia)
              ltac:(rewrite L3, L2; exact Hl0)) as (b5 & E5 & L5 & B5).
  rewrite E5. exists b5. split; [reflexivity|].
  assert (Hbits : forall j, 0 <= j <= n ->
            bitmap_get_bit b5 j
            = negb (on_stride 2 4 n j) && negb (on_stride 3 9 n j)
              && negb (on_stride 5 25 n j)).
  { intros j Hj. rewrite B5, B3, B2, Hset by lia. reflexivity. }
  split; [rewrite L5, L3, L2; exact Hl0|]. split.
  - intros j Hj Hbit. rewrite Hbits in Hbit by lia.
    assert (Hq : exists q, 1 < q /\ on_stride q (q * q) n j = true).
    { destruct (on_stride 2 4 n j) eqn:S2; [exists 2; split; [lia|exact S2]|].
      destruct (on_stride 3 9 n j) eqn:S3; [exists 3; split; [lia|exact S3]|].
      destruct (on_stride 5 25 n j) eqn:S5; [exists 5; split; [lia|exact S5]|].
      discriminate Hbit. }
    destruct Hq as (q & Hq & Hst). apply on_stride_iff in Hst; [|lia].
    destruct Hst as (k & Hk & Hjk & _).
    exists q, (q + k). split; [lia|]. split; [lia|]. rewrite Hjk. ring.
  - intros j q m Hj Hodd Hq Hlt _ Hjm Hqm. rewrite Hbits by lia.
    assert (Hst : on_stride q (q * q) n j = true).
    { apply on_stride_iff; [pose proof (Z.prime_ge_2 q Hq); lia|].
      exists (m - q). split; [lia|]. split; [rewrite Hjm; ring | lia]. }
    destruct (primes_below_7 q Hq Hlt) as [-> | [-> | ->]].
    + change (2 * 2) with 4 in Hst. rewrite Hst. reflexivity.
    + change (3 * 3) with 9 in Hst. rewrite Hst. cbn [negb].
      rewrite andb_false_r. reflexivity.
    + change (5 * 5) with 25 in Hst. rewrite Hst. apply andb_false_r.
Qed.

Section WheelLoops.

Variables cap n : Z.
Hypothesis n_range : 0 <= n < 2 ^ 52.
Hypothesis room : Z.of_nat (length (primes_upto n)) <= cap.

(** The body of the marking loop at an odd [p] up to the root. *)
Lemma wheel_root_visit_ok (p : Z) (b : BITMAP) :
  7 <= p <= Z.sqrt n -> p mod 2 = 1 ->
  marks_so_far 2 n p b ->
  exists b',
    wheel_root_visit n (Done b) p = Done b' /\ marks_so_far 2 n (p + 2) b'.
Proof.
  intros Hp Hodd HB.
  assert (Hpp : p * p <= n).
  { destruct (Z.sqrt_spec n ltac:(lia)) as [Hs _].
    assert (p * p <= Z.sqrt n * Z.sqrt n)
      by (apply Z.mul_le_mono_nonneg; lia).
    lia. }
  assert (Hpn : p <= n) by nia.
  assert (Hnext : forall q, p + 1 <= q < p + 2 ->
                            ~ (Z.prime q /\ q <= Z.sqrt n)).
  { intros q Hq [Hqp _]. assert (q = 2 * (p / 2 + 1)).
    { pose proof (Z.div_mod p 2 ltac:(lia)). lia. }
    subst q. revert Hqp. apply even_not_prime.
    pose proof (Z.div_mod p 2 ltac:(lia)). lia. }
  unfold wheel_root_visit. cbn [mbind outcome_bind].
  destruct (bitmap_get_bit b p) eqn:Hbit.
  - assert (Hprime : Z.prime p).
    { apply (marks_prime_at 2 n p b); try assumption; [lia|].
      apply odd_pred, Hodd. }
    rewrite (u64_small (2 * p)), (u64_small (p * p)) by (unfold two64; lia).
    destruct HB as (Hlen & Hsound & Hcompl).
    destruct (clear_stride_upto n (2 * p) (p * p) b n_range ltac:(lia)
                ltac:(lia) Hlen) as (b' & E & Hl & Hbits).
    exists b'. split; [exact E|].
    apply (marks_so_far_advance 2 n (p + 1)); [|lia|exact Hnext].
    refine (marks_so_far_mark_upto 2 n n p b b'
              (or_intror (conj eq_refl Hodd)) ltac:(lia) ltac:(lia) Hprime
              ltac:(lia) (conj Hlen (conj Hsound Hcompl)) Hl _).
    intros j Hj. apply Hbits. lia.
  - exists b. split; [reflexivity|].
    apply (marks_so_far_advance 2 n p); [exact HB | lia |].
    intros q Hq [Hqp Hqs].
    destruct (Z.eq_dec q p) as [->|Hne]; [|apply (Hnext q); [lia|now split]].
    destruct HB as (_ & Hsound & _).
    apply (composite_not_prime p); [|exact Hqp].
    apply Hsound; [lia | exact Hbit].
Qed.

Lemma wheel_root_loop_ok (k : nat) :
  forall (a : Z) (b : BITMAP),
    0 <= a -> 2 * (a + Z.of_nat k) <= Z.max 0 (Z.sqrt n - 5) ->
    marks_so_far 2 n (7 + 2 * a) b ->
    exists b',
      fold_left (wheel_root_visit n) (map (fun i => 7 + 2 * i) (Zrange a k))
                (Done b) = Done b' /\
      marks_so_far 2 n (7 + 2 * (a + Z.of_nat k)) b'.
Proof.
  induction k as [|k IH]; intros a b Ha Hhi HB.
  - exists b. split; [reflexivity|].
    replace (a + Z.of_nat 0) with a by lia. exact HB.
  - rewrite Zrange_S. cbn [map fold_left].
    destruct (wheel_root_visit_ok (7 + 2 * a) b ltac:(lia)
                (odd_from 7 a eq_refl) HB) as (b1 & E1 & HB1).
    rewrite E1.
    replace (7 + 2 * a + 2) with (7 + 2 * (a + 1)) in HB1 by ring.
    destruct (IH (a + 1) b1 ltac:(lia) ltac:(lia) HB1) as (b2 & E2 & HB2).
    exists b2. split; [exact E2|].
    replace (a + Z.of_nat (S k)) with (a + 1 + Z.of_nat k) by lia.
    exact HB2.
Qed.

(** Once the marking loop has passed the root, a set bit of an odd number
    stands for a prime and a cleared bit for a composite. *)
Lemma wheel_marks_final (F p : Z) (b : BITMAP) :
  marks_so_far 2 n F b -> Z.sqrt n < F ->
  2 <= p <= n -> p mod 2 = 1 ->
  bitmap_get_bit b p = true <-> Z.prime p.
Proof.
  intros HB HF Hp Hodd. split.
  - intros Hbit. apply (marks_prime_at 2 n p b); try assumption;
      [|apply odd_pred, Hodd].
    destruct (Z.le_gt_cases p F) as [Hle|Hgt].
    + apply (marks_so_far_below 2 n F); assumption.
    + apply (marks_so_far_advance 2 n F); [exact HB | lia |].
      intros q Hq [_ Hqs]. lia.
  - intros Hprime. destruct (bitmap_get_bit b p) eqn:Hbit; [reflexivity|].
    exfalso. destruct HB as (_ & Hsound & _).
    apply (composite_not_prime p); [|exact Hprime].
    apply Hsound; assumption.
Qed.

Variable sieve : BITMAP.
Variable F : Z.
Hypothesis sieved : marks_so_far 2 n F sieve.
Hypothesis past_root : Z.sqrt n < F.

(** The state of the prime list before the candidate [p]. *)
Let collected (p : Z) (obj : PRIMES_OBJ) : Prop :=
  capacity obj = cap /\
  p_count obj = Z.of_nat (length (p_array obj)) /\
  primes_below p (p_array obj).

Lemma wheel_collect_visit_ok (p : Z) (obj : PRIMES_OBJ) :
  7 <= p <= n -> p mod 2 = 1 -> collected p obj ->
  exists obj',
    wheel_collect_visit sieve (Done obj) p = Done obj' /\
    collected (p + 2) obj'.
Proof.
  intros Hp Hodd (Hc & Hk & HL).
  pose proof (wheel_marks_final F p sieve sieved past_root ltac:(lia) Hodd)
    as Hbitp.
  assert (Hnext : ~ Z.prime (p + 1)).
  { replace (p + 1) with (2 * (p / 2 + 1))
      by (pose proof (Z.div_mod p 2 ltac:(lia)); lia).
    apply even_not_prime. pose proof (Z.div_mod p 2 ltac:(lia)). lia. }
  unfold wheel_collect_visit. cbn [mbind outcome_bind].
  destruct (bitmap_get_bit sieve p) eqn:Hbit.
  - assert (Hprime : Z.prime p) by (apply Hbitp; reflexivity).
    pose proof (primes_below_room n p _ HL Hprime ltac:(lia)) as Hroom.
    rewrite primes_obj_append_full by lia.
    eexists. split; [reflexivity|].
    split; [exact Hc|]. cbn [p_count p_array]. split.
    + rewrite length_app. cbn [length]. lia.
    + apply (primes_below_advance (p + 1));
        [apply primes_below_append; assumption | lia |].
      intros q Hq. replace q with (p + 1) by lia. exact Hnext.
  - exists obj. split; [reflexivity|]. split; [exact Hc|].
    split; [exact Hk|].
    apply (primes_below_advance p); [exact HL | lia |].
    intros q Hq Hqp. destruct (Z.eq_dec q p) as [->|Hne].
    + apply Hbitp in Hqp. congruence.
    + apply Hnext. replace (p + 1) with q by lia. exact Hqp.
Qed.

Lemma wheel_collect_loop_ok (k : nat) :
  forall (a : Z) (obj : PRIMES_OBJ),
    0 <= a -> 2 * (a + Z.of_nat k) <= Z.max 0 (n - 5) ->
    collected (7 + 2 * a) obj ->
    exists obj',
      fold_left (wheel_collect_visit sieve)
                (map (fun i => 7 + 2 * i) (Zrange a k)) (Done obj)
      = Done obj' /\
      capacity obj' = cap /\
      p_count obj' = Z.of_nat (length (p_array obj')) /\
      primes_below (7 + 2 * (a + Z.of_nat k)) (p_array obj').
Proof.
  induction k as [|k IH]; intros a obj Ha Hhi Hinv.
  - exists obj. split; [reflexivity|].
    replace (a + Z.of_nat 0) with a by lia. exact Hinv.
  - rewrite Zrange_S. cbn [map fold_left].
    destruct (wheel_collect_visit_ok (7 + 2 * a) obj ltac:(lia)
                (odd_from 7 a eq_refl) Hinv) as (o1 & E1 & H1).
    rewrite E1.
    replace (7 + 2 * a + 2) with (7 + 2 * (a + 1)) in H1 by ring.
    destruct (IH (a + 1) o1 ltac:(lia) ltac:(lia) H1) as (o2 & E2 & H2).
    exists o2. split; [exact E2|].
    replace (a + Z.of_nat (S k)) with (a + 1 + Z.of_nat k) by lia.
    exact H2.
Qed.

End WheelLoops.

(** X30.  [sieve_wheel(n)] does not check the pointer that
    [primes_obj_init] returns: with a capacity of 0 or less the first
    append dereferences [NULL].  For [2 <= n < 2^52] and a prime array
    with room for the primes up to [max(n, 5)], it returns the primes up
    to [max(n, 5)] in ascending order, trimmed to their count: the primes
    up to [n] when [n >= 5], but 2, 3 and 5 for [n] = 2, 3 and 4, since
    the three base primes are appended whatever [n] is. *)
Theorem sieve_wheel_correct (initial_estimate n : Z) :
  0 <= n < 2 ^ 52 ->
  (initial_estimate <= 0 ->
   sieve_wheel initial_estimate n = Stop NullDereference) /\
  (2 <= n ->
   Z.of_nat (length (primes_upto (Z.max n 5))) <= initial_estimate ->
   exists primes,
     sieve_wheel initial_estimate n = Done primes /\
     primes_of primes = primes_upto (Z.max n 5) /\
     (forall p, In p (primes_of primes) <-> Z.prime p /\ p <= Z.max n 5) /\
     (n < 5 -> primes_of primes = [2; 3; 5]) /\
     capacity primes = p_count primes).
Proof.
  intros Hn. split.
  { intros Hneg. unfold sieve_wheel, primes_obj_init.
    destruct (Z.leb_spec initial_estimate 0) as [_|]; [reflexivity | lia]. }
  intros Hn2 Hroom.
  assert (H3 : 3 <= initial_estimate).
  { pose proof (primes_upto_length_mono 5 (Z.max n 5) ltac:(lia)) as Hm.
    change (primes_upto 5) with [2; 3; 5] in Hm. cbn [length] in Hm. lia. }
  assert (Hroom' : Z.of_nat (length (primes_upto n)) <= initial_estimate).
  { pose proof (primes_upto_length_mono n (Z.max n 5) ltac:(lia)). lia. }
  unfold sieve_wheel, primes_obj_init.
  destruct (Z.leb_spec initial_estimate 0) as [|_]; [lia|].
  cbn [deref mbind outcome_bind].
  rewrite primes_obj_append_full by (cbn [p_count p_array capacity length]; lia).
  cbn [mbind outcome_bind p_count p_array capacity p_sha256 app].
  rewrite primes_obj_append_full by (cbn [p_count p_array capacity length]; lia).
  cbn [mbind outcome_bind p_count p_array capacity p_sha256 app].
  rewrite primes_obj_append_full by (cbn [p_count p_array capacity length]; lia).
  cbn [mbind outcome_bind p_count p_array capacity p_sha256 app].
  pose proof wheel_table_done as Htab.
  destruct (bitmap_create 30) as [tb|]; [|contradiction].
  cbn [deref mbind outcome_bind].
  rewrite (u64_small (n + 1)) by (unfold two64; lia).
  destruct (bitmap_create_some (n + 1) ltac:(lia)) as [b Eb]. rewrite Eb.
  cbn [deref mbind outcome_bind].
  destruct (fold_left wheel_table_visit [2; 3; 5] (Done tb)) as [tb'|];
    [|contradiction].
  cbn [mbind outcome_bind].
  destruct (wheel_base_marks n b Hn Eb) as (s0 & Es0 & HB0).
  rewrite Es0. cbn [mbind outcome_bind].
  unfold odd_from_7.
  destruct (wheel_root_loop_ok n Hn (Z.to_nat ((Z.sqrt n - 5) / 2)) 0 s0
              ltac:(lia)) as (s1 & Es1 & HB1).
  { pose proof (Z.div_mod (Z.sqrt n - 5) 2 ltac:(lia)) as Hd.
    pose proof (Z.mod_pos_bound (Z.sqrt n - 5) 2 ltac:(lia)). lia. }
  { exact HB0. }
  rewrite Es1. cbn [mbind outcome_bind].
  set (F := 7 + 2 * (0 + Z.of_nat (Z.to_nat ((Z.sqrt n - 5) / 2)))) in HB1.
  assert (HF : Z.sqrt n < F).
  { unfold F. pose proof (Z.div_mod (Z.sqrt n - 5) 2 ltac:(lia)) as Hd.
    pose proof (Z.mod_pos_bound (Z.sqrt n - 5) 2 ltac:(lia)). lia. }
  destruct (wheel_collect_loop_ok initial_estimate n Hroom' s1 F HB1 HF
              (Z.to_nat ((n - 5) / 2)) 0
              {| capacity := initial_estimate; p_count := 0 + 1 + 1 + 1;
                 p_array := [2; 3; 5]; p_sha256 := replicate 32 0 |}
              ltac:(lia))
    as (obj & Eo & Hc & Hk & HL).
  { pose proof (Z.div_mod (n - 5) 2 ltac:(lia)) as Hd.
    pose proof (Z.mod_pos_bound (n - 5) 2 ltac:(lia)). lia. }
  { split; [reflexivity|]. split; [reflexivity|].
    change (7 + 2 * 0) with (6 + 1). change [2; 3; 5] with (primes_upto 6).
    apply primes_below_of_upto. }
  rewrite Eo. cbn [mbind outcome_bind].
  set (G := 7 + 2 * (0 + Z.of_nat (Z.to_nat ((n - 5) / 2)))) in HL.
  assert (HG : Z.max n 5 < G <= Z.max n 5 + 2 /\ G mod 2 = 1).
  { unfold G. split; [|apply (odd_from 7); reflexivity].
    pose proof (Z.div_mod (n - 5) 2 ltac:(lia)) as Hd.
    pose proof (Z.mod_pos_bound (n - 5) 2 ltac:(lia)). lia. }
  destruct HG as [HG Godd].
  assert (Harr : p_array obj = primes_upto (Z.max n 5)).
  { apply (primes_below_exact (Z.max n 5) G); [exact HL | lia |].
    intros p Hp. assert (Ep : p = 2 * (G / 2)).
    { pose proof (Z.div_mod G 2 ltac:(lia)). lia. }
    rewrite Ep. apply even_not_prime.
    pose proof (Z.div_mod G 2 ltac:(lia)). lia. }
  destruct (eratosthenes_result obj (Z.max n 5) Hk Harr)
    as (primes & Er & Hof & Hin & Hcap).
  exists primes. split; [exact Er|]. split; [exact Hof|].
  split; [exact Hin|]. split; [|exact Hcap].
  intros Hlt. rewrite Hof, Z.max_r by lia. reflexivity.
Qed.

Lemma sieve_wheel_correct_witness :
  sieve_wheel 0 4 = Stop NullDereference /\
  exists primes,
    sieve_wheel 3 4 = Done primes /\
    primes_of primes = primes_upto (Z.max 4 5) /\
    (forall p, In p (primes_of primes) <-> Z.prime p /\ p <= Z.max 4 5) /\
    (4 < 5 -> primes_of primes = [2; 3; 5]) /\
    capacity primes = p_count primes.
Proof.
  split.
  - apply (proj1 (sieve_wheel_correct 0 4 ltac:(lia))). lia.
  - apply (proj2 (sieve_wheel_correct 3 4 ltac:(lia)));
      [lia | vm_compute; discriminate].
Defined.
